(** * A relation monitor: entities, typed relations and the report of the
      most-targeted entities

    Shallow embedding of [main.c] (Progetto API 2019) and proofs about its
    five commands, the red-black trees they use, the report and the parser.

    Conventions of the embedding.
    - A C string is a [string]; [strcmp] compares bytes as unsigned values.
    - A pointer to an entity is represented by the [id] of the entity it
      designates (ids are unique in the hash table, see [table_ok]); the
      only field ever read through a tree node is [to->id].
    - A pointer to a tree node is a [cursor]: the sub-tree rooted at the node
      together with the chain of its [->p] ancestors.
    - Singly linked lists ([next] fields) are Rocq lists.
    - [short unsigned int] fields are [Z] values reduced modulo 65536.
    - A run of the C program that would dereference a null pointer, index the
      table out of its bounds or read an argument never written is a
      [Crash]. *)

From Stdlib Require Import ZArith NArith List String Ascii Lia Bool Sorted DecimalString.
From Stdlib Require Import Structures.OrdersEx RelationClasses.
Import ListNotations.

Local Open Scope Z_scope.

(** ** Results of fallible code *)

Inductive fault : Type :=
| Null_pointer
| Out_of_bounds
| Uninitialised.

Inductive result (A : Type) : Type :=
| Ok (a : A)
| Crash (f : fault).

Arguments Ok {A} a.
Arguments Crash {A} f.

Definition bind {A B : Type} (r : result A) (k : A -> result B) : result B :=
  match r with
  | Ok a => k a
  | Crash f => Crash f
  end.

Declare Scope result_scope.
Delimit Scope result_scope with result.
Notation "x <- e ;; k" := (bind e (fun x => k))
  (at level 61, e at next level, right associativity) : result_scope.
Notation "' pat <- e ;; k" := (bind e (fun x => match x with pat => k end))
  (at level 61, pat pattern, e at next level, right associativity) : result_scope.
Local Open Scope result_scope.

(** ** Strings *)

(** [strcmp]: only the sign of the result is used by the program. *)
Definition strcmp (a b : string) : Z :=
  match String_as_OT.compare a b with
  | Eq => 0
  | Lt => -1
  | Gt => 1
  end.

Definition HASH_DIMENSION : Z := 10000.

(** ** Red-black trees *)

Inductive Color : Type := RED | BLACK.

(** [NIL] is the shared sentinel; its colour is always [BLACK]. *)
Inductive node : Type :=
| NIL
| Node (to : string) (color : Color) (left right : node).

(** One step of the [->p] chain: the fields of the parent and the side of
    the parent on which the current node hangs. *)
Inductive frame : Type :=
| Left_of (to : string) (color : Color) (right : node)
| Right_of (to : string) (color : Color) (left : node).

Definition path : Type := list frame.

Definition cursor : Type := (node * path)%type.

Record Tree : Type := {
  root : node;
  size : Z
}.

Definition color_of (x : node) : Color :=
  match x with
  | NIL => BLACK
  | Node _ c _ _ => c
  end.

Definition frame_color (f : frame) : Color :=
  match f with
  | Left_of _ c _ => c
  | Right_of _ c _ => c
  end.

(** [x->color = c] *)
Definition paint (c : Color) (x : node) : node :=
  match x with
  | NIL => NIL
  | Node k _ l r => Node k c l r
  end.

Definition plug (f : frame) (x : node) : node :=
  match f with
  | Left_of k c r => Node k c x r
  | Right_of k c l => Node k c l x
  end.

Definition recolor (c : Color) (f : frame) : frame :=
  match f with
  | Left_of k _ r => Left_of k c r
  | Right_of k _ l => Right_of k c l
  end.

(** The whole tree seen from a node and its chain of ancestors. *)
Fixpoint zip (x : node) (p : path) : node :=
  match p with
  | [] => x
  | f :: p' => zip (plug f x) p'
  end.

Definition is_NIL (x : node) : bool :=
  match x with
  | NIL => true
  | Node _ _ _ _ => false
  end.

Definition init_tree : Tree := {| root := NIL; size := 0 |}.

(** [clear_tree (tree, tree->root, true)]: nothing happens on an empty tree. *)
Definition clear_tree (tree : Tree) : Tree :=
  match root tree with
  | NIL => tree
  | Node _ _ _ _ => {| root := NIL; size := 0 |}
  end.

(** [left_rotate (tree, x)] on the sub-tree rooted at [x]; the caller hangs the
    result where [x] was. A missing right child leads through [NIL->left],
    which is a null pointer. *)
Definition left_rotate (x : node) : result node :=
  match x with
  | Node xk xc a (Node yk yc b c) => Ok (Node yk yc (Node xk xc a b) c)
  | _ => Crash Null_pointer
  end.

Definition right_rotate (x : node) : result node :=
  match x with
  | Node xk xc (Node yk yc a b) c => Ok (Node yk yc a (Node xk xc b c))
  | _ => Crash Null_pointer
  end.

(** [rb_insert_fixup (tree, z)], [z] given with its ancestors; the result is
    the new root. *)
Fixpoint rb_insert_fixup (z : node) (p : path) {struct p} : result node :=
  match p with
  | [] => Ok (paint BLACK z)
  | zp :: above =>
      match frame_color zp with
      | BLACK => Ok (paint BLACK (zip z p))
      | RED =>
          match above with
          | [] => Crash Null_pointer
          | Left_of gk gc y :: rest =>
              match y with
              | Node yk RED yl yr =>
                  (* Case 1 *)
                  rb_insert_fixup
                    (Node gk RED (plug (recolor BLACK zp) z) (Node yk BLACK yl yr))
                    rest
              | _ =>
                  match zp with
                  | Right_of pk _ pl =>
                      (* Case 2, then the next turn of the loop *)
                      t <- left_rotate (Node pk RED pl z) ;;
                      match t with
                      | Node zk RED zl zr =>
                          (* Case 3 *)
                          t' <- right_rotate (Node gk RED (Node zk BLACK zl zr) y) ;;
                          Ok (paint BLACK (zip t' rest))
                      | _ => Ok (paint BLACK (zip (Node gk gc t y) rest))
                      end
                  | Left_of pk _ pr =>
                      (* Case 3 *)
                      t' <- right_rotate (Node gk RED (Node pk BLACK z pr) y) ;;
                      Ok (paint BLACK (zip t' rest))
                  end
              end
          | Right_of gk gc y :: rest =>
              match y with
              | Node yk RED yl yr =>
                  (* Case 1 *)
                  rb_insert_fixup
                    (Node gk RED (Node yk BLACK yl yr) (plug (recolor BLACK zp) z))
                    rest
              | _ =>
                  match zp with
                  | Left_of pk _ pr =>
                      (* Case 2, then the next turn of the loop *)
                      t <- right_rotate (Node pk RED z pr) ;;
                      match t with
                      | Node zk RED zl zr =>
                          (* Case 3 *)
                          t' <- left_rotate (Node gk RED y (Node zk BLACK zl zr)) ;;
                          Ok (paint BLACK (zip t' rest))
                      | _ => Ok (paint BLACK (zip (Node gk gc y t) rest))
                      end
                  | Right_of pk _ pl =>
                      (* Case 3 *)
                      t' <- left_rotate (Node gk RED y (Node pk BLACK pl z)) ;;
                      Ok (paint BLACK (zip t' rest))
                  end
              end
          end
      end
  end.

(** The descent of [rb_insert]: the ancestors of the leaf position where the
    new node goes ([y] is the head of the result). *)
Fixpoint insert_descend (x : node) (p : path) (to : string) : path :=
  match x with
  | NIL => p
  | Node k c l r =>
      if strcmp to k <? 0
      then insert_descend l (Left_of k c r :: p) to
      else insert_descend r (Right_of k c l :: p) to
  end.

Definition USHRT : Z := 65536.

Definition rb_insert (tree : Tree) (to : string) : result Tree :=
  let y := insert_descend (root tree) [] to in
  let z := match y with
           | [] => Node to BLACK NIL NIL
           | _ :: _ => Node to RED NIL NIL
           end in
  r <- rb_insert_fixup z y ;;
  Ok {| root := r; size := (size tree + 1) mod USHRT |}.

(** [tree_search (x, to)]: the node found with its ancestors, or [NIL]. The
    [to == NULL] test of the source is never taken: every caller returns
    before the search when an entity is missing. *)
Fixpoint tree_search_from (x : node) (p : path) (to : string) : cursor :=
  match x with
  | NIL => (NIL, p)
  | Node k c l r =>
      let compare := strcmp to k in
      if compare =? 0 then (x, p)
      else if compare <? 0 then tree_search_from l (Left_of k c r :: p) to
      else tree_search_from r (Right_of k c l :: p) to
  end.

Definition tree_search (x : node) (to : string) : cursor :=
  tree_search_from x [] to.

(** [tree_min (x)], the chain of ancestors growing on top of [p]. *)
Fixpoint tree_min (x : node) (p : path) : result cursor :=
  match x with
  | NIL => Crash Null_pointer
  | Node k c l r =>
      match l with
      | NIL => Ok (x, p)
      | Node _ _ _ _ => tree_min l (Left_of k c r :: p)
      end
  end.

(** The climb of [tree_successor]: [y = x->p; while (y != NIL && x == y->right)]. *)
Fixpoint successor_climb (x : node) (p : path) : cursor :=
  match p with
  | [] => (NIL, [])
  | Left_of k c r :: p' => (Node k c x r, p')
  | Right_of k c l :: p' => successor_climb (Node k c l x) p'
  end.

Definition tree_successor (x : cursor) : result cursor :=
  match fst x with
  | NIL => Crash Null_pointer
  | Node k c l r =>
      match r with
      | NIL => Ok (successor_climb (fst x) (snd x))
      | Node _ _ _ _ => tree_min r (Right_of k c l :: snd x)
      end
  end.

(** The body of the loop of [rb_delete_fixup] when [x == x->p->left], from
    the test of the colours of the children of [w] on; [pk], [pc] are the
    fields of [x->p]. The result is the sub-tree that replaces [x->p] and
    whether the loop goes on from it (case 1) or [x] became the root
    (case 3, possibly after case 2). *)
Definition delete_fixup_left (x : node) (pk : string) (pc : Color) (w : node)
  : result (node * bool) :=
  match w with
  | NIL => Crash Null_pointer
  | Node wk _ wl wr =>
      match color_of wl, color_of wr with
      | BLACK, BLACK => Ok (Node pk pc x (Node wk RED wl wr), true)
      | _, BLACK =>
          w' <- right_rotate (Node wk RED (paint BLACK wl) wr) ;;
          match w' with
          | Node wk' _ wl' wr' =>
              t <- left_rotate (Node pk BLACK x (Node wk' pc wl' (paint BLACK wr'))) ;;
              Ok (t, false)
          | NIL => Crash Null_pointer
          end
      | _, RED =>
          t <- left_rotate (Node pk BLACK x (Node wk pc wl (paint BLACK wr))) ;;
          Ok (t, false)
      end
  end.

Definition delete_fixup_right (x : node) (pk : string) (pc : Color) (w : node)
  : result (node * bool) :=
  match w with
  | NIL => Crash Null_pointer
  | Node wk _ wl wr =>
      match color_of wr, color_of wl with
      | BLACK, BLACK => Ok (Node pk pc (Node wk RED wl wr) x, true)
      | _, BLACK =>
          w' <- left_rotate (Node wk RED wl (paint BLACK wr)) ;;
          match w' with
          | Node wk' _ wl' wr' =>
              t <- right_rotate (Node pk BLACK (Node wk' pc (paint BLACK wl') wr') x) ;;
              Ok (t, false)
          | NIL => Crash Null_pointer
          end
      | _, RED =>
          t <- right_rotate (Node pk BLACK (Node wk pc (paint BLACK wl) wr) x) ;;
          Ok (t, false)
      end
  end.

(** [rb_delete_fixup (tree, x)]; [x] may be the sentinel, whose [->p] was set
    by [rb_delete]. The result is the new root. *)
Fixpoint rb_delete_fixup (x : node) (p : path) {struct p} : result node :=
  match p with
  | [] => Ok (paint BLACK x)
  | f :: rest =>
      match color_of x with
      | RED => Ok (zip (paint BLACK x) p)
      | BLACK =>
          match f with
          | Left_of pk pc w =>
              match w with
              | Node wk RED wl wr =>
                  (* w is red: it is rotated above x->p, which turns red *)
                  '(t, up) <- delete_fixup_left x pk RED wl ;;
                  let above := Left_of wk BLACK wr :: rest in
                  if (up : bool) then Ok (zip (paint BLACK t) above)
                  else Ok (paint BLACK (zip t above))
              | _ =>
                  '(t, up) <- delete_fixup_left x pk pc w ;;
                  if (up : bool) then rb_delete_fixup t rest
                  else Ok (paint BLACK (zip t rest))
              end
          | Right_of pk pc w =>
              match w with
              | Node wk RED wl wr =>
                  '(t, up) <- delete_fixup_right x pk RED wr ;;
                  let above := Right_of wk BLACK wl :: rest in
                  if (up : bool) then Ok (zip (paint BLACK t) above)
                  else Ok (paint BLACK (zip t above))
              | _ =>
                  '(t, up) <- delete_fixup_right x pk pc w ;;
                  if (up : bool) then rb_delete_fixup t rest
                  else Ok (paint BLACK (zip t rest))
              end
          end
      end
  end.

(** The end of [rb_delete]: [x] takes the place of the removed node [y], of
    colour [yc]; [px] is the chain of ancestors that [x] inherits. *)
Definition rb_delete_splice (tree : Tree) (x : node) (px : path) (yc : Color)
  : result Tree :=
  r <- match yc with
       | BLACK => rb_delete_fixup x px
       | RED => Ok (zip x px)
       end ;;
  Ok {| root := r; size := (size tree - 1) mod USHRT |}.

(** [rb_delete (tree, z)]. When [z] has two children, [y = tree_successor (z)]
    is [tree_min (z->right)]; its key moves into [z], which is then the lowest
    ancestor of [x] outside [z->right]. *)
Definition rb_delete (tree : Tree) (z : cursor) : result Tree :=
  match fst z with
  | NIL => Crash Null_pointer
  | Node zk zc zl zr =>
      if is_NIL zl || is_NIL zr then
        rb_delete_splice tree (if is_NIL zl then zr else zl) (snd z) zc
      else
        '(y, py) <- tree_min zr [] ;;
        match y with
        | NIL => Crash Null_pointer
        | Node yk yc yl yr =>
            rb_delete_splice tree (if is_NIL yl then yr else yl)
              (py ++ Right_of yk zc zl :: snd z) yc
        end
  end.

(** In-order traversal, the order of [print_relation_tree]. *)
Fixpoint elements (x : node) : list string :=
  match x with
  | NIL => []
  | Node k _ l r => elements l ++ k :: elements r
  end.



(** ** Lists of relation types *)

(** A node of a list: the relation type, its tree and, in the global list
    only, the greatest number of relations of that type into one entity. *)
Record list_t : Type := {
  key : string;
  tree : Tree;
  current_maximum : Z
}.

Definition List : Type := list list_t.

(** A node as [list_insert] and [list_insert_unordered] initialise it. *)
Definition new_list_t (k : string) : list_t :=
  {| key := k; tree := init_tree; current_maximum := 0 |}.

Definition with_tree (n : list_t) (t : Tree) : list_t :=
  {| key := key n; tree := t; current_maximum := current_maximum n |}.

Definition init_list : List := [].

Fixpoint list_search (list : List) (k : string) : option list_t :=
  match list with
  | [] => None
  | cursor :: next =>
      if strcmp (key cursor) k =? 0 then Some cursor else list_search next k
  end.

(** A write through the pointer that [list_search] returned. *)
Fixpoint list_store (list : List) (k : string) (n : list_t) : List :=
  match list with
  | [] => []
  | cursor :: next =>
      if strcmp (key cursor) k =? 0 then n :: next
      else cursor :: list_store next k n
  end.

Definition list_insert_unordered (list : List) (k : string) : List :=
  new_list_t k :: list.

Fixpoint list_insert (list : List) (k : string) : List :=
  match list with
  | [] => [new_list_t k]
  | cursor :: next =>
      if strcmp (key cursor) k <? 0 then cursor :: list_insert next k
      else new_list_t k :: list
  end.

(** [list_delete] follows [->next] until the key is found; without the key
    it runs into the end of the list. *)
Fixpoint list_delete (list : List) (k : string) : result List :=
  match list with
  | [] => Crash Null_pointer
  | cursor :: next =>
      if strcmp (key cursor) k =? 0 then Ok next
      else next' <- list_delete next k ;; Ok (cursor :: next')
  end.

(** ** The hash table of the entities *)

Record entity_t : Type := {
  id : string;
  rel_list : List
}.

(** [table[i]] is the chain of the entities whose id hashes to [i]. *)
Definition HashTable : Type := list (list entity_t).

Definition init_table : HashTable := repeat [] (Z.to_nat HASH_DIMENSION).

(** [char] is signed, [int] has 32 bits and [long] 64. *)
Definition char_value (c : ascii) : Z :=
  let n := Z.of_N (N_of_ascii c) in
  if n <? 128 then n else n - 256.

Definition wrap_int (z : Z) : Z :=
  if (- 2147483648 <=? z) && (z <? 2147483648) then z
  else (z + 2147483648) mod 4294967296 - 2147483648.

Definition wrap_long (z : Z) : Z :=
  if (- 9223372036854775808 <=? z) && (z <? 9223372036854775808) then z
  else (z + 9223372036854775808) mod 18446744073709551616
       - 9223372036854775808.

Definition shift_char_value (c : Z) : Z :=
  if c =? 45 then 1
  else if c =? 95 then 2
  else if (65 <=? c) && (c <=? 90) then c - 62
  else if (97 <=? c) && (c <=? 122) then c - 68
  else c.

(** The loop of [hash_string] from index [i] on, [to_hash] being the rest of
    the string. *)
Fixpoint hash_loop (length : Z) (to_hash : string) (i : Z) (hash : Z) : Z :=
  match to_hash with
  | EmptyString => hash
  | String c rest =>
      if i <? length then
        hash_loop length rest (i + 1)
          (wrap_long
             (hash + wrap_int (wrap_int (i * i) * shift_char_value (char_value c))))
      else hash
  end.

Definition hash_string (to_hash : string) : Z :=
  let length := wrap_int (Z.of_nat (String.length to_hash)) in
  Z.rem (hash_loop length to_hash 0 0) HASH_DIMENSION.

Definition table_get (ht : HashTable) (index : Z) : result (list entity_t) :=
  if index <? 0 then Crash Out_of_bounds
  else match nth_error ht (Z.to_nat index) with
       | Some head => Ok head
       | None => Crash Out_of_bounds
       end.

Fixpoint table_set (ht : HashTable) (index : nat) (head : list entity_t)
  : HashTable :=
  match ht, index with
  | [], _ => []
  | _ :: rest, O => head :: rest
  | b :: rest, S i => b :: table_set rest i head
  end.

Fixpoint chain_search (cursor : list entity_t) (to_hash : string)
  : option entity_t :=
  match cursor with
  | [] => None
  | e :: next =>
      if strcmp (id e) to_hash =? 0 then Some e else chain_search next to_hash
  end.

Definition hash_search (ht : HashTable) (to_hash : string)
  : result (option entity_t) :=
  head <- table_get ht (hash_string to_hash) ;;
  Ok (chain_search head to_hash).

Definition hash_insert (ht : HashTable) (to_hash : string) : result HashTable :=
  let index := hash_string to_hash in
  head <- table_get ht index ;;
  Ok (table_set ht (Z.to_nat index) ({| id := to_hash; rel_list := init_list |} :: head)).

Fixpoint chain_delete (cursor : list entity_t) (to_hash : string)
  : list entity_t :=
  match cursor with
  | [] => []
  | e :: next =>
      if strcmp (id e) to_hash =? 0 then next
      else e :: chain_delete next to_hash
  end.

Definition hash_delete (ht : HashTable) (to_hash : string) : result HashTable :=
  let index := hash_string to_hash in
  head <- table_get ht index ;;
  Ok (table_set ht (Z.to_nat index) (chain_delete head to_hash)).

(** A write through a pointer to an entity: the record of the entity with
    that id, in its chain, gets a new relation list. *)
Fixpoint chain_store (cursor : list entity_t) (e : entity_t) : list entity_t :=
  match cursor with
  | [] => []
  | c :: next =>
      if strcmp (id c) (id e) =? 0 then e :: next
      else c :: chain_store next e
  end.

Definition entity_store (ht : HashTable) (e : entity_t) : HashTable :=
  let index := Z.to_nat (hash_string (id e)) in
  table_set ht index (chain_store (nth index ht []) e).

Definition with_rel_list (e : entity_t) (l : List) : entity_t :=
  {| id := id e; rel_list := l |}.

(** ** The commands *)

Record State : Type := {
  ENTITIES : HashTable;
  RELATION_TYPES : List
}.

Definition init_state : State :=
  {| ENTITIES := init_table; RELATION_TYPES := init_list |}.

Definition addent (ident : string) (s : State) : result State :=
  search <- hash_search (ENTITIES s) ident ;;
  match search with
  | None =>
      ht <- hash_insert (ENTITIES s) ident ;;
      Ok {| ENTITIES := ht; RELATION_TYPES := RELATION_TYPES s |}
  | Some _ => Ok s
  end.

(** The body of the loops of [restore_data_maximum] for one entity;
    [data_list] holds the fields of the node being restored. *)
Definition restore_entity (type : string) (data_list : list_t)
  (ent_cursor : entity_t) : result list_t :=
  match list_search (rel_list ent_cursor) type with
  | Some rel =>
      if (size (tree rel) >? 0)
         && (size (tree rel) =? current_maximum data_list) then
        t <- rb_insert (tree data_list) (id ent_cursor) ;;
        Ok (with_tree data_list t)
      else if size (tree rel) >? current_maximum data_list then
        t <- rb_insert (clear_tree (tree data_list)) (id ent_cursor) ;;
        Ok {| key := key data_list; tree := t;
              current_maximum := size (tree rel) |}
      else Ok data_list
  | None => Ok data_list
  end.

Fixpoint restore_chain (type : string) (data_list : list_t)
  (ent_cursor : list entity_t) : result list_t :=
  match ent_cursor with
  | [] => Ok data_list
  | e :: next =>
      d <- restore_entity type data_list e ;;
      restore_chain type d next
  end.

Fixpoint restore_table (type : string) (data_list : list_t)
  (table : HashTable) : result list_t :=
  match table with
  | [] => Ok data_list
  | head :: rest =>
      d <- restore_chain type data_list head ;;
      restore_table type d rest
  end.

(** [restore_data_maximum (data_list, type)]; [data_list] is a node of
    [RELATION_TYPES], given by its current fields, and is written back under
    its key. *)
Definition restore_data_maximum (data_list : list_t) (type : string)
  (s : State) : result State :=
  d <- restore_table type
         {| key := key data_list; tree := tree data_list; current_maximum := 0 |}
         (ENTITIES s) ;;
  if current_maximum d =? 0 then
    types <- list_delete (RELATION_TYPES s) type ;;
    Ok {| ENTITIES := ENTITIES s; RELATION_TYPES := types |}
  else
    Ok {| ENTITIES := ENTITIES s;
          RELATION_TYPES := list_store (RELATION_TYPES s) (key data_list) d |}.

Definition addrel (from to type : string) (s : State) : result State :=
  from_entity <- hash_search (ENTITIES s) from ;;
  to_entity <- hash_search (ENTITIES s) to ;;
  match from_entity, to_entity with
  | Some from_entity, Some to_entity =>
      let '(types, data_list) :=
        match list_search (RELATION_TYPES s) type with
        | Some d => (RELATION_TYPES s, d)
        | None => (list_insert (RELATION_TYPES s) type, new_list_t type)
        end in
      let '(rels, rel) :=
        match list_search (rel_list to_entity) type with
        | Some r => (rel_list to_entity, r)
        | None =>
            (list_insert_unordered (rel_list to_entity) type, new_list_t type)
        end in
      rel_tree <-
        (if is_NIL (fst (tree_search (root (tree rel)) (id from_entity)))
         then rb_insert (tree rel) (id from_entity)
         else Ok (tree rel)) ;;
      data_list' <-
        (if size rel_tree =? current_maximum data_list then
           if is_NIL (fst (tree_search (root (tree data_list)) (id to_entity)))
           then t <- rb_insert (tree data_list) (id to_entity) ;;
                Ok (with_tree data_list t)
           else Ok data_list
         else if size rel_tree >? current_maximum data_list then
           t <- rb_insert (clear_tree (tree data_list)) (id to_entity) ;;
           Ok {| key := key data_list; tree := t;
                 current_maximum := size rel_tree |}
         else Ok data_list) ;;
      Ok {| ENTITIES :=
              entity_store (ENTITIES s)
                (with_rel_list to_entity
                   (list_store rels type (with_tree rel rel_tree)));
            RELATION_TYPES := list_store types type data_list' |}
  | _, _ => Ok s
  end.

Definition delrel (from to type : string) (s : State) : result State :=
  from_entity <- hash_search (ENTITIES s) from ;;
  to_entity <- hash_search (ENTITIES s) to ;;
  match from_entity, to_entity with
  | Some from_entity, Some to_entity =>
      match list_search (RELATION_TYPES s) type with
      | None => Ok s
      | Some data_list =>
          match list_search (rel_list to_entity) type with
          | None => Ok s
          | Some rel =>
              let to_delete := tree_search (root (tree rel)) (id from_entity) in
              if is_NIL (fst to_delete) then Ok s
              else
                rel_tree <- rb_delete (tree rel) to_delete ;;
                let s1 :=
                  {| ENTITIES :=
                       entity_store (ENTITIES s)
                         (with_rel_list to_entity
                            (list_store (rel_list to_entity) type
                               (with_tree rel rel_tree)));
                     RELATION_TYPES := RELATION_TYPES s |} in
                if size rel_tree + 1 =? current_maximum data_list then
                  if size (tree data_list) >? 1 then
                    t <- rb_delete (tree data_list)
                           (tree_search (root (tree data_list)) (id to_entity)) ;;
                    Ok {| ENTITIES := ENTITIES s1;
                          RELATION_TYPES :=
                            list_store (RELATION_TYPES s) type
                              (with_tree data_list t) |}
                  else restore_data_maximum data_list type s1
                else Ok s1
          end
      end
  | _, _ => Ok s
  end.

(** The body of the inner loop of [delent] for one entity: the new record of
    the entity and the new fields of [rel_cursor]. [search] is the id of the
    entity being deleted, so that [ent_cursor == search] compares ids. *)
Definition delent_entity (search : string) (rel_cursor : list_t)
  (ent_cursor : entity_t) : result (entity_t * list_t) :=
  match list_search (rel_list ent_cursor) (key rel_cursor) with
  | None => Ok (ent_cursor, rel_cursor)
  | Some list =>
      if String.eqb (id ent_cursor) search then
        let ent :=
          with_rel_list ent_cursor
            (list_store (rel_list ent_cursor) (key rel_cursor)
               (with_tree list (clear_tree (tree list)))) in
        let deletion := tree_search (root (tree rel_cursor)) (id ent_cursor) in
        if is_NIL (fst deletion) then Ok (ent, rel_cursor)
        else t <- rb_delete (tree rel_cursor) deletion ;;
             Ok (ent, with_tree rel_cursor t)
      else
        let deletion := tree_search (root (tree list)) search in
        if is_NIL (fst deletion) then Ok (ent_cursor, rel_cursor)
        else t <- rb_delete (tree list) deletion ;;
             Ok (with_rel_list ent_cursor
                   (list_store (rel_list ent_cursor) (key rel_cursor)
                      (with_tree list t)),
                 rel_cursor)
  end.

Fixpoint delent_chain (search : string) (rel_cursor : list_t)
  (ent_cursor : list entity_t) : result (list entity_t * list_t) :=
  match ent_cursor with
  | [] => Ok ([], rel_cursor)
  | e :: next =>
      '(e', rc) <- delent_entity search rel_cursor e ;;
      '(next', rc') <- delent_chain search rc next ;;
      Ok (e' :: next', rc')
  end.

Fixpoint delent_table (search : string) (rel_cursor : list_t)
  (table : HashTable) : result (HashTable * list_t) :=
  match table with
  | [] => Ok ([], rel_cursor)
  | head :: rest =>
      '(head', rc) <- delent_chain search rel_cursor head ;;
      '(rest', rc') <- delent_table search rc rest ;;
      Ok (head' :: rest', rc')
  end.

(** The outer loop of [delent] over the nodes of [RELATION_TYPES] from
    [rel_cursor] on; a turn of the loop writes to no node but its own. *)
Fixpoint delent_types (search : string) (rel_cursor : List) (s : State)
  : result State :=
  match rel_cursor with
  | [] => Ok s
  | cursor :: next =>
      '(table, cursor') <- delent_table search cursor (ENTITIES s) ;;
      s' <- restore_data_maximum cursor' (key cursor)
              {| ENTITIES := table; RELATION_TYPES := RELATION_TYPES s |} ;;
      delent_types search next s'
  end.

Definition delent (ident : string) (s : State) : result State :=
  search <- hash_search (ENTITIES s) ident ;;
  match search with
  | None => Ok s
  | Some search =>
      s' <- delent_types (id search) (RELATION_TYPES s) s ;;
      ht <- hash_delete (ENTITIES s') ident ;;
      Ok {| ENTITIES := ht; RELATION_TYPES := RELATION_TYPES s' |}
  end.

(** ** The report *)

Definition quote : ascii := "034"%char.
Definition newline : ascii := "010"%char.
Definition space : ascii := " "%char.

(** [print_string]: the string between double quotes, then a space. *)
Definition print_string (s : string) : string :=
  String quote (s ++ String quote (String space EmptyString))%string.

Fixpoint print_relation_tree (x : node) : string :=
  match x with
  | NIL => EmptyString
  | Node to _ l r =>
      (print_relation_tree l ++ print_string to ++ print_relation_tree r)%string
  end.

(** [printf ("%d", n)] *)
Definition decimal (n : Z) : string :=
  DecimalString.NilZero.string_of_int (Z.to_int n).

Fixpoint report_types (rel_cursor : List) : string :=
  match rel_cursor with
  | [] => EmptyString
  | cursor :: next =>
      (print_string (key cursor)
       ++ print_relation_tree (root (tree cursor))
       ++ decimal (current_maximum cursor) ++ "; "
       ++ report_types next)%string
  end.

(** What [report] writes to the standard output. *)
Definition report (s : State) : string :=
  (match RELATION_TYPES s with
   | [] => "none"
   | _ :: _ => report_types (RELATION_TYPES s)
   end ++ String newline EmptyString)%string.

(** ** Reading the commands *)

(** A command: the code that [process_arguments] returns, the new state and
    what was written. An argument that no line has written yet cannot be
    read. *)
Definition read_argument (a : option string) : result string :=
  match a with
  | Some s => Ok s
  | None => Crash Uninitialised
  end.

Definition process_arguments (command arg1 arg2 arg3 : option string)
  (s : State) : result (Z * State * string) :=
  command <- read_argument command ;;
  if strcmp command "addent" =? 0 then
    arg1 <- read_argument arg1 ;;
    s' <- addent arg1 s ;; Ok (0, s', EmptyString)
  else if strcmp command "delent" =? 0 then
    arg1 <- read_argument arg1 ;;
    s' <- delent arg1 s ;; Ok (1, s', EmptyString)
  else if strcmp command "addrel" =? 0 then
    arg1 <- read_argument arg1 ;;
    arg2 <- read_argument arg2 ;;
    arg3 <- read_argument arg3 ;;
    s' <- addrel arg1 arg2 arg3 s ;; Ok (2, s', EmptyString)
  else if strcmp command "delrel" =? 0 then
    arg1 <- read_argument arg1 ;;
    arg2 <- read_argument arg2 ;;
    arg3 <- read_argument arg3 ;;
    s' <- delrel arg1 arg2 arg3 s ;; Ok (3, s', EmptyString)
  else if strcmp command "report" =? 0 then Ok (4, s, report s)
  else if strcmp command "end" =? 0 then Ok (-1, s, EmptyString)
  else Ok (-1, s, EmptyString).

(** The bytes of a buffer up to the first zero byte. *)
Fixpoint c_string (bytes : string) : string :=
  match bytes with
  | EmptyString => EmptyString
  | String c rest =>
      if Ascii.eqb c zero then EmptyString else String c (c_string rest)
  end.

(** How [process_input] ends: it returns, it writes outside
    [arguments[4][100]], or a command crashes. *)
Inductive run : Type :=
| Returned (s : State) (out : string)
| Overrun
| Crashed (f : fault).

Definition in_buffers (arg_count char_count : nat) : bool :=
  (arg_count <? 4)%nat && (char_count <? 100)%nat.

Fixpoint set_argument (arguments : list (option string)) (arg_count : nat)
  (s : string) : list (option string) :=
  match arguments, arg_count with
  | [], _ => []
  | _ :: rest, O => Some s :: rest
  | a :: rest, S n => a :: set_argument rest n s
  end.

(** [process_input]: [input] is what is left to read, [arguments] the
    strings that the four buffers hold, [token] the bytes written so far into
    [arguments[arg_count]] ([char_count] is their number), [out] the output so
    far. The end of [input] is the end of the file; the byte 255, stored in a
    [char], equals [EOF] as well. *)
Fixpoint process_input (input : string) (arguments : list (option string))
  (arg_count : nat) (token : string) (s : State) (out : string) : run :=
  match input with
  | EmptyString => Returned s out
  | String current_char input' =>
      if char_value current_char =? -1 then Returned s out
      else if Ascii.eqb current_char space || Ascii.eqb current_char newline then
        if in_buffers arg_count (String.length token) then
          let arguments' := set_argument arguments arg_count (c_string token) in
          if Ascii.eqb current_char newline then
            match process_arguments (nth 0 arguments' None) (nth 1 arguments' None)
                    (nth 2 arguments' None) (nth 3 arguments' None) s with
            | Crash f => Crashed f
            | Ok (code, s', written) =>
                if code =? -1 then Returned s' (out ++ written)%string
                else process_input input' arguments' 0 EmptyString s'
                       (out ++ written)%string
            end
          else process_input input' arguments' (S arg_count) EmptyString s out
        else Overrun
      else if negb (Ascii.eqb current_char quote) then
        if in_buffers arg_count (String.length token) then
          process_input input' arguments arg_count
            (token ++ String current_char EmptyString)%string s out
        else Overrun
      else process_input input' arguments arg_count token s out
  end.

(** [main]: the exit code and the output, when the run comes to its end. *)
Definition main (input : string) : option (Z * string) :=
  match process_input input [None; None; None; None] 0 EmptyString
          init_state EmptyString with
  | Returned _ out => Some (0, out)
  | _ => None
  end.

(** ** Specification of the trees *)

(** The order of [strcmp]. *)
Definition slt (a b : string) : Prop := String_as_OT.compare a b = Lt.

Definition sorted (l : list string) : Prop := StronglySorted slt l.

(** Keys before and after the position a chain of ancestors leads to. *)
Fixpoint before (p : path) : list string :=
  match p with
  | [] => []
  | Left_of _ _ _ :: p' => before p'
  | Right_of k _ l :: p' => before p' ++ elements l ++ [k]
  end.

Fixpoint after (p : path) : list string :=
  match p with
  | [] => []
  | Left_of k _ r :: p' => k :: elements r ++ after p'
  | Right_of _ _ _ :: p' => after p'
  end.

Definition black_inc (c : Color) (h : nat) : nat :=
  match c with
  | BLACK => S h
  | RED => h
  end.

(** Black height, read along the left spine. *)
Fixpoint bh (x : node) : nat :=
  match x with
  | NIL => O
  | Node _ c l _ => black_inc c (bh l)
  end.

(** The red-black properties of a sub-tree: equal black heights and no red
    node with a red child. *)
Fixpoint rb (x : node) : Prop :=
  match x with
  | NIL => True
  | Node _ c l r =>
      rb l /\ rb r /\ bh l = bh r /\
      (c = RED -> color_of l = BLACK /\ color_of r = BLACK)
  end.

(** The red-black properties of the rest of the tree around a position that
    takes a sub-tree of black height [h] with a root of colour [c]; the root
    of the whole tree is black. *)
Fixpoint rb_path (p : path) (h : nat) (c : Color) : Prop :=
  match p with
  | [] => c = BLACK
  | Left_of _ pc s :: p' | Right_of _ pc s :: p' =>
      rb s /\ bh s = h /\
      (pc = RED -> c = BLACK /\ color_of s = BLACK) /\
      rb_path p' (black_inc pc h) pc
  end.

Definition members (t : Tree) : list string := elements (root t).

(** A well-formed tree: red-black, a search tree for [strcmp], and [size]
    counts its nodes without wrapping around. *)
Definition tree_ok (t : Tree) : Prop :=
  rb (root t) /\ color_of (root t) = BLACK /\
  sorted (members t) /\
  size t = Z.of_nat (List.length (members t)) /\ size t < USHRT.

(** ** Specification of the state *)

(** The live entities, in the order in which the table is scanned. *)
Definition entities (s : State) : list entity_t := List.concat (ENTITIES s).

Definition ids (s : State) : list string := map id (entities s).

(** The sources of the relations of a type into an entity, in ascending
    order, and the size field of that tree. *)
Definition in_neighbors_of (e : entity_t) (type : string) : list string :=
  match list_search (rel_list e) type with
  | Some r => members (tree r)
  | None => []
  end.

Definition degree_of (e : entity_t) (type : string) : Z :=
  match list_search (rel_list e) type with
  | Some r => size (tree r)
  | None => 0
  end.

Definition in_neighbors (s : State) (to type : string) : list string :=
  match chain_search (entities s) to with
  | Some e => in_neighbors_of e type
  | None => []
  end.

(** The relation [(from, to, type)] is present. *)
Definition related (s : State) (from to type : string) : Prop :=
  In from (in_neighbors s to type).

Definition descriptor (s : State) (type : string) : option list_t :=
  list_search (RELATION_TYPES s) type.

Definition leaders (d : list_t) : list string := members (tree d).

Definition table_ok (ht : HashTable) : Prop :=
  List.length ht = Z.to_nat HASH_DIMENSION /\
  (forall i head e, nth_error ht i = Some head -> In e head ->
                    hash_string (id e) = Z.of_nat i) /\
  NoDup (map id (List.concat ht)).

(** The trees of an entity are well formed and hold live entities only. *)
Definition entity_ok (live : list string) (e : entity_t) : Prop :=
  forall t r, list_search (rel_list e) t = Some r ->
              tree_ok (tree r) /\ incl (members (tree r)) live.

(** A node of [RELATION_TYPES] agrees with the trees of the entities [es]:
    [current_maximum] is the greatest size, it is reached, and the tree holds
    the entities that reach it. *)
Definition descriptor_ok (es : list entity_t) (d : list_t) : Prop :=
  tree_ok (tree d) /\
  1 <= current_maximum d /\
  (forall e, In e es -> degree_of e (key d) <= current_maximum d) /\
  (exists e, In e es /\ degree_of e (key d) = current_maximum d) /\
  (forall x, In x (leaders d) <->
             exists e, In e es /\ id e = x /\
                       degree_of e (key d) = current_maximum d).

(** The invariant of the state between two commands. *)
Definition inv (s : State) : Prop :=
  table_ok (ENTITIES s) /\
  Forall (entity_ok (ids s)) (entities s) /\
  sorted (map key (RELATION_TYPES s)) /\
  Forall (descriptor_ok (entities s)) (RELATION_TYPES s) /\
  (forall t e, list_search (RELATION_TYPES s) t = None ->
               In e (entities s) -> degree_of e t = 0).

(** The sizes and maxima are 16-bit fields: the state is within capacity when
    it holds fewer than 65536 entities. *)
Definition capacity (s : State) : Prop :=
  Z.of_nat (List.length (entities s)) < USHRT.

Inductive command : Type :=
| Addent (ident : string)
| Delent (ident : string)
| Addrel (from to type : string)
| Delrel (from to type : string)
| Report.

Definition exec (c : command) (s : State) : result State :=
  match c with
  | Addent ident => addent ident s
  | Delent ident => delent ident s
  | Addrel from to type => addrel from to type s
  | Delrel from to type => delrel from to type s
  | Report => Ok s
  end.

Fixpoint run_commands (cs : list command) (s : State) : result State :=
  match cs with
  | [] => Ok s
  | c :: rest => s' <- exec c s ;; run_commands rest s'
  end.

(** The states that the commands reach from the initial one. *)
Inductive reachable : State -> Prop :=
| reachable_init : reachable init_state
| reachable_step (s s' : State) (c : command) :
    reachable s -> exec c s = Ok s' -> reachable s'.

(** The states reached without ever running a command on a state that holds
    65536 entities or more. *)
Inductive reachable_in_capacity : State -> Prop :=
| in_capacity_init : reachable_in_capacity init_state
| in_capacity_step (s s' : State) (c : command) :
    reachable_in_capacity s -> capacity s -> exec c s = Ok s' ->
    reachable_in_capacity s'.

(** The invariant but for the node of one relation type, as it is while that
    node is being recomputed. *)
Definition inv_but (type : string) (s : State) : Prop :=
  table_ok (ENTITIES s) /\
  Forall (entity_ok (ids s)) (entities s) /\
  sorted (map key (RELATION_TYPES s)) /\
  (forall d, In d (RELATION_TYPES s) -> key d <> type ->
             descriptor_ok (entities s) d) /\
  (forall t e, t <> type -> list_search (RELATION_TYPES s) t = None ->
               In e (entities s) -> degree_of e t = 0).

(** The maximum and the leaders that a relation type has, none when it has
    no node. *)
Definition max_of (d : option list_t) : Z :=
  match d with
  | Some n => current_maximum n
  | None => 0
  end.

Definition leaders_of (d : option list_t) : list string :=
  match d with
  | Some n => leaders n
  | None => []
  end.

(** What the sweep of [delent] for one relation type does to an entity:
    the relations of that type from the deleted entity [search] or into it
    are gone, the other types are untouched. *)
Definition purged (search type : string) (e e' : entity_t) : Prop :=
  id e' = id e /\
  (forall t, t <> type ->
             list_search (rel_list e') t = list_search (rel_list e) t) /\
  (forall r, list_search (rel_list e') type = Some r -> tree_ok (tree r)) /\
  (forall y, In y (in_neighbors_of e' type) <->
             In y (in_neighbors_of e type) /\ y <> search /\ id e <> search).

(** The same for the relation types [ts], swept one after the other. *)
Definition purged_in (search : string) (ts : list string) (e e' : entity_t)
  : Prop :=
  id e' = id e /\
  (forall t, ~ In t ts ->
             list_search (rel_list e') t = list_search (rel_list e) t) /\
  (forall t y, In t ts ->
     (In y (in_neighbors_of e' t) <->
      In y (in_neighbors_of e t) /\ y <> search /\ id e <> search)).

(** What [delent] does to an entity that stays. *)
Definition without (search : string) (e e' : entity_t) : Prop :=
  id e' = id e /\
  forall t y, In y (in_neighbors_of e' t) <->
              In y (in_neighbors_of e t) /\ y <> search.

(** ** The relations of a state *)

Definition live (s : State) (x : string) : Prop := In x (ids s).

(** The number of relations of a type into an entity. *)
Definition in_degree (s : State) (to type : string) : Z :=
  Z.of_nat (List.length (in_neighbors s to type)).

(** Two states with the same entities and the same relations. *)
Definition same_relations (s1 s2 : State) : Prop :=
  (forall x, live s1 x <-> live s2 x) /\
  (forall from to type, related s1 from to type <-> related s2 from to type).

(** What a command does to the entities and the relations. *)
Definition effect (c : command) (s s' : State) : Prop :=
  match c with
  | Addent x =>
      (forall y, live s' y <-> y = x \/ live s y) /\
      (forall f z t, related s' f z t <-> related s f z t)
  | Delent x =>
      (forall y, live s' y <-> live s y /\ y <> x) /\
      (forall f z t, related s' f z t <-> related s f z t /\ f <> x /\ z <> x)
  | Addrel from to type =>
      (forall y, live s' y <-> live s y) /\
      (forall f z t,
         related s' f z t <->
         related s f z t \/
         (f = from /\ z = to /\ t = type /\ live s from /\ live s to))
  | Delrel from to type =>
      (forall y, live s' y <-> live s y) /\
      (forall f z t,
         related s' f z t <->
         related s f z t /\ ~ (f = from /\ z = to /\ t = type))
  | Report =>
      (forall y, live s' y <-> live s y) /\
      (forall f z t, related s' f z t <-> related s f z t)
  end.

(** The ids that a command looks up in the hash table hash to a bucket. *)
Definition hashes_ok (c : command) : Prop :=
  match c with
  | Addent x | Delent x => 0 <= hash_string x
  | Addrel from to _ | Delrel from to _ =>
      0 <= hash_string from /\ 0 <= hash_string to
  | Report => True
  end.

(** Runs of commands, each started within capacity. *)
Inductive runs : State -> list command -> State -> Prop :=
| runs_nil (s : State) : runs s [] s
| runs_cons (s s' s'' : State) (c : command) (cs : list command) :
    capacity s -> exec c s = Ok s' -> runs s' cs s'' -> runs s (c :: cs) s''.

(** ** The report as the specification words it *)

(** A string between double quotes. *)
Definition quoted (s : string) : string :=
  (String quote s ++ String quote EmptyString)%string.

(** One relation type: its quoted name, the quoted ids of its leaders and
    the maximum in decimal followed by a semicolon, separated by single
    spaces; the implementation adds a space after the semicolon. *)
Definition report_entry (entry : string * list string * Z) : string :=
  let '(name, leading, maximum) := entry in
  (String.concat " "
     (quoted name :: map quoted leading ++ [decimal maximum ++ ";"]) ++ " ")%string.

(** The line of the report, without the newline that ends it. *)
Definition report_body (entries : list (string * list string * Z)) : string :=
  match entries with
  | [] => "none"%string
  | _ :: _ => String.concat "" (map report_entry entries)
  end.

Definition report_line (entries : list (string * list string * Z)) : string :=
  (report_body entries ++ String newline EmptyString)%string.

(** Name, leaders in ascending order and maximum of every relation type that
    has a node, in the order of the list. *)
Definition descriptors_view (s : State) : list (string * list string * Z) :=
  map (fun d => (key d, leaders d, current_maximum d)) (RELATION_TYPES s).

(** The strings that a command takes. *)
Definition command_arguments (c : command) : list string :=
  match c with
  | Addent x | Delent x => [x]
  | Addrel from to type | Delrel from to type => [from; to; type]
  | Report => []
  end.

Definition has_newline (s : string) : Prop :=
  In newline (list_ascii_of_string s).

(** ** Executable runs *)

Definition within_capacity (s : State) : bool :=
  Z.of_nat (List.length (entities s)) <? USHRT.

(** A run of commands that stops when a command crashes or starts outside
    capacity. *)
Fixpoint run_within (cs : list command) (s : State) : option State :=
  match cs with
  | [] => Some s
  | c :: rest =>
      if within_capacity s then
        match exec c s with
        | Ok s' => run_within rest s'
        | Crash _ => None
        end
      else None
  end.

(** The maximality and the consistency of the leaders, on the relations of
    the state. *)
Definition leader_consistent (s : State) : Prop :=
  forall t d, descriptor s t = Some d ->
    1 <= current_maximum d /\
    (forall x, live s x -> in_degree s x t <= current_maximum d) /\
    (exists x, live s x /\ in_degree s x t = current_maximum d) /\
    (forall x, In x (leaders d) <->
               live s x /\ in_degree s x t = current_maximum d).

(** ** Well-formedness, whatever the number of entities *)

(** A red-black search tree whose [size] field counts the nodes modulo
    65536. *)
Definition tree_wf (t : Tree) : Prop :=
  rb (root t) /\ color_of (root t) = BLACK /\
  sorted (members t) /\
  size t = Z.of_nat (List.length (members t)) mod USHRT.

(** A node with a well-formed tree of names that satisfy [P]. *)
Definition node_wf (P : string -> Prop) (n : list_t) : Prop :=
  tree_wf (tree n) /\ forall x, In x (members (tree n)) -> P x.

Definition entity_wf (P : string -> Prop) (e : entity_t) : Prop :=
  P (id e) /\
  forall t r, list_search (rel_list e) t = Some r -> node_wf P r.

Definition descriptor_wf (P : string -> Prop) (d : list_t) : Prop :=
  P (key d) /\ node_wf P d /\ 0 <= current_maximum d < USHRT.

(** What every state that the commands reach satisfies; [P] holds of the
    names that the commands were given. *)
Definition well_formed (P : string -> Prop) (s : State) : Prop :=
  table_ok (ENTITIES s) /\
  Forall (entity_wf P) (entities s) /\
  sorted (map key (RELATION_TYPES s)) /\
  Forall (descriptor_wf P) (RELATION_TYPES s).

(** ** Identifiers *)

(** The bytes of the string are below 128. *)
Fixpoint plain (x : string) : bool :=
  match x with
  | EmptyString => true
  | String c rest => (N_of_ascii c <? 128)%N && plain rest
  end.

(** ** Lines of input *)

(** What [process_input] keeps of a token: the double quotes are dropped. *)
Fixpoint unquote (x : string) : string :=
  match x with
  | EmptyString => EmptyString
  | String c rest =>
      if Ascii.eqb c quote then unquote rest else String c (unquote rest)
  end.

(** A token holds no space, no newline and no byte 255, and its bytes other
    than double quotes fit in a buffer of 100 bytes with the final zero. *)
Fixpoint separator_free (x : string) : bool :=
  match x with
  | EmptyString => true
  | String c rest =>
      negb (Ascii.eqb c space) && negb (Ascii.eqb c newline)
      && negb (char_value c =? -1) && separator_free rest
  end.

Definition token_fits (x : string) : bool :=
  separator_free x && (String.length (unquote x) <=? 99)%nat.

(** A line: its tokens, a space between two of them, and a newline. *)
Definition line (tokens : list string) : string :=
  (String.concat " " tokens ++ String newline EmptyString)%string.

(** The buffers after the tokens were read into them from [arg_count] on. *)
Fixpoint store (arguments : list (option string)) (arg_count : nat)
  (tokens : list string) : list (option string) :=
  match tokens with
  | [] => arguments
  | t :: rest =>
      store (set_argument arguments arg_count (c_string (unquote t)))
        (S arg_count) rest
  end.

(** What [process_input] does at the end of a line. *)
Definition dispatch (arguments : list (option string)) (rest : string)
  (s : State) (out : string) : run :=
  match process_arguments (nth 0 arguments None) (nth 1 arguments None)
          (nth 2 arguments None) (nth 3 arguments None) s with
  | Crash f => Crashed f
  | Ok (code, s', written) =>
      if code =? -1 then Returned s' (out ++ written)%string
      else process_input rest arguments 0 EmptyString s' (out ++ written)%string
  end.


(** ** A run beyond capacity *)

(** Names of four letters, [a] to [p]; the first 65536 are distinct. *)
Definition letter (d : Z) : ascii := ascii_of_N (Z.to_N (97 + d)).

Definition name_of (n : nat) : string :=
  let z := Z.of_nat n in
  String (letter (z mod 16))
    (String (letter ((z / 16) mod 16))
       (String (letter ((z / 256) mod 16))
          (String (letter ((z / 4096) mod 16)) EmptyString))).

(** [n] entities, then a relation from each of the first [m] of them into the
    first one. *)
Definition crowd (n : nat) : list command :=
  map (fun i => Addent (name_of i)) (seq 0 n).

Definition fans (m : nat) : list command :=
  map (fun i => Addrel (name_of i) (name_of 0) "r") (seq 0 m).

Definition overflow_commands : list command :=
  (crowd (Z.to_nat USHRT) ++ fans (Z.to_nat USHRT))%list.


(** After the 65536 relations into the first entity, an entity that takes
    part in no relation is added and deleted: [delent] recomputes the maximum
    of the type from the size fields. *)
Definition stale_commands : list command :=
  (overflow_commands ++ [Addent "u"; Delent "u"])%list.

(** Then a 65537th relation into the first entity. *)
Definition wrapped_commands : list command :=
  (stale_commands ++ [Addent "u"; Addrel "u" (name_of 0) "r"])%list.

(** An entity that [delent (search)] leaves as it is and that a
    recomputation passes over: it is not [search], [search] is in none of its
    trees and its size fields are 0. *)
Definition idle (search : string) (e : entity_t) : Prop :=
  forall t r, list_search (rel_list e) t = Some r ->
    id e <> search /\ tree_wf (tree r) /\
    ~ In search (members (tree r)) /\ size (tree r) = 0.

(** ** Small runs *)

(** The state that a list of commands leaves, the initial one when a command
    crashes. *)
Definition state_after (cs : list command) : State :=
  match run_commands cs init_state with
  | Ok s => s
  | Crash _ => init_state
  end.

(** Three entities; [bob] has two relations of type [friend] into it and
    [carol] one. *)
Definition friends : list command :=
  [Addent "alice"; Addent "bob"; Addent "carol";
   Addrel "alice" "bob" "friend"; Addrel "carol" "bob" "friend";
   Addrel "alice" "carol" "friend"].

(** Two entities with one relation into each. *)
Definition pair : list command :=
  [Addent "alice"; Addent "bob"; Addent "carol";
   Addrel "alice" "bob" "friend"; Addrel "alice" "carol" "friend"].

(** One relation. *)
Definition single : list command :=
  [Addent "alice"; Addent "bob"; Addrel "alice" "bob" "friend"].

(** A name of a hundred bytes. *)
Definition long_name : string :=
  string_of_list_ascii (repeat "x"%char 100).

(** ** Auxiliary notions of the proofs *)

(** The buckets of a table whose first bucket has index [off]. *)
Definition buckets_from (off : nat) (ht : HashTable) : Prop :=
  forall i head e, nth_error ht i = Some head -> In e head ->
                   hash_string (id e) = Z.of_nat (off + i).

(** Entities that keep their ids and their degrees for a type keep the
    descriptor of that type valid. *)
Definition same_degrees (t : string) (es es' : list entity_t) : Prop :=
  Forall2 (fun e e' => id e' = id e /\ degree_of e' t = degree_of e t) es es'.

(** The node being restored, after the entities [done], within capacity. *)
Definition restoring (type : string) (done : list entity_t) (d0 d : list_t)
  : Prop :=
  (d = d0 /\ forall e, In e done -> degree_of e type <= 0)
  \/ descriptor_ok done d.

(** The node being restored, after the entities [done]: its tree is the old
    one as long as the maximum is zero, a tree of entities of [done] once it
    has been cleared. *)
Definition restoring_wf (P : string -> Prop) (d0 : list_t)
  (done : list entity_t) (d : list_t) : Prop :=
  key d = key d0 /\ 0 <= current_maximum d < USHRT /\
  ((current_maximum d = 0 /\ tree d = tree d0) \/
   (node_wf P d /\ incl (members (tree d)) (map id done))).

(** ** More of the trees *)

(** [tree_max (x)], the chain of ancestors growing on top of [p]. *)
Fixpoint tree_max (x : node) (p : path) : result cursor :=
  match x with
  | NIL => Crash Null_pointer
  | Node k c l r =>
      match r with
      | NIL => Ok (x, p)
      | Node _ _ _ _ => tree_max r (Right_of k c l :: p)
      end
  end.

(** [x->to->id], when [x] is a node. *)
Definition key_of (x : node) : option string :=
  match x with
  | NIL => None
  | Node k _ _ _ => Some k
  end.

(** The number of nodes on the longest way down from [x]. *)
Fixpoint height (x : node) : nat :=
  match x with
  | NIL => O
  | Node _ _ l r => S (Nat.max (height l) (height r))
  end.

(** A tree of three nodes. *)
Definition sample_tree : Tree :=
  {| root := Node "bob" BLACK (Node "alice" RED NIL NIL)
               (Node "dave" RED NIL NIL);
     size := 3 |}.

(** ** Scripts *)

(** The byte that [process_input], reading into a [char], takes for [EOF]. *)
Definition eof_byte : ascii := ascii_of_N 255.

(** An id that a line carries as it is: at most 99 bytes, none of them a
    space, a newline, a double quote, a zero or the byte 255. *)
Fixpoint clean (x : string) : bool :=
  match x with
  | EmptyString => true
  | String c rest =>
      negb (Ascii.eqb c space) && negb (Ascii.eqb c newline)
      && negb (Ascii.eqb c quote) && negb (Ascii.eqb c zero)
      && negb (char_value c =? -1) && clean rest
  end.

Definition name_fits (x : string) : bool :=
  clean x && (String.length x <=? 99)%nat.

(** The tokens of the line of a command, the ids between double quotes. *)
Definition render (c : command) : list string :=
  match c with
  | Addent x => ["addent"; quoted x]
  | Delent x => ["delent"; quoted x]
  | Addrel from to type => ["addrel"; quoted from; quoted to; quoted type]
  | Delrel from to type => ["delrel"; quoted from; quoted to; quoted type]
  | Report => ["report"]
  end%string.

(** The input that gives the commands, one on each line. *)
Definition script (cs : list command) : string :=
  String.concat "" (map (fun c => line (render c)) cs).

(** What the [report] commands of a run write. *)
Fixpoint reports (cs : list command) (s : State) : string :=
  match cs with
  | [] => EmptyString
  | c :: rest =>
      match exec c s with
      | Ok s' =>
          (match c with Report => report s | _ => EmptyString end
           ++ reports rest s')%string
      | Crash _ => EmptyString
      end
  end.

(** The result of [process_input] on the script of the commands. *)
Definition script_run (cs : list command) (s : State) (out : string) : run :=
  match run_commands cs s with
  | Ok s' => Returned s' (out ++ reports cs s)%string
  | Crash f => Crashed f
  end.

(** ** Order on identifiers *)


Lemma strcmp_lt (a b : string) : (strcmp a b <? 0) = true <-> slt a b.
Proof.
  unfold strcmp, slt.
  destruct (String_as_OT.compare a b); split; intros H;
    try reflexivity; discriminate H.
Qed.

Lemma strcmp_eq (a b : string) : (strcmp a b =? 0) = true <-> a = b.
Proof.
  unfold strcmp.
  destruct (String_as_OT.compare_spec a b) as [E|L|L]; split; intros H;
    try reflexivity; try discriminate H; try assumption;
    subst; exfalso; exact (StrictOrder_Irreflexive _ L).
Qed.

Lemma strcmp_gt (a b : string) :
  (strcmp a b =? 0) = false -> (strcmp a b <? 0) = false -> slt b a.
Proof.
  unfold strcmp.
  destruct (String_as_OT.compare_spec a b) as [E|L|L]; intros H1 H2;
    try discriminate H1; try discriminate H2; exact L.
Qed.

Lemma strcmp_refl (a : string) : (strcmp a a =? 0) = true.
Proof. now apply strcmp_eq. Qed.

Lemma strcmp_sym (a b : string) : (strcmp a b =? 0) = (strcmp b a =? 0).
Proof.
  destruct (strcmp b a =? 0) eqn:E.
  - apply strcmp_eq in E. now apply strcmp_eq.
  - destruct (strcmp a b =? 0) eqn:F; [|reflexivity].
    apply strcmp_eq in F. subst. now rewrite strcmp_refl in E.
Qed.

Lemma slt_irrefl (a : string) : ~ slt a a.
Proof. exact (StrictOrder_Irreflexive (R := String_as_OT.lt) a). Qed.

Lemma slt_trans (a b c : string) : slt a b -> slt b c -> slt a c.
Proof. exact (StrictOrder_Transitive (R := String_as_OT.lt) a b c). Qed.

Lemma slt_asym (a b : string) : slt a b -> ~ slt b a.
Proof. intros H H'. exact (slt_irrefl a (slt_trans _ _ _ H H')). Qed.

Lemma slt_total (a b : string) : slt a b \/ a = b \/ slt b a.
Proof. destruct (String_as_OT.compare_spec a b); auto. Qed.


Lemma sorted_nil : sorted [].
Proof. constructor. Qed.

Lemma sorted_cons (x : string) (l : list string) :
  sorted (x :: l) <-> sorted l /\ (forall y, In y l -> slt x y).
Proof.
  split.
  - intros H. apply StronglySorted_inv in H. destruct H as [H1 H2].
    split; [assumption|]. now apply Forall_forall.
  - intros [H1 H2]. constructor; [assumption|]. now apply Forall_forall.
Qed.

Lemma sorted_app (l1 l2 : list string) :
  sorted (l1 ++ l2) <->
  sorted l1 /\ sorted l2 /\ (forall x y, In x l1 -> In y l2 -> slt x y).
Proof.
  induction l1 as [|a l1 IH]; simpl.
  - split; [intros H; repeat split; [apply sorted_nil|assumption|tauto]|tauto].
  - rewrite !sorted_cons, IH. split.
    + intros [(H1 & H2 & H3) H4]. repeat split; auto.
      * intros y Hy. apply H4. apply in_or_app. now left.
      * intros x y [->|Hx] Hy; [apply H4; apply in_or_app; now right|auto].
    + intros ((H1 & H2) & H3 & H4). repeat split; auto.
      intros y Hy. apply in_app_or in Hy. destruct Hy; auto.
Qed.

Lemma sorted_NoDup (l : list string) : sorted l -> NoDup l.
Proof.
  induction l as [|a l IH]; intros H; constructor.
  - apply sorted_cons in H. intros Hin. apply (slt_irrefl a). now apply H.
  - apply IH. now apply sorted_cons in H.
Qed.

(** Two strictly sorted lists with the same members are equal. *)
Lemma sorted_ext (l1 l2 : list string) :
  sorted l1 -> sorted l2 -> (forall x, In x l1 <-> In x l2) -> l1 = l2.
Proof.
  revert l2. induction l1 as [|a l1 IH]; intros [|b l2] H1 H2 E.
  - reflexivity.
  - exfalso. apply (E b). now left.
  - exfalso. apply (E a). now left.
  - apply sorted_cons in H1. apply sorted_cons in H2.
    destruct H1 as [S1 L1], H2 as [S2 L2].
    assert (a = b) as <-.
    { destruct (proj1 (E a) (or_introl eq_refl)) as [->|Ha]; [reflexivity|].
      destruct (proj2 (E b) (or_introl eq_refl)) as [->|Hb]; [reflexivity|].
      exfalso. exact (slt_asym _ _ (L1 _ Hb) (L2 _ Ha)). }
    f_equal. apply IH; auto.
    intros x. split; intros Hx.
    + destruct (proj1 (E x) (or_intror Hx)) as [<-|]; [|assumption].
      exfalso. exact (slt_irrefl _ (L1 _ Hx)).
    + destruct (proj2 (E x) (or_intror Hx)) as [<-|]; [|assumption].
      exfalso. exact (slt_irrefl _ (L2 _ Hx)).
Qed.

Ltac splits := repeat match goal with |- _ /\ _ => split end.

(** ** Positions in a tree *)

Ltac norm_app :=
  repeat (progress (simpl; rewrite <- ?app_assoc; rewrite ?app_nil_r)).

Lemma elements_zip (p : path) : forall x,
  elements (zip x p) = before p ++ elements x ++ after p.
Proof.
  induction p as [|[k c r|k c l] p IH]; intros x; simpl.
  - now rewrite app_nil_r.
  - rewrite IH. now norm_app.
  - rewrite IH. now norm_app.
Qed.

Lemma elements_paint (c : Color) (x : node) : elements (paint c x) = elements x.
Proof. now destruct x. Qed.

Lemma before_app (p q : path) : before (p ++ q) = before q ++ before p.
Proof.
  induction p as [|[k c r|k c l] p IH]; simpl.
  - now rewrite app_nil_r.
  - exact IH.
  - rewrite IH. now norm_app.
Qed.

Lemma after_app (p q : path) : after (p ++ q) = after p ++ after q.
Proof.
  induction p as [|[k c r|k c l] p IH]; simpl.
  - reflexivity.
  - rewrite IH. now norm_app.
  - exact IH.
Qed.

Lemma zip_app (p q : path) (x : node) : zip x (p ++ q) = zip (zip x p) q.
Proof. revert x. induction p as [|f p IH]; intros x; simpl; auto. Qed.

(** ** Red-black properties *)

Ltac rb_crush :=
  simpl in *; intuition (subst; simpl in *; try congruence; auto).

Lemma rb_paint (x : node) : rb x -> rb (paint BLACK x).
Proof. destruct x as [|k c' l r]; rb_crush. Qed.

Lemma color_paint_black (x : node) : color_of (paint BLACK x) = BLACK.
Proof. now destruct x. Qed.

Lemma rb_path_black (p : path) (h : nat) (c : Color) :
  rb_path p h c -> rb_path p h BLACK.
Proof. destruct p as [|[k pc s|k pc s] p]; rb_crush. Qed.

(** Under a black parent the colour of the sub-tree is free. *)
Lemma rb_path_any (f : frame) (p : path) (h : nat) (c c' : Color) :
  frame_color f = BLACK -> rb_path (f :: p) h c -> rb_path (f :: p) h c'.
Proof. destruct f as [k pc s|k pc s]; rb_crush. Qed.

Lemma rb_zip (p : path) : forall x,
  rb x -> rb_path p (bh x) (color_of x) ->
  rb (zip x p) /\ color_of (zip x p) = BLACK.
Proof.
  induction p as [|[k pc s|k pc s] p IH]; intros x Hx Hp; simpl in *.
  - auto.
  - apply IH; rb_crush.
  - apply IH; rb_crush.
Qed.

(** Going down one level keeps the properties of the position. *)
Lemma rb_path_left (k : string) (c : Color) (l r : node) (p : path) :
  rb (Node k c l r) -> rb_path p (bh (Node k c l r)) c ->
  rb l /\ rb_path (Left_of k c r :: p) (bh l) (color_of l).
Proof. rb_crush. Qed.

Lemma rb_path_right (k : string) (c : Color) (l r : node) (p : path) :
  rb (Node k c l r) -> rb_path p (bh (Node k c l r)) c ->
  rb r /\ rb_path (Right_of k c l :: p) (bh r) (color_of r).
Proof. rb_crush. Qed.

(** ** Insertion *)

Ltac zip_elements :=
  rewrite ?elements_paint, ?elements_zip; norm_app;
  rewrite ?elements_paint; try reflexivity.

Ltac painted_root :=
  split; [apply rb_paint; apply rb_zip; rb_crush
         |split; [apply color_paint_black|zip_elements]].

Lemma rb_insert_fixup_spec (n : nat) : forall p z,
  (List.length p <= n)%nat ->
  rb z -> (color_of z = RED \/ p = []) ->
  rb_path p (bh z) BLACK ->
  exists t, rb_insert_fixup z p = Ok t /\ rb t /\ color_of t = BLACK /\
            elements t = elements (zip z p).
Proof.
  induction n as [|n IH]; intros p z Hn Hz Hc Hp.
  - destruct p; [|simpl in Hn; lia].
    exists (paint BLACK z). simpl. auto using rb_paint, color_paint_black, elements_paint.
  - destruct p as [|zp above].
    { exists (paint BLACK z). simpl. auto using rb_paint, color_paint_black, elements_paint. }
    destruct Hc as [Hc|Hc]; [|discriminate].
    destruct z as [|zk [|] zl zr]; try discriminate. clear Hc.
    destruct (frame_color zp) eqn:Ezp.
    + destruct above as [|gp rest].
      { exfalso. destruct zp; rb_crush. }
      destruct gp as [gk gc y|gk gc y], zp as [pk pc s|pk pc s];
        simpl in Ezp; subst pc;
        (destruct gc; [exfalso; rb_crush|]);
        destruct y as [|yk [|] yl yr];
        cbn [rb_insert_fixup frame_color plug recolor bind left_rotate right_rotate];
        lazymatch goal with
        | |- exists t, rb_insert_fixup ?z' ?p' = Ok t /\ _ =>
            destruct (IH p' z') as (t & E & R & C & El);
            [simpl in *; lia|rb_crush|auto|rb_crush|];
            exists t; split; [exact E|split; [exact R|split; [exact C|]]];
            rewrite El; zip_elements
        | |- _ => eexists; (split; [reflexivity|]); painted_root
        end.
    + cbn [rb_insert_fixup]. rewrite Ezp.
      eexists. split; [reflexivity|]. split; [|split].
      * apply rb_paint. apply rb_zip; [assumption|].
        apply rb_path_any with (c := BLACK); assumption.
      * apply color_paint_black.
      * now rewrite elements_paint.
Qed.

Lemma insert_descend_rb (to : string) : forall x p,
  rb x -> rb_path p (bh x) (color_of x) ->
  rb_path (insert_descend x p to) 0 BLACK.
Proof.
  induction x as [|k c l IHl r IHr]; intros p Hx Hp.
  - exact Hp.
  - cbn [insert_descend]. destruct (strcmp to k <? 0).
    + destruct (rb_path_left k c l r p Hx Hp). now apply IHl.
    + destruct (rb_path_right k c l r p Hx Hp). now apply IHr.
Qed.

Lemma insert_descend_sorted (to : string) : forall x p,
  sorted (before p ++ elements x ++ after p) -> ~ In to (elements x) ->
  (forall k, In k (before p) -> slt k to) ->
  (forall k, In k (after p) -> slt to k) ->
  before (insert_descend x p to) ++ after (insert_descend x p to)
    = before p ++ elements x ++ after p /\
  sorted (before (insert_descend x p to) ++ to :: after (insert_descend x p to)).
Proof.
  induction x as [|k c l IHl r IHr]; intros p Hs Hn Hb Ha.
  - simpl in *. split; [reflexivity|].
    apply sorted_app in Hs. destruct Hs as (S1 & S2 & S3).
    apply sorted_app. repeat split; auto.
    + apply sorted_cons; split; auto.
    + intros x y Hx [<-|Hy]; auto.
  - cbn [insert_descend]. simpl in Hs, Hn.
    assert (Hk : to <> k) by (intros ->; apply Hn; apply in_or_app; right; now left).
    assert (Hl : ~ In to (elements l)) by (intros H; apply Hn; apply in_or_app; now left).
    assert (Hr : ~ In to (elements r)) by (intros H; apply Hn; apply in_or_app; right; now right).
    pose proof Hs as Hs'.
    apply sorted_app in Hs'. destruct Hs' as (_ & Hs' & _).
    apply sorted_app in Hs'. destruct Hs' as (Hs' & _ & _).
    apply sorted_app in Hs'. destruct Hs' as (_ & Hkr & Hlk).
    apply sorted_cons in Hkr. destruct Hkr as (_ & Hkr).
    destruct (strcmp to k <? 0) eqn:E.
    + apply strcmp_lt in E.
      destruct (IHl (Left_of k c r :: p)) as (E1 & E2); simpl; auto.
      * revert Hs. now norm_app.
      * intros x [<-|Hx]; [assumption|]. apply in_app_or in Hx.
        destruct Hx as [Hx|Hx]; [|auto]. eapply slt_trans; eauto.
      * split; [|assumption]. rewrite E1. now norm_app.
    + assert (slt k to) as E'.
      { apply strcmp_gt; [|assumption].
        destruct (strcmp to k =? 0) eqn:F; [|reflexivity].
        apply strcmp_eq in F. contradiction. }
      destruct (IHr (Right_of k c l :: p)) as (E1 & E2); simpl; auto.
      * revert Hs. now norm_app.
      * intros x Hx. apply in_app_or in Hx. destruct Hx as [Hx|Hx]; [auto|].
        apply in_app_or in Hx. destruct Hx as [Hx|[<-|[]]]; [|assumption].
        eapply slt_trans; [|exact E']. apply Hlk; [assumption|now left].
      * split; [|assumption]. rewrite E1. now norm_app.
Qed.

Lemma tree_ok_size_bounds (t : Tree) : tree_ok t -> 0 <= size t < USHRT.
Proof. intros (_ & _ & _ & H & H'). lia. Qed.

Lemma rb_insert_spec (t : Tree) (to : string) :
  tree_ok t -> ~ In to (members t) -> size t + 1 < USHRT ->
  exists t', rb_insert t to = Ok t' /\ tree_ok t' /\
    (forall x, In x (members t') <-> x = to \/ In x (members t)) /\
    size t' = size t + 1.
Proof.
  intros (Hrb & Hc & Hs & Hsz & Hlt) Hn Hb. unfold members in *.
  destruct (insert_descend_sorted to (root t) []) as (E1 & E2);
    simpl; rewrite ?app_nil_r; auto; try contradiction.
  simpl in E1. rewrite app_nil_r in E1.
  assert (Hq : rb_path (insert_descend (root t) [] to) 0 BLACK).
  { apply insert_descend_rb; [assumption|]. simpl. assumption. }
  unfold rb_insert.
  set (q := insert_descend (root t) [] to) in *.
  set (z := match q with [] => Node to BLACK NIL NIL | _ :: _ => Node to RED NIL NIL end).
  destruct (rb_insert_fixup_spec (List.length q) q z) as (r & Er & R1 & R2 & R3).
  - lia.
  - unfold z. destruct q; rb_crush.
  - unfold z. destruct q; auto.
  - unfold z. destruct q; [reflexivity|exact Hq].
  - rewrite Er. cbn [bind].
    assert (El : elements r = before q ++ to :: after q).
    { rewrite R3, elements_zip. unfold z. now destruct q. }
    eexists. split; [reflexivity|].
    assert (Hsize : (size t + 1) mod USHRT = size t + 1).
    { apply Z.mod_small. lia. }
    split; [|split].
    + unfold tree_ok, members. cbn [root size]. rewrite Hsize, El.
      repeat split; auto; try lia.
      rewrite Hsz, <- E1, !length_app. simpl. lia.
    + intros x. cbn [root]. rewrite El, <- E1, !in_app_iff. simpl.
      intuition (subst; auto).
    + exact Hsize.
Qed.

(** ** Search *)

Lemma tree_search_from_zip (to : string) : forall x p,
  zip (fst (tree_search_from x p to)) (snd (tree_search_from x p to)) = zip x p.
Proof.
  induction x as [|k c l IHl r IHr]; intros p; cbn [tree_search_from].
  - reflexivity.
  - destruct (strcmp to k =? 0); [reflexivity|].
    destruct (strcmp to k <? 0); [rewrite IHl|rewrite IHr]; reflexivity.
Qed.

Lemma tree_search_from_rb (to : string) : forall x p,
  rb x -> rb_path p (bh x) (color_of x) ->
  rb (fst (tree_search_from x p to)) /\
  rb_path (snd (tree_search_from x p to))
    (bh (fst (tree_search_from x p to)))
    (color_of (fst (tree_search_from x p to))).
Proof.
  induction x as [|k c l IHl r IHr]; intros p Hx Hp; cbn [tree_search_from].
  - auto.
  - destruct (strcmp to k =? 0); [auto|].
    destruct (strcmp to k <? 0).
    + destruct (rb_path_left k c l r p Hx Hp). now apply IHl.
    + destruct (rb_path_right k c l r p Hx Hp). now apply IHr.
Qed.

Lemma tree_search_from_found (to : string) : forall x p,
  sorted (elements x) ->
  if is_NIL (fst (tree_search_from x p to))
  then ~ In to (elements x)
  else In to (elements x) /\
       exists c l r, fst (tree_search_from x p to) = Node to c l r.
Proof.
  induction x as [|k c l IHl r IHr]; intros p Hs; cbn [tree_search_from].
  - simpl. tauto.
  - simpl in Hs.
    apply sorted_app in Hs. destruct Hs as (Sl & Sr & Hlr).
    apply sorted_cons in Sr. destruct Sr as (Sr & Hkr).
    destruct (strcmp to k =? 0) eqn:E.
    + apply strcmp_eq in E. subst k. simpl. split; [|eauto].
      apply in_or_app. right. now left.
    + assert (to <> k) as Hne.
      { intros ->. now rewrite strcmp_refl in E. }
      destruct (strcmp to k <? 0) eqn:F.
      * apply strcmp_lt in F. specialize (IHl (Left_of k c r :: p) Sl).
        destruct (is_NIL (fst (tree_search_from l (Left_of k c r :: p) to))).
        -- simpl. rewrite in_app_iff. simpl. intros [H|[H|H]]; auto.
           exact (slt_asym _ _ F (Hkr _ H)).
        -- destruct IHl as [H1 H2]. split; [|assumption].
           simpl. apply in_or_app. now left.
      * pose proof (strcmp_gt _ _ E F) as G.
        specialize (IHr (Right_of k c l :: p) Sr).
        destruct (is_NIL (fst (tree_search_from r (Right_of k c l :: p) to))).
        -- simpl. rewrite in_app_iff. simpl. intros [H|[H|H]]; auto.
           apply (slt_asym _ _ G). apply Hlr; [assumption|now left].
        -- destruct IHr as [H1 H2]. split; [|assumption].
           simpl. apply in_or_app. right. now right.
Qed.

Lemma tree_search_NIL (t : Tree) (to : string) :
  tree_ok t ->
  is_NIL (fst (tree_search (root t) to)) = true <-> ~ In to (members t).
Proof.
  intros (_ & _ & Hs & _). unfold tree_search, members in *.
  pose proof (tree_search_from_found to (root t) [] Hs) as H.
  destruct (is_NIL (fst (tree_search_from (root t) [] to))); split; auto.
  - discriminate.
  - intros Hn. destruct H. contradiction.
Qed.

(** ** Deletion *)

Lemma tree_min_spec : forall x p,
  is_NIL x = false ->
  exists yk yc yr q,
    tree_min x p = Ok (Node yk yc NIL yr, q ++ p) /\
    zip (Node yk yc NIL yr) q = x /\ before q = [].
Proof.
  induction x as [|k c l IHl r IHr]; intros p Hx; [discriminate|].
  cbn [tree_min]. destruct l as [|lk lc ll lr].
  - exists k, c, r, []. auto.
  - destruct (IHl (Left_of k c r :: p) eq_refl) as (yk & yc & yr & q & E1 & E2 & E3).
    exists yk, yc, yr, (q ++ [Left_of k c r]). rewrite <- app_assoc. simpl.
    split; [exact E1|]. split.
    + rewrite zip_app, E2. reflexivity.
    + rewrite before_app. simpl. exact E3.
Qed.

(** The red-black properties of a position do not depend on the keys around
    it. *)
Lemma rb_path_rekey (q p : path) (k k' : string) (c : Color) (l : node) :
  forall h col,
  rb_path (q ++ Right_of k c l :: p) h col ->
  rb_path (q ++ Right_of k' c l :: p) h col.
Proof.
  induction q as [|[fk fc s|fk fc s] q IH]; intros h col; simpl; auto;
    intros (H1 & H2 & H3 & H4); auto.
Qed.

Lemma rb_path_unzip (q : path) : forall y p,
  rb (zip y q) -> rb_path p (bh (zip y q)) (color_of (zip y q)) ->
  rb y /\ rb_path (q ++ p) (bh y) (color_of y).
Proof.
  induction q as [|[fk fc s|fk fc s] q IH]; intros y p Hy Hp.
  - auto.
  - simpl in Hy, Hp. destruct (IH _ _ Hy Hp) as [H1 H2].
    exact (rb_path_left _ _ _ _ _ H1 H2).
  - simpl in Hy, Hp. destruct (IH _ _ Hy Hp) as [H1 H2].
    exact (rb_path_right _ _ _ _ _ H1 H2).
Qed.

Lemma delete_fixup_left_spec (x : node) (pk : string) (pc : Color) (w : node) :
  rb x -> color_of x = BLACK -> rb w -> color_of w = BLACK ->
  bh w = S (bh x) ->
  exists t up,
    delete_fixup_left x pk pc w = Ok (t, up) /\
    elements t = elements x ++ pk :: elements w /\
    color_of t = pc /\ is_NIL t = false /\
    (up = true -> rb (paint BLACK t) /\ bh t = black_inc pc (bh x)) /\
    (up = false -> rb t /\ bh t = black_inc pc (S (bh x))).
Proof.
  intros Hx Cx Hw Cw Hh.
  destruct w as [|wk wc wl wr]; [discriminate|].
  simpl in Cw. subst wc.
  destruct wl as [|lk [|] ll lr], wr as [|rk [|] rl rr];
    cbn [delete_fixup_left color_of paint bind left_rotate right_rotate];
    do 2 eexists; (split; [reflexivity|]);
    (split; [norm_app; reflexivity|]);
    destruct pc; rb_crush; try discriminate.
Qed.

Lemma delete_fixup_right_spec (x : node) (pk : string) (pc : Color) (w : node) :
  rb x -> color_of x = BLACK -> rb w -> color_of w = BLACK ->
  bh w = S (bh x) ->
  exists t up,
    delete_fixup_right x pk pc w = Ok (t, up) /\
    elements t = elements w ++ pk :: elements x /\
    color_of t = pc /\ is_NIL t = false /\
    (up = true -> rb (paint BLACK t) /\ bh t = black_inc pc (bh x)) /\
    (up = false -> rb t /\ bh t = black_inc pc (S (bh x))).
Proof.
  intros Hx Cx Hw Cw Hh.
  destruct w as [|wk wc wl wr]; [discriminate|].
  simpl in Cw. subst wc.
  destruct wl as [|lk [|] ll lr], wr as [|rk [|] rl rr];
    cbn [delete_fixup_right color_of paint bind left_rotate right_rotate];
    do 2 eexists; (split; [reflexivity|]);
    (split; [norm_app; reflexivity|]);
    destruct pc; rb_crush; try discriminate.
Qed.

Lemma bh_paint_red_node (t : node) :
  color_of t = RED -> bh (paint BLACK t) = S (bh t).
Proof. destruct t as [|k [|] l r]; simpl; congruence. Qed.

Lemma paint_black_id (x : node) : color_of x = BLACK -> paint BLACK x = x.
Proof. destruct x as [|k [|] l r]; simpl; congruence. Qed.

Lemma rb_delete_fixup_spec : forall p x,
  rb (paint BLACK x) -> rb_path p (S (bh x)) BLACK ->
  exists t, rb_delete_fixup x p = Ok t /\ rb t /\ color_of t = BLACK /\
            elements t = elements (zip x p).
Proof.
  induction p as [|f rest IH]; intros x Hx Hp.
  - exists (paint BLACK x). simpl. auto using color_paint_black, elements_paint.
  - cbn [rb_delete_fixup]. destruct (color_of x) eqn:Cx.
    + eexists. split; [reflexivity|].
      destruct (rb_zip (f :: rest) (paint BLACK x)) as [R1 R2]; auto.
      { rewrite color_paint_black, bh_paint_red_node; assumption. }
      repeat split; auto. rewrite !elements_zip, elements_paint. reflexivity.
    + rewrite (paint_black_id x Cx) in Hx.
      destruct f as [pk pc w|pk pc w]; simpl in Hp;
        destruct Hp as (Hw & Hh & Hc & Hrest);
        (destruct w as [|wk [|] wl wr]; [discriminate| |]).
      * (* red sibling on the right *)
        assert (pc = BLACK) as -> by (destruct pc; [destruct Hc; auto; discriminate|reflexivity]).
        simpl in Hw, Hh. destruct Hw as (Hwl & Hwr & Hbal & Hcol).
        destruct (Hcol eq_refl) as [Cl Cr].
        destruct (delete_fixup_left_spec x pk RED wl Hx Cx Hwl Cl Hh)
          as (t & up & E & El & Ct & Nt & Hup & Hdone).
        rewrite E. cbn [bind]. destruct up.
        -- destruct (Hup eq_refl) as [R1 R2].
           eexists. split; [reflexivity|].
           destruct (rb_zip (Left_of wk BLACK wr :: rest) (paint BLACK t)) as [R3 R4]; auto.
           { rewrite color_paint_black, bh_paint_red_node, R2 by assumption.
             simpl. rb_crush. }
           repeat split; auto. rewrite !elements_zip, elements_paint. simpl.
           rewrite El. now norm_app.
        -- destruct (Hdone eq_refl) as [R1 R2].
           eexists. split; [reflexivity|].
           destruct (rb_zip (Left_of wk BLACK wr :: rest) t) as [R3 R4]; auto.
           { rewrite Ct, R2. simpl. rb_crush. }
           repeat split; auto using rb_paint, color_paint_black.
           rewrite elements_paint, !elements_zip. simpl. rewrite El. now norm_app.
      * (* black sibling on the right *)
        destruct (delete_fixup_left_spec x pk pc (Node wk BLACK wl wr) Hx Cx Hw eq_refl Hh)
          as (t & up & E & El & Ct & Nt & Hup & Hdone).
        rewrite E. cbn [bind]. destruct up.
        -- destruct (Hup eq_refl) as [R1 R2].
           destruct (IH t R1) as (t' & E' & R3 & R4 & R5).
           { rewrite R2. destruct pc; simpl in *; eauto using rb_path_black. }
           exists t'. repeat split; auto.
           rewrite R5, !elements_zip. simpl. rewrite El. now norm_app.
        -- destruct (Hdone eq_refl) as [R1 R2].
           eexists. split; [reflexivity|].
           destruct (rb_zip rest t) as [R3 R4]; auto.
           { rewrite Ct, R2. assumption. }
           repeat split; auto using rb_paint, color_paint_black.
           rewrite elements_paint, !elements_zip. simpl. rewrite El. now norm_app.
      * (* red sibling on the left *)
        assert (pc = BLACK) as -> by (destruct pc; [destruct Hc; auto; discriminate|reflexivity]).
        simpl in Hw, Hh. destruct Hw as (Hwl & Hwr & Hbal & Hcol).
        destruct (Hcol eq_refl) as [Cl Cr].
        assert (Hh' : bh wr = S (bh x)) by congruence.
        destruct (delete_fixup_right_spec x pk RED wr Hx Cx Hwr Cr Hh')
          as (t & up & E & El & Ct & Nt & Hup & Hdone).
        rewrite E. cbn [bind]. destruct up.
        -- destruct (Hup eq_refl) as [R1 R2].
           eexists. split; [reflexivity|].
           destruct (rb_zip (Right_of wk BLACK wl :: rest) (paint BLACK t)) as [R3 R4]; auto.
           { rewrite color_paint_black, bh_paint_red_node, R2 by assumption.
             simpl. rb_crush. }
           repeat split; auto. rewrite !elements_zip, elements_paint. simpl.
           rewrite El. now norm_app.
        -- destruct (Hdone eq_refl) as [R1 R2].
           eexists. split; [reflexivity|].
           destruct (rb_zip (Right_of wk BLACK wl :: rest) t) as [R3 R4]; auto.
           { rewrite Ct, R2. simpl. rb_crush. }
           repeat split; auto using rb_paint, color_paint_black.
           rewrite elements_paint, !elements_zip. simpl. rewrite El. now norm_app.
      * (* black sibling on the left *)
        destruct (delete_fixup_right_spec x pk pc (Node wk BLACK wl wr) Hx Cx Hw eq_refl Hh)
          as (t & up & E & El & Ct & Nt & Hup & Hdone).
        rewrite E. cbn [bind]. destruct up.
        -- destruct (Hup eq_refl) as [R1 R2].
           destruct (IH t R1) as (t' & E' & R3 & R4 & R5).
           { rewrite R2. destruct pc; simpl in *; eauto using rb_path_black. }
           exists t'. repeat split; auto.
           rewrite R5, !elements_zip. simpl. rewrite El. now norm_app.
        -- destruct (Hdone eq_refl) as [R1 R2].
           eexists. split; [reflexivity|].
           destruct (rb_zip rest t) as [R3 R4]; auto.
           { rewrite Ct, R2. assumption. }
           repeat split; auto using rb_paint, color_paint_black.
           rewrite elements_paint, !elements_zip. simpl. rewrite El. now norm_app.
Qed.

Lemma rb_delete_splice_spec (t : Tree) (x : node) (px : path) (yc : Color) :
  rb x ->
  (yc = BLACK -> rb_path px (S (bh x)) BLACK) ->
  (yc = RED -> rb_path px (bh x) (color_of x)) ->
  exists r,
    rb_delete_splice t x px yc
      = Ok {| root := r; size := (size t - 1) mod USHRT |} /\
    rb r /\ color_of r = BLACK /\ elements r = elements (zip x px).
Proof.
  intros Hx Hb Hr. unfold rb_delete_splice. destruct yc.
  - destruct (rb_zip px x Hx (Hr eq_refl)) as [R1 R2].
    exists (zip x px). auto.
  - destruct (rb_delete_fixup_spec px x (rb_paint x Hx) (Hb eq_refl))
      as (r & E & R1 & R2 & R3).
    rewrite E. exists r. auto.
Qed.

(** Removing a node with at most one child. *)
Lemma rb_path_splice_black (p : path) (k : string) (l r : node) :
  rb (Node k BLACK l r) -> rb_path p (bh (Node k BLACK l r)) BLACK ->
  is_NIL l || is_NIL r = true ->
  rb (if is_NIL l then r else l) /\
  rb_path p (S (bh (if is_NIL l then r else l))) BLACK.
Proof.
  destruct l, r; simpl; intros (H1 & H2 & H3 & H4) Hp Hn;
    try discriminate; rewrite <- ?H3; auto.
Qed.

Lemma rb_path_splice_red (p : path) (k : string) (l r : node) :
  rb (Node k RED l r) -> rb_path p (bh (Node k RED l r)) RED ->
  is_NIL l || is_NIL r = true ->
  rb (if is_NIL l then r else l) /\
  rb_path p (bh (if is_NIL l then r else l))
    (color_of (if is_NIL l then r else l)).
Proof.
  destruct l as [|lk lc ll lr], r as [|rk rc rl rr]; simpl;
    intros (H1 & H2 & H3 & H4) Hp Hn; try discriminate;
    destruct (H4 eq_refl) as [C1 C2]; simpl in *; subst;
    try discriminate; eauto using rb_path_black.
Qed.

Lemma rb_delete_cursor (t : Tree) (zk : string) (zc : Color) (zl zr : node)
  (pz : path) :
  rb (Node zk zc zl zr) -> rb_path pz (bh (Node zk zc zl zr)) zc ->
  exists r,
    rb_delete t (Node zk zc zl zr, pz)
      = Ok {| root := r; size := (size t - 1) mod USHRT |} /\
    rb r /\ color_of r = BLACK /\
    elements r = before pz ++ elements zl ++ elements zr ++ after pz.
Proof.
  intros Hz Hp. unfold rb_delete. cbn [fst snd].
  destruct (is_NIL zl || is_NIL zr) eqn:En.
  - destruct (rb_delete_splice_spec t (if is_NIL zl then zr else zl) pz zc)
      as (r & E & R1 & R2 & R3).
    + destruct zc; [eapply rb_path_splice_red|eapply rb_path_splice_black]; eauto.
    + intros ->. eapply rb_path_splice_black; eauto.
    + intros ->. eapply rb_path_splice_red; eauto.
    + exists r. repeat split; auto. rewrite R3, elements_zip.
      destruct zl, zr; try discriminate; now norm_app.
  - apply orb_false_elim in En. destruct En as [Nl Nr].
    destruct (tree_min_spec zr [] Nr) as (yk & yc & yr & q & E1 & E2 & E3).
    rewrite E1, app_nil_r. cbn [bind is_NIL].
    destruct (rb_path_right _ _ _ _ _ Hz Hp) as [Hzr Hpr].
    rewrite <- E2 in Hzr, Hpr.
    destruct (rb_path_unzip q _ _ Hzr Hpr) as [Hy Hq].
    apply rb_path_rekey with (k' := yk) in Hq.
    destruct (rb_delete_splice_spec t yr (q ++ Right_of yk zc zl :: pz) yc)
      as (r & E & R1 & R2 & R3).
    + simpl in Hy. tauto.
    + intros ->. simpl in Hq, Hy. destruct Hy as (_ & _ & <- & _). exact Hq.
    + intros ->. simpl in Hq, Hy. destruct Hy as (_ & _ & <- & Hc).
      destruct (Hc eq_refl) as [_ Cr]. rewrite Cr.
      destruct q as [|f q]; [|destruct f]; simpl in Hq |- *;
        destruct Hq as (H1 & H2 & H3 & H4);
        (split; [|split; [|split]]); auto;
        intros ->; destruct (H3 eq_refl); discriminate.
    + exists r. repeat split; auto. rewrite R3, elements_zip.
      rewrite before_app, after_app, E3. simpl.
      rewrite <- E2, elements_zip, E3. now norm_app.
Qed.

Lemma sorted_remove_mid (l1 l2 : list string) (a : string) :
  sorted (l1 ++ a :: l2) ->
  sorted (l1 ++ l2) /\
  (forall x, In x (l1 ++ l2) <-> In x (l1 ++ a :: l2) /\ x <> a).
Proof.
  intros H. pose proof H as H'.
  apply sorted_app in H. destruct H as (S1 & S2 & S3).
  apply sorted_cons in S2. destruct S2 as (S2 & S4). split.
  - apply sorted_app. repeat split; auto.
    intros x y Hx Hy. apply S3; [assumption|now right].
  - intros x. rewrite !in_app_iff. simpl. split.
    + intros [Hx|Hx]; (split; [tauto|]); intros ->.
      * apply (slt_irrefl a). apply S3; [assumption|now left].
      * exact (slt_irrefl a (S4 _ Hx)).
    + intros [[Hx|[Hx|Hx]] Hne]; auto. congruence.
Qed.

Lemma rb_delete_spec (t : Tree) (to : string) :
  tree_ok t -> In to (members t) ->
  exists t', rb_delete t (tree_search (root t) to) = Ok t' /\ tree_ok t' /\
    (forall x, In x (members t') <-> In x (members t) /\ x <> to) /\
    size t' = size t - 1.
Proof.
  intros (Hrb & Hc & Hs & Hsz & Hlt) Hin. unfold members, tree_search in *.
  pose proof (tree_search_from_found to (root t) [] Hs) as Hf.
  pose proof (tree_search_from_zip to (root t) []) as Hz.
  destruct (tree_search_from_rb to (root t) [] Hrb Hc) as [Hx Hp].
  destruct (tree_search_from (root t) [] to) as [z pz]. cbn [fst snd] in *.
  destruct (is_NIL z) eqn:En; [contradiction|].
  destruct Hf as (_ & zc & zl & zr & ->).
  destruct (rb_delete_cursor t to zc zl zr pz Hx Hp) as (r & E & R1 & R2 & R3).
  simpl in Hz.
  assert (El : elements (root t) = before pz ++ elements zl ++ to :: elements zr ++ after pz).
  { rewrite <- Hz, elements_zip. now norm_app. }
  rewrite E. eexists. split; [reflexivity|].
  rewrite El in Hs.
  replace (before pz ++ elements zl ++ to :: elements zr ++ after pz)
    with ((before pz ++ elements zl) ++ to :: elements zr ++ after pz) in Hs
    by now norm_app.
  apply sorted_remove_mid in Hs. destruct Hs as [Hs Hm].
  replace ((before pz ++ elements zl) ++ elements zr ++ after pz)
    with (before pz ++ elements zl ++ elements zr ++ after pz) in Hs, Hm
    by now norm_app.
  assert (Hlen : List.length (elements (root t))
                 = S (List.length (elements r))).
  { rewrite El, R3, !length_app. simpl. rewrite !length_app. lia. }
  assert (Hsize : (size t - 1) mod USHRT = size t - 1).
  { apply Z.mod_small. lia. }
  split; [|split].
  - unfold tree_ok, members. cbn [root size]. rewrite Hsize, R3.
    repeat split; auto; try lia. rewrite <- R3. lia.
  - intros x. cbn [root]. rewrite R3, El, Hm.
    replace ((before pz ++ elements zl) ++ to :: elements zr ++ after pz)
      with (before pz ++ elements zl ++ to :: elements zr ++ after pz)
      by now norm_app.
    reflexivity.
  - exact Hsize.
Qed.

Lemma tree_ok_init : tree_ok init_tree.
Proof.
  unfold tree_ok, members, init_tree, USHRT. simpl.
  repeat split; auto using sorted_nil.
Qed.

Lemma clear_tree_spec (t : Tree) :
  tree_ok t -> clear_tree t = init_tree.
Proof.
  intros (_ & _ & _ & Hsz & _). unfold clear_tree, members in *.
  destruct t as [r s]. simpl in *. destruct r; [|reflexivity].
  simpl in Hsz. subst. reflexivity.
Qed.

Lemma tree_ok_length (t : Tree) :
  tree_ok t -> size t = Z.of_nat (List.length (members t)).
Proof. intros (_ & _ & _ & H & _). exact H. Qed.

Lemma tree_ok_sorted (t : Tree) : tree_ok t -> sorted (members t).
Proof. intros (_ & _ & H & _). exact H. Qed.

(** ** Lists of relation types *)

Lemma list_search_In (l : List) (k : string) (n : list_t) :
  list_search l k = Some n -> key n = k /\ In n l.
Proof.
  induction l as [|c l IH]; simpl; [discriminate|].
  destruct (strcmp (key c) k =? 0) eqn:E.
  - intros [= <-]. apply strcmp_eq in E. auto.
  - intros H. destruct (IH H). auto.
Qed.

Lemma list_search_None (l : List) (k : string) :
  list_search l k = None <-> ~ In k (map key l).
Proof.
  induction l as [|c l IH]; simpl; [tauto|].
  destruct (strcmp (key c) k =? 0) eqn:E.
  - apply strcmp_eq in E. split; [discriminate|]. intros H. exfalso. auto.
  - rewrite IH. split; [|tauto]. intros H [F|F]; [|auto].
    subst. now rewrite strcmp_refl in E.
Qed.

Lemma list_search_first (l : List) (n : list_t) :
  NoDup (map key l) -> In n l -> list_search l (key n) = Some n.
Proof.
  induction l as [|c l IH]; simpl; [contradiction|].
  intros Hd [->|Hn].
  - now rewrite strcmp_refl.
  - inversion Hd; subst. destruct (strcmp (key c) (key n) =? 0) eqn:E.
    + apply strcmp_eq in E. exfalso. apply H1. rewrite E. now apply in_map.
    + auto.
Qed.

Lemma list_store_same (l : List) (k : string) (n m : list_t) :
  key n = k -> list_search l k = Some m ->
  list_search (list_store l k n) k = Some n.
Proof.
  intros Hk. induction l as [|c l IH]; simpl; [discriminate|].
  destruct (strcmp (key c) k =? 0) eqn:E; simpl.
  - intros _. subst k. now rewrite strcmp_refl.
  - now rewrite E.
Qed.

Lemma list_store_other (l : List) (k k' : string) (n : list_t) :
  key n = k -> k' <> k ->
  list_search (list_store l k n) k' = list_search l k'.
Proof.
  intros Hk Hne. induction l as [|c l IH]; simpl; [reflexivity|].
  destruct (strcmp (key c) k =? 0) eqn:E; simpl.
  - apply strcmp_eq in E.
    assert ((strcmp (key n) k' =? 0) = false) as ->.
    { destruct (strcmp (key n) k' =? 0) eqn:F; [|reflexivity].
      apply strcmp_eq in F. congruence. }
    assert ((strcmp (key c) k' =? 0) = false) as ->.
    { destruct (strcmp (key c) k' =? 0) eqn:F; [|reflexivity].
      apply strcmp_eq in F. congruence. }
    reflexivity.
  - now rewrite IH.
Qed.

Lemma list_store_id (l : List) (k : string) (n : list_t) :
  list_search l k = Some n -> list_store l k n = l.
Proof.
  induction l as [|c l IH]; simpl; [reflexivity|].
  destruct (strcmp (key c) k =? 0); [now intros [= ->]|].
  intros H. now rewrite IH.
Qed.

Lemma list_store_In (l : List) (k : string) (n m : list_t) :
  In m (list_store l k n) -> m = n \/ In m l.
Proof.
  induction l as [|c l IH]; simpl; [tauto|].
  destruct (strcmp (key c) k =? 0); simpl; intuition.
Qed.

Lemma list_store_keys (l : List) (k : string) (n : list_t) :
  key n = k -> map key (list_store l k n) = map key l.
Proof.
  intros Hk. induction l as [|c l IH]; simpl; [reflexivity|].
  destruct (strcmp (key c) k =? 0) eqn:E; simpl.
  - apply strcmp_eq in E. congruence.
  - now rewrite IH.
Qed.

Lemma list_store_Forall (P : list_t -> Prop) (l : List) (k : string) (n : list_t) :
  Forall P l -> P n -> Forall P (list_store l k n).
Proof.
  intros Hl Hn. apply Forall_forall. intros m Hm.
  destruct (list_store_In _ _ _ _ Hm) as [->|H]; [assumption|].
  rewrite Forall_forall in Hl. auto.
Qed.

Lemma list_store_split (l : List) (k : string) (n m : list_t) :
  list_search l k = Some m ->
  exists l1 l2, l = l1 ++ m :: l2 /\ list_store l k n = l1 ++ n :: l2.
Proof.
  induction l as [|c l IH]; simpl; [discriminate|].
  destruct (strcmp (key c) k =? 0).
  - intros [= ->]. exists [], l. auto.
  - intros H. destruct (IH H) as (l1 & l2 & -> & ->).
    exists (c :: l1), l2. auto.
Qed.

Lemma list_insert_same (l : List) (k : string) :
  list_search (list_insert l k) k = Some (new_list_t k).
Proof.
  induction l as [|c l IH]; simpl.
  - now rewrite strcmp_refl.
  - destruct (strcmp (key c) k <? 0) eqn:E; simpl.
    + destruct (strcmp (key c) k =? 0) eqn:F; [|assumption].
      apply strcmp_eq in F. apply strcmp_lt in E. subst.
      exfalso. exact (slt_irrefl _ E).
    + now rewrite strcmp_refl.
Qed.

Lemma list_insert_other (l : List) (k k' : string) :
  k' <> k -> list_search (list_insert l k) k' = list_search l k'.
Proof.
  intros Hne. induction l as [|c l IH]; simpl.
  - destruct (strcmp k k' =? 0) eqn:F; [|reflexivity].
    apply strcmp_eq in F. congruence.
  - destruct (strcmp (key c) k <? 0); simpl.
    + now rewrite IH.
    + destruct (strcmp k k' =? 0) eqn:F; [|reflexivity].
      apply strcmp_eq in F. congruence.
Qed.

Lemma list_insert_In (l : List) (k : string) (m : list_t) :
  In m (list_insert l k) <-> m = new_list_t k \/ In m l.
Proof.
  induction l as [|c l IH]; simpl.
  - intuition.
  - destruct (strcmp (key c) k <? 0); simpl; rewrite ?IH; intuition.
Qed.

Lemma list_insert_sorted (l : List) (k : string) :
  sorted (map key l) -> list_search l k = None ->
  sorted (map key (list_insert l k)).
Proof.
  induction l as [|c l IH]; simpl; intros Hs Hn.
  - apply sorted_cons. split; [apply sorted_nil|]. intros y [].
  - destruct (strcmp (key c) k =? 0) eqn:F; [discriminate|].
    apply sorted_cons in Hs. destruct Hs as [Hs Hc].
    destruct (strcmp (key c) k <? 0) eqn:E; simpl.
    + apply strcmp_lt in E. apply sorted_cons. split; [auto|].
      intros y Hy. apply in_map_iff in Hy. destruct Hy as (m & <- & Hm).
      apply list_insert_In in Hm. destruct Hm as [->|Hm]; [exact E|].
      apply Hc. now apply in_map.
    + pose proof (strcmp_gt _ _ F E) as G.
      apply sorted_cons. split.
      * apply sorted_cons. auto.
      * intros y [<-|Hy]; [exact G|]. eapply slt_trans; eauto.
Qed.

Lemma list_delete_spec (l : List) (k : string) (n : list_t) :
  list_search l k = Some n ->
  exists l1 l2, l = l1 ++ n :: l2 /\ list_delete l k = Ok (l1 ++ l2) /\
                ~ In k (map key l1).
Proof.
  induction l as [|c l IH]; simpl; [discriminate|].
  destruct (strcmp (key c) k =? 0) eqn:E.
  - intros [= ->]. exists [], l. auto.
  - intros H. destruct (IH H) as (l1 & l2 & -> & -> & Hn).
    exists (c :: l1), l2. simpl. repeat split; auto.
    intros [F|F]; [|auto]. subst. now rewrite strcmp_refl in E.
Qed.

Lemma list_search_app (l1 l2 : List) (k : string) :
  list_search (l1 ++ l2) k =
  match list_search l1 k with
  | Some n => Some n
  | None => list_search l2 k
  end.
Proof.
  induction l1 as [|c l1 IH]; simpl; [reflexivity|].
  now destruct (strcmp (key c) k =? 0).
Qed.

(** ** The hash table *)

Lemma chain_search_In (l : list entity_t) (x : string) (e : entity_t) :
  chain_search l x = Some e -> id e = x /\ In e l.
Proof.
  induction l as [|c l IH]; simpl; [discriminate|].
  destruct (strcmp (id c) x =? 0) eqn:E.
  - intros [= <-]. apply strcmp_eq in E. auto.
  - intros H. destruct (IH H). auto.
Qed.

Lemma chain_search_None (l : list entity_t) (x : string) :
  chain_search l x = None <-> ~ In x (map id l).
Proof.
  induction l as [|c l IH]; simpl; [tauto|].
  destruct (strcmp (id c) x =? 0) eqn:E.
  - apply strcmp_eq in E. split; [discriminate|]. intros H. exfalso. auto.
  - rewrite IH. split; [|tauto]. intros H [F|F]; [|auto].
    subst. now rewrite strcmp_refl in E.
Qed.

Lemma chain_search_app (l1 l2 : list entity_t) (x : string) :
  chain_search (l1 ++ l2) x =
  match chain_search l1 x with
  | Some e => Some e
  | None => chain_search l2 x
  end.
Proof.
  induction l1 as [|c l1 IH]; simpl; [reflexivity|].
  now destruct (strcmp (id c) x =? 0).
Qed.

Lemma chain_search_unique (l : list entity_t) (e : entity_t) :
  NoDup (map id l) -> In e l -> chain_search l (id e) = Some e.
Proof.
  induction l as [|c l IH]; simpl; [contradiction|].
  intros Hd [->|Hn].
  - now rewrite strcmp_refl.
  - inversion Hd; subst. destruct (strcmp (id c) (id e) =? 0) eqn:E.
    + apply strcmp_eq in E. exfalso. apply H1. rewrite E. now apply in_map.
    + auto.
Qed.

Lemma chain_search_split (l : list entity_t) (x : string) (e : entity_t) :
  chain_search l x = Some e ->
  exists l1 l2, l = l1 ++ e :: l2 /\ ~ In x (map id l1).
Proof.
  induction l as [|c l IH]; simpl; [discriminate|].
  destruct (strcmp (id c) x =? 0) eqn:E.
  - intros [= ->]. exists [], l. auto.
  - intros H. destruct (IH H) as (l1 & l2 & -> & Hn).
    exists (c :: l1), l2. split; [reflexivity|].
    intros [F|F]; [|auto]. subst. now rewrite strcmp_refl in E.
Qed.

Lemma chain_store_split (l l1 l2 : list entity_t) (e e' : entity_t) :
  l = l1 ++ e :: l2 -> ~ In (id e') (map id l1) -> id e = id e' ->
  chain_store l e' = l1 ++ e' :: l2.
Proof.
  intros -> Hn He. induction l1 as [|c l1 IH]; simpl.
  - now rewrite He, strcmp_refl.
  - destruct (strcmp (id c) (id e') =? 0) eqn:E.
    + apply strcmp_eq in E. exfalso. apply Hn. now left.
    + rewrite IH; [reflexivity|]. intros F. apply Hn. now right.
Qed.

Lemma chain_delete_split (l l1 l2 : list entity_t) (e : entity_t) (x : string) :
  l = l1 ++ e :: l2 -> ~ In x (map id l1) -> id e = x ->
  chain_delete l x = l1 ++ l2.
Proof.
  intros -> Hn He. induction l1 as [|c l1 IH]; simpl.
  - now rewrite He, strcmp_refl.
  - destruct (strcmp (id c) x =? 0) eqn:E.
    + apply strcmp_eq in E. exfalso. apply Hn. now left.
    + rewrite IH; [reflexivity|]. intros F. apply Hn. now right.
Qed.

Lemma hash_string_range (x : string) : - HASH_DIMENSION < hash_string x < HASH_DIMENSION.
Proof.
  unfold hash_string, HASH_DIMENSION.
  set (h := hash_loop _ _ _ _).
  pose proof (Z.rem_bound_abs h 10000). 
  assert (Z.abs (Z.rem h 10000) < Z.abs 10000) by (apply H; lia).
  lia.
Qed.

Lemma buckets_from_tail (off : nat) (b : list entity_t) (ht : HashTable) :
  buckets_from off (b :: ht) -> buckets_from (S off) ht.
Proof.
  intros H i head e Hi He. rewrite (H (S i) head e Hi He). f_equal. lia.
Qed.

Lemma table_split (ht : HashTable) : forall off i head,
  buckets_from off ht -> nth_error ht i = Some head ->
  exists pre post,
    List.concat ht = pre ++ head ++ post /\
    (forall e, In e pre \/ In e post ->
               hash_string (id e) <> Z.of_nat (off + i)) /\
    (forall head',
       List.concat (table_set ht i head') = pre ++ head' ++ post /\
       List.length (table_set ht i head') = List.length ht /\
       ((forall e, In e head' -> hash_string (id e) = Z.of_nat (off + i)) ->
        buckets_from off (table_set ht i head'))).
Proof.
  induction ht as [|b ht IH]; intros off i head Hb Hi.
  - destruct i; discriminate.
  - destruct i as [|i]; simpl in Hi.
    + injection Hi as ->. exists [], (List.concat ht). simpl. repeat split; auto.
      * intros e [[]|He] F. apply in_concat in He. destruct He as (c & Hc & He).
        apply In_nth_error in Hc. destruct Hc as [j Hj].
        rewrite (Hb (S j) c e Hj He) in F. lia.
      * intros Hh j c e Hj He. destruct j; simpl in Hj.
        -- injection Hj as <-. now apply Hh.
        -- exact (Hb (S j) c e Hj He).
    + destruct (IH (S off) i head (buckets_from_tail _ _ _ Hb) Hi)
        as (pre & post & E & Hne & Hset).
      exists (b ++ pre), post. simpl. rewrite E, <- app_assoc.
      split; [reflexivity|]. split.
      * intros e [He|He] F.
        -- apply in_app_or in He. destruct He as [He|He].
           ++ rewrite (Hb O b e eq_refl He) in F. lia.
           ++ apply (Hne e (or_introl He)). rewrite F. f_equal. lia.
        -- apply (Hne e (or_intror He)). rewrite F. f_equal. lia.
      * intros head'. destruct (Hset head') as (E1 & E2 & E3).
        rewrite E1, E2, <- app_assoc. repeat split; auto.
        intros Hh j c e Hj He. destruct j; simpl in Hj.
        -- injection Hj as <-. rewrite (Hb O b e eq_refl He). reflexivity.
        -- assert (buckets_from (S off) (table_set ht i head')) as Hb'.
           { apply E3. intros e' He'. rewrite Hh by assumption. f_equal. lia. }
           rewrite (Hb' j c e Hj He). f_equal. lia.
Qed.

Lemma table_ok_buckets (ht : HashTable) : table_ok ht -> buckets_from 0 ht.
Proof. intros (_ & H & _). exact H. Qed.

Lemma table_get_ok (ht : HashTable) (x : string) :
  table_ok ht -> 0 <= hash_string x ->
  exists head, table_get ht (hash_string x) = Ok head /\
               nth_error ht (Z.to_nat (hash_string x)) = Some head.
Proof.
  intros (Hl & _) Hx. unfold table_get.
  pose proof (hash_string_range x) as Hr.
  destruct (hash_string x <? 0) eqn:E; [lia|].
  destruct (nth_error ht (Z.to_nat (hash_string x))) as [head|] eqn:F.
  - exists head. auto.
  - apply nth_error_None in F. lia.
Qed.

Lemma table_get_crash (ht : HashTable) (x : string) :
  hash_string x < 0 -> table_get ht (hash_string x) = Crash Out_of_bounds.
Proof.
  intros Hx. unfold table_get.
  destruct (hash_string x <? 0) eqn:E; [reflexivity|lia].
Qed.

Lemma not_in_other_bucket (l : list entity_t) (x : string) (i : Z) :
  (forall e, In e l -> hash_string (id e) <> i) -> hash_string x = i ->
  ~ In x (map id l).
Proof.
  intros H Hx F. apply in_map_iff in F. destruct F as (e & <- & He).
  exact (H e He Hx).
Qed.

(** Looking an id up in its bucket or in the whole table is the same. *)
Lemma hash_search_ok (ht : HashTable) (x : string) :
  table_ok ht -> 0 <= hash_string x ->
  hash_search ht x = Ok (chain_search (List.concat ht) x).
Proof.
  intros Hok Hx. unfold hash_search.
  destruct (table_get_ok ht x Hok Hx) as (head & -> & Hn). cbn [bind].
  destruct (table_split ht 0 _ head (table_ok_buckets _ Hok) Hn)
    as (pre & post & -> & Hne & _).
  simpl in Hne. rewrite Z2Nat.id in Hne by assumption.
  rewrite !chain_search_app.
  assert (chain_search pre x = None) as ->.
  { apply chain_search_None. eapply not_in_other_bucket; eauto. }
  destruct (chain_search head x); [reflexivity|].
  assert (chain_search post x = None) as ->; [|reflexivity].
  apply chain_search_None. eapply not_in_other_bucket; eauto.
Qed.

Lemma hash_search_crash (ht : HashTable) (x : string) :
  hash_string x < 0 -> hash_search ht x = Crash Out_of_bounds.
Proof. intros Hx. unfold hash_search. now rewrite table_get_crash. Qed.

Lemma live_hash (ht : HashTable) (e : entity_t) :
  table_ok ht -> In e (List.concat ht) -> 0 <= hash_string (id e).
Proof.
  intros (_ & Hb & _) He. apply in_concat in He. destruct He as (c & Hc & He).
  apply In_nth_error in Hc. destruct Hc as [j Hj].
  rewrite (Hb j c e Hj He). lia.
Qed.

Lemma hash_search_live (ht : HashTable) (e : entity_t) :
  table_ok ht -> In e (List.concat ht) -> hash_search ht (id e) = Ok (Some e).
Proof.
  intros Hok He. rewrite hash_search_ok; auto.
  - f_equal. apply chain_search_unique; [apply Hok|assumption].
  - eapply live_hash; eauto.
Qed.

Lemma found_in_bucket (ht : HashTable) (x : string) (e : entity_t) :
  table_ok ht -> chain_search (List.concat ht) x = Some e ->
  exists pre c1 c2 post,
    nth_error ht (Z.to_nat (hash_string x)) = Some (c1 ++ e :: c2) /\
    List.concat ht = pre ++ (c1 ++ e :: c2) ++ post /\
    ~ In x (map id c1) /\ id e = x /\ 0 <= hash_string x /\
    (forall head',
       List.concat (table_set ht (Z.to_nat (hash_string x)) head')
         = pre ++ head' ++ post /\
       List.length (table_set ht (Z.to_nat (hash_string x)) head')
         = List.length ht /\
       ((forall e', In e' head' -> hash_string (id e') = hash_string x) ->
        buckets_from 0 (table_set ht (Z.to_nat (hash_string x)) head'))).
Proof.
  intros Hok Hs. pose proof Hs as Hs'.
  apply chain_search_In in Hs'. destruct Hs' as [He Hin].
  assert (Hx : 0 <= hash_string x) by (rewrite <- He; eapply live_hash; eauto).
  destruct (table_get_ok ht x Hok Hx) as (head & _ & Hn).
  destruct (table_split ht 0 _ head (table_ok_buckets _ Hok) Hn)
    as (pre & post & E & Hne & Hset).
  simpl in Hne, Hset. rewrite Z2Nat.id in Hne, Hset by assumption.
  rewrite E, !chain_search_app in Hs.
  assert (chain_search pre x = None) as Hpre.
  { apply chain_search_None. eapply not_in_other_bucket; eauto. }
  rewrite Hpre in Hs.
  destruct (chain_search head x) as [e0|] eqn:Hh.
  - injection Hs as ->.
    destruct (chain_search_split _ _ _ Hh) as (c1 & c2 & -> & Hc1).
    exists pre, c1, c2, post. repeat split; auto; apply Hset.
  - exfalso. apply chain_search_In in Hs. destruct Hs as [_ Hs].
    apply (Hne e (or_intror Hs)). now rewrite He.
Qed.

Lemma entity_store_spec (ht : HashTable) (e e' : entity_t) :
  table_ok ht -> chain_search (List.concat ht) (id e') = Some e ->
  exists l1 l2,
    List.concat ht = l1 ++ e :: l2 /\
    List.concat (entity_store ht e') = l1 ++ e' :: l2 /\
    table_ok (entity_store ht e').
Proof.
  intros Hok Hs.
  destruct (found_in_bucket ht _ e Hok Hs)
    as (pre & c1 & c2 & post & Hn & E & Hc1 & He & Hx & Hset).
  unfold entity_store. rewrite (nth_error_nth _ _ _ Hn).
  rewrite (chain_store_split _ c1 c2 e e' eq_refl Hc1 He).
  destruct (Hset (c1 ++ e' :: c2)) as (E1 & E2 & E3).
  exists (pre ++ c1), (c2 ++ post). rewrite E1, E.
  split; [now norm_app|]. split; [now norm_app|].
  destruct Hok as (Hl & Hb & Hd). split; [congruence|]. split.
  - apply E3. intros e0 H0. apply in_app_or in H0.
    assert (In e0 (c1 ++ e :: c2) -> hash_string (id e0) = hash_string (id e')) as Hold.
    { intros H. rewrite (Hb _ _ _ Hn H). lia. }
    destruct H0 as [H0|[<-|H0]]; [| reflexivity |];
      apply Hold; apply in_or_app; [now left|right; now right].
  - rewrite E1. rewrite E in Hd. revert Hd.
    repeat (rewrite map_app; simpl). now rewrite He.
Qed.

Lemma hash_insert_spec (ht : HashTable) (x : string) :
  table_ok ht -> 0 <= hash_string x ->
  chain_search (List.concat ht) x = None ->
  exists ht' l1 l2,
    hash_insert ht x = Ok ht' /\
    List.concat ht = l1 ++ l2 /\
    List.concat ht' = l1 ++ {| id := x; rel_list := init_list |} :: l2 /\
    table_ok ht'.
Proof.
  intros Hok Hx Hs. unfold hash_insert.
  destruct (table_get_ok ht x Hok Hx) as (head & -> & Hn). cbn [bind].
  destruct (table_split ht 0 _ head (table_ok_buckets _ Hok) Hn)
    as (pre & post & E & Hne & Hset).
  simpl in Hne, Hset. rewrite Z2Nat.id in Hne, Hset by assumption.
  set (new := {| id := x; rel_list := init_list |}).
  destruct (Hset (new :: head)) as (E1 & E2 & E3).
  exists (table_set ht (Z.to_nat (hash_string x)) (new :: head)), pre, (head ++ post).
  split; [reflexivity|]. split; [exact E|]. split; [exact E1|].
  destruct Hok as (Hl & Hb & Hd). split; [congruence|]. split.
  - apply E3. intros e [<-|He]; [reflexivity|].
    rewrite (Hb _ _ _ Hn He). lia.
  - rewrite E1. rewrite E in Hd. rewrite map_app in *. simpl.
    apply NoDup_Add with (a := x) (l := map id pre ++ map id (head ++ post)).
    + apply Add_app.
    + split; [assumption|]. rewrite <- map_app, <- E.
      now apply chain_search_None.
Qed.

Lemma hash_delete_spec (ht : HashTable) (x : string) (e : entity_t) :
  table_ok ht -> chain_search (List.concat ht) x = Some e ->
  exists ht' l1 l2,
    hash_delete ht x = Ok ht' /\
    List.concat ht = l1 ++ e :: l2 /\
    List.concat ht' = l1 ++ l2 /\
    table_ok ht'.
Proof.
  intros Hok Hs.
  destruct (found_in_bucket ht _ e Hok Hs)
    as (pre & c1 & c2 & post & Hn & E & Hc1 & He & Hx & Hset).
  unfold hash_delete.
  destruct (table_get_ok ht x Hok Hx) as (head & -> & Hn').
  rewrite Hn in Hn'. injection Hn' as <-. cbn [bind].
  rewrite (chain_delete_split _ c1 c2 e x eq_refl Hc1 He).
  destruct (Hset (c1 ++ c2)) as (E1 & E2 & E3).
  eexists. exists (pre ++ c1), (c2 ++ post).
  split; [reflexivity|]. rewrite E1, E.
  split; [now norm_app|]. split; [now norm_app|].
  destruct Hok as (Hl & Hb & Hd). split; [congruence|]. split.
  - apply E3. intros e0 H0. rewrite (Hb _ _ _ Hn).
    + lia.
    + apply in_app_or in H0. apply in_or_app. destruct H0; [now left|right; now right].
  - rewrite E1. rewrite E in Hd. revert Hd.
    repeat (rewrite map_app; simpl).
    intros Hd. rewrite <- app_assoc in Hd. simpl in Hd.
    rewrite app_assoc in Hd.
    apply NoDup_remove_1 in Hd. now rewrite <- !app_assoc in *.
Qed.

Lemma table_ok_init : table_ok init_table.
Proof.
  unfold init_table. split; [apply repeat_length|]. split.
  - intros i head e Hi He. apply nth_error_In in Hi.
    apply repeat_spec in Hi. subst. contradiction.
  - assert (forall n, List.concat (repeat (@nil entity_t) n) = []) as ->.
    { induction n; simpl; auto. }
    constructor.
Qed.

(** ** Degrees *)

Lemma tree_ok_empty (t : Tree) : tree_ok t -> size t = 0 -> members t = [].
Proof.
  intros (_ & _ & _ & H & _) E. rewrite E in H.
  destruct (members t); [reflexivity|simpl in H; lia].
Qed.

Lemma degree_length (live : list string) (e : entity_t) (t : string) :
  entity_ok live e ->
  degree_of e t = Z.of_nat (List.length (in_neighbors_of e t)).
Proof.
  intros H. unfold degree_of, in_neighbors_of.
  destruct (list_search (rel_list e) t) as [r|] eqn:E; [|reflexivity].
  destruct (H _ _ E) as [Hok _]. now apply tree_ok_length.
Qed.

Lemma degree_nonneg (live : list string) (e : entity_t) (t : string) :
  entity_ok live e -> 0 <= degree_of e t.
Proof. intros H. rewrite (degree_length live e t H). lia. Qed.

Lemma in_neighbors_sorted (live : list string) (e : entity_t) (t : string) :
  entity_ok live e -> sorted (in_neighbors_of e t).
Proof.
  intros H. unfold in_neighbors_of.
  destruct (list_search (rel_list e) t) as [r|] eqn:E; [|apply sorted_nil].
  destruct (H _ _ E) as [Hok _]. now apply tree_ok_sorted.
Qed.

Lemma in_neighbors_live (live : list string) (e : entity_t) (t : string) :
  entity_ok live e -> incl (in_neighbors_of e t) live.
Proof.
  intros H. unfold in_neighbors_of.
  destruct (list_search (rel_list e) t) as [r|] eqn:E; [|intros x []].
  now destruct (H _ _ E).
Qed.

Lemma same_degrees_In (t : string) (es es' : list entity_t) :
  same_degrees t es es' ->
  (forall e, In e es ->
     exists e', In e' es' /\ id e' = id e /\ degree_of e' t = degree_of e t) /\
  (forall e', In e' es' ->
     exists e, In e es /\ id e' = id e /\ degree_of e' t = degree_of e t).
Proof.
  induction 1 as [|e e' es es' [H1 H2] _ [IH1 IH2]];
    [split; intros ? []|split].
  - intros a [<-|Ha]; [exists e'; simpl; auto|].
    destruct (IH1 a Ha) as (a' & ? & ?). exists a'. simpl. auto.
  - intros a' [<-|Ha]; [exists e; simpl; auto|].
    destruct (IH2 a' Ha) as (a & ? & ?). exists a. simpl. auto.
Qed.

Lemma descriptor_ok_same (es es' : list entity_t) (d : list_t) :
  same_degrees (key d) es es' -> descriptor_ok es d -> descriptor_ok es' d.
Proof.
  intros Hs (H1 & H2 & H3 & H4 & H5).
  destruct (same_degrees_In _ _ _ Hs) as [F B].
  unfold descriptor_ok. splits; auto.
  - intros e' He'. destruct (B e' He') as (e & He & _ & ->). auto.
  - destruct H4 as (e & He & Hd). destruct (F e He) as (e' & He' & _ & Hd').
    exists e'. split; [assumption|congruence].
  - intros x. split.
    + intros Hx. apply H5 in Hx. destruct Hx as (e & He & Hi & Hd).
      destruct (F e He) as (e' & He' & Hi' & Hd'). exists e'.
      splits; auto; congruence.
    + intros (e' & He' & Hi' & Hd'). apply H5.
      destruct (B e' He') as (e & He & Hi & Hd). exists e.
      splits; auto; congruence.
Qed.

Lemma same_degrees_refl (t : string) (es : list entity_t) : same_degrees t es es.
Proof. induction es; constructor; auto. Qed.

Lemma same_degrees_update (t : string) (l1 l2 : list entity_t) (e e' : entity_t) :
  id e' = id e -> degree_of e' t = degree_of e t ->
  same_degrees t (l1 ++ e :: l2) (l1 ++ e' :: l2).
Proof.
  intros. apply Forall2_app; [apply same_degrees_refl|].
  constructor; [auto|apply same_degrees_refl].
Qed.

(** An entity without relations of the type of a descriptor may come or go. *)
Lemma descriptor_ok_add (l1 l2 : list entity_t) (e : entity_t) (d : list_t) :
  degree_of e (key d) = 0 ->
  descriptor_ok (l1 ++ l2) d <-> descriptor_ok (l1 ++ e :: l2) d.
Proof.
  intros H0. unfold descriptor_ok.
  assert (forall a, In a (l1 ++ e :: l2) <-> a = e \/ In a (l1 ++ l2)) as Hin.
  { intros a. rewrite !in_app_iff. simpl. intuition. }
  split; intros (H1 & H2 & H3 & H4 & H5); splits; auto.
  - intros a Ha. apply Hin in Ha. destruct Ha as [->|Ha]; [lia|auto].
  - destruct H4 as (a & Ha & Hd). exists a. rewrite Hin. auto.
  - intros x. split.
    + intros Hx. apply H5 in Hx. destruct Hx as (a & Ha & Hi & Hd).
      exists a. rewrite Hin. auto.
    + intros (a & Ha & Hi & Hd). apply H5. apply Hin in Ha.
      destruct Ha as [->|Ha]; [lia|]. eauto.
  - intros a Ha. apply H3. apply Hin. auto.
  - destruct H4 as (a & Ha & Hd). apply Hin in Ha.
    destruct Ha as [->|Ha]; [lia|]. eauto.
  - intros x. split.
    + intros Hx. apply H5 in Hx. destruct Hx as (a & Ha & Hi & Hd).
      apply Hin in Ha. destruct Ha as [->|Ha]; [lia|]. eauto.
    + intros (a & Ha & Hi & Hd). apply H5. exists a. rewrite Hin. auto.
Qed.

Lemma entity_ok_incl (live live' : list string) (e : entity_t) :
  incl live live' -> entity_ok live e -> entity_ok live' e.
Proof.
  intros Hi H t r Hr. destruct (H t r Hr). split; [assumption|].
  eapply incl_tran; eauto.
Qed.

Lemma degree_of_new (x t : string) :
  degree_of {| id := x; rel_list := init_list |} t = 0.
Proof. reflexivity. Qed.

(** ** [addent] *)

Lemma inv_init : inv init_state.
Proof.
  unfold inv, init_state, ids, entities. cbn [ENTITIES RELATION_TYPES].
  assert (List.concat init_table = []) as E.
  { unfold init_table. generalize (Z.to_nat HASH_DIMENSION).
    induction n; simpl; auto. }
  rewrite E. splits; auto using table_ok_init; try apply sorted_nil;
    try constructor. intros t e _ [].
Qed.

Lemma addent_new (ident : string) (s : State) :
  inv s -> 0 <= hash_string ident ->
  chain_search (entities s) ident = None ->
  exists s' l1 l2,
    addent ident s = Ok s' /\ inv s' /\
    RELATION_TYPES s' = RELATION_TYPES s /\
    entities s = l1 ++ l2 /\
    entities s' = l1 ++ {| id := ident; rel_list := init_list |} :: l2.
Proof.
  intros (Ht & He & Hs & Hd & H0) Hx Hn. unfold addent, entities in *.
  rewrite (hash_search_ok _ _ Ht Hx), Hn. cbn [bind].
  destruct (hash_insert_spec _ _ Ht Hx Hn) as (ht' & l1 & l2 & -> & E & E' & Hok).
  cbn [bind]. eexists. exists l1, l2. split; [reflexivity|].
  split; [|auto].
  unfold inv, ids, entities. cbn [ENTITIES RELATION_TYPES].
  rewrite E' in *. unfold ids, entities in He. rewrite E in *.
  assert (incl (map id (l1 ++ l2)) (map id (l1 ++ {| id := ident; rel_list := init_list |} :: l2))) as Hincl.
  { intros x. rewrite !map_app, !in_app_iff. simpl. tauto. }
  splits; auto.
  - apply Forall_app in He. destruct He as [He1 He2].
    apply Forall_app. split; [|constructor].
    + eapply Forall_impl; [|exact He1]. intros a Ha. exact (entity_ok_incl _ _ a Hincl Ha).
    + intros t r. discriminate.
    + eapply Forall_impl; [|exact He2]. intros a Ha. exact (entity_ok_incl _ _ a Hincl Ha).
  - eapply Forall_impl; [|exact Hd]. intros d Hd'.
    now apply descriptor_ok_add.
  - intros t e Hnone Hin. apply in_app_or in Hin.
    destruct Hin as [Hin|[<-|Hin]]; [| reflexivity |];
      apply (H0 t e Hnone); apply in_or_app; auto.
Qed.

Lemma addent_known (ident : string) (s : State) (e : entity_t) :
  inv s -> chain_search (entities s) ident = Some e -> addent ident s = Ok s.
Proof.
  intros (Ht & _) Hs. unfold addent, entities in *.
  destruct (chain_search_In _ _ _ Hs) as [<- Hin].
  rewrite (hash_search_live _ _ Ht Hin). reflexivity.
Qed.

(** ** The global recomputation *)

Lemma restore_chain_app (type : string) (l1 l2 : list entity_t) : forall d,
  restore_chain type d (l1 ++ l2) =
  (d' <- restore_chain type d l1 ;; restore_chain type d' l2).
Proof.
  induction l1 as [|e l1 IH]; intros d; simpl; [reflexivity|].
  destruct (restore_entity type d e); simpl; auto.
Qed.

Lemma restore_table_concat (type : string) (ht : HashTable) : forall d,
  restore_table type d ht = restore_chain type d (List.concat ht).
Proof.
  induction ht as [|b ht IH]; intros d; simpl; [reflexivity|].
  rewrite restore_chain_app. destruct (restore_chain type d b); simpl; auto.
Qed.

Lemma In_snoc {A : Type} (l : list A) (a x : A) :
  In x (l ++ [a]) <-> In x l \/ x = a.
Proof. rewrite in_app_iff. simpl. intuition. Qed.

(** The leaders are among the entities seen so far, which leaves room for
    one more. *)
Lemma leaders_room (done : list entity_t) (e : entity_t) (d : list_t) :
  NoDup (map id (done ++ [e])) ->
  Z.of_nat (List.length (done ++ [e])) < USHRT ->
  tree_ok (tree d) ->
  (forall x, In x (leaders d) -> In x (map id done)) ->
  ~ In (id e) (leaders d) /\ size (tree d) + 1 < USHRT.
Proof.
  intros Hnd Hlen Hok Hsub. rewrite map_app in Hnd. simpl in Hnd.
  split.
  - intros Hin. apply Hsub in Hin.
    apply NoDup_remove_2 in Hnd. rewrite app_nil_r in Hnd. contradiction.
  - rewrite (tree_ok_length _ Hok).
    assert (List.length (members (tree d)) <= List.length (map id done))%nat.
    { apply NoDup_incl_length; [|exact Hsub].
      apply sorted_NoDup. now apply tree_ok_sorted. }
    rewrite length_map in H. rewrite length_app in Hlen. simpl in Hlen. lia.
Qed.

(** A tree that holds one entity only. *)
Lemma singleton_tree (t : Tree) (x : string) :
  tree_ok t ->
  exists t', rb_insert (clear_tree t) x = Ok t' /\ tree_ok t' /\
             members t' = [x] /\ size t' = 1.
Proof.
  intros Hok. rewrite (clear_tree_spec _ Hok).
  destruct (rb_insert_spec init_tree x tree_ok_init) as (t' & E & Hok' & Hm & Hs).
  - intros [].
  - unfold USHRT. simpl. lia.
  - exists t'. splits; auto.
    apply sorted_ext.
    + now apply tree_ok_sorted.
    + apply sorted_cons. split; [apply sorted_nil|intros y []].
    + intros y. rewrite Hm. simpl. intuition.
Qed.

Lemma restore_entity_spec (type : string) (done : list entity_t)
  (e : entity_t) (d0 d : list_t) :
  key d = type -> current_maximum d0 = 0 ->
  NoDup (map id (done ++ [e])) ->
  Z.of_nat (List.length (done ++ [e])) < USHRT ->
  tree_ok (tree d) ->
  restoring type done d0 d ->
  exists d', restore_entity type d e = Ok d' /\ key d' = type /\
             tree_ok (tree d') /\ restoring type (done ++ [e]) d0 d'.
Proof.
  intros Hk H0 Hnd Hlen Hok Hr. unfold restore_entity.
  assert (Hdeg : degree_of e type =
                 match list_search (rel_list e) type with
                 | Some r => size (tree r) | None => 0 end) by reflexivity.
  destruct (list_search (rel_list e) type) as [rel|].
  2:{ exists d. splits; auto. destruct Hr as [[-> Hz]|Hd].
      - left. split; [reflexivity|]. intros a Ha. apply In_snoc in Ha.
        destruct Ha as [Ha| ->]; [auto|lia].
      - right. apply (descriptor_ok_add done [] e d); [congruence|].
        now rewrite app_nil_r. }
  set (c := size (tree rel)) in *.
  destruct ((c >? 0) && (c =? current_maximum d)) eqn:C1.
  - (* one more leader *)
    apply andb_prop in C1. destruct C1 as [Cpos Ceq].
    apply Z.gtb_lt in Cpos. apply Z.eqb_eq in Ceq.
    destruct Hr as [[-> Hz]|(D1 & D2 & D3 & D4 & D5)]; [lia|].
    destruct (leaders_room done e d Hnd Hlen Hok) as [Hni Hroom].
    { intros x Hx. apply D5 in Hx. destruct Hx as (a & Ha & <- & _).
      now apply in_map. }
    destruct (rb_insert_spec _ _ Hok Hni Hroom) as (t' & -> & Hok' & Hm & Hs).
    cbn [bind]. eexists. split; [reflexivity|]. cbn [with_tree key tree].
    splits; auto. right. unfold descriptor_ok, leaders.
    cbn [with_tree key tree current_maximum]. rewrite Hk. splits; auto.
    + intros a Ha. apply In_snoc in Ha. destruct Ha as [Ha| ->]; [|lia].
      rewrite <- Hk. auto.
    + exists e. rewrite In_snoc. split; [auto|congruence].
    + intros x. rewrite Hm. split.
      * intros [->|Hx].
        -- exists e. rewrite In_snoc. splits; auto; congruence.
        -- apply D5 in Hx. destruct Hx as (a & Ha & Hi & Hd). exists a.
           rewrite In_snoc. splits; auto; congruence.
      * intros (a & Ha & Hi & Hd). apply In_snoc in Ha.
        destruct Ha as [Ha| ->]; [|auto]. right. apply D5. exists a.
        splits; auto; congruence.
  - destruct (c >? current_maximum d) eqn:C2.
    + (* a new maximum *)
      apply Z.gtb_lt in C2.
      destruct (singleton_tree (tree d) (id e) Hok) as (t' & -> & Hok' & Hm & Hs).
      cbn [bind]. eexists. split; [reflexivity|]. cbn [key tree].
      assert (Hmax : 0 <= current_maximum d).
      { destruct Hr as [[-> _]|(_ & D2 & _)]; lia. }
      assert (Hlow : forall a, In a done -> degree_of a type < c).
      { intros a Ha. destruct Hr as [[-> Hz]|(_ & _ & D3 & _)].
        - specialize (Hz a Ha). lia.
        - specialize (D3 a Ha). rewrite Hk in D3. lia. }
      splits; auto. right. unfold descriptor_ok, leaders.
      cbn [key tree current_maximum]. rewrite Hk. splits; auto; try lia.
      * intros a Ha. apply In_snoc in Ha. destruct Ha as [Ha| ->]; [|lia].
        specialize (Hlow a Ha). lia.
      * exists e. rewrite In_snoc. auto.
      * intros x. rewrite Hm. simpl. split.
        -- intros [<-|[]]. exists e. rewrite In_snoc. auto.
        -- intros (a & Ha & Hi & Hd). apply In_snoc in Ha.
           destruct Ha as [Ha| ->]; [|auto]. specialize (Hlow a Ha). lia.
    + (* nothing to do *)
      rewrite Z.gtb_ltb in C2. apply Z.ltb_ge in C2.
      exists d. splits; auto. destruct Hr as [[-> Hz]|(D1 & D2 & D3 & D4 & D5)].
      * left. split; [reflexivity|]. intros a Ha. apply In_snoc in Ha.
        destruct Ha as [Ha| ->]; [auto|lia].
      * assert (c < current_maximum d) as Hlt.
        { destruct (c >? 0) eqn:Cp; simpl in C1.
          - apply Z.eqb_neq in C1. lia.
          - rewrite Z.gtb_ltb in Cp. apply Z.ltb_ge in Cp. lia. }
        right. unfold descriptor_ok. splits; auto.
        -- intros a Ha. apply In_snoc in Ha. destruct Ha as [Ha| ->]; [auto|].
           rewrite Hk. lia.
        -- destruct D4 as (a & Ha & Hd). exists a. rewrite In_snoc. auto.
        -- intros x. split.
           ++ intros Hx. apply D5 in Hx. destruct Hx as (a & Ha & Hi & Hd).
              exists a. rewrite In_snoc. auto.
           ++ intros (a & Ha & Hi & Hd). apply In_snoc in Ha.
              destruct Ha as [Ha| ->]; [apply D5; eauto|].
              rewrite Hk in Hd. lia.
Qed.

Lemma restore_chain_spec (type : string) (d0 : list_t) :
  current_maximum d0 = 0 ->
  forall todo done d,
  key d = type ->
  NoDup (map id (done ++ todo)) ->
  Z.of_nat (List.length (done ++ todo)) < USHRT ->
  tree_ok (tree d) ->
  restoring type done d0 d ->
  exists d', restore_chain type d todo = Ok d' /\ key d' = type /\
             tree_ok (tree d') /\ restoring type (done ++ todo) d0 d'.
Proof.
  intros H0. induction todo as [|e todo IH]; intros done d Hk Hnd Hlen Hok Hr.
  - exists d. rewrite app_nil_r. auto.
  - replace (done ++ e :: todo) with ((done ++ [e]) ++ todo) in *
      by (rewrite <- app_assoc; reflexivity).
    destruct (restore_entity_spec type done e d0 d Hk H0) as (d1 & E1 & K1 & T1 & R1); auto.
    + rewrite map_app in Hnd. now apply NoDup_app_remove_r in Hnd.
    + rewrite length_app in Hlen. lia.
    + cbn [restore_chain]. rewrite E1. cbn [bind]. now apply IH.
Qed.

Lemma inv_inv_but (type : string) (s : State) : inv s -> inv_but type s.
Proof.
  intros (H1 & H2 & H3 & H4 & H5). unfold inv_but. splits; auto.
  intros d Hd _. rewrite Forall_forall in H4. auto.
Qed.

(** Writing a node back under its key in a list with distinct keys. *)
Lemma types_store (types : List) (type : string) (n d : list_t) :
  sorted (map key types) -> list_search types type = Some n -> key d = type ->
  (forall x, In x (list_store types type d) ->
             x = d \/ (In x types /\ key x <> type)) /\
  sorted (map key (list_store types type d)) /\
  list_search (list_store types type d) type = Some d /\
  (forall t, t <> type ->
             list_search (list_store types type d) t = list_search types t).
Proof.
  intros Hs Hn Hk. splits.
  - destruct (list_search_In _ _ _ Hn) as [Hkn _].
    destruct (list_store_split types type d n Hn) as (l1 & l2 & E & ->).
    rewrite E in Hs. apply sorted_NoDup in Hs.
    rewrite map_app in Hs. simpl in Hs.
    pose proof (NoDup_remove_2 _ _ _ Hs) as Hni.
    intros x Hx. apply in_app_or in Hx. rewrite E.
    destruct Hx as [Hx|[<-|Hx]]; [right| now left |right];
      (split; [apply in_or_app; simpl; auto|]);
      intros F; apply Hni; apply in_or_app; rewrite Hkn, <- F;
      [left|right]; now apply in_map.
  - now rewrite list_store_keys.
  - eapply list_store_same; eauto.
  - intros t Ht. now apply list_store_other.
Qed.

Lemma types_delete (types : List) (type : string) (n : list_t) :
  sorted (map key types) -> list_search types type = Some n ->
  exists types',
    list_delete types type = Ok types' /\
    (forall x, In x types' -> In x types /\ key x <> type) /\
    sorted (map key types') /\
    list_search types' type = None /\
    (forall t, t <> type -> list_search types' t = list_search types t).
Proof.
  intros Hs Hn.
  destruct (list_search_In _ _ _ Hn) as [Hkn _].
  destruct (list_delete_spec types type n Hn) as (l1 & l2 & E & -> & Hn1).
  exists (l1 ++ l2). split; [reflexivity|].
  rewrite E in Hs. pose proof (sorted_NoDup _ Hs) as Hnd.
  rewrite map_app in Hs, Hnd. simpl in Hs, Hnd.
  pose proof (NoDup_remove_2 _ _ _ Hnd) as Hni. rewrite Hkn in Hni.
  splits.
  - intros x Hx. split.
    + rewrite E. apply in_app_or in Hx. apply in_or_app. simpl. tauto.
    + intros F. apply Hni. rewrite <- F, <- map_app. now apply in_map.
  - rewrite map_app. apply sorted_remove_mid in Hs. apply Hs.
  - apply list_search_None. now rewrite map_app.
  - intros t Ht. rewrite E, !list_search_app. simpl.
    destruct (strcmp (key n) t =? 0) eqn:F; [|reflexivity].
    apply strcmp_eq in F. congruence.
Qed.

Lemma restore_data_maximum_spec (data_list n : list_t) (type : string)
  (s : State) :
  inv_but type s -> capacity s ->
  list_search (RELATION_TYPES s) type = Some n ->
  key data_list = type -> tree_ok (tree data_list) ->
  exists s',
    restore_data_maximum data_list type s = Ok s' /\ inv s' /\
    ENTITIES s' = ENTITIES s /\
    (forall t, t <> type -> descriptor s' t = descriptor s t).
Proof.
  intros (Ht & He & Hs & Hd & H0) Hcap Hn Hk Hok.
  unfold restore_data_maximum. rewrite restore_table_concat.
  set (d0 := {| key := key data_list; tree := tree data_list;
                current_maximum := 0 |}).
  destruct (restore_chain_spec type d0 eq_refl (entities s) [] d0)
    as (d & E & Kd & Td & Rd); auto.
  - apply Ht.
  - left. split; [reflexivity|]. intros e [].
  - fold (entities s). rewrite E. cbn [bind]. simpl in Rd.
    destruct (current_maximum d =? 0) eqn:Ez.
    + apply Z.eqb_eq in Ez.
      assert (Hz : forall e, In e (entities s) -> degree_of e type = 0).
      { destruct Rd as [[_ Hz]|(_ & D2 & _)]; [|lia].
        intros e Hin. specialize (Hz e Hin).
        rewrite Forall_forall in He.
        pose proof (degree_nonneg _ e type (He e Hin)). lia. }
      destruct (types_delete _ _ _ Hs Hn) as (types' & -> & Hin' & Hs' & Hn' & Ho').
      cbn [bind]. eexists. split; [reflexivity|]. split; [|split; [reflexivity|]].
      * unfold inv, ids, entities in *. cbn [ENTITIES RELATION_TYPES].
        splits; auto.
        -- apply Forall_forall. intros x Hx. destruct (Hin' x Hx). auto.
        -- intros t e Hnone Hin.
           destruct (String.eqb_spec t type) as [->|Hne]; [auto|].
           rewrite Ho' in Hnone by assumption. eauto.
      * intros t Hne. unfold descriptor. cbn [RELATION_TYPES]. auto.
    + apply Z.eqb_neq in Ez.
      assert (Hdok : descriptor_ok (entities s) d).
      { destruct Rd as [[-> _]|Hdok]; [contradiction|assumption]. }
      rewrite Hk.
      destruct (types_store _ _ n d Hs Hn Kd) as (Hin' & Hs' & Hn' & Ho').
      eexists. split; [reflexivity|]. split; [|split; [reflexivity|]].
      * unfold inv, ids, entities in *. cbn [ENTITIES RELATION_TYPES].
        splits; auto.
        -- apply Forall_forall. intros x Hx.
           destruct (Hin' x Hx) as [->|[Hx1 Hx2]]; auto.
        -- intros t e Hnone Hin.
           destruct (String.eqb_spec t type) as [->|Hne]; [congruence|].
           rewrite Ho' in Hnone by assumption. eauto.
      * intros t Hne. unfold descriptor. cbn [RELATION_TYPES]. auto.
Qed.

(** ** [addrel] *)

Lemma with_tree_id (n : list_t) : with_tree n (tree n) = n.
Proof. now destruct n. Qed.

Lemma with_rel_list_id (e : entity_t) : with_rel_list e (rel_list e) = e.
Proof. now destruct e. Qed.

Lemma table_set_same (ht : HashTable) : forall i head,
  nth_error ht i = Some head -> table_set ht i head = ht.
Proof.
  induction ht as [|b ht IH]; intros [|i] head H; simpl in *; try discriminate.
  - now injection H as ->.
  - now rewrite IH.
Qed.

Lemma entity_store_id (ht : HashTable) (e : entity_t) :
  table_ok ht -> In e (List.concat ht) -> entity_store ht e = ht.
Proof.
  intros Hok Hin.
  assert (Hs : chain_search (List.concat ht) (id e) = Some e).
  { apply chain_search_unique; [apply Hok|assumption]. }
  destruct (found_in_bucket ht _ e Hok Hs)
    as (pre & c1 & c2 & post & Hn & E & Hc1 & He & Hx & Hset).
  unfold entity_store. rewrite (nth_error_nth _ _ _ Hn).
  rewrite (chain_store_split _ c1 c2 e e eq_refl Hc1 eq_refl).
  now apply table_set_same.
Qed.

Lemma room_for (l live : list string) (x : string) :
  NoDup l -> incl l live -> In x live -> ~ In x l ->
  (List.length l < List.length live)%nat.
Proof.
  intros Hnd Hi Hx Hn.
  assert (List.length (x :: l) <= List.length live)%nat.
  { apply NoDup_incl_length; [now constructor|].
    intros y [<-|Hy]; auto. }
  simpl in H. lia.
Qed.

Lemma new_list_t_ok (live : list string) (k : string) :
  tree_ok (tree (new_list_t k)) /\ incl (members (tree (new_list_t k))) live.
Proof. split; [apply tree_ok_init|intros x []]. Qed.

(** The node of a type in the list of an entity, found or created. *)
Lemma rel_node (live : list string) (e : entity_t) (type : string) :
  entity_ok live e ->
  exists rels rel,
    match list_search (rel_list e) type with
    | Some r => (rel_list e, r)
    | None => (list_insert_unordered (rel_list e) type, new_list_t type)
    end = (rels, rel) /\
    list_search rels type = Some rel /\ key rel = type /\
    tree_ok (tree rel) /\ incl (members (tree rel)) live /\
    members (tree rel) = in_neighbors_of e type /\
    size (tree rel) = degree_of e type /\
    (forall t, t <> type -> list_search rels t = list_search (rel_list e) t).
Proof.
  intros Hok. unfold in_neighbors_of, degree_of.
  destruct (list_search (rel_list e) type) as [r|] eqn:E.
  - exists (rel_list e), r. destruct (Hok _ _ E).
    destruct (list_search_In _ _ _ E). splits; auto.
  - exists (list_insert_unordered (rel_list e) type), (new_list_t type).
    destruct (new_list_t_ok live type). splits; auto.
    + simpl. now rewrite strcmp_refl.
    + intros t Ht. simpl. destruct (strcmp type t =? 0) eqn:F; [|reflexivity].
      apply strcmp_eq in F. congruence.
Qed.

Lemma In_update {A : Type} (l1 l2 : list A) (e a : A) :
  In a (l1 ++ e :: l2) <-> a = e \/ In a (l1 ++ l2).
Proof. rewrite !in_app_iff. simpl. intuition. Qed.

Lemma ids_update (l1 l2 : list entity_t) (e e' : entity_t) :
  id e' = id e -> map id (l1 ++ e' :: l2) = map id (l1 ++ e :: l2).
Proof. intros H. rewrite !map_app. simpl. now rewrite H. Qed.

(** In a list of entities with distinct ids, an id names one entity. *)
Lemma same_id_same (es : list entity_t) (a b : entity_t) :
  NoDup (map id es) -> In a es -> In b es -> id a = id b -> a = b.
Proof.
  intros Hnd Ha Hb E.
  pose proof (chain_search_unique es a Hnd Ha) as Sa.
  pose proof (chain_search_unique es b Hnd Hb) as Sb.
  rewrite E in Sa. congruence.
Qed.

Lemma not_in_rest (l1 l2 : list entity_t) (e a : entity_t) :
  NoDup (map id (l1 ++ e :: l2)) -> In a (l1 ++ l2) -> id a <> id e.
Proof.
  intros Hnd Ha E. rewrite map_app in Hnd. simpl in Hnd.
  apply NoDup_remove_2 in Hnd. apply Hnd. rewrite <- E, <- map_app.
  now apply in_map.
Qed.

Lemma addrel_present (from to type : string) (s : State) (fe te : entity_t) :
  inv s ->
  chain_search (entities s) from = Some fe ->
  chain_search (entities s) to = Some te ->
  In from (in_neighbors_of te type) ->
  addrel from to type s = Ok s.
Proof.
  intros (Ht & He & Hs & Hd & H0) Hf Hto Hin.
  destruct (chain_search_In _ _ _ Hf) as [Hfi Hfin].
  destruct (chain_search_In _ _ _ Hto) as [Hti Htin].
  unfold addrel. unfold entities in *.
  rewrite (hash_search_ok _ from Ht), Hf by (rewrite <- Hfi; eapply live_hash; eauto).
  rewrite (hash_search_ok _ to Ht), Hto by (rewrite <- Hti; eapply live_hash; eauto).
  cbn [bind].
  rewrite Forall_forall in He, Hd. pose proof (He te Htin) as Hte.
  unfold in_neighbors_of in Hin.
  destruct (list_search (rel_list te) type) as [r|] eqn:Er; [|contradiction].
  destruct (Hte _ _ Er) as [Hrok Hrlive].
  destruct (list_search (RELATION_TYPES s) type) as [d|] eqn:Ed.
  2:{ exfalso. pose proof (H0 type te Ed Htin) as Hz. unfold degree_of in Hz.
      rewrite Er in Hz. rewrite (tree_ok_empty _ Hrok Hz) in Hin. contradiction. }
  destruct (list_search_In _ _ _ Ed) as [Hdk Hdin].
  destruct (Hd d Hdin) as (D1 & D2 & D3 & D4 & D5).
  assert (is_NIL (fst (tree_search (root (tree r)) (id fe))) = false) as ->.
  { destruct (is_NIL _) eqn:F; [|reflexivity].
    apply (tree_search_NIL _ _ Hrok) in F. rewrite Hfi in F. contradiction. }
  cbn [bind].
  assert (Hdeg : degree_of te (key d) = size (tree r)).
  { unfold degree_of. now rewrite Hdk, Er. }
  assert ((data_list' <-
           (if size (tree r) =? current_maximum d
            then
             if is_NIL (fst (tree_search (root (tree d)) (id te)))
             then t <- rb_insert (tree d) (id te);; Ok (with_tree d t)
             else Ok d
            else
             if size (tree r) >? current_maximum d
             then
              t <- rb_insert (clear_tree (tree d)) (id te);;
              Ok {| key := key d; tree := t; current_maximum := size (tree r) |}
             else Ok d) ;;
           Ok
             {|
               ENTITIES :=
                 entity_store (ENTITIES s)
                   (with_rel_list te
                      (list_store (rel_list te) type (with_tree r (tree r))));
               RELATION_TYPES := list_store (RELATION_TYPES s) type data_list'
             |}) =
          Ok {| ENTITIES :=
                 entity_store (ENTITIES s)
                   (with_rel_list te
                      (list_store (rel_list te) type (with_tree r (tree r))));
               RELATION_TYPES := list_store (RELATION_TYPES s) type d |}) as ->.
  { destruct (size (tree r) =? current_maximum d) eqn:C1.
    - apply Z.eqb_eq in C1.
      assert (is_NIL (fst (tree_search (root (tree d)) (id te))) = false) as ->.
      { destruct (is_NIL _) eqn:F; [|reflexivity].
        apply (tree_search_NIL _ _ D1) in F. exfalso. apply F.
        apply D5. exists te. splits; auto. congruence. }
      reflexivity.
    - destruct (size (tree r) >? current_maximum d) eqn:C2; [|reflexivity].
      apply Z.gtb_lt in C2. specialize (D3 te Htin). lia. }
  rewrite with_tree_id, (list_store_id _ _ _ Er), with_rel_list_id.
  rewrite (entity_store_id _ _ Ht Htin), (list_store_id _ _ _ Ed).
  now destruct s.
Qed.

(** The node of a type in [RELATION_TYPES], found or created. *)
Lemma data_node (s : State) (type : string) :
  inv s ->
  exists types data_list,
    match list_search (RELATION_TYPES s) type with
    | Some d => (RELATION_TYPES s, d)
    | None => (list_insert (RELATION_TYPES s) type, new_list_t type)
    end = (types, data_list) /\
    list_search types type = Some data_list /\ key data_list = type /\
    tree_ok (tree data_list) /\
    sorted (map key types) /\
    current_maximum data_list = max_of (descriptor s type) /\
    leaders data_list = leaders_of (descriptor s type) /\
    (forall t, t <> type -> list_search types t = list_search (RELATION_TYPES s) t) /\
    (forall d, In d types -> key d <> type -> In d (RELATION_TYPES s)) /\
    (forall e, In e (entities s) ->
               degree_of e type <= current_maximum data_list) /\
    (forall x, In x (leaders data_list) <->
               1 <= current_maximum data_list /\
               exists e, In e (entities s) /\ id e = x /\
                         degree_of e type = current_maximum data_list) /\
    (1 <= current_maximum data_list ->
       descriptor s type = Some data_list /\
       exists e, In e (entities s) /\
                 degree_of e type = current_maximum data_list).
Proof.
  intros (Ht & He & Hs & Hd & H0). unfold descriptor.
  destruct (list_search (RELATION_TYPES s) type) as [d|] eqn:E.
  - exists (RELATION_TYPES s), d. destruct (list_search_In _ _ _ E) as [Hk Hin].
    rewrite Forall_forall in Hd. destruct (Hd d Hin) as (D1 & D2 & D3 & D4 & D5).
    rewrite Hk in *. splits; auto.
    intros x. rewrite D5. tauto.
  - exists (list_insert (RELATION_TYPES s) type), (new_list_t type).
    splits; auto using list_insert_same, list_insert_sorted, list_insert_other.
    + apply tree_ok_init.
    + intros d Hin Hne. apply list_insert_In in Hin.
      destruct Hin as [->|Hin]; [contradiction|assumption].
    + intros e Hin. rewrite (H0 _ _ E Hin). simpl. lia.
    + intros x. simpl. split; [intros []|lia].
    + simpl. lia.
Qed.

Lemma addrel_new (from to type : string) (s : State) (fe te : entity_t) :
  inv s -> capacity s ->
  chain_search (entities s) from = Some fe ->
  chain_search (entities s) to = Some te ->
  ~ In from (in_neighbors_of te type) ->
  exists s' te' l1 l2 d',
    addrel from to type s = Ok s' /\ inv s' /\
    entities s = l1 ++ te :: l2 /\ entities s' = l1 ++ te' :: l2 /\
    id te' = id te /\
    (forall t, t <> type ->
               list_search (rel_list te') t = list_search (rel_list te) t) /\
    (forall y, In y (in_neighbors_of te' type) <->
               y = from \/ In y (in_neighbors_of te type)) /\
    degree_of te' type = degree_of te type + 1 /\
    (forall t, t <> type -> descriptor s' t = descriptor s t) /\
    descriptor s' type = Some d' /\
    (degree_of te' type = max_of (descriptor s type) ->
       current_maximum d' = max_of (descriptor s type) /\
       forall x, In x (leaders d') <->
                 x = to \/ In x (leaders_of (descriptor s type))) /\
    (max_of (descriptor s type) < degree_of te' type ->
       degree_of te' type = max_of (descriptor s type) + 1 /\
       current_maximum d' = degree_of te' type /\ leaders d' = [to]) /\
    (degree_of te' type < max_of (descriptor s type) ->
       descriptor s type = Some d').
Proof.
  intros Hinv Hcap Hf Hto Hnew. pose proof Hinv as (Ht & He & Hs & Hd & H0).
  destruct (chain_search_In _ _ _ Hf) as [Hfi Hfin].
  destruct (chain_search_In _ _ _ Hto) as [Hti Htin].
  unfold addrel.
  unfold entities in Hf, Hto.
  rewrite (hash_search_ok _ from Ht), Hf by (rewrite <- Hfi; eapply live_hash; eauto).
  rewrite (hash_search_ok _ to Ht), Hto by (rewrite <- Hti; eapply live_hash; eauto).
  cbn [bind].
  rewrite Forall_forall in He, Hd. pose proof (He te Htin) as Hte.
  destruct (data_node s type Hinv)
    as (types & d & -> & Ed & Kd & Td & Sd & Md & Ld & Od & Id & Bd & Cd & Wd).
  destruct (rel_node _ te type Hte)
    as (rels & rel & -> & Er & Kr & Tr & Lr & Mr & Zr & Or).
  (* the new relation *)
  rewrite Hfi.
  assert (is_NIL (fst (tree_search (root (tree rel)) from)) = true) as ->.
  { apply (tree_search_NIL _ _ Tr). now rewrite Mr. }
  assert (Hfrom : In from (ids s)).
  { unfold ids. rewrite <- Hfi. now apply in_map. }
  assert (Hroom : size (tree rel) + 1 < USHRT).
  { rewrite (tree_ok_length _ Tr).
    pose proof (room_for (members (tree rel)) (ids s) from) as R.
    unfold capacity in Hcap. unfold ids in R at 3. rewrite length_map in R.
    assert (List.length (members (tree rel)) < List.length (entities s))%nat.
    { apply R; auto.
      - apply sorted_NoDup. now apply tree_ok_sorted.
      - now rewrite Mr. }
    lia. }
  destruct (rb_insert_spec (tree rel) from Tr) as (rt & -> & Trt & Mrt & Zrt); auto.
  { now rewrite Mr. }
  cbn [bind].
  set (te' := with_rel_list te (list_store rels type (with_tree rel rt))).
  assert (Hsearch' : list_search (rel_list te') type = Some (with_tree rel rt)).
  { unfold te'. cbn [rel_list with_rel_list]. eapply list_store_same; eauto. }
  assert (Hother' : forall t, t <> type ->
            list_search (rel_list te') t = list_search (rel_list te) t).
  { intros t Hne. unfold te'. cbn [rel_list with_rel_list].
    rewrite list_store_other by auto. auto. }
  assert (Hk : degree_of te' type = degree_of te type + 1).
  { unfold degree_of at 1. rewrite Hsearch'. cbn [tree with_tree]. lia. }
  assert (Hdeg_other : forall t, t <> type -> degree_of te' t = degree_of te t).
  { intros t Hne. unfold degree_of. now rewrite Hother'. }
  assert (Hstore : chain_search (List.concat (ENTITIES s)) (id te') = Some te).
  { unfold te'. cbn [id with_rel_list]. now rewrite Hti. }
  destruct (entity_store_spec _ te te' Ht Hstore) as (l1 & l2 & E & E' & Ht').
  fold (entities s) in E, Htin.
  assert (Hnd : NoDup (map id (l1 ++ te :: l2))).
  { rewrite <- E. apply Ht. }
  assert (Hold : forall a, In a (l1 ++ l2) -> In a (entities s)).
  { intros a Ha. rewrite E. apply In_update. auto. }
  assert (Hkpos : 1 <= degree_of te' type).
  { pose proof (degree_nonneg _ te type Hte). lia. }
  pose proof (Bd te Htin) as Hbound.
  assert (Hnl : degree_of te' type <= current_maximum d ->
                ~ In (id te) (leaders d)).
  { intros Hle F. apply Cd in F. destruct F as (_ & a & Ha & Hi & Hda).
    rewrite (same_id_same _ a te (proj2 (proj2 Ht)) Ha Htin Hi) in Hda. lia. }
  (* the node of the type *)
  assert (exists d',
    (if size rt =? current_maximum d
     then
      if is_NIL (fst (tree_search (root (tree d)) (id te)))
      then t <- rb_insert (tree d) (id te);; Ok (with_tree d t)
      else Ok d
     else
      if size rt >? current_maximum d
      then
       t <- rb_insert (clear_tree (tree d)) (id te);;
       Ok {| key := key d; tree := t; current_maximum := size rt |}
      else Ok d) = Ok d' /\
    key d' = type /\
    descriptor_ok (l1 ++ te' :: l2) d' /\
    (degree_of te' type = current_maximum d ->
       current_maximum d' = current_maximum d /\
       forall x, In x (leaders d') <-> x = to \/ In x (leaders d)) /\
    (current_maximum d < degree_of te' type ->
       degree_of te' type = current_maximum d + 1 /\
       current_maximum d' = degree_of te' type /\ leaders d' = [to]) /\
    (degree_of te' type < current_maximum d -> d' = d))
    as (d' & Ed' & Kd' & Dok' & C1 & C2 & C3).
  { assert (Hsz : size rt = degree_of te' type) by lia. rewrite Hsz.
    destruct (degree_of te' type =? current_maximum d) eqn:Q1.
    - apply Z.eqb_eq in Q1.
      assert (is_NIL (fst (tree_search (root (tree d)) (id te))) = true) as ->.
      { apply (tree_search_NIL _ _ Td). apply Hnl. lia. }
      assert (Hroom' : size (tree d) + 1 < USHRT).
      { rewrite (tree_ok_length _ Td).
        pose proof (room_for (members (tree d)) (ids s) (id te)) as R.
        unfold capacity in Hcap. unfold ids in R at 3. rewrite length_map in R.
        assert (List.length (members (tree d)) < List.length (entities s))%nat.
        { apply R; auto.
          - apply sorted_NoDup. now apply tree_ok_sorted.
          - intros x Hx. apply Cd in Hx. destruct Hx as (_ & a & Ha & <- & _).
            now apply in_map.
          - now apply in_map.
          - apply Hnl. lia. }
        lia. }
      destruct (rb_insert_spec (tree d) (id te) Td (Hnl ltac:(lia)) Hroom')
        as (t' & -> & Tt' & Mt' & Zt').
      cbn [bind]. eexists. split; [reflexivity|].
      unfold descriptor_ok, leaders. cbn [with_tree key tree current_maximum].
      rewrite Kd. splits; auto; try lia.
      + intros a Ha. apply In_update in Ha. destruct Ha as [->|Ha]; [lia|auto].
      + exists te'. split; [apply In_update; auto|assumption].
      + intros x. rewrite Mt'. split.
        * intros [->|Hx].
          -- exists te'. splits; auto. apply In_update; auto.
          -- apply Cd in Hx. destruct Hx as (_ & a & Ha & Hi & Hda).
             exists a. splits; auto. apply In_update. right.
             rewrite E in Ha. apply In_update in Ha.
             destruct Ha as [->|Ha]; [lia|assumption].
        * intros (a & Ha & Hi & Hda). apply In_update in Ha.
          destruct Ha as [->|Ha]; [left; symmetry; exact Hi|].
          right. apply Cd. split; [lia|]. exists a. auto.
      + intros _. split; [reflexivity|]. intros x. rewrite Mt', Hti. tauto.
    - apply Z.eqb_neq in Q1.
      destruct (degree_of te' type >? current_maximum d) eqn:Q2.
      + apply Z.gtb_lt in Q2.
        destruct (singleton_tree (tree d) (id te) Td) as (t' & -> & Tt' & Mt' & Zt').
        cbn [bind]. eexists. split; [reflexivity|].
        unfold descriptor_ok, leaders. cbn [key tree current_maximum].
        rewrite Kd. splits; auto; try lia.
        * intros a Ha. apply In_update in Ha.
          destruct Ha as [->|Ha]; [lia|]. specialize (Bd a (Hold a Ha)). lia.
        * exists te'. split; [apply In_update; auto|reflexivity].
        * intros x. rewrite Mt'. simpl. split.
          -- intros [<-|[]]. exists te'. splits; auto. apply In_update; auto.
          -- intros (a & Ha & Hi & Hda). apply In_update in Ha.
             destruct Ha as [->|Ha]; [left; exact Hi|].
             specialize (Bd a (Hold a Ha)). lia.
        * intros _. splits; auto; try lia. now rewrite Mt', Hti.
      + rewrite Z.gtb_ltb in Q2. apply Z.ltb_ge in Q2.
        exists d. splits; auto; try lia.
        assert (1 <= current_maximum d) as Hpos by lia.
        destruct (Wd Hpos) as (_ & w & Hw & Hdw).
        unfold descriptor_ok. rewrite Kd. splits; auto.
        * intros a Ha. apply In_update in Ha. destruct Ha as [->|Ha]; [lia|auto].
        * exists w. split; [|assumption]. apply In_update. right.
          rewrite E in Hw. apply In_update in Hw.
          destruct Hw as [->|Hw]; [lia|assumption].
        * intros x. split.
          -- intros Hx. apply Cd in Hx. destruct Hx as (_ & a & Ha & Hi & Hda).
             exists a. splits; auto. apply In_update. right.
             rewrite E in Ha. apply In_update in Ha.
             destruct Ha as [->|Ha]; [lia|assumption].
          -- intros (a & Ha & Hi & Hda). apply In_update in Ha.
             destruct Ha as [->|Ha]; [lia|].
             apply Cd. split; [lia|]. exists a. auto. }
  rewrite Ed'. cbn [bind].
  destruct (types_store types type d d' Sd Ed Kd') as (Hin' & Hs' & Hn' & Ho').
  eexists. exists te', l1, l2, d'. split; [reflexivity|].
  assert (Hids : ids {| ENTITIES := entity_store (ENTITIES s) te';
                        RELATION_TYPES := list_store types type d' |} = ids s).
  { unfold ids, entities. cbn [ENTITIES]. rewrite E'. fold (entities s).
    rewrite E. now apply ids_update. }
  unfold descriptor in *. cbn [RELATION_TYPES].
  splits; auto.
  - (* the invariant *)
    unfold inv. rewrite Hids. unfold entities. cbn [ENTITIES RELATION_TYPES].
    rewrite E'. splits; auto.
    + apply Forall_forall. intros a Ha. apply In_update in Ha.
      destruct Ha as [->|Ha]; [|auto].
      intros t r Hr. destruct (String.eqb_spec t type) as [->|Hne].
      * rewrite Hsearch' in Hr. injection Hr as <-. cbn [tree with_tree].
        split; [assumption|]. intros y Hy. apply Mrt in Hy.
        destruct Hy as [->|Hy]; auto.
      * rewrite Hother' in Hr by assumption. eauto.
    + apply Forall_forall. intros x Hx.
      destruct (Hin' x Hx) as [->|[Hx1 Hx2]]; [assumption|].
      apply descriptor_ok_same with (es := entities s).
      * rewrite E. apply same_degrees_update; auto.
      * auto.
    + intros t a Hnone Ha.
      destruct (String.eqb_spec t type) as [->|Hne]; [congruence|].
      rewrite Ho', Od in Hnone by assumption.
      apply In_update in Ha. destruct Ha as [->|Ha].
      * rewrite Hdeg_other by assumption. eauto.
      * eauto.
  - intros y. unfold in_neighbors_of at 1. rewrite Hsearch'.
    cbn [tree with_tree]. rewrite Mrt, Mr. tauto.
  - intros t Hne. rewrite Ho', Od by assumption. reflexivity.
  - rewrite <- Md, <- Ld. exact C1.
  - rewrite <- Md. exact C2.
  - rewrite <- Md. intros Hlt. rewrite (C3 Hlt).
    apply Wd. lia.
Qed.

(** ** [delrel] *)

(** One entity gets new trees for one type: the invariant holds but for the
    node of that type. *)
Lemma inv_but_update (s : State) (type : string) (te te' : entity_t)
  (l1 l2 : list entity_t) (ht' : HashTable) :
  inv s -> entities s = l1 ++ te :: l2 ->
  List.concat ht' = l1 ++ te' :: l2 -> table_ok ht' ->
  id te' = id te ->
  (forall t, t <> type ->
             list_search (rel_list te') t = list_search (rel_list te) t) ->
  (forall r, list_search (rel_list te') type = Some r ->
             tree_ok (tree r) /\ incl (members (tree r)) (ids s)) ->
  inv_but type {| ENTITIES := ht'; RELATION_TYPES := RELATION_TYPES s |} /\
  ids {| ENTITIES := ht'; RELATION_TYPES := RELATION_TYPES s |} = ids s.
Proof.
  intros (Ht & He & Hs & Hd & H0) E E' Ht' Hid Hother Htype.
  assert (Hids : ids {| ENTITIES := ht'; RELATION_TYPES := RELATION_TYPES s |}
                 = ids s).
  { unfold ids, entities at 1. cbn [ENTITIES]. rewrite E', E.
    now apply ids_update. }
  split; [|exact Hids].
  unfold inv_but. rewrite Hids. unfold entities at 1 2 3.
  cbn [ENTITIES RELATION_TYPES]. rewrite E'.
  rewrite Forall_forall in He, Hd.
  assert (Hte : In te (entities s)) by (rewrite E; apply In_update; auto).
  assert (Hold : forall a, In a (l1 ++ l2) -> In a (entities s)).
  { intros a Ha. rewrite E. apply In_update. auto. }
  assert (Hdeg : forall t, t <> type -> degree_of te' t = degree_of te t).
  { intros t Hne. unfold degree_of. now rewrite Hother. }
  splits; auto.
  - apply Forall_forall. intros a Ha. apply In_update in Ha.
    destruct Ha as [->|Ha]; [|auto].
    intros t r Hr. destruct (String.eqb_spec t type) as [->|Hne]; [auto|].
    rewrite Hother in Hr by assumption. exact (He te Hte t r Hr).
  - intros d Hin Hne. apply descriptor_ok_same with (es := entities s); [|auto].
    rewrite E. apply same_degrees_update; auto.
  - intros t a Hne Hnone Ha. apply In_update in Ha. destruct Ha as [->|Ha].
    + rewrite Hdeg by assumption. eauto.
    + eauto.
Qed.

(** The node of the type is written back, valid for the entities. *)
Lemma inv_from_but (s : State) (type : string) (n d : list_t) :
  inv_but type s -> list_search (RELATION_TYPES s) type = Some n ->
  key d = type -> descriptor_ok (entities s) d ->
  inv {| ENTITIES := ENTITIES s;
         RELATION_TYPES := list_store (RELATION_TYPES s) type d |}.
Proof.
  intros (Ht & He & Hs & Hd & H0) Hn Hk Hok.
  destruct (types_store _ _ n d Hs Hn Hk) as (Hin' & Hs' & Hn' & Ho').
  unfold inv, ids, entities in *. cbn [ENTITIES RELATION_TYPES].
  splits; auto.
  - apply Forall_forall. intros x Hx.
    destruct (Hin' x Hx) as [->|[Hx1 Hx2]]; auto.
  - intros t e Hnone Hin.
    destruct (String.eqb_spec t type) as [->|Hne]; [congruence|].
    rewrite Ho' in Hnone by assumption. eauto.
Qed.

Lemma delrel_absent (from to type : string) (s : State) (fe te : entity_t) :
  inv s ->
  chain_search (entities s) from = Some fe ->
  chain_search (entities s) to = Some te ->
  ~ In from (in_neighbors_of te type) ->
  delrel from to type s = Ok s.
Proof.
  intros (Ht & He & Hs & Hd & H0) Hf Hto Hnot.
  destruct (chain_search_In _ _ _ Hf) as [Hfi Hfin].
  destruct (chain_search_In _ _ _ Hto) as [Hti Htin].
  unfold delrel. unfold entities in *.
  rewrite (hash_search_ok _ from Ht), Hf by (rewrite <- Hfi; eapply live_hash; eauto).
  rewrite (hash_search_ok _ to Ht), Hto by (rewrite <- Hti; eapply live_hash; eauto).
  cbn [bind].
  destruct (list_search (RELATION_TYPES s) type) as [d|]; [|reflexivity].
  unfold in_neighbors_of in Hnot.
  destruct (list_search (rel_list te) type) as [r|] eqn:Er; [|reflexivity].
  rewrite Forall_forall in He. destruct (He te Htin _ _ Er) as [Hrok _].
  rewrite Hfi.
  assert (is_NIL (fst (tree_search (root (tree r)) from)) = true) as ->.
  { now apply (tree_search_NIL _ _ Hrok). }
  reflexivity.
Qed.

Lemma delrel_present (from to type : string) (s : State) (fe te : entity_t) :
  inv s -> capacity s ->
  chain_search (entities s) from = Some fe ->
  chain_search (entities s) to = Some te ->
  In from (in_neighbors_of te type) ->
  exists s' te' l1 l2 d,
    delrel from to type s = Ok s' /\ inv s' /\
    entities s = l1 ++ te :: l2 /\ entities s' = l1 ++ te' :: l2 /\
    id te' = id te /\
    (forall t, t <> type ->
               list_search (rel_list te') t = list_search (rel_list te) t) /\
    (forall y, In y (in_neighbors_of te' type) <->
               In y (in_neighbors_of te type) /\ y <> from) /\
    degree_of te' type = degree_of te type - 1 /\
    (forall t, t <> type -> descriptor s' t = descriptor s t) /\
    descriptor s type = Some d /\
    (degree_of te type <> current_maximum d -> descriptor s' type = Some d) /\
    (degree_of te type = current_maximum d -> 1 < size (tree d) ->
       exists d', descriptor s' type = Some d' /\
                  current_maximum d' = current_maximum d /\
                  forall x, In x (leaders d') <-> In x (leaders d) /\ x <> to) /\
    (degree_of te type = current_maximum d -> size (tree d) <= 1 ->
       restore_data_maximum d type
         {| ENTITIES := ENTITIES s'; RELATION_TYPES := RELATION_TYPES s |}
       = Ok s').
Proof.
  intros Hinv Hcap Hf Hto Hin. pose proof Hinv as (Ht & He & Hs & Hd & H0).
  destruct (chain_search_In _ _ _ Hf) as [Hfi Hfin].
  destruct (chain_search_In _ _ _ Hto) as [Hti Htin].
  unfold delrel. unfold entities in Hf, Hto.
  rewrite (hash_search_ok _ from Ht), Hf by (rewrite <- Hfi; eapply live_hash; eauto).
  rewrite (hash_search_ok _ to Ht), Hto by (rewrite <- Hti; eapply live_hash; eauto).
  cbn [bind].
  rewrite Forall_forall in He, Hd. pose proof (He te Htin) as Hte.
  pose proof Hin as Hin'. unfold in_neighbors_of in Hin'.
  destruct (list_search (rel_list te) type) as [r|] eqn:Er; [|contradiction].
  destruct (Hte _ _ Er) as [Hrok Hrlive].
  destruct (list_search_In _ _ _ Er) as [Hrk _].
  destruct (list_search (RELATION_TYPES s) type) as [d|] eqn:Ed.
  2:{ exfalso. pose proof (H0 type te Ed Htin) as Hz. unfold degree_of in Hz.
      rewrite Er in Hz. rewrite (tree_ok_empty _ Hrok Hz) in Hin'. contradiction. }
  destruct (list_search_In _ _ _ Ed) as [Hdk Hdin].
  destruct (Hd d Hdin) as (D1 & D2 & D3 & D4 & D5). rewrite Hdk in *.
  rewrite Hfi.
  assert (is_NIL (fst (tree_search (root (tree r)) from)) = false) as ->.
  { destruct (is_NIL _) eqn:F; [|reflexivity].
    apply (tree_search_NIL _ _ Hrok) in F. contradiction. }
  destruct (rb_delete_spec (tree r) from Hrok Hin') as (rt & -> & Trt & Mrt & Zrt).
  cbn [bind].
  set (te' := with_rel_list te (list_store (rel_list te) type (with_tree r rt))).
  assert (Hsearch' : list_search (rel_list te') type = Some (with_tree r rt)).
  { unfold te'. cbn [rel_list with_rel_list]. eapply list_store_same; eauto. }
  assert (Hother' : forall t, t <> type ->
            list_search (rel_list te') t = list_search (rel_list te) t).
  { intros t Hne. unfold te'. cbn [rel_list with_rel_list].
    now rewrite list_store_other by auto. }
  assert (Hdeg : degree_of te type = size (tree r)).
  { unfold degree_of. now rewrite Er. }
  assert (Hk : degree_of te' type = degree_of te type - 1).
  { unfold degree_of at 1. rewrite Hsearch'. cbn [tree with_tree]. lia. }
  assert (Hstore : chain_search (List.concat (ENTITIES s)) (id te') = Some te).
  { unfold te'. cbn [id with_rel_list]. now rewrite Hti. }
  destruct (entity_store_spec _ te te' Ht Hstore) as (l1 & l2 & E & E' & Ht').
  fold (entities s) in E, Htin.
  destruct (inv_but_update s type te te' l1 l2 _ Hinv E E' Ht' eq_refl Hother')
    as [Hbut Hids].
  { intros r' Hr'. rewrite Hsearch' in Hr'. injection Hr' as <-.
    cbn [tree with_tree]. split; [assumption|].
    intros y Hy. apply Mrt in Hy. apply Hrlive. tauto. }
  set (s1 := {| ENTITIES := entity_store (ENTITIES s) te';
                RELATION_TYPES := RELATION_TYPES s |}) in *.
  assert (Es1 : entities s1 = l1 ++ te' :: l2) by exact E'.
  assert (Hcap1 : capacity s1).
  { unfold capacity in *. rewrite Es1. rewrite E in Hcap.
    rewrite !length_app in *. simpl in *. lia. }
  assert (Hold : forall a, In a (l1 ++ l2) -> In a (entities s)).
  { intros a Ha. rewrite E. apply In_update. auto. }
  assert (Hneigh : forall y, In y (in_neighbors_of te' type) <->
                             In y (in_neighbors_of te type) /\ y <> from).
  { intros y. unfold in_neighbors_of. rewrite Hsearch', Er.
    cbn [tree with_tree]. apply Mrt. }
  assert (Hkold : 1 <= degree_of te type).
  { rewrite Hdeg, (tree_ok_length _ Hrok).
    destruct (members (tree r)); [contradiction|simpl; lia]. }
  pose proof (D3 te Htin) as Hbound.
  replace (size rt + 1) with (degree_of te type) by lia.
  destruct (degree_of te type =? current_maximum d) eqn:Q1.
  - apply Z.eqb_eq in Q1.
    assert (Hlead : In (id te) (leaders d)).
    { apply D5. exists te. auto. }
    destruct (size (tree d) >? 1) eqn:Q2.
    + (* another leader is left *)
      apply Z.gtb_lt in Q2.
      destruct (rb_delete_spec (tree d) (id te) D1 Hlead) as (t' & -> & Tt' & Mt' & Zt').
      cbn [bind].
      assert (Dok' : descriptor_ok (entities s1) (with_tree d t')).
      { rewrite Es1. unfold descriptor_ok, leaders.
        cbn [with_tree key tree current_maximum]. rewrite Hdk.
        assert (exists x, In x (members t')) as (w & Hw).
        { pose proof (tree_ok_length _ Tt') as L.
          destruct (members t') as [|w ?]; [simpl in L; lia|]. exists w. now left. }
        apply Mt' in Hw. destruct Hw as [Hw Hwne].
        apply D5 in Hw. destruct Hw as (a & Ha & Hi & Hda).
        assert (In a (l1 ++ l2)) as Ha'.
        { rewrite E in Ha. apply In_update in Ha.
          destruct Ha as [->|Ha]; [congruence|assumption]. }
        splits; auto.
        - intros b Hb. apply In_update in Hb. destruct Hb as [->|Hb]; [lia|auto].
        - exists a. split; [apply In_update; auto|assumption].
        - intros x. rewrite Mt'. split.
          + intros [Hx Hne]. apply D5 in Hx. destruct Hx as (b & Hb & Hbi & Hbd).
            exists b. splits; auto. apply In_update. right.
            rewrite E in Hb. apply In_update in Hb.
            destruct Hb as [->|Hb]; [congruence|assumption].
          + intros (b & Hb & Hbi & Hbd). apply In_update in Hb.
            destruct Hb as [->|Hb]; [lia|]. split.
            * apply D5. exists b. auto.
            * rewrite <- Hbi. eapply not_in_rest; eauto.
              rewrite <- E. apply Ht. }
      pose proof (inv_from_but s1 type d (with_tree d t') Hbut Ed Hdk Dok') as Hinv'.
      destruct (types_store _ _ d (with_tree d t') Hs Ed Hdk) as (_ & _ & Hn' & Ho').
      eexists. exists te', l1, l2, d. split; [reflexivity|].
      unfold descriptor. cbn [RELATION_TYPES].
      splits; auto; try lia.
      * intros _ _. eexists. split; [exact Hn'|].
        unfold leaders. cbn [with_tree tree current_maximum].
        split; [reflexivity|]. intros x. rewrite Mt', Hti. tauto.
    + (* the only leader: recomputation *)
      rewrite Z.gtb_ltb in Q2. apply Z.ltb_ge in Q2.
      destruct (restore_data_maximum_spec d d type s1 Hbut Hcap1 Ed Hdk D1)
        as (s' & Es' & Hinv' & Ent' & Ho').
      rewrite Es'. exists s', te', l1, l2, d. split; [reflexivity|].
      assert (entities s' = l1 ++ te' :: l2) as Ee'.
      { unfold entities. rewrite Ent'. exact E'. }
      splits; auto; try lia.
      intros _ _. rewrite Ent'. exact Es'.
  - (* the entity was no leader *)
    apply Z.eqb_neq in Q1.
    assert (Dok' : descriptor_ok (entities s1) d).
    { rewrite Es1. unfold descriptor_ok. rewrite Hdk.
      destruct D4 as (a & Ha & Hda).
      assert (In a (l1 ++ l2)) as Ha'.
      { rewrite E in Ha. apply In_update in Ha.
        destruct Ha as [->|Ha]; [congruence|assumption]. }
      splits; auto.
      - intros b Hb. apply In_update in Hb. destruct Hb as [->|Hb]; [lia|auto].
      - exists a. split; [apply In_update; auto|assumption].
      - intros x. split.
        + intros Hx. apply D5 in Hx. destruct Hx as (b & Hb & Hbi & Hbd).
          exists b. splits; auto. apply In_update. right.
          rewrite E in Hb. apply In_update in Hb.
          destruct Hb as [->|Hb]; [congruence|assumption].
        + intros (b & Hb & Hbi & Hbd). apply In_update in Hb.
          destruct Hb as [->|Hb]; [lia|]. apply D5. exists b. auto. }
    pose proof (inv_from_but s1 type d d Hbut Ed Hdk Dok') as Hinv'.
    unfold s1 in Hinv'. cbn [ENTITIES RELATION_TYPES] in Hinv'.
    rewrite (list_store_id _ _ _ Ed) in Hinv'.
    exists s1, te', l1, l2, d. split; [reflexivity|].
    unfold descriptor. splits; auto; try lia.
Qed.

(** ** [delent] *)

Lemma delent_entity_spec (live : list string) (search : string)
  (rc : list_t) (e : entity_t) :
  entity_ok live e -> tree_ok (tree rc) ->
  exists e' rc',
    delent_entity search rc e = Ok (e', rc') /\
    purged search (key rc) e e' /\
    key rc' = key rc /\ tree_ok (tree rc').
Proof.
  intros He Hrc. unfold delent_entity.
  destruct (list_search (rel_list e) (key rc)) as [l|] eqn:El.
  2:{ exists e, rc. splits; auto. unfold purged, in_neighbors_of. rewrite El.
      splits; auto; [discriminate|]. intros y. simpl. tauto. }
  destruct (He _ _ El) as [Hl Hlive].
  destruct (list_search_In _ _ _ El) as [Hlk _].
  assert (Hpur : forall t',
    tree_ok t' ->
    (forall y, In y (members t') <->
               In y (members (tree l)) /\ y <> search /\ id e <> search) ->
    purged search (key rc) e
      (with_rel_list e (list_store (rel_list e) (key rc) (with_tree l t')))).
  { intros t' Ht' Hm. unfold purged. cbn [id rel_list with_rel_list].
    assert (list_search (list_store (rel_list e) (key rc) (with_tree l t')) (key rc)
            = Some (with_tree l t')) as Hs.
    { eapply list_store_same; eauto. }
    splits; auto.
    - intros t Hne. now rewrite list_store_other by auto.
    - intros r Hr. rewrite Hs in Hr. now injection Hr as <-.
    - intros y. unfold in_neighbors_of. cbn [rel_list with_rel_list].
      rewrite Hs, El. apply Hm. }
  destruct (String.eqb_spec (id e) search) as [Heq|Hne].
  - (* the entity to delete: its tree is cleared *)
    rewrite (clear_tree_spec _ Hl).
    assert (Hp : purged search (key rc) e
                   (with_rel_list e (list_store (rel_list e) (key rc)
                                       (with_tree l init_tree)))).
    { apply Hpur; [apply tree_ok_init|]. intros y. simpl. tauto. }
    destruct (is_NIL (fst (tree_search (root (tree rc)) (id e)))) eqn:F.
    + do 2 eexists. split; [reflexivity|]. auto.
    + assert (In (id e) (members (tree rc))) as Hin.
      { destruct (in_dec string_dec (id e) (members (tree rc))) as [H|H]; [assumption|].
        apply (tree_search_NIL _ _ Hrc) in H. congruence. }
      destruct (rb_delete_spec _ _ Hrc Hin) as (t' & -> & Tt' & _).
      cbn [bind]. do 2 eexists. split; [reflexivity|]. auto.
  - destruct (is_NIL (fst (tree_search (root (tree l)) search))) eqn:F.
    + exists e, rc. splits; auto.
      apply (tree_search_NIL _ _ Hl) in F.
      unfold purged, in_neighbors_of. rewrite El. splits; auto.
      * intros r [= <-]. assumption.
      * intros y. split; [|tauto]. intros Hy. splits; auto. congruence.
    + assert (In search (members (tree l))) as Hin.
      { destruct (in_dec string_dec search (members (tree l))) as [H|H]; [assumption|].
        apply (tree_search_NIL _ _ Hl) in H. congruence. }
      destruct (rb_delete_spec _ _ Hl Hin) as (t' & -> & Tt' & Mt' & _).
      cbn [bind]. do 2 eexists. split; [reflexivity|]. splits; auto.
      apply Hpur; [assumption|]. intros y. rewrite Mt'. tauto.
Qed.

Lemma purged_entity_ok (live : list string) (search type : string)
  (e e' : entity_t) :
  purged search type e e' -> entity_ok live e -> entity_ok live e'.
Proof.
  intros (Hid & Ho & Ht & Hm) He t r Hr.
  destruct (String.eqb_spec t type) as [->|Hne].
  - split; [eauto|]. intros y Hy.
    assert (In y (in_neighbors_of e' type)) as Hy'.
    { unfold in_neighbors_of. now rewrite Hr. }
    apply Hm in Hy'. destruct Hy' as [Hy' _].
    exact (in_neighbors_live live e type He y Hy').
  - rewrite Ho in Hr by assumption. eauto.
Qed.

Lemma delent_chain_spec (live : list string) (search : string) :
  forall chain rc,
  Forall (entity_ok live) chain -> tree_ok (tree rc) ->
  exists chain' rc',
    delent_chain search rc chain = Ok (chain', rc') /\
    Forall2 (purged search (key rc)) chain chain' /\
    key rc' = key rc /\ tree_ok (tree rc').
Proof.
  induction chain as [|e chain IH]; intros rc Hc Hrc.
  - exists [], rc. splits; auto.
  - inversion Hc as [|? ? He Hc']; subst.
    destruct (delent_entity_spec live search rc e He Hrc)
      as (e' & rc1 & E1 & P1 & K1 & T1).
    destruct (IH rc1 Hc' T1) as (chain' & rc2 & E2 & P2 & K2 & T2).
    cbn [delent_chain]. rewrite E1. cbn [bind]. rewrite E2. cbn [bind].
    exists (e' :: chain'), rc2. rewrite K1 in *. splits; auto; congruence.
Qed.

Lemma delent_table_spec (live : list string) (search : string) :
  forall table rc,
  Forall (entity_ok live) (List.concat table) -> tree_ok (tree rc) ->
  exists table' rc',
    delent_table search rc table = Ok (table', rc') /\
    Forall2 (Forall2 (purged search (key rc))) table table' /\
    key rc' = key rc /\ tree_ok (tree rc').
Proof.
  induction table as [|head table IH]; intros rc Hc Hrc.
  - exists [], rc. splits; auto.
  - simpl in Hc. apply Forall_app in Hc. destruct Hc as [Hh Ht].
    destruct (delent_chain_spec live search head rc Hh Hrc)
      as (head' & rc1 & E1 & P1 & K1 & T1).
    destruct (IH rc1 Ht T1) as (table' & rc2 & E2 & P2 & K2 & T2).
    cbn [delent_table]. rewrite E1. cbn [bind]. rewrite E2. cbn [bind].
    exists (head' :: table'), rc2. rewrite K1 in *. splits; auto; congruence.
Qed.

Lemma Forall2_concat {A B : Type} (R : A -> B -> Prop)
  (l : list (list A)) (l' : list (list B)) :
  Forall2 (Forall2 R) l l' -> Forall2 R (List.concat l) (List.concat l').
Proof.
  induction 1; simpl; [constructor|]. now apply Forall2_app.
Qed.

Lemma Forall2_ids (R : entity_t -> entity_t -> Prop) (l l' : list entity_t) :
  (forall e e', R e e' -> id e' = id e) ->
  Forall2 R l l' -> map id l' = map id l.
Proof.
  intros HR. induction 1; simpl; [reflexivity|]. f_equal; auto.
Qed.

(** A sweep keeps the table well formed. *)
Lemma table_ok_sweep (R : entity_t -> entity_t -> Prop) (ht ht' : HashTable) :
  (forall e e', R e e' -> id e' = id e) ->
  Forall2 (Forall2 R) ht ht' -> table_ok ht -> table_ok ht'.
Proof.
  intros HR H2 (Hl & Hb & Hd). split; [|split].
  - rewrite <- (Forall2_length H2). exact Hl.
  - clear Hl Hd. revert Hb.
    change (buckets_from 0 ht -> buckets_from 0 ht'). generalize 0%nat.
    induction H2 as [|b b' ht ht' Hbb H2 IH]; intros off Hb i head e Hi He.
    + destruct i; discriminate.
    + destruct i; simpl in Hi.
      * injection Hi as <-.
        assert (exists e0, In e0 b /\ R e0 e) as (e0 & He0 & HR0).
        { clear - Hbb He. induction Hbb; [contradiction|].
          destruct He as [<-|He]; [eexists; split; [now left|eassumption]|].
          destruct (IHHbb He) as (e0 & ? & ?). exists e0. split; [now right|auto]. }
        rewrite (HR _ _ HR0). exact (Hb O b e0 eq_refl He0).
      * rewrite (IH (S off) (buckets_from_tail _ _ _ Hb) i head e Hi He).
        f_equal. lia.
  - rewrite (Forall2_ids R _ _ HR (Forall2_concat _ _ _ H2)). exact Hd.
Qed.

Lemma purged_in_step (search t : string) (ts : list string)
  (e e1 e2 : entity_t) :
  ~ In t ts -> purged search t e e1 -> purged_in search ts e1 e2 ->
  purged_in search (t :: ts) e e2.
Proof.
  intros Hn (I1 & O1 & _ & M1) (I2 & O2 & M2). unfold purged_in. splits.
  - congruence.
  - intros t' Hn'. simpl in Hn'. rewrite O2 by tauto. apply O1.
    intros ->. tauto.
  - intros t' y [<-|Hin].
    + unfold in_neighbors_of at 1. rewrite O2 by assumption. apply M1.
    + rewrite M2 by assumption. rewrite I1.
      assert (t' <> t) as Hne by (intros ->; contradiction).
      unfold in_neighbors_of. rewrite O1 by assumption. reflexivity.
Qed.

Lemma Forall2_compose {A : Type} (R1 R2 R : A -> A -> Prop) (l l1 l2 : list A) :
  (forall a b c, R1 a b -> R2 b c -> R a c) ->
  Forall2 R1 l l1 -> Forall2 R2 l1 l2 -> Forall2 R l l2.
Proof.
  intros HR H1. revert l2. induction H1; intros l2 H2; inversion H2; subst.
  - constructor.
  - constructor; eauto.
Qed.

Lemma Forall2_In_l {A B : Type} (R : A -> B -> Prop) (l : list A) (l' : list B) :
  Forall2 R l l' -> forall a, In a l -> exists b, In b l' /\ R a b.
Proof.
  induction 1; intros a [].
  - subst. eexists. split; [now left|eassumption].
  - destruct (IHForall2 a H1) as (b & ? & ?). exists b. split; [now right|auto].
Qed.

Lemma Forall2_In_r {A B : Type} (R : A -> B -> Prop) (l : list A) (l' : list B) :
  Forall2 R l l' -> forall b, In b l' -> exists a, In a l /\ R a b.
Proof.
  induction 1; intros b [].
  - subst. eexists. split; [now left|eassumption].
  - destruct (IHForall2 b H1) as (a & ? & ?). exists a. split; [now right|auto].
Qed.

Lemma purged_degree (live : list string) (search type t : string)
  (e e' : entity_t) :
  purged search type e e' -> t <> type -> degree_of e' t = degree_of e t.
Proof. intros (_ & Ho & _) Hne. unfold degree_of. now rewrite Ho. Qed.

Lemma inv_but_sweep (s : State) (search type : string) (table' : HashTable) :
  inv s ->
  Forall2 (Forall2 (purged search type)) (ENTITIES s) table' ->
  inv_but type {| ENTITIES := table'; RELATION_TYPES := RELATION_TYPES s |} /\
  Forall2 (purged search type) (entities s)
    (entities {| ENTITIES := table'; RELATION_TYPES := RELATION_TYPES s |}).
Proof.
  intros (Ht & He & Hs & Hd & H0) H2.
  pose proof (Forall2_concat _ _ _ H2) as Hc. fold (entities s) in Hc.
  assert (Hid : forall e e', purged search type e e' -> id e' = id e).
  { intros e e' H. apply H. }
  split; [|exact Hc].
  unfold inv_but, ids. unfold entities at 1 2 3 4. cbn [ENTITIES RELATION_TYPES].
  rewrite (Forall2_ids _ _ _ Hid Hc). fold (ids s).
  assert (Hsame : forall t, t <> type ->
            same_degrees t (entities s) (List.concat table')).
  { intros t Hne. eapply Forall2_impl; [|exact Hc].
    intros e e' Hp. split; [now apply Hid|].
    eapply purged_degree; eauto. exact []. }
  splits; auto.
  - eapply table_ok_sweep; eauto.
  - apply Forall_forall. intros e' He'.
    destruct (Forall2_In_r _ _ _ Hc e' He') as (e & Hin & Hp).
    rewrite Forall_forall in He. eapply purged_entity_ok; eauto.
  - intros d Hin Hne. rewrite Forall_forall in Hd.
    eapply descriptor_ok_same; [apply Hsame|]; auto.
  - intros t e' Hne Hnone He'.
    destruct (Forall2_In_r _ _ _ Hc e' He') as (e & Hin & Hp).
    rewrite (purged_degree [] _ _ _ _ _ Hp Hne). eauto.
Qed.

Lemma delent_types_spec (search : string) : forall remaining s,
  inv s -> capacity s -> NoDup (map key remaining) ->
  (forall c, In c remaining -> list_search (RELATION_TYPES s) (key c) = Some c) ->
  exists s',
    delent_types search remaining s = Ok s' /\ inv s' /\
    Forall2 (purged_in search (map key remaining)) (entities s) (entities s') /\
    (forall t, ~ In t (map key remaining) -> descriptor s' t = descriptor s t).
Proof.
  induction remaining as [|cursor next IH]; intros s Hinv Hcap Hnd Hcur.
  - exists s. splits; auto. apply Forall2_impl with (R1 := eq).
    + intros e ? <-. unfold purged_in. splits; auto. intros t y [].
    + clear. induction (entities s); constructor; auto.
  - pose proof Hinv as (Ht & He & Hs & Hd & H0).
    assert (Hc : list_search (RELATION_TYPES s) (key cursor) = Some cursor).
    { apply Hcur. now left. }
    assert (Tc : tree_ok (tree cursor)).
    { rewrite Forall_forall in Hd. apply (Hd cursor).
      now apply list_search_In in Hc. }
    destruct (delent_table_spec (ids s) search (ENTITIES s) cursor He Tc)
      as (table' & cursor' & E1 & P1 & K1 & T1).
    cbn [delent_types]. rewrite E1. cbn [bind].
    destruct (inv_but_sweep s search (key cursor) table' Hinv P1) as [Hbut Hsw].
    set (s1 := {| ENTITIES := table'; RELATION_TYPES := RELATION_TYPES s |}) in *.
    assert (Hcap1 : capacity s1).
    { unfold capacity in *. now rewrite <- (Forall2_length Hsw). }
    destruct (restore_data_maximum_spec cursor' cursor (key cursor) s1
                Hbut Hcap1 Hc K1 T1) as (s2 & E2 & Hinv2 & Ent2 & Ho2).
    rewrite E2. cbn [bind].
    inversion Hnd as [|? ? Hni Hnd']; subst.
    assert (Hcap2 : capacity s2).
    { unfold capacity, entities in *. now rewrite Ent2. }
    destruct (IH s2 Hinv2 Hcap2 Hnd') as (s' & E' & Hinv' & P' & Ho').
    { intros c Hin. fold (descriptor s2 (key c)). rewrite Ho2.
      - apply Hcur. now right.
      - intros F. apply Hni. rewrite <- F. now apply in_map. }
    exists s'. splits; auto.
    + assert (entities s2 = entities s1) as Ee by (unfold entities; now rewrite Ent2).
      rewrite Ee in P'. simpl.
      eapply Forall2_compose; [|exact Hsw|exact P'].
      intros a b c Hab Hbc. eapply purged_in_step; eauto.
    + intros t Hn. simpl in Hn. rewrite Ho' by tauto.
      rewrite Ho2 by (intros ->; tauto). reflexivity.
Qed.

Lemma Forall2_impl_In {A B : Type} (R R' : A -> B -> Prop)
  (l : list A) (l' : list B) :
  (forall a b, In a l -> R a b -> R' a b) -> Forall2 R l l' -> Forall2 R' l l'.
Proof.
  intros H H2. induction H2; constructor.
  - apply H; [now left|assumption].
  - apply IHForall2. intros a b Ha. apply H. now right.
Qed.

Lemma chain_search_related (R : entity_t -> entity_t -> Prop)
  (es es' : list entity_t) (x : string) :
  (forall e e', R e e' -> id e' = id e) ->
  Forall2 R es es' ->
  match chain_search es x, chain_search es' x with
  | Some e, Some e' => R e e'
  | None, None => True
  | _, _ => False
  end.
Proof.
  intros HR. induction 1 as [|e e' es es' Hee H2 IH]; simpl; [trivial|].
  rewrite (HR _ _ Hee). destruct (strcmp (id e) x =? 0); assumption.
Qed.

Lemma delent_found (ident : string) (s : State) (se : entity_t) :
  inv s -> capacity s ->
  chain_search (entities s) ident = Some se ->
  exists s' l1 l2 l1' l2',
    delent ident s = Ok s' /\ inv s' /\
    entities s = l1 ++ se :: l2 /\ entities s' = l1' ++ l2' /\
    Forall2 (without ident) l1 l1' /\ Forall2 (without ident) l2 l2'.
Proof.
  intros Hinv Hcap Hse. pose proof Hinv as (Ht & He & Hs & Hd & H0).
  destruct (chain_search_In _ _ _ Hse) as [Hsi Hsin]. subst ident.
  unfold delent. unfold entities in Hse.
  rewrite (hash_search_ok _ (id se) Ht), Hse by (eapply live_hash; eauto).
  cbn [bind].
  destruct (delent_types_spec (id se) (RELATION_TYPES s) s Hinv Hcap)
    as (s1 & E1 & Hinv1 & P1 & _).
  { apply sorted_NoDup. exact Hs. }
  { intros c Hc. apply list_search_first; [|assumption].
    apply sorted_NoDup. exact Hs. }
  rewrite E1. cbn [bind].
  (* every type has been swept, or has no relation at all *)
  assert (Pfull : Forall2 (fun e e' => id e' = id e /\
                    forall t y, In y (in_neighbors_of e' t) <->
                      In y (in_neighbors_of e t) /\ y <> (id se) /\ id e <> (id se))
                    (entities s) (entities s1)).
  { assert (Hall : Forall (fun e => entity_ok (ids s) e /\
                      forall t, list_search (RELATION_TYPES s) t = None ->
                                degree_of e t = 0) (entities s)).
    { apply Forall_forall. intros e Hin. rewrite Forall_forall in He. split; auto. }
    revert Hall. generalize (entities s1) P1. generalize (entities s).
    induction 1 as [|e e' es es' (I & O & M) _ IH]; intros Hall; constructor.
    - inversion Hall as [|? ? [Hok Hz] _]; subst. split; [assumption|].
      intros t y.
      destruct (in_dec string_dec t (map key (RELATION_TYPES s))) as [Hin|Hn].
      + now apply M.
      + unfold in_neighbors_of at 1. rewrite O by assumption.
        fold (in_neighbors_of e t).
        assert (in_neighbors_of e t = []) as ->.
        { pose proof (degree_length _ e t Hok) as L.
          rewrite Hz in L by (now apply list_search_None).
          destruct (in_neighbors_of e t); [reflexivity|simpl in L; lia]. }
        simpl. tauto.
    - apply IH. now inversion Hall. }
  assert (Hid : forall e e' : entity_t,
            (id e' = id e /\
             forall t y, In y (in_neighbors_of e' t) <->
               In y (in_neighbors_of e t) /\ y <> (id se) /\ id e <> (id se)) ->
            id e' = id e) by (intros ? ? [? _]; assumption).
  pose proof (chain_search_related _ _ _ (id se) Hid Pfull) as Hrel.
  fold (entities s) in Hse. rewrite Hse in Hrel.
  destruct (chain_search (entities s1) (id se)) as [se'|] eqn:Hse'; [|contradiction].
  destruct Hrel as [Hsid Hsm].
  pose proof Hinv1 as (Ht1 & He1 & Hs1 & Hd1 & H01).
  destruct (hash_delete_spec _ _ se' Ht1 Hse') as (ht' & l1' & l2' & -> & E & E' & Ht').
  cbn [bind]. fold (entities s1) in E.
  rewrite E in Pfull.
  destruct (Forall2_app_inv_r _ _ Pfull) as (l1 & l2x & P1' & P2' & El).
  inversion P2' as [|se0 ? l2 ? Pse P2'' ]; subst.
  assert (se0 = se) as ->.
  { assert (NoDup (map id (entities s))) as Hnd by apply Ht.
    apply (same_id_same (entities s)); auto.
    - rewrite El. apply In_update. auto.
    - destruct Pse as [Pse _]. congruence. }
  assert (Hnd : NoDup (map id (l1 ++ se :: l2))).
  { rewrite <- El. apply Ht. }
  assert (Hw : forall a b, In a (l1 ++ l2) ->
             (id b = id a /\
              forall t y, In y (in_neighbors_of b t) <->
                In y (in_neighbors_of a t) /\ y <> (id se) /\ id a <> (id se)) ->
             without (id se) a b).
  { intros a b Ha [Hi Hm]. split; [assumption|]. intros t y. rewrite Hm.
    pose proof (not_in_rest _ _ _ _ Hnd Ha). tauto. }
  assert (W1 : Forall2 (without (id se)) l1 l1').
  { eapply Forall2_impl_In; [|exact P1'].
    intros a b Ha. apply Hw. apply in_or_app. now left. }
  assert (W2 : Forall2 (without (id se)) l2 l2').
  { eapply Forall2_impl_In; [|exact P2''].
    intros a b Ha. apply Hw. apply in_or_app. now right. }
  eexists. exists l1, l2, l1', l2'. split; [reflexivity|].
  splits; auto.
  (* the invariant *)
  unfold inv, ids. unfold entities at 1 2 3 4. cbn [ENTITIES RELATION_TYPES].
  rewrite E'.
  assert (Hzero : forall t, degree_of se' t = 0).
  { intros t. rewrite Forall_forall in He1.
    assert (In se' (entities s1)) as Hin by (rewrite E; apply In_update; auto).
    rewrite (degree_length _ se' t (He1 se' Hin)).
    destruct (in_neighbors_of se' t) as [|y ?] eqn:F; [reflexivity|].
    exfalso. assert (In y (in_neighbors_of se' t)) as Hy by (rewrite F; now left).
    apply Hsm in Hy. tauto. }
  splits; auto.
  - apply Forall_forall. intros b Hb.
    assert (In b (entities s1)) as Hb1 by (rewrite E; apply In_update; auto).
    rewrite Forall_forall in He1. pose proof (He1 b Hb1) as Hok.
    assert (exists a, In a (l1 ++ l2) /\ without (id se) a b) as (a & Ha & Hab).
    { apply in_app_or in Hb. destruct Hb as [Hb|Hb].
      - destruct (Forall2_In_r _ _ _ W1 b Hb) as (a & ? & ?).
        exists a. split; [apply in_or_app|]; auto.
      - destruct (Forall2_In_r _ _ _ W2 b Hb) as (a & ? & ?).
        exists a. split; [apply in_or_app|]; auto. }
    intros t r Hr. destruct (Hok t r Hr) as [Hrok Hrl]. split; [assumption|].
    intros y Hy. pose proof (Hrl y Hy) as Hy1.
    assert (In y (in_neighbors_of b t)) as Hy2.
    { unfold in_neighbors_of. now rewrite Hr. }
    apply Hab in Hy2. destruct Hy2 as [_ Hne].
    unfold ids in Hy1. rewrite E in Hy1. rewrite map_app in *. simpl in Hy1.
    apply in_app_or in Hy1. apply in_or_app.
    destruct Hy1 as [Hy1|[Hy1|Hy1]]; auto. congruence.
  - apply Forall_forall. intros d Hdin. rewrite Forall_forall in Hd1.
    apply (descriptor_ok_add l1' l2' se' d); [apply Hzero|].
    rewrite <- E. auto.
  - intros t b Hnone Hb. apply (H01 t b Hnone).
    rewrite E. apply In_update. auto.
Qed.

Lemma delent_unknown (ident : string) (s : State) :
  hash_search (ENTITIES s) ident = Ok None -> delent ident s = Ok s.
Proof. intros H. unfold delent. now rewrite H. Qed.

(** ** The commands keep the invariant *)

Lemma hash_search_inv (ht : HashTable) (x : string) (r : option entity_t) :
  table_ok ht -> hash_search ht x = Ok r ->
  0 <= hash_string x /\ r = chain_search (List.concat ht) x.
Proof.
  intros Hok H. destruct (Z_lt_le_dec (hash_string x) 0) as [Hneg|Hpos].
  - rewrite hash_search_crash in H by assumption. discriminate.
  - rewrite hash_search_ok in H by assumption. split; congruence.
Qed.

Lemma addrel_missing (from to type : string) (s : State) :
  inv s -> 0 <= hash_string from -> 0 <= hash_string to ->
  chain_search (entities s) from = None \/ chain_search (entities s) to = None ->
  addrel from to type s = Ok s.
Proof.
  intros (Ht & _) Hf Hto H. unfold addrel, entities in *.
  rewrite !hash_search_ok by assumption. cbn [bind].
  destruct H as [-> | ->]; [reflexivity|].
  now destruct (chain_search _ from).
Qed.

Lemma delrel_missing (from to type : string) (s : State) :
  inv s -> 0 <= hash_string from -> 0 <= hash_string to ->
  chain_search (entities s) from = None \/ chain_search (entities s) to = None ->
  delrel from to type s = Ok s.
Proof.
  intros (Ht & _) Hf Hto H. unfold delrel, entities in *.
  rewrite !hash_search_ok by assumption. cbn [bind].
  destruct H as [-> | ->]; [reflexivity|].
  now destruct (chain_search _ from).
Qed.

(** The searches of a command that completes have completed. *)
Lemma addrel_hashes (from to type : string) (s s' : State) :
  addrel from to type s = Ok s' ->
  0 <= hash_string from /\ 0 <= hash_string to.
Proof.
  unfold addrel. intros H.
  destruct (Z_lt_le_dec (hash_string from) 0) as [Hneg|Hpos].
  { rewrite hash_search_crash in H by assumption. discriminate. }
  destruct (hash_search (ENTITIES s) from); [|discriminate]. cbn [bind] in H.
  destruct (Z_lt_le_dec (hash_string to) 0) as [Hneg'|Hpos']; [|auto].
  rewrite hash_search_crash in H by assumption. discriminate.
Qed.

Lemma delrel_hashes (from to type : string) (s s' : State) :
  delrel from to type s = Ok s' ->
  0 <= hash_string from /\ 0 <= hash_string to.
Proof.
  unfold delrel. intros H.
  destruct (Z_lt_le_dec (hash_string from) 0) as [Hneg|Hpos].
  { rewrite hash_search_crash in H by assumption. discriminate. }
  destruct (hash_search (ENTITIES s) from); [|discriminate]. cbn [bind] in H.
  destruct (Z_lt_le_dec (hash_string to) 0) as [Hneg'|Hpos']; [|auto].
  rewrite hash_search_crash in H by assumption. discriminate.
Qed.

Lemma addent_hash (ident : string) (s s' : State) :
  addent ident s = Ok s' -> 0 <= hash_string ident.
Proof.
  unfold addent. intros H.
  destruct (Z_lt_le_dec (hash_string ident) 0) as [Hneg|Hpos]; [|auto].
  rewrite hash_search_crash in H by assumption. discriminate.
Qed.

Lemma delent_hash (ident : string) (s s' : State) :
  delent ident s = Ok s' -> 0 <= hash_string ident.
Proof.
  unfold delent. intros H.
  destruct (Z_lt_le_dec (hash_string ident) 0) as [Hneg|Hpos]; [|auto].
  rewrite hash_search_crash in H by assumption. discriminate.
Qed.

Lemma delent_missing (ident : string) (s : State) :
  inv s -> 0 <= hash_string ident ->
  chain_search (entities s) ident = None -> delent ident s = Ok s.
Proof.
  intros (Ht & _) Hx Hn. apply delent_unknown.
  rewrite hash_search_ok by assumption. unfold entities in Hn. now rewrite Hn.
Qed.

Lemma in_dec_neighbors (x : string) (l : list string) : {In x l} + {~ In x l}.
Proof. apply in_dec. apply string_dec. Qed.

Lemma exec_inv (c : command) (s s' : State) :
  inv s -> capacity s -> exec c s = Ok s' -> inv s'.
Proof.
  intros Hinv Hcap H. destruct c as [x|x|f t ty|f t ty|]; simpl in H.
  - pose proof (addent_hash _ _ _ H) as Hx.
    destruct (chain_search (entities s) x) as [e|] eqn:E.
    + rewrite (addent_known _ _ _ Hinv E) in H. congruence.
    + destruct (addent_new x s Hinv Hx E) as (s1 & ? & ? & E1 & Hinv1 & _).
      congruence.
  - pose proof (delent_hash _ _ _ H) as Hx.
    destruct (chain_search (entities s) x) as [e|] eqn:E.
    + destruct (delent_found x s e Hinv Hcap E) as (s1 & ? & ? & ? & ? & E1 & Hinv1 & _).
      congruence.
    + rewrite (delent_missing _ _ Hinv Hx E) in H. congruence.
  - destruct (addrel_hashes _ _ _ _ _ H) as [Hf Ht].
    destruct (chain_search (entities s) f) as [fe|] eqn:Ef;
      [destruct (chain_search (entities s) t) as [te|] eqn:Et|].
    + destruct (in_dec_neighbors f (in_neighbors_of te ty)) as [Hin|Hnot].
      * rewrite (addrel_present _ _ _ _ _ _ Hinv Ef Et Hin) in H. congruence.
      * destruct (addrel_new f t ty s fe te Hinv Hcap Ef Et Hnot)
          as (s1 & ? & ? & ? & ? & E1 & Hinv1 & _). congruence.
    + rewrite (addrel_missing f t ty s Hinv Hf Ht (or_intror Et)) in H. congruence.
    + rewrite (addrel_missing f t ty s Hinv Hf Ht (or_introl Ef)) in H. congruence.
  - destruct (delrel_hashes _ _ _ _ _ H) as [Hf Ht].
    destruct (chain_search (entities s) f) as [fe|] eqn:Ef;
      [destruct (chain_search (entities s) t) as [te|] eqn:Et|].
    + destruct (in_dec_neighbors f (in_neighbors_of te ty)) as [Hin|Hnot].
      * destruct (delrel_present f t ty s fe te Hinv Hcap Ef Et Hin)
          as (s1 & ? & ? & ? & ? & E1 & Hinv1 & _). congruence.
      * rewrite (delrel_absent _ _ _ _ _ _ Hinv Ef Et Hnot) in H. congruence.
    + rewrite (delrel_missing f t ty s Hinv Hf Ht (or_intror Et)) in H. congruence.
    + rewrite (delrel_missing f t ty s Hinv Hf Ht (or_introl Ef)) in H. congruence.
  - congruence.
Qed.

Lemma reachable_inv (s : State) : reachable_in_capacity s -> inv s.
Proof.
  induction 1 as [|s s' c _ IH Hcap H]; [apply inv_init|].
  eapply exec_inv; eauto.
Qed.

(** ** Entities and relations of a state *)

Lemma live_lookup (s : State) (x : string) :
  live s x <-> exists e, chain_search (entities s) x = Some e.
Proof.
  unfold live, ids. split.
  - intros H. destruct (chain_search (entities s) x) as [e|] eqn:E; [eauto|].
    apply chain_search_None in E. contradiction.
  - intros [e E]. destruct (chain_search_In _ _ _ E) as [<- Hin].
    now apply in_map.
Qed.

Lemma not_live_lookup (s : State) (x : string) :
  ~ live s x <-> chain_search (entities s) x = None.
Proof. unfold live, ids. symmetry. apply chain_search_None. Qed.

Lemma lookup_update (l1 l2 : list entity_t) (e e' : entity_t) (x : string) :
  NoDup (map id (l1 ++ e :: l2)) -> id e' = id e ->
  chain_search (l1 ++ e' :: l2) x =
  if String.eqb x (id e) then Some e' else chain_search (l1 ++ e :: l2) x.
Proof.
  intros Hnd Hid. rewrite !chain_search_app. simpl. rewrite Hid.
  destruct (String.eqb_spec x (id e)) as [->|Hne].
  - assert (chain_search l1 (id e) = None) as ->.
    { apply chain_search_None. rewrite map_app in Hnd. simpl in Hnd.
      apply NoDup_remove_2 in Hnd. intros F. apply Hnd. apply in_or_app. now left. }
    now rewrite strcmp_refl.
  - destruct (chain_search l1 x); [reflexivity|].
    destruct (strcmp (id e) x =? 0) eqn:F; [|reflexivity].
    apply strcmp_eq in F. congruence.
Qed.

Lemma lookup_remove (l1 l2 : list entity_t) (e : entity_t) (x : string) :
  NoDup (map id (l1 ++ e :: l2)) ->
  chain_search (l1 ++ l2) x =
  if String.eqb x (id e) then None else chain_search (l1 ++ e :: l2) x.
Proof.
  intros Hnd. destruct (String.eqb_spec x (id e)) as [->|Hne].
  - apply chain_search_None. rewrite map_app in *. simpl in Hnd.
    now apply NoDup_remove_2 in Hnd.
  - rewrite !chain_search_app. simpl.
    destruct (chain_search l1 x); [reflexivity|].
    destruct (strcmp (id e) x =? 0) eqn:F; [|reflexivity].
    apply strcmp_eq in F. congruence.
Qed.

Lemma lookup_In (s : State) (e : entity_t) :
  inv s -> In e (entities s) -> chain_search (entities s) (id e) = Some e.
Proof. intros (Ht & _) Hin. apply chain_search_unique; [apply Ht|assumption]. Qed.

Lemma state_degree (s : State) (e : entity_t) (t : string) :
  inv s -> In e (entities s) -> degree_of e t = in_degree s (id e) t.
Proof.
  intros Hinv Hin. pose proof Hinv as (_ & He & _).
  unfold in_degree, in_neighbors. rewrite (lookup_In _ _ Hinv Hin).
  rewrite Forall_forall in He. eapply degree_length; eauto.
Qed.

Lemma in_degree_not_live (s : State) (x t : string) :
  ~ live s x -> in_degree s x t = 0.
Proof.
  intros H. apply not_live_lookup in H. unfold in_degree, in_neighbors.
  now rewrite H.
Qed.

Lemma in_neighbors_are_sorted (s : State) (x t : string) :
  inv s -> sorted (in_neighbors s x t).
Proof.
  intros (_ & He & _). unfold in_neighbors.
  destruct (chain_search (entities s) x) as [e|] eqn:E; [|apply sorted_nil].
  apply chain_search_In in E. rewrite Forall_forall in He.
  eapply in_neighbors_sorted. apply He. apply E.
Qed.

Lemma related_live (s : State) (from to type : string) :
  inv s -> related s from to type -> live s from /\ live s to.
Proof.
  intros (_ & He & _) H. unfold related, in_neighbors in H.
  destruct (chain_search (entities s) to) as [e|] eqn:E; [|contradiction].
  split; [|apply live_lookup; eauto].
  apply chain_search_In in E. rewrite Forall_forall in He.
  exact (in_neighbors_live _ e type (He e (proj2 E)) from H).
Qed.

(** The invariant, read on the relations of the state: the maximality and
    the consistency of the leaders. *)
Lemma descriptor_view (s : State) (t : string) (d : list_t) :
  inv s -> descriptor s t = Some d ->
  key d = t /\ tree_ok (tree d) /\ 1 <= current_maximum d /\
  (forall x, in_degree s x t <= current_maximum d) /\
  (exists x, live s x /\ in_degree s x t = current_maximum d) /\
  (forall x, In x (leaders d) <->
             live s x /\ in_degree s x t = current_maximum d).
Proof.
  intros Hinv Hd. pose proof Hinv as (Ht & He & Hs & Hds & H0).
  destruct (list_search_In _ _ _ Hd) as [Hk Hin].
  rewrite Forall_forall in Hds. destruct (Hds d Hin) as (D1 & D2 & D3 & D4 & D5).
  rewrite Hk in *. splits; auto.
  - intros x. destruct (chain_search (entities s) x) as [e|] eqn:E.
    + destruct (chain_search_In _ _ _ E) as [<- Hine].
      rewrite <- (state_degree s e t Hinv Hine). auto.
    + rewrite in_degree_not_live by (now apply not_live_lookup). lia.
  - destruct D4 as (e & Hine & Hdeg). exists (id e). split.
    + unfold live, ids. now apply in_map.
    + now rewrite <- (state_degree s e t Hinv Hine).
  - intros x. rewrite D5. split.
    + intros (e & Hine & <- & Hdeg). split.
      * unfold live, ids. now apply in_map.
      * now rewrite <- (state_degree s e t Hinv Hine).
    + intros [Hl Hdeg]. apply live_lookup in Hl. destruct Hl as [e E].
      destruct (chain_search_In _ _ _ E) as [<- Hine]. exists e.
      splits; auto. now rewrite (state_degree s e t Hinv Hine).
Qed.

Lemma no_descriptor_view (s : State) (t x : string) :
  inv s -> descriptor s t = None -> in_neighbors s x t = [].
Proof.
  intros Hinv Hd. pose proof Hinv as (Ht & He & Hs & Hds & H0).
  unfold in_neighbors.
  destruct (chain_search (entities s) x) as [e|] eqn:E; [|reflexivity].
  destruct (chain_search_In _ _ _ E) as [_ Hine].
  pose proof (H0 t e Hd Hine) as Hz. rewrite Forall_forall in He.
  rewrite (degree_length _ e t (He e Hine)) in Hz.
  destruct (in_neighbors_of e t); [reflexivity|simpl in Hz; lia].
Qed.

(** A relation type has a node exactly when it has a relation. *)
Lemma descriptor_iff_related (s : State) (t : string) :
  inv s ->
  descriptor s t <> None <-> exists from to, related s from to t.
Proof.
  intros Hinv. split.
  - intros H. destruct (descriptor s t) as [d|] eqn:E; [|contradiction].
    destruct (descriptor_view s t d Hinv E) as (_ & _ & D2 & _ & (x & _ & Hx) & _).
    unfold in_degree in Hx. unfold related.
    destruct (in_neighbors s x t) as [|y l] eqn:F; [simpl in Hx; lia|].
    exists y, x. rewrite F. now left.
  - intros (f & x & H) E. unfold related in H.
    now rewrite (no_descriptor_view s t x Hinv E) in H.
Qed.

(** ** The effect of the commands on the relations *)

Lemma related_update (s s' : State) (te te' : entity_t)
  (l1 l2 : list entity_t) (type : string) :
  inv s -> entities s = l1 ++ te :: l2 -> entities s' = l1 ++ te' :: l2 ->
  id te' = id te ->
  (forall t, t <> type ->
             list_search (rel_list te') t = list_search (rel_list te) t) ->
  (forall y, live s' y <-> live s y) /\
  (forall f z t,
     related s' f z t <->
     if String.eqb z (id te) && String.eqb t type
     then In f (in_neighbors_of te' type)
     else related s f z t).
Proof.
  intros Hinv E E' Hid Ho. split.
  - intros y. unfold live, ids. rewrite E, E', (ids_update _ _ _ _ Hid). tauto.
  - intros f z t. unfold related, in_neighbors. rewrite E', E.
    assert (Hnd : NoDup (map id (l1 ++ te :: l2))).
    { rewrite <- E. apply Hinv. }
    rewrite (lookup_update l1 l2 te te' z Hnd Hid).
    destruct (String.eqb_spec z (id te)) as [->|Hz]; simpl; [|tauto].
    assert (chain_search (l1 ++ te :: l2) (id te) = Some te) as ->.
    { apply chain_search_unique; [assumption|]. apply In_update. auto. }
    destruct (String.eqb_spec t type) as [->|Ht]; [tauto|].
    unfold in_neighbors_of. rewrite Ho by assumption. tauto.
Qed.

Lemma related_entity (s : State) (e : entity_t) (from type : string) :
  inv s -> In e (entities s) ->
  related s from (id e) type <-> In from (in_neighbors_of e type).
Proof.
  intros Hinv Hin. unfold related, in_neighbors.
  rewrite (lookup_In _ _ Hinv Hin). tauto.
Qed.

Lemma addent_effect (x : string) (s s' : State) :
  inv s -> addent x s = Ok s' -> effect (Addent x) s s'.
Proof.
  intros Hinv H. pose proof (addent_hash _ _ _ H) as Hx.
  destruct (chain_search (entities s) x) as [e|] eqn:E.
  - rewrite (addent_known _ _ _ Hinv E) in H. injection H as <-.
    split; [|tauto]. intros y. split; [tauto|]. intros [->|Hy]; [|assumption].
    apply live_lookup. eauto.
  - destruct (addent_new x s Hinv Hx E) as (s1 & l1 & l2 & E1 & Hinv1 & _ & El & El').
    rewrite E1 in H. injection H as <-.
    set (new := {| id := x; rel_list := init_list |}) in *.
    assert (Hnd : NoDup (map id (l1 ++ new :: l2))).
    { rewrite <- El'. apply Hinv1. }
    split.
    + intros y. unfold live, ids. rewrite El, El', !map_app, !in_app_iff.
      simpl. intuition.
    + intros f z t. unfold related, in_neighbors. rewrite El, El'.
      rewrite (lookup_remove l1 l2 new z Hnd).
      destruct (String.eqb_spec z (id new)) as [->|Hz]; [|tauto].
      assert (chain_search (l1 ++ new :: l2) (id new) = Some new) as ->.
      { apply chain_search_unique; [assumption|]. apply In_update. auto. }
      simpl. tauto.
Qed.

Lemma addrel_effect (from to type : string) (s s' : State) :
  inv s -> capacity s -> addrel from to type s = Ok s' ->
  effect (Addrel from to type) s s'.
Proof.
  intros Hinv Hcap H. destruct (addrel_hashes _ _ _ _ _ H) as [Hf Ht].
  assert (Hsame : s' = s -> ~ (live s from /\ live s to /\ ~ related s from to type) ->
                  effect (Addrel from to type) s s').
  { intros -> Hn. split; [tauto|]. intros f z t. split; [tauto|].
    intros [Hr|(-> & -> & -> & Hl1 & Hl2)]; [assumption|].
    destruct (in_dec_neighbors from (in_neighbors s to type)) as [Hin|Hnot];
      [exact Hin|].
    exfalso. apply Hn. auto. }
  destruct (chain_search (entities s) from) as [fe|] eqn:Ef;
    [destruct (chain_search (entities s) to) as [te|] eqn:Et|].
  - destruct (chain_search_In _ _ _ Et) as [Hti Htin].
    destruct (in_dec_neighbors from (in_neighbors_of te type)) as [Hin|Hnot].
    + rewrite (addrel_present _ _ _ _ _ _ Hinv Ef Et Hin) in H.
      injection H as <-. apply Hsame; [reflexivity|].
      intros (_ & _ & Hn). apply Hn. unfold related, in_neighbors. now rewrite Et.
    + destruct (addrel_new from to type s fe te Hinv Hcap Ef Et Hnot)
        as (s1 & te' & l1 & l2 & d' & E1 & Hinv1 & El & El' & Hid & Ho & Hm & _).
      rewrite E1 in H. injection H as <-.
      destruct (related_update s s1 te te' l1 l2 type Hinv El El' Hid Ho) as [HL HR].
      split; [exact HL|]. intros f z t. rewrite HR, Hti.
      destruct (String.eqb_spec z to) as [->|Hz];
        [destruct (String.eqb_spec t type) as [->|Hty]|]; simpl.
      * pose proof (related_entity s te f type Hinv Htin) as Hre.
        rewrite Hti in Hre. rewrite Hm, Hre.
        assert (live s from) by (apply live_lookup; eauto).
        assert (live s to) by (apply live_lookup; eauto).
        intuition.
      * intuition.
      * intuition.
  - rewrite (addrel_missing _ _ _ _ Hinv Hf Ht (or_intror Et)) in H.
    injection H as <-. apply Hsame; [reflexivity|].
    intros (_ & Hl & _). apply live_lookup in Hl. destruct Hl. congruence.
  - rewrite (addrel_missing _ _ _ _ Hinv Hf Ht (or_introl Ef)) in H.
    injection H as <-. apply Hsame; [reflexivity|].
    intros (Hl & _). apply live_lookup in Hl. destruct Hl. congruence.
Qed.

Lemma delrel_effect (from to type : string) (s s' : State) :
  inv s -> capacity s -> delrel from to type s = Ok s' ->
  effect (Delrel from to type) s s'.
Proof.
  intros Hinv Hcap H. destruct (delrel_hashes _ _ _ _ _ H) as [Hf Ht].
  assert (Hsame : s' = s -> ~ related s from to type ->
                  effect (Delrel from to type) s s').
  { intros -> Hn. split; [tauto|]. intros f z t. split; [|tauto].
    intros Hr. split; [assumption|]. intros (-> & -> & ->). contradiction. }
  destruct (chain_search (entities s) from) as [fe|] eqn:Ef;
    [destruct (chain_search (entities s) to) as [te|] eqn:Et|].
  - destruct (chain_search_In _ _ _ Et) as [Hti Htin].
    destruct (in_dec_neighbors from (in_neighbors_of te type)) as [Hin|Hnot].
    + destruct (delrel_present from to type s fe te Hinv Hcap Ef Et Hin)
        as (s1 & te' & l1 & l2 & d & E1 & Hinv1 & El & El' & Hid & Ho & Hm & _).
      rewrite E1 in H. injection H as <-.
      destruct (related_update s s1 te te' l1 l2 type Hinv El El' Hid Ho) as [HL HR].
      split; [exact HL|]. intros f z t. rewrite HR, Hti.
      destruct (String.eqb_spec z to) as [->|Hz];
        [destruct (String.eqb_spec t type) as [->|Hty]|]; simpl.
      * pose proof (related_entity s te f type Hinv Htin) as Hre.
        rewrite Hti in Hre. rewrite Hm, Hre. intuition.
      * intuition.
      * intuition.
    + rewrite (delrel_absent _ _ _ _ _ _ Hinv Ef Et Hnot) in H.
      injection H as <-. apply Hsame; [reflexivity|].
      unfold related, in_neighbors. now rewrite Et.
  - rewrite (delrel_missing _ _ _ _ Hinv Hf Ht (or_intror Et)) in H.
    injection H as <-. apply Hsame; [reflexivity|].
    intros Hr. apply (related_live _ _ _ _ Hinv) in Hr. destruct Hr as [_ Hl].
    apply live_lookup in Hl. destruct Hl. congruence.
  - rewrite (delrel_missing _ _ _ _ Hinv Hf Ht (or_introl Ef)) in H.
    injection H as <-. apply Hsame; [reflexivity|].
    intros Hr. apply (related_live _ _ _ _ Hinv) in Hr. destruct Hr as [Hl _].
    apply live_lookup in Hl. destruct Hl. congruence.
Qed.

Lemma delent_effect (x : string) (s s' : State) :
  inv s -> capacity s -> delent x s = Ok s' -> effect (Delent x) s s'.
Proof.
  intros Hinv Hcap H. pose proof (delent_hash _ _ _ H) as Hx.
  destruct (chain_search (entities s) x) as [se|] eqn:E.
  - destruct (delent_found x s se Hinv Hcap E)
      as (s1 & l1 & l2 & l1' & l2' & E1 & Hinv1 & El & El' & W1 & W2).
    rewrite E1 in H. injection H as <-.
    destruct (chain_search_In _ _ _ E) as [Hsi _].
    assert (Hnd : NoDup (map id (l1 ++ se :: l2))).
    { rewrite <- El. apply Hinv. }
    pose proof (Forall2_app W1 W2) as W.
    assert (Hid : forall e e', without x e e' -> id e' = id e)
      by (intros ? ? [? _]; assumption).
    split.
    + intros y. unfold live, ids. rewrite El, El'.
      rewrite (Forall2_ids _ _ _ Hid W).
      rewrite !map_app, !in_app_iff. simpl. rewrite Hsi.
      rewrite map_app in Hnd. simpl in Hnd. apply NoDup_remove_2 in Hnd.
      rewrite Hsi, in_app_iff in Hnd. split.
      * intros Hy. split; [tauto|]. intros ->. tauto.
      * intros [[Hy|[Hy|Hy]] Hne]; auto. congruence.
    + intros f z t. unfold related, in_neighbors. rewrite El, El'.
      pose proof (chain_search_related _ _ _ z Hid W) as Hrel.
      rewrite (lookup_remove l1 l2 se z Hnd) in Hrel. rewrite Hsi in Hrel.
      destruct (String.eqb_spec z x) as [->|Hz].
      * destruct (chain_search (l1' ++ l2') x); [contradiction|].
        simpl. tauto.
      * destruct (chain_search (l1 ++ se :: l2) z) as [e|],
                 (chain_search (l1' ++ l2') z) as [e'|]; try contradiction.
        -- destruct Hrel as [_ Hm]. rewrite Hm. tauto.
        -- simpl. tauto.
  - rewrite (delent_missing _ _ Hinv Hx E) in H. injection H as <-.
    apply not_live_lookup in E. split.
    + intros y. split; [|tauto]. intros Hy. split; [assumption|].
      intros ->. contradiction.
    + intros f z t. split; [|tauto]. intros Hr.
      destruct (related_live _ _ _ _ Hinv Hr) as [Hf Hz].
      splits; auto; intros ->; contradiction.
Qed.

Lemma exec_effect (c : command) (s s' : State) :
  inv s -> capacity s -> exec c s = Ok s' -> effect c s s'.
Proof.
  intros Hinv Hcap H. destruct c; simpl in H.
  - now apply addent_effect.
  - now apply delent_effect.
  - now apply addrel_effect.
  - now apply delrel_effect.
  - injection H as <-. simpl. tauto.
Qed.


(** Within capacity a command crashes only on an id that hashes outside the
    table. *)
Lemma exec_total (c : command) (s : State) :
  inv s -> capacity s -> hashes_ok c -> exists s', exec c s = Ok s'.
Proof.
  intros Hinv Hcap H. destruct c as [x|x|f t ty|f t ty|]; simpl in *.
  - destruct (chain_search (entities s) x) as [e|] eqn:E.
    + rewrite (addent_known _ _ _ Hinv E). eauto.
    + destruct (addent_new x s Hinv H E) as (s1 & ? & ? & E1 & _). eauto.
  - destruct (chain_search (entities s) x) as [e|] eqn:E.
    + destruct (delent_found x s e Hinv Hcap E) as (s1 & ? & ? & ? & ? & E1 & _).
      eauto.
    + rewrite (delent_missing _ _ Hinv H E). eauto.
  - destruct H as [Hf Ht].
    destruct (chain_search (entities s) f) as [fe|] eqn:Ef;
      [destruct (chain_search (entities s) t) as [te|] eqn:Et|].
    + destruct (in_dec_neighbors f (in_neighbors_of te ty)) as [Hin|Hnot].
      * rewrite (addrel_present _ _ _ _ _ _ Hinv Ef Et Hin). eauto.
      * destruct (addrel_new f t ty s fe te Hinv Hcap Ef Et Hnot)
          as (s1 & ? & ? & ? & ? & E1 & _). eauto.
    + rewrite (addrel_missing f t ty s Hinv Hf Ht (or_intror Et)). eauto.
    + rewrite (addrel_missing f t ty s Hinv Hf Ht (or_introl Ef)). eauto.
  - destruct H as [Hf Ht].
    destruct (chain_search (entities s) f) as [fe|] eqn:Ef;
      [destruct (chain_search (entities s) t) as [te|] eqn:Et|].
    + destruct (in_dec_neighbors f (in_neighbors_of te ty)) as [Hin|Hnot].
      * destruct (delrel_present f t ty s fe te Hinv Hcap Ef Et Hin)
          as (s1 & ? & ? & ? & ? & E1 & _). eauto.
      * rewrite (delrel_absent _ _ _ _ _ _ Hinv Ef Et Hnot). eauto.
    + rewrite (delrel_missing f t ty s Hinv Hf Ht (or_intror Et)). eauto.
    + rewrite (delrel_missing f t ty s Hinv Hf Ht (or_introl Ef)). eauto.
  - eauto.
Qed.

(** ** States with the same relations *)

Lemma same_relations_refl (s : State) : same_relations s s.
Proof. split; intros; tauto. Qed.

Lemma same_relations_sym (s1 s2 : State) :
  same_relations s1 s2 -> same_relations s2 s1.
Proof. intros [H1 H2]. split; intros; [rewrite H1|rewrite H2]; tauto. Qed.

Lemma same_relations_trans (s1 s2 s3 : State) :
  same_relations s1 s2 -> same_relations s2 s3 -> same_relations s1 s3.
Proof.
  intros [H1 H2] [H3 H4]. split; intros; [rewrite H1|rewrite H2]; auto.
Qed.





Lemma runs_inv (cs : list command) : forall s s',
  inv s -> runs s cs s' -> inv s'.
Proof.
  induction cs as [|c cs IH]; intros s s' I Hr;
    inversion Hr as [|? sa ? ? ? Hcap Hex Hrest]; subst; auto.
  apply (IH sa); [|assumption]. exact (exec_inv c s sa I Hcap Hex).
Qed.

Lemma reachable_runs (s : State) :
  reachable_in_capacity s <-> exists cs, runs init_state cs s.
Proof.
  split.
  - induction 1 as [|s s' c _ [cs IH] Hcap H].
    + exists []. constructor.
    + exists (cs ++ [c]). clear - IH Hcap H. revert IH.
      generalize init_state. induction cs as [|c0 cs IHcs]; intros s0 Hr;
        inversion Hr; subst; simpl.
      * econstructor; eauto. constructor.
      * econstructor; eauto.
  - intros [cs Hr].
    assert (forall s0, reachable_in_capacity s0 -> runs s0 cs s ->
                       reachable_in_capacity s) as G.
    { clear. induction cs as [|c cs IH]; intros s0 H0 Hr; inversion Hr; subst.
      - assumption.
      - eapply IH; [|eassumption]. econstructor; eauto. }
    eapply G; [constructor|eassumption].
Qed.

(** ** The report *)

Lemma append_assoc (a b c : string) :
  ((a ++ b) ++ c = a ++ (b ++ c))%string.
Proof. induction a; simpl; congruence. Qed.

Lemma append_nil_r (a : string) : (a ++ "" = a)%string.
Proof. induction a; simpl; congruence. Qed.

Lemma concat_empty_cons (x : string) (xs : list string) :
  String.concat "" (x :: xs) = (x ++ String.concat "" xs)%string.
Proof. destruct xs; simpl; [now rewrite append_nil_r|reflexivity]. Qed.

Lemma concat_empty_app (l1 l2 : list string) :
  String.concat "" (l1 ++ l2)
  = (String.concat "" l1 ++ String.concat "" l2)%string.
Proof.
  induction l1 as [|a l1 IH]; [reflexivity|].
  rewrite <- app_comm_cons, !concat_empty_cons, IH. now rewrite append_assoc.
Qed.

Lemma concat_space_snoc (l : list string) (last : string) :
  String.concat " " (l ++ [last])
  = (String.concat "" (map (fun x => (x ++ " ")%string) l) ++ last)%string.
Proof.
  induction l as [|a l IH]; [reflexivity|].
  cbn [map]. rewrite concat_empty_cons, !append_assoc, <- IH.
  rewrite <- app_comm_cons. cbn [String.concat].
  destruct (l ++ [last]) eqn:E; [now destruct l|reflexivity].
Qed.

Lemma print_string_quoted (s : string) :
  print_string s = (quoted s ++ " ")%string.
Proof.
  unfold print_string, quoted. simpl. f_equal.
  now rewrite append_assoc.
Qed.

Lemma print_relation_tree_elements (x : node) :
  print_relation_tree x = String.concat "" (map print_string (elements x)).
Proof.
  induction x as [|k c l IHl r IHr]; simpl; [reflexivity|].
  rewrite map_app, concat_empty_app. cbn [map].
  now rewrite concat_empty_cons, IHl, IHr.
Qed.

Lemma report_entry_printed (d : list_t) :
  (print_string (key d) ++ print_relation_tree (root (tree d))
   ++ decimal (current_maximum d) ++ "; ")%string
  = report_entry (key d, leaders d, current_maximum d).
Proof.
  unfold report_entry, leaders, members.
  rewrite app_comm_cons, concat_space_snoc. cbn [map].
  rewrite concat_empty_cons, map_map, print_relation_tree_elements.
  rewrite print_string_quoted, !append_assoc.
  rewrite (map_ext print_string (fun x => (quoted x ++ " ")%string)
             print_string_quoted).
  reflexivity.
Qed.

Lemma report_types_entries (l : List) :
  report_types l
  = String.concat ""
      (map report_entry
         (map (fun d => (key d, leaders d, current_maximum d)) l)).
Proof.
  induction l as [|d l IH]; [reflexivity|].
  cbn [report_types map]. rewrite concat_empty_cons, <- IH.
  rewrite <- report_entry_printed. now rewrite !append_assoc.
Qed.

(** The report of the program is the line of the specification. *)
Lemma report_is_line (s : State) :
  report s = report_line (descriptors_view s).
Proof.
  unfold report, report_line, report_body, descriptors_view.
  destruct (RELATION_TYPES s) as [|d l] eqn:E; [reflexivity|].
  rewrite report_types_entries. reflexivity.
Qed.

(** ** The report depends on the relations only *)

Lemma view_by_keys (l : List) :
  NoDup (map key l) ->
  map (fun d => (key d, leaders d, current_maximum d)) l
  = map (fun t => (t, leaders_of (list_search l t), max_of (list_search l t)))
      (map key l).
Proof.
  intros Hnd. rewrite map_map. apply map_ext_in. intros d Hin.
  now rewrite (list_search_first l d Hnd Hin).
Qed.

Lemma same_in_neighbors (s1 s2 : State) (x t : string) :
  inv s1 -> inv s2 -> same_relations s1 s2 ->
  in_neighbors s1 x t = in_neighbors s2 x t.
Proof.
  intros I1 I2 [_ HR]. apply sorted_ext; auto using in_neighbors_are_sorted.
  intros y. apply HR.
Qed.

Lemma same_in_degree (s1 s2 : State) (x t : string) :
  inv s1 -> inv s2 -> same_relations s1 s2 ->
  in_degree s1 x t = in_degree s2 x t.
Proof.
  intros I1 I2 H. unfold in_degree. now rewrite (same_in_neighbors s1 s2 x t).
Qed.

Lemma same_descriptor_keys (s1 s2 : State) (t : string) :
  inv s1 -> inv s2 -> same_relations s1 s2 ->
  descriptor s1 t <> None -> descriptor s2 t <> None.
Proof.
  intros I1 I2 [_ HR] H. apply (descriptor_iff_related s1 t I1) in H.
  destruct H as (f & x & H). apply (descriptor_iff_related s2 t I2).
  exists f, x. now apply HR.
Qed.

Lemma max_le_of_same (s1 s2 : State) (t : string) (d1 d2 : list_t) :
  inv s1 -> inv s2 -> same_relations s1 s2 ->
  descriptor s1 t = Some d1 -> descriptor s2 t = Some d2 ->
  current_maximum d1 <= current_maximum d2.
Proof.
  intros I1 I2 Hs E1 E2.
  destruct (descriptor_view s1 t d1 I1 E1) as (_ & _ & _ & _ & (x & _ & Hx) & _).
  destruct (descriptor_view s2 t d2 I2 E2) as (_ & _ & _ & B & _).
  rewrite <- Hx, (same_in_degree s1 s2 x t I1 I2 Hs). apply B.
Qed.

Lemma view_determined (s1 s2 : State) :
  inv s1 -> inv s2 -> same_relations s1 s2 ->
  descriptors_view s1 = descriptors_view s2.
Proof.
  intros I1 I2 Hs. pose proof (same_relations_sym _ _ Hs) as Hs'.
  unfold descriptors_view.
  pose proof I1 as (_ & _ & S1 & _). pose proof I2 as (_ & _ & S2 & _).
  rewrite !view_by_keys by (now apply sorted_NoDup).
  assert (Hk : map key (RELATION_TYPES s1) = map key (RELATION_TYPES s2)).
  { apply sorted_ext; auto. intros t. split; intros H.
    - destruct (in_dec_neighbors t (map key (RELATION_TYPES s2))) as [|Hn]; [assumption|].
      exfalso. apply list_search_None in Hn.
      revert Hn. apply (same_descriptor_keys s1 s2 t I1 I2 Hs).
      unfold descriptor. intros F. apply list_search_None in F. contradiction.
    - destruct (in_dec_neighbors t (map key (RELATION_TYPES s1))) as [|Hn]; [assumption|].
      exfalso. apply list_search_None in Hn.
      revert Hn. apply (same_descriptor_keys s2 s1 t I2 I1 Hs').
      unfold descriptor. intros F. apply list_search_None in F. contradiction. }
  rewrite Hk. apply map_ext_in. intros t Ht.
  fold (descriptor s1 t) (descriptor s2 t).
  destruct (descriptor s2 t) as [d2|] eqn:E2.
  2:{ apply list_search_None in E2. contradiction. }
  destruct (descriptor s1 t) as [d1|] eqn:E1.
  2:{ rewrite <- Hk in Ht. apply list_search_None in E1. contradiction. }
  pose proof (max_le_of_same s1 s2 t d1 d2 I1 I2 Hs E1 E2).
  pose proof (max_le_of_same s2 s1 t d2 d1 I2 I1 Hs' E2 E1).
  assert (Hm : current_maximum d1 = current_maximum d2) by lia.
  simpl. rewrite Hm. do 2 f_equal.
  destruct (descriptor_view s1 t d1 I1 E1) as (_ & T1 & _ & _ & _ & L1).
  destruct (descriptor_view s2 t d2 I2 E2) as (_ & T2 & _ & _ & _ & L2).
  apply sorted_ext; try (now apply tree_ok_sorted).
  intros x. rewrite L1, L2, Hm, (same_in_degree s1 s2 x t I1 I2 Hs).
  destruct Hs as [HL _]. rewrite HL. tauto.
Qed.

Lemma same_report (s1 s2 : State) :
  inv s1 -> inv s2 -> same_relations s1 s2 -> report s1 = report s2.
Proof.
  intros I1 I2 Hs. rewrite !report_is_line.
  now rewrite (view_determined s1 s2 I1 I2 Hs).
Qed.

(** ** Names without a newline *)

Lemma has_newline_append (a b : string) :
  has_newline (a ++ b) <-> has_newline a \/ has_newline b.
Proof.
  unfold has_newline. induction a as [|c a IH]; simpl; [tauto|].
  rewrite IH. tauto.
Qed.

Lemma uint_no_newline (d : Decimal.uint) :
  ~ has_newline (DecimalString.NilEmpty.string_of_uint d).
Proof.
  unfold has_newline.
  induction d; simpl; [intros []|..]; (intros [F|F]; [discriminate F|auto]).
Qed.

Lemma nilzero_no_newline (d : Decimal.uint) :
  ~ has_newline (DecimalString.NilZero.string_of_uint d).
Proof.
  destruct d; try exact (uint_no_newline _).
  intros [F|[]]. discriminate F.
Qed.

Lemma decimal_no_newline (n : Z) : ~ has_newline (decimal n).
Proof.
  unfold decimal, DecimalString.NilZero.string_of_int.
  destruct (Z.to_int n) as [d|d].
  - apply nilzero_no_newline.
  - intros [F|F]; [discriminate F|]. revert F. apply nilzero_no_newline.
Qed.

Lemma not_newline_quote : quote <> newline.
Proof. discriminate. Qed.

Lemma quoted_no_newline (s : string) : has_newline (quoted s) <-> has_newline s.
Proof.
  unfold quoted. change (String quote s) with (String quote EmptyString ++ s)%string.
  rewrite !has_newline_append. unfold has_newline. simpl.
  split; [|tauto]. intros [[[F|[]]|H]|[F|[]]]; auto; discriminate F.
Qed.

Lemma concat_no_newline (sep : string) (l : list string) :
  ~ has_newline sep -> (forall a, In a l -> ~ has_newline a) ->
  ~ has_newline (String.concat sep l).
Proof.
  intros Hsep. induction l as [|a l IH]; intros Hl; [intros []|].
  simpl. destruct l as [|b l]; [apply Hl; now left|].
  rewrite !has_newline_append. intros [H|[H|H]].
  - apply (Hl a); [now left|assumption].
  - contradiction.
  - revert H. apply IH. intros x Hx. apply Hl. now right.
Qed.

Lemma report_body_no_newline (entries : list (string * list string * Z)) :
  (forall name leading maximum, In (name, leading, maximum) entries ->
     ~ has_newline name /\ forall x, In x leading -> ~ has_newline x) ->
  ~ has_newline (report_body entries).
Proof.
  intros H. unfold report_body.
  destruct entries as [|e rest] eqn:E.
  { intros F. unfold has_newline in F. simpl in F.
    repeat (destruct F as [F|F]; [discriminate F|]). exact F. }
  rewrite <- E in *. clear E e rest.
  apply concat_no_newline; [intros []|].
  intros a Ha. apply in_map_iff in Ha. destruct Ha as ([[name leading] m] & <- & Hin).
  destruct (H _ _ _ Hin) as [Hn Hl]. unfold report_entry.
  rewrite has_newline_append. intros [F|F].
  - revert F. apply concat_no_newline.
    + intros [F|[]]. discriminate F.
    + intros x [<-|Hx]; [now rewrite quoted_no_newline|].
      apply in_app_or in Hx. destruct Hx as [Hx|[<-|[]]].
      * apply in_map_iff in Hx. destruct Hx as (y & <- & Hy).
        rewrite quoted_no_newline. auto.
      * rewrite has_newline_append. intros [F|[F|[]]].
        -- revert F. apply decimal_no_newline.
        -- discriminate F.
  - destruct F as [F|[]]. discriminate F.
Qed.

(** The names in a state come from the arguments of the commands. *)
Lemma names_from_arguments (P : string -> Prop) (cs : list command) :
  forall s s', inv s -> runs s cs s' ->
  (forall c a, In c cs -> In a (command_arguments c) -> P a) ->
  (forall x, live s x -> P x) ->
  (forall t, descriptor s t <> None -> P t) ->
  (forall x, live s' x -> P x) /\ (forall t, descriptor s' t <> None -> P t).
Proof.
  induction cs as [|c cs IH]; intros s s' Hinv Hr Hargs Hl Hd;
    inversion Hr as [|? sa ? ? ? Hcap Hex Hrest]; subst; [auto|].
  pose proof (exec_inv c s sa Hinv Hcap Hex) as Hinv'.
  pose proof (exec_effect c s sa Hinv Hcap Hex) as He.
  apply (IH sa s' Hinv' Hrest).
  - intros c' a Hc' Ha. apply (Hargs c' a); [now right|assumption].
  - intros x Hx. destruct c; simpl in He; destruct He as [L R];
      apply L in Hx; try tauto; auto.
    + destruct Hx as [->|Hx]; [|auto]. apply (Hargs (Addent ident)); simpl; auto.
    + apply Hl. tauto.
  - intros t Ht. apply (descriptor_iff_related sa t Hinv') in Ht.
    destruct Ht as (f & z & Hrel).
    assert (Hold : related s f z t -> P t).
    { intros H. apply Hd. apply (descriptor_iff_related s t Hinv). eauto. }
    destruct c; simpl in He; destruct He as [L R]; apply R in Hrel; try tauto.
    destruct Hrel as [H|(_ & _ & -> & _)]; [auto|].
    apply (Hargs (Addrel from to type)); simpl; auto.
Qed.

Lemma leader_consistent_inv (s : State) : inv s -> leader_consistent s.
Proof.
  intros Hinv t d Hd.
  destruct (descriptor_view s t d Hinv Hd) as (_ & _ & D1 & D2 & D3 & D4).
  splits; auto.
Qed.

Lemma run_within_runs (cs : list command) : forall s s',
  run_within cs s = Some s' <-> runs s cs s'.
Proof.
  induction cs as [|c cs IH]; intros s s'; simpl.
  - split; [intros [= <-]; constructor|intros H; inversion H; reflexivity].
  - unfold within_capacity, capacity. split.
    + destruct (Z.ltb_spec (Z.of_nat (List.length (entities s))) USHRT);
        [|discriminate].
      destruct (exec c s) as [sa|] eqn:E; [|discriminate].
      intros H'. econstructor; eauto. now apply IH.
    + intros H. inversion H as [|? sa ? ? ? Hcap Hex Hrest]; subst.
      unfold capacity in Hcap.
      destruct (Z.ltb_spec (Z.of_nat (List.length (entities s))) USHRT); [|lia].
      rewrite Hex. now apply IH.
Qed.

Lemma run_within_reachable (cs : list command) (s : State) :
  run_within cs init_state = Some s -> reachable_in_capacity s.
Proof. intros H. apply reachable_runs. exists cs. now apply run_within_runs. Qed.

(** * States beyond capacity *)

(** ** Trees whose size has wrapped around *)

Lemma tree_ok_wf (t : Tree) : tree_ok t -> tree_wf t.
Proof.
  intros (H1 & H2 & H3 & H4 & H5). unfold tree_wf. splits; auto.
  rewrite Z.mod_small; lia.
Qed.

Lemma tree_wf_init : tree_wf init_tree.
Proof. apply tree_ok_wf, tree_ok_init. Qed.

Lemma tree_wf_size (t : Tree) : tree_wf t -> 0 <= size t < USHRT.
Proof.
  intros (_ & _ & _ & ->). apply Z.mod_pos_bound. reflexivity.
Qed.

Lemma rb_insert_wf (t : Tree) (to : string) :
  tree_wf t -> ~ In to (members t) ->
  exists t', rb_insert t to = Ok t' /\ tree_wf t' /\
    (forall x, In x (members t') <-> x = to \/ In x (members t)) /\
    List.length (members t') = S (List.length (members t)).
Proof.
  intros (Hrb & Hc & Hs & Hsz) Hn. unfold members in *.
  destruct (insert_descend_sorted to (root t) []) as (E1 & E2);
    simpl; rewrite ?app_nil_r; auto; try contradiction.
  simpl in E1. rewrite app_nil_r in E1.
  assert (Hq : rb_path (insert_descend (root t) [] to) 0 BLACK).
  { apply insert_descend_rb; [assumption|]. simpl. assumption. }
  unfold rb_insert.
  set (q := insert_descend (root t) [] to) in *.
  set (z := match q with [] => Node to BLACK NIL NIL | _ :: _ => Node to RED NIL NIL end).
  destruct (rb_insert_fixup_spec (List.length q) q z) as (r & Er & R1 & R2 & R3).
  - lia.
  - unfold z. destruct q; rb_crush.
  - unfold z. destruct q; auto.
  - unfold z. destruct q; [reflexivity|exact Hq].
  - rewrite Er. cbn [bind].
    assert (El : elements r = before q ++ to :: after q).
    { rewrite R3, elements_zip. unfold z. now destruct q. }
    assert (Hlen : List.length (elements r) = S (List.length (elements (root t)))).
    { rewrite El, <- E1, !length_app. simpl. lia. }
    eexists. split; [reflexivity|]. splits.
    + unfold tree_wf, members. cbn [root size]. splits; auto.
      * now rewrite El.
      * rewrite Hlen, Hsz, Nat2Z.inj_succ, <- Z.add_1_r.
        now rewrite Zplus_mod_idemp_l.
    + intros x. cbn [root]. rewrite El, <- E1, !in_app_iff. simpl.
      intuition (subst; auto).
    + exact Hlen.
Qed.

Lemma tree_search_wf (t : Tree) (to : string) :
  tree_wf t ->
  is_NIL (fst (tree_search (root t) to)) = true <-> ~ In to (members t).
Proof.
  intros (_ & _ & Hs & _). unfold tree_search, members in *.
  pose proof (tree_search_from_found to (root t) [] Hs) as H.
  destruct (is_NIL (fst (tree_search_from (root t) [] to))); split; auto.
  - discriminate.
  - intros Hn. destruct H. contradiction.
Qed.

Lemma rb_delete_wf (t : Tree) (to : string) :
  tree_wf t -> In to (members t) ->
  exists t', rb_delete t (tree_search (root t) to) = Ok t' /\ tree_wf t' /\
    (forall x, In x (members t') <-> In x (members t) /\ x <> to) /\
    List.length (members t) = S (List.length (members t')).
Proof.
  intros (Hrb & Hc & Hs & Hsz) Hin. unfold members, tree_search in *.
  pose proof (tree_search_from_found to (root t) [] Hs) as Hf.
  pose proof (tree_search_from_zip to (root t) []) as Hz.
  destruct (tree_search_from_rb to (root t) [] Hrb Hc) as [Hx Hp].
  destruct (tree_search_from (root t) [] to) as [z pz]. cbn [fst snd] in *.
  destruct (is_NIL z) eqn:En; [contradiction|].
  destruct Hf as (_ & zc & zl & zr & ->).
  destruct (rb_delete_cursor t to zc zl zr pz Hx Hp) as (r & E & R1 & R2 & R3).
  simpl in Hz.
  assert (El : elements (root t) = before pz ++ elements zl ++ to :: elements zr ++ after pz).
  { rewrite <- Hz, elements_zip. now norm_app. }
  rewrite E. eexists. split; [reflexivity|].
  rewrite El in Hs.
  replace (before pz ++ elements zl ++ to :: elements zr ++ after pz)
    with ((before pz ++ elements zl) ++ to :: elements zr ++ after pz) in Hs
    by now norm_app.
  apply sorted_remove_mid in Hs. destruct Hs as [Hs Hm].
  replace ((before pz ++ elements zl) ++ elements zr ++ after pz)
    with (before pz ++ elements zl ++ elements zr ++ after pz) in Hs, Hm
    by now norm_app.
  assert (Hlen : List.length (elements (root t))
                 = S (List.length (elements r))).
  { rewrite El, R3, !length_app. simpl. rewrite !length_app. lia. }
  splits.
  - unfold tree_wf, members. cbn [root size]. rewrite R3.
    splits; auto. rewrite <- R3, Hsz, Hlen, Nat2Z.inj_succ, <- Z.add_1_r.
    rewrite Zminus_mod_idemp_l. f_equal. lia.
  - intros x. cbn [root]. rewrite R3, El, Hm.
    replace ((before pz ++ elements zl) ++ to :: elements zr ++ after pz)
      with (before pz ++ elements zl ++ to :: elements zr ++ after pz)
      by now norm_app.
    reflexivity.
  - exact Hlen.
Qed.

Lemma rb_delete_NIL (t : Tree) (z : cursor) :
  is_NIL (fst z) = true -> rb_delete t z = Crash Null_pointer.
Proof. destruct z as [[|] p]; [reflexivity|discriminate]. Qed.

Lemma clear_tree_wf (t : Tree) : tree_wf t -> clear_tree t = init_tree.
Proof.
  intros (_ & _ & _ & Hsz). unfold clear_tree, members in *.
  destruct t as [r s]. simpl in *. destruct r; [|reflexivity].
  simpl in Hsz. subst. reflexivity.
Qed.

(** ** The recomputation *)

Lemma restore_entity_wf (P : string -> Prop) (type : string) (d0 d : list_t)
  (done : list entity_t) (e : entity_t) :
  tree_wf (tree d0) -> entity_wf P e -> ~ In (id e) (map id done) ->
  restoring_wf P d0 done d ->
  exists d', restore_entity type d e = Ok d' /\
             restoring_wf P d0 (done ++ [e]) d'.
Proof.
  intros H0 [Hp He] Hn (Hk & Hm & Hd). unfold restore_entity.
  assert (Hmono : incl (map id done) (map id (done ++ [e]))).
  { intros x Hx. rewrite map_app. apply in_or_app. now left. }
  assert (Hlast : In (id e) (map id (done ++ [e]))).
  { rewrite map_app. apply in_or_app. right. now left. }
  assert (Hkeep : restoring_wf P d0 (done ++ [e]) d).
  { unfold restoring_wf. splits; auto; try lia.
    destruct Hd as [Hd|[Hd1 Hd2]]; [now left|right].
    split; [assumption|]. intros x Hx. apply Hmono. auto. }
  destruct (list_search (rel_list e) type) as [rel|] eqn:Er; [|eauto].
  destruct (He _ _ Er) as [Hrel _].
  pose proof (tree_wf_size _ Hrel) as Hsz.
  destruct ((size (tree rel) >? 0) && (size (tree rel) =? current_maximum d))
    eqn:B1.
  - apply andb_prop in B1. destruct B1 as [B1 B2].
    rewrite Z.gtb_ltb in B1. apply Z.ltb_lt in B1. apply Z.eqb_eq in B2.
    destruct Hd as [[Hz _]|[[Hw Hq] Hi]]; [lia|].
    destruct (rb_insert_wf (tree d) (id e) Hw) as (t' & -> & W1 & W2 & _).
    { intros F. apply Hn. auto. }
    cbn [bind]. eexists. split; [reflexivity|].
    unfold restoring_wf, node_wf. cbn [key tree current_maximum with_tree].
    splits; auto; try lia. right. splits; auto.
    + intros x Hx. apply W2 in Hx. destruct Hx as [->|Hx]; auto.
    + intros x Hx. apply W2 in Hx. destruct Hx as [->|Hx]; auto.
  - destruct (size (tree rel) >? current_maximum d) eqn:B2; [|eauto].
    rewrite Z.gtb_ltb in B2. apply Z.ltb_lt in B2.
    assert (clear_tree (tree d) = init_tree) as ->.
    { destruct Hd as [[_ ->]|[[Hw _] _]]; now apply clear_tree_wf. }
    destruct (rb_insert_wf init_tree (id e) tree_wf_init) as (t' & -> & W1 & W2 & _).
    { intros []. }
    cbn [bind]. eexists. split; [reflexivity|].
    unfold restoring_wf, node_wf. cbn [key tree current_maximum].
    splits; auto; try lia. right. splits; auto.
    + intros x Hx. apply W2 in Hx. destruct Hx as [->|[]]. auto.
    + intros x Hx. apply W2 in Hx. destruct Hx as [->|[]]. auto.
Qed.

Lemma restore_chain_wf (P : string -> Prop) (type : string) (d0 : list_t) :
  tree_wf (tree d0) ->
  forall l done d,
    NoDup (map id (done ++ l)) -> Forall (entity_wf P) l ->
    restoring_wf P d0 done d ->
    exists d', restore_chain type d l = Ok d' /\
               restoring_wf P d0 (done ++ l) d'.
Proof.
  intros H0. induction l as [|e l IH]; intros done d Hnd Hl Hd; simpl.
  - rewrite app_nil_r. eauto.
  - inversion Hl as [|? ? He Hl']; subst.
    destruct (restore_entity_wf P type d0 d done e H0 He) as (d1 & -> & H1); auto.
    { rewrite map_app in Hnd. simpl in Hnd. apply NoDup_remove_2 in Hnd.
      intros F. apply Hnd. apply in_or_app. now left. }
    cbn [bind].
    destruct (IH (done ++ [e]) d1) as (d2 & -> & H2); auto.
    { now rewrite <- app_assoc. }
    rewrite <- app_assoc in H2. eauto.
Qed.

Lemma list_delete_sub (l : List) (k : string) : forall l',
  list_delete l k = Ok l' ->
  exists l1 n l2, l = l1 ++ n :: l2 /\ l' = l1 ++ l2.
Proof.
  induction l as [|c l IH]; intros l'; simpl; [discriminate|].
  destruct (strcmp (key c) k =? 0).
  - intros [= <-]. exists [], c, l. auto.
  - destruct (list_delete l k) as [next|] eqn:E; [|discriminate].
    cbn [bind]. intros [= <-].
    destruct (IH next eq_refl) as (l1 & n & l2 & -> & ->).
    exists (c :: l1), n, l2. auto.
Qed.

Lemma restore_data_maximum_wf (P : string -> Prop) (data_list : list_t)
  (type : string) (s s' : State) :
  well_formed P s -> node_wf P data_list -> P (key data_list) ->
  key data_list = type ->
  restore_data_maximum data_list type s = Ok s' ->
  well_formed P s' /\ ENTITIES s' = ENTITIES s.
Proof.
  intros (Ht & He & Hs & Hd) [Hw Hq] Hp Hk. unfold restore_data_maximum.
  rewrite restore_table_concat.
  set (d0 := {| key := key data_list; tree := tree data_list;
                current_maximum := 0 |}).
  destruct (restore_chain_wf P type d0 Hw (entities s) [] d0)
    as (d & E & Kd & Md & Rd); auto.
  - apply Ht.
  - unfold restoring_wf, USHRT. simpl. splits; auto; lia.
  - fold (entities s). rewrite E. cbn [bind]. simpl in Rd, Kd.
    destruct (current_maximum d =? 0) eqn:Ez.
    + destruct (list_delete (RELATION_TYPES s) type) as [types|] eqn:El;
        [|discriminate].
      cbn [bind]. intros [= <-]. split; [|reflexivity].
      destruct (list_delete_sub _ _ _ El) as (l1 & n & l2 & E1 & ->).
      unfold well_formed, entities. cbn [ENTITIES RELATION_TYPES].
      rewrite E1 in Hs, Hd. splits; auto.
      * rewrite map_app in *. simpl in Hs. apply sorted_remove_mid in Hs. apply Hs.
      * apply Forall_app in Hd. destruct Hd as [D1 D2].
        inversion D2; subst. apply Forall_app. auto.
    + apply Z.eqb_neq in Ez. intros [= <-]. split; [|reflexivity].
      unfold well_formed, entities. cbn [ENTITIES RELATION_TYPES].
      splits; auto.
      * now rewrite list_store_keys.
      * apply list_store_Forall; [assumption|].
        destruct Rd as [[F _]|[Hn _]]; [contradiction|].
        unfold descriptor_wf. rewrite Kd. auto.
Qed.

(** ** The commands *)

Lemma entities_init : entities init_state = [].
Proof.
  unfold entities, init_state, init_table. cbn [ENTITIES].
  generalize (Z.to_nat HASH_DIMENSION). induction n; simpl; auto.
Qed.

Lemma well_formed_init (P : string -> Prop) : well_formed P init_state.
Proof.
  unfold well_formed. rewrite entities_init.
  splits; auto using table_ok_init, sorted_nil.
Qed.

Lemma addent_wf (P : string -> Prop) (x : string) (s s' : State) :
  well_formed P s -> P x -> addent x s = Ok s' ->
  well_formed P s' /\ RELATION_TYPES s' = RELATION_TYPES s /\
  (forall y, live s' y <-> y = x \/ live s y) /\
  (forall z t, in_neighbors s' z t = in_neighbors s z t).
Proof.
  intros (Ht & He & Hs & Hd) Hp H. unfold addent in H.
  destruct (hash_search (ENTITIES s) x) as [r|] eqn:E; [|discriminate].
  cbn [bind] in H. destruct (hash_search_inv _ _ _ Ht E) as [Hx ->].
  destruct (chain_search (List.concat (ENTITIES s)) x) as [e|] eqn:Ec.
  - injection H as <-. unfold well_formed. splits; auto.
    intros y. split; [tauto|]. intros [->|Hy]; [|assumption].
    apply live_lookup. exists e. exact Ec.
  - destruct (hash_insert_spec _ _ Ht Hx Ec) as (ht' & l1 & l2 & Ei & E1 & E2 & Hok).
    rewrite Ei in H. cbn [bind] in H. injection H as <-.
    assert (Hnd : NoDup (map id (l1 ++ {| id := x; rel_list := init_list |} :: l2))).
    { rewrite <- E2. apply Hok. }
    unfold well_formed, live, ids, in_neighbors, entities in *.
    cbn [ENTITIES RELATION_TYPES]. rewrite E2. rewrite E1 in *. splits; auto.
    + apply Forall_app in He. destruct He as [He1 He2].
      apply Forall_app. split; [assumption|]. constructor; [|assumption].
      split; [exact Hp|]. intros t r. discriminate.
    + intros y. rewrite !map_app, !in_app_iff. simpl. intuition (subst; auto).
    + intros z t. rewrite (lookup_remove l1 l2 _ z Hnd). cbn [id].
      destruct (String.eqb_spec z x) as [->|Hz]; [|reflexivity].
      pose proof (chain_search_unique _ {| id := x; rel_list := init_list |} Hnd)
        as Hu.
      cbn [id] in Hu. rewrite Hu by (apply in_or_app; right; now left).
      reflexivity.
Qed.

(** The node of a type in the global list, found or created. *)
Lemma data_node_wf (P : string -> Prop) (s : State) (type : string) :
  well_formed P s -> P type ->
  exists types data_list,
    match list_search (RELATION_TYPES s) type with
    | Some d => (RELATION_TYPES s, d)
    | None => (list_insert (RELATION_TYPES s) type, new_list_t type)
    end = (types, data_list) /\
    list_search types type = Some data_list /\ key data_list = type /\
    descriptor_wf P data_list /\
    sorted (map key types) /\ Forall (descriptor_wf P) types.
Proof.
  intros (Ht & He & Hs & Hd) Hp.
  destruct (list_search (RELATION_TYPES s) type) as [d|] eqn:E.
  - exists (RELATION_TYPES s), d. destruct (list_search_In _ _ _ E) as [Hk Hin].
    rewrite Forall_forall in Hd. pose proof (Hd d Hin).
    splits; auto. now apply Forall_forall.
  - exists (list_insert (RELATION_TYPES s) type), (new_list_t type).
    assert (Hnew : descriptor_wf P (new_list_t type)).
    { unfold descriptor_wf, node_wf, USHRT. simpl.
      splits; auto using tree_wf_init; try lia; try (intros x []). }
    splits; auto using list_insert_same, list_insert_sorted.
    apply Forall_forall. intros d Hin. apply list_insert_In in Hin.
    destruct Hin as [->|Hin]; [assumption|].
    rewrite Forall_forall in Hd. auto.
Qed.

(** The node of a type in the list of an entity, found or created. *)
Lemma rel_node_wf (P : string -> Prop) (e : entity_t) (type : string) :
  entity_wf P e ->
  exists rels rel,
    match list_search (rel_list e) type with
    | Some r => (rel_list e, r)
    | None => (list_insert_unordered (rel_list e) type, new_list_t type)
    end = (rels, rel) /\
    list_search rels type = Some rel /\ key rel = type /\
    node_wf P rel /\
    members (tree rel) = in_neighbors_of e type /\
    (forall t, t <> type -> list_search rels t = list_search (rel_list e) t).
Proof.
  intros [Hp Hok]. unfold in_neighbors_of.
  destruct (list_search (rel_list e) type) as [r|] eqn:E.
  - exists (rel_list e), r. destruct (list_search_In _ _ _ E).
    splits; eauto.
  - exists (list_insert_unordered (rel_list e) type), (new_list_t type).
    splits; auto.
    + simpl. now rewrite strcmp_refl.
    + split; [apply tree_wf_init|intros x []].
    + intros t Hne. simpl. destruct (strcmp type t =? 0) eqn:F; [|reflexivity].
      apply strcmp_eq in F. congruence.
Qed.

(** [addrel] on two live entities, with the node of the type that it leaves
    when the new size field exceeds the maximum. *)
Lemma addrel_full_wf (P : string -> Prop) (from to type : string) (s : State)
  (fe te : entity_t) :
  well_formed P s -> P type ->
  chain_search (entities s) from = Some fe ->
  chain_search (entities s) to = Some te ->
  exists s' te' l1 l2,
    addrel from to type s = Ok s' /\ well_formed P s' /\
    entities s = l1 ++ te :: l2 /\ entities s' = l1 ++ te' :: l2 /\
    id te' = id te /\
    (forall t, t <> type ->
               list_search (rel_list te') t = list_search (rel_list te) t) /\
    (forall y, In y (in_neighbors_of te' type) <->
               y = from \/ In y (in_neighbors_of te type)) /\
    (~ In from (in_neighbors_of te type) ->
     List.length (in_neighbors_of te' type)
     = S (List.length (in_neighbors_of te type))) /\
    exists d', descriptor s' type = Some d' /\
               (max_of (descriptor s type) < degree_of te' type ->
                current_maximum d' = degree_of te' type /\ leaders d' = [to]).
Proof.
  intros Hwf Hp Hf Hto. pose proof Hwf as (Ht & He & Hs & Hd).
  destruct (chain_search_In _ _ _ Hf) as [Hfi Hfin].
  destruct (chain_search_In _ _ _ Hto) as [Hti Htin].
  unfold addrel. unfold entities in Hf, Hto.
  rewrite (hash_search_ok _ from Ht), Hf by (rewrite <- Hfi; eapply live_hash; eauto).
  rewrite (hash_search_ok _ to Ht), Hto by (rewrite <- Hti; eapply live_hash; eauto).
  cbn [bind].
  rewrite Forall_forall in He. pose proof (He te Htin) as Hte.
  assert (Pfrom : P from).
  { rewrite <- Hfi. apply (He fe Hfin). }
  assert (Pto : P (id te)) by apply Hte.
  destruct (data_node_wf P s type Hwf Hp)
    as (types & d & Hdn & Ed & Kd & (Pd & [Td Qd] & Md) & Sd & Fd).
  assert (Hmax : max_of (descriptor s type) = current_maximum d).
  { unfold descriptor, max_of.
    destruct (list_search (RELATION_TYPES s) type); injection Hdn as _ <-;
      reflexivity. }
  rewrite Hdn.
  destruct (rel_node_wf P te type Hte)
    as (rels & rel & -> & Er & Kr & [Tr Qr] & Mr & Or).
  rewrite Hfi.
  (* the tree of the relations into the entity *)
  assert (exists rt,
    (if is_NIL (fst (tree_search (root (tree rel)) from))
     then rb_insert (tree rel) from else Ok (tree rel)) = Ok rt /\
    tree_wf rt /\
    (forall y, In y (members rt) <-> y = from \/ In y (members (tree rel))) /\
    (~ In from (members (tree rel)) ->
     List.length (members rt) = S (List.length (members (tree rel)))))
    as (rt & -> & Trt & Mrt & Lrt).
  { destruct (in_dec_neighbors from (members (tree rel))) as [Hin|Hnot].
    - destruct (is_NIL (fst (tree_search (root (tree rel)) from))) eqn:En.
      + apply (tree_search_wf _ _ Tr) in En. contradiction.
      + exists (tree rel). splits; auto; [|contradiction].
        intros y. split; [tauto|]. intros [->|H]; assumption.
    - assert (is_NIL (fst (tree_search (root (tree rel)) from)) = true) as ->.
      { now apply (tree_search_wf _ _ Tr). }
      destruct (rb_insert_wf (tree rel) from Tr Hnot) as (rt & E & W1 & W2 & W3).
      exists rt. auto. }
  cbn [bind].
  (* the node of the type *)
  assert (exists d',
    (if size rt =? current_maximum d
     then
      if is_NIL (fst (tree_search (root (tree d)) (id te)))
      then t <- rb_insert (tree d) (id te);; Ok (with_tree d t)
      else Ok d
     else
      if size rt >? current_maximum d
      then
       t <- rb_insert (clear_tree (tree d)) (id te);;
       Ok {| key := key d; tree := t; current_maximum := size rt |}
      else Ok d) = Ok d' /\
    key d' = type /\ descriptor_wf P d' /\
    (current_maximum d < size rt ->
     current_maximum d' = size rt /\ members (tree d') = [id te]))
    as (d' & -> & Kd' & Wd' & Ld').
  { assert (Hd0 : descriptor_wf P d) by (unfold descriptor_wf, node_wf; auto).
    destruct (size rt =? current_maximum d) eqn:Eq.
    - apply Z.eqb_eq in Eq.
      destruct (is_NIL (fst (tree_search (root (tree d)) (id te)))) eqn:En;
        [|exists d; splits; auto; lia].
      apply (tree_search_wf _ _ Td) in En.
      destruct (rb_insert_wf (tree d) (id te) Td En) as (t' & -> & W1 & W2 & _).
      cbn [bind]. eexists. split; [reflexivity|].
      unfold descriptor_wf, node_wf. cbn [key tree current_maximum with_tree].
      splits; auto; try lia.
      intros x Hx. apply W2 in Hx. destruct Hx as [->|Hx]; auto.
    - destruct (Z.gtb_spec (size rt) (current_maximum d)) as [Hgt|Hle];
        [|exists d; splits; auto; lia].
      rewrite (clear_tree_wf _ Td).
      destruct (rb_insert_wf init_tree (id te) tree_wf_init)
        as (t' & -> & W1 & W2 & W3).
      { intros []. }
      cbn [bind]. eexists. split; [reflexivity|].
      unfold descriptor_wf, node_wf. cbn [key tree current_maximum].
      splits; auto; try apply (tree_wf_size _ Trt).
      + intros x Hx. apply W2 in Hx. destruct Hx as [->|[]]. auto.
      + intros _. split; [reflexivity|].
        destruct (members t') as [|a [|b m]]; try discriminate W3.
        f_equal. destruct (proj1 (W2 a) (or_introl eq_refl)) as [->|[]].
        reflexivity. }
  cbn [bind].
  set (te' := with_rel_list te (list_store rels type (with_tree rel rt))).
  assert (Hsearch' : list_search (rel_list te') type = Some (with_tree rel rt)).
  { unfold te'. cbn [rel_list with_rel_list]. eapply list_store_same; eauto. }
  assert (Hother' : forall t, t <> type ->
            list_search (rel_list te') t = list_search (rel_list te) t).
  { intros t Hne. unfold te'. cbn [rel_list with_rel_list].
    rewrite list_store_other by auto. auto. }
  assert (Hstore : chain_search (List.concat (ENTITIES s)) (id te') = Some te).
  { unfold te'. cbn [id with_rel_list]. now rewrite Hti. }
  destruct (entity_store_spec _ te te' Ht Hstore) as (l1 & l2 & E & E' & Ht').
  fold (entities s) in E, Htin.
  eexists. exists te', l1, l2. split; [reflexivity|].
  splits; auto.
  - unfold well_formed, entities. cbn [ENTITIES RELATION_TYPES].
    rewrite E'. splits; auto.
    + apply Forall_forall. intros a Ha. apply In_update in Ha.
      destruct Ha as [->|Ha]; [|apply He; rewrite E; apply In_update; auto].
      split; [exact Pto|]. intros t r Hr.
      destruct (String.eqb_spec t type) as [->|Hne].
      * rewrite Hsearch' in Hr. injection Hr as <-.
        unfold node_wf. cbn [tree with_tree]. split; [assumption|].
        intros x Hx. apply Mrt in Hx. destruct Hx as [->|Hx]; auto.
      * rewrite Hother' in Hr by assumption. apply (proj2 Hte _ _ Hr).
    + now rewrite list_store_keys.
    + now apply list_store_Forall.
  - unfold in_neighbors_of at 1. rewrite Hsearch'. cbn [tree with_tree].
    intros y. now rewrite Mrt, Mr.
  - unfold in_neighbors_of at 2. rewrite Hsearch'. cbn [tree with_tree].
    rewrite <- Mr. exact Lrt.
  - exists d'. split.
    + unfold descriptor. cbn [RELATION_TYPES].
      apply (list_store_same _ _ _ _ Kd' Ed).
    + unfold degree_of. rewrite Hsearch'. cbn [tree with_tree].
      rewrite Hmax, <- Hti. exact Ld'.
Qed.

Lemma addrel_wf (P : string -> Prop) (from to type : string) (s : State)
  (fe te : entity_t) :
  well_formed P s -> P type ->
  chain_search (entities s) from = Some fe ->
  chain_search (entities s) to = Some te ->
  exists s' te' l1 l2,
    addrel from to type s = Ok s' /\ well_formed P s' /\
    entities s = l1 ++ te :: l2 /\ entities s' = l1 ++ te' :: l2 /\
    id te' = id te /\
    (forall t, t <> type ->
               list_search (rel_list te') t = list_search (rel_list te) t) /\
    (forall y, In y (in_neighbors_of te' type) <->
               y = from \/ In y (in_neighbors_of te type)) /\
    (~ In from (in_neighbors_of te type) ->
     List.length (in_neighbors_of te' type)
     = S (List.length (in_neighbors_of te type))) /\
    descriptor s' type <> None.
Proof.
  intros Hwf Hp Hf Hto.
  destruct (addrel_full_wf P from to type s fe te Hwf Hp Hf Hto)
    as (s' & te' & l1 & l2 & E & W & El & El' & Hid & Ho & Hmem & Hlen
        & d' & Hd & _).
  exists s', te', l1, l2. splits; auto. congruence.
Qed.

Lemma addrel_keeps_wf (P : string -> Prop) (from to type : string)
  (s s' : State) :
  well_formed P s -> P type -> addrel from to type s = Ok s' ->
  well_formed P s'.
Proof.
  intros Hwf Hp H. pose proof Hwf as (Ht & _).
  destruct (hash_search (ENTITIES s) from) as [rf|] eqn:Ef;
    [|unfold addrel in H; rewrite Ef in H; discriminate].
  destruct (hash_search (ENTITIES s) to) as [rt|] eqn:Et;
    [|unfold addrel in H; rewrite Ef, Et in H; discriminate].
  destruct (hash_search_inv _ _ _ Ht Ef) as [_ ->].
  destruct (hash_search_inv _ _ _ Ht Et) as [_ ->].
  destruct (chain_search (List.concat (ENTITIES s)) from) as [fe|] eqn:Cf;
    [destruct (chain_search (List.concat (ENTITIES s)) to) as [te|] eqn:Ct|].
  - destruct (addrel_wf P from to type s fe te Hwf Hp Cf Ct)
      as (s1 & _ & _ & _ & E & W & _).
    congruence.
  - unfold addrel in H. rewrite Ef, Et in H. cbn [bind] in H. congruence.
  - unfold addrel in H. rewrite Ef, Et in H. cbn [bind] in H.
    destruct (chain_search (List.concat (ENTITIES s)) to); congruence.
Qed.

(** Writing the new relation list of an entity back. *)
Lemma entity_update_wf (P : string -> Prop) (s : State) (te : entity_t)
  (type : string) (rel : list_t) (rt : Tree) :
  well_formed P s -> In te (entities s) ->
  list_search (rel_list te) type = Some rel ->
  tree_wf rt -> (forall x, In x (members rt) -> P x) ->
  well_formed P
    {| ENTITIES :=
         entity_store (ENTITIES s)
           (with_rel_list te
              (list_store (rel_list te) type (with_tree rel rt)));
       RELATION_TYPES := RELATION_TYPES s |} /\
  ids {| ENTITIES :=
           entity_store (ENTITIES s)
             (with_rel_list te
                (list_store (rel_list te) type (with_tree rel rt)));
         RELATION_TYPES := RELATION_TYPES s |} = ids s.
Proof.
  intros (Ht & He & Hs & Hd) Hin Hr Hrt Hq.
  set (te' := with_rel_list te (list_store (rel_list te) type (with_tree rel rt))).
  destruct (list_search_In _ _ _ Hr) as [Kr _].
  assert (Hstore : chain_search (List.concat (ENTITIES s)) (id te') = Some te).
  { unfold te'. cbn [id with_rel_list].
    apply chain_search_unique; [apply Ht|exact Hin]. }
  destruct (entity_store_spec _ te te' Ht Hstore) as (l1 & l2 & E & E' & Ht').
  unfold well_formed, ids, entities in *. cbn [ENTITIES RELATION_TYPES].
  rewrite E'. rewrite E in *. split; [|now apply ids_update].
  splits; auto.
  rewrite Forall_forall in He.
  apply Forall_forall. intros a Ha. apply In_update in Ha.
  destruct Ha as [->|Ha]; [|apply He; apply In_update; auto].
  destruct (He te Hin) as [Pte Hte]. split; [exact Pte|].
  intros t r Hs'. unfold te' in Hs'. cbn [rel_list with_rel_list] in Hs'.
  destruct (String.eqb_spec t type) as [->|Hne].
  - rewrite (list_store_same _ _ _ rel) in Hs' by (cbn [key with_tree]; auto).
    injection Hs' as <-. split; assumption.
  - rewrite list_store_other in Hs' by (cbn [key with_tree]; auto). eauto.
Qed.

Lemma found_member (t : Tree) (x : string) :
  tree_wf t -> is_NIL (fst (tree_search (root t) x)) = false ->
  In x (members t).
Proof.
  intros Hw En. destruct (in_dec_neighbors x (members t)) as [H|H]; [exact H|].
  apply (tree_search_wf _ _ Hw) in H. congruence.
Qed.

Lemma rb_delete_keeps_wf (P : string -> Prop) (t t' : Tree) (x : string) :
  tree_wf t -> (forall y, In y (members t) -> P y) ->
  rb_delete t (tree_search (root t) x) = Ok t' ->
  tree_wf t' /\ (forall y, In y (members t') -> P y).
Proof.
  intros Hw Hq H.
  destruct (is_NIL (fst (tree_search (root t) x))) eqn:En.
  - rewrite rb_delete_NIL in H by assumption. discriminate.
  - destruct (rb_delete_wf t x Hw (found_member _ _ Hw En)) as (t1 & E & W1 & W2 & _).
    rewrite E in H. injection H as <-. split; [assumption|].
    intros y Hy. apply W2 in Hy. apply Hq, Hy.
Qed.

Lemma delrel_wf (P : string -> Prop) (from to type : string) (s s' : State) :
  well_formed P s -> delrel from to type s = Ok s' -> well_formed P s'.
Proof.
  intros Hwf H. pose proof Hwf as (Ht & He & Hs & Hd). unfold delrel in H.
  destruct (hash_search (ENTITIES s) from) as [rf|] eqn:Ef; [|discriminate].
  destruct (hash_search (ENTITIES s) to) as [rt|] eqn:Et; [|discriminate].
  cbn [bind] in H.
  destruct (hash_search_inv _ _ _ Ht Et) as [_ ->].
  destruct rf as [fe|]; [|congruence].
  destruct (chain_search (List.concat (ENTITIES s)) to) as [te|] eqn:Ct;
    [|congruence].
  destruct (chain_search_In _ _ _ Ct) as [Hti Htin]. fold (entities s) in Htin.
  destruct (list_search (RELATION_TYPES s) type) as [d|] eqn:Ed; [|congruence].
  destruct (list_search (rel_list te) type) as [rel|] eqn:Er; [|congruence].
  destruct (is_NIL (fst (tree_search (root (tree rel)) (id fe)))) eqn:En;
    [congruence|].
  rewrite Forall_forall in He, Hd.
  destruct (He te Htin) as [Pte Hte]. destruct (Hte _ _ Er) as [Tr Qr].
  destruct (list_search_In _ _ _ Ed) as [Kd Hdin].
  destruct (Hd d Hdin) as (Pd & [Td Qd] & Md).
  destruct (rb_delete (tree rel) (tree_search (root (tree rel)) (id fe)))
    as [rt|] eqn:Edel; [|discriminate].
  cbn [bind] in H.
  destruct (rb_delete_keeps_wf P _ _ _ Tr Qr Edel) as [Trt Qrt].
  destruct (entity_update_wf P s te type rel rt Hwf Htin Er Trt Qrt) as [W1 _].
  destruct (size rt + 1 =? current_maximum d); [|congruence].
  destruct (size (tree d) >? 1).
  - destruct (rb_delete (tree d) (tree_search (root (tree d)) (id te)))
      as [t|] eqn:Edel'; [|discriminate].
    cbn [bind] in H. injection H as <-.
    destruct (rb_delete_keeps_wf P _ _ _ Td Qd Edel') as [Tt Qt].
    destruct W1 as (W1 & W2 & W3 & W4).
    unfold well_formed, entities in *. cbn [ENTITIES RELATION_TYPES] in *.
    splits; auto.
    + rewrite list_store_keys; auto.
    + apply list_store_Forall; [apply Forall_forall; auto|].
      unfold descriptor_wf, node_wf. cbn [key tree current_maximum with_tree].
      auto.
  - eapply restore_data_maximum_wf; [exact W1| | | |exact H]; auto.
    split; assumption.
Qed.

Lemma entity_wf_store (P : string -> Prop) (e : entity_t) (type : string)
  (rel : list_t) (rt : Tree) :
  entity_wf P e -> list_search (rel_list e) type = Some rel ->
  tree_wf rt -> (forall x, In x (members rt) -> P x) ->
  entity_wf P
    (with_rel_list e (list_store (rel_list e) type (with_tree rel rt))).
Proof.
  intros [Pe He] Hr Hrt Hq. destruct (list_search_In _ _ _ Hr) as [Kr _].
  split; [exact Pe|]. intros t r Hs. cbn [rel_list with_rel_list] in Hs.
  destruct (String.eqb_spec t type) as [->|Hne].
  - rewrite (list_store_same _ _ _ rel) in Hs by (cbn [key with_tree]; auto).
    injection Hs as <-. split; assumption.
  - rewrite list_store_other in Hs by (cbn [key with_tree]; auto). eauto.
Qed.

Lemma delent_entity_wf (P : string -> Prop) (search : string)
  (rc rc' : list_t) (e e' : entity_t) :
  entity_wf P e -> descriptor_wf P rc ->
  delent_entity search rc e = Ok (e', rc') ->
  entity_wf P e' /\ id e' = id e /\ descriptor_wf P rc' /\ key rc' = key rc.
Proof.
  intros He (Pk & [Tc Qc] & Mc) H. unfold delent_entity in H.
  assert (Hrc : descriptor_wf P rc) by (unfold descriptor_wf, node_wf; auto).
  destruct (list_search (rel_list e) (key rc)) as [list|] eqn:El.
  2:{ injection H as <- <-. auto. }
  destruct (proj2 He _ _ El) as [Tl Ql].
  destruct (String.eqb (id e) search).
  - assert (Hent : entity_wf P
      (with_rel_list e
         (list_store (rel_list e) (key rc)
            (with_tree list (clear_tree (tree list)))))).
    { apply entity_wf_store; auto.
      - rewrite (clear_tree_wf _ Tl). apply tree_wf_init.
      - rewrite (clear_tree_wf _ Tl). intros x []. }
    destruct (is_NIL (fst (tree_search (root (tree rc)) (id e)))).
    + injection H as <- <-. auto.
    + destruct (rb_delete (tree rc) (tree_search (root (tree rc)) (id e)))
        as [t|] eqn:Ed; [|discriminate].
      cbn [bind] in H. injection H as <- <-.
      destruct (rb_delete_keeps_wf P _ _ _ Tc Qc Ed) as [Tt Qt].
      unfold descriptor_wf, node_wf. cbn [key tree current_maximum with_tree].
      splits; auto; lia.
  - destruct (is_NIL (fst (tree_search (root (tree list)) search))).
    + injection H as <- <-. auto.
    + destruct (rb_delete (tree list) (tree_search (root (tree list)) search))
        as [t|] eqn:Ed; [|discriminate].
      cbn [bind] in H. injection H as <- <-.
      destruct (rb_delete_keeps_wf P _ _ _ Tl Ql Ed) as [Tt Qt].
      splits; auto. apply entity_wf_store; auto.
Qed.

Lemma delent_chain_wf (P : string -> Prop) (search : string) :
  forall l rc l' rc',
    Forall (entity_wf P) l -> descriptor_wf P rc ->
    delent_chain search rc l = Ok (l', rc') ->
    Forall2 (fun e e' => id e' = id e) l l' /\ Forall (entity_wf P) l' /\
    descriptor_wf P rc' /\ key rc' = key rc.
Proof.
  induction l as [|e l IH]; intros rc l' rc' Hl Hrc H; simpl in H.
  - injection H as <- <-. auto.
  - inversion Hl as [|? ? He Hl']; subst.
    destruct (delent_entity search rc e) as [[e1 rc1]|] eqn:E1; [|discriminate].
    cbn [bind] in H.
    destruct (delent_chain search rc1 l) as [[l1 rc2]|] eqn:E2; [|discriminate].
    cbn [bind] in H. injection H as <- <-.
    destruct (delent_entity_wf P _ _ _ _ _ He Hrc E1) as (A1 & A2 & A3 & A4).
    destruct (IH _ _ _ Hl' A3 E2) as (B1 & B2 & B3 & B4).
    splits; auto. congruence.
Qed.

Lemma delent_table_wf (P : string -> Prop) (search : string) :
  forall ht rc ht' rc',
    Forall (entity_wf P) (List.concat ht) -> descriptor_wf P rc ->
    delent_table search rc ht = Ok (ht', rc') ->
    Forall2 (Forall2 (fun e e' => id e' = id e)) ht ht' /\
    Forall (entity_wf P) (List.concat ht') /\
    descriptor_wf P rc' /\ key rc' = key rc.
Proof.
  induction ht as [|b ht IH]; intros rc ht' rc' Hl Hrc H; simpl in H.
  - injection H as <- <-. auto.
  - simpl in Hl. apply Forall_app in Hl. destruct Hl as [Hb Hl].
    destruct (delent_chain search rc b) as [[b1 rc1]|] eqn:E1; [|discriminate].
    cbn [bind] in H.
    destruct (delent_table search rc1 ht) as [[ht1 rc2]|] eqn:E2; [|discriminate].
    cbn [bind] in H. injection H as <- <-.
    destruct (delent_chain_wf P _ _ _ _ _ Hb Hrc E1) as (A1 & A2 & A3 & A4).
    destruct (IH _ _ _ Hl A3 E2) as (B1 & B2 & B3 & B4).
    splits; auto; [|congruence]. simpl. apply Forall_app. auto.
Qed.

Lemma delent_types_wf (P : string -> Prop) (search : string) :
  forall remaining s s',
    well_formed P s -> Forall (descriptor_wf P) remaining ->
    delent_types search remaining s = Ok s' ->
    well_formed P s' /\ ids s' = ids s.
Proof.
  induction remaining as [|cursor next IH]; intros s s' Hwf Hr H; simpl in H.
  - injection H as <-. auto.
  - inversion Hr as [|? ? Hc Hn]; subst.
    pose proof Hwf as (Ht & He & Hs & Hd).
    destruct (delent_table search cursor (ENTITIES s)) as [[table c1]|] eqn:E1;
      [|discriminate].
    cbn [bind] in H.
    destruct (restore_data_maximum c1 (key cursor)
                {| ENTITIES := table; RELATION_TYPES := RELATION_TYPES s |})
      as [s1|] eqn:E2; [|discriminate].
    cbn [bind] in H.
    destruct (delent_table_wf P _ _ _ _ _ He Hc E1) as (A1 & A2 & A3 & A4).
    assert (Hmid : well_formed P
              {| ENTITIES := table; RELATION_TYPES := RELATION_TYPES s |}).
    { unfold well_formed, entities. cbn [ENTITIES RELATION_TYPES].
      splits; auto.
      eapply (table_ok_sweep (fun e e' => id e' = id e)); eauto. }
    destruct A3 as (Pc1 & Nc1 & Mc1).
    destruct (restore_data_maximum_wf P c1 (key cursor) _ s1 Hmid Nc1 Pc1 A4 E2)
      as [W1 W2].
    destruct (IH s1 s' W1 Hn H) as [W3 W4]. split; [assumption|].
    rewrite W4. unfold ids, entities. rewrite W2. cbn [ENTITIES].
    apply (Forall2_ids (fun e e' => id e' = id e)); [auto|].
    now apply Forall2_concat.
Qed.

Lemma delent_wf (P : string -> Prop) (x : string) (s s' : State) :
  well_formed P s -> delent x s = Ok s' -> well_formed P s'.
Proof.
  intros Hwf H. pose proof Hwf as (Ht & He & Hs & Hd). unfold delent in H.
  destruct (hash_search (ENTITIES s) x) as [r|] eqn:E; [|discriminate].
  cbn [bind] in H. destruct (hash_search_inv _ _ _ Ht E) as [Hx ->].
  destruct (chain_search (List.concat (ENTITIES s)) x) as [e|] eqn:Ec;
    [|congruence].
  destruct (delent_types (id e) (RELATION_TYPES s) s) as [s1|] eqn:E1;
    [|discriminate].
  cbn [bind] in H.
  destruct (delent_types_wf P _ _ _ _ Hwf Hd E1) as [(Ht1 & He1 & Hs1 & Hd1) Hids].
  destruct (chain_search (List.concat (ENTITIES s1)) x) as [e1|] eqn:Ec1.
  - destruct (hash_delete_spec _ _ _ Ht1 Ec1) as (ht' & l1 & l2 & Eh & F1 & F2 & Hok).
    rewrite Eh in H. cbn [bind] in H. injection H as <-.
    unfold well_formed, entities in *. cbn [ENTITIES RELATION_TYPES].
    rewrite F2. rewrite F1 in He1. splits; auto.
    apply Forall_app in He1. destruct He1 as [G1 G2].
    inversion G2; subst. apply Forall_app. auto.
  - exfalso. apply chain_search_None in Ec1. apply Ec1.
    change (In x (ids s1)). rewrite Hids.
    destruct (chain_search_In _ _ _ Ec) as [<- Hin]. now apply in_map.
Qed.

(** Every command keeps the state well formed, whatever its size. *)
Lemma exec_wf (P : string -> Prop) (c : command) (s s' : State) :
  well_formed P s -> (forall a, In a (command_arguments c) -> P a) ->
  exec c s = Ok s' -> well_formed P s'.
Proof.
  intros Hwf Hp H. destruct c; simpl in *.
  - eapply addent_wf; eauto.
  - eapply delent_wf; eauto.
  - eapply addrel_keeps_wf; eauto.
  - eapply delrel_wf; eauto.
  - now injection H as <-.
Qed.

Lemma reachable_wf (s : State) : reachable s -> well_formed (fun _ => True) s.
Proof.
  induction 1 as [|s s' c _ IH H].
  - apply well_formed_init.
  - eapply exec_wf; eauto.
Qed.

Lemma run_commands_wf (P : string -> Prop) (cs : list command) : forall s s',
  well_formed P s ->
  (forall c a, In c cs -> In a (command_arguments c) -> P a) ->
  run_commands cs s = Ok s' -> well_formed P s'.
Proof.
  induction cs as [|c cs IH]; intros s s' Hwf Hp H; simpl in H.
  - now injection H as <-.
  - destruct (exec c s) as [s1|] eqn:E; [|discriminate]. cbn [bind] in H.
    apply (IH s1 s'); auto.
    + eapply exec_wf; eauto. intros a Ha. apply (Hp c a); auto. now left.
    + intros c' a Hc Ha. apply (Hp c' a); auto. now right.
Qed.

Lemma reachable_run_commands (s : State) :
  reachable s <-> exists cs, run_commands cs init_state = Ok s.
Proof.
  split.
  - induction 1 as [|s s' c _ [cs IH] H].
    + exists []. reflexivity.
    + exists (cs ++ [c]). revert IH. generalize init_state.
      induction cs as [|c0 cs IHcs]; intros s0 IH; simpl in *.
      * injection IH as ->. now rewrite H.
      * destruct (exec c0 s0); [|discriminate]. cbn [bind] in *. auto.
  - intros [cs H]. revert H. 
    assert (forall s0, reachable s0 -> run_commands cs s0 = Ok s -> reachable s)
      as G.
    { induction cs as [|c cs IH]; intros s0 H0 H; simpl in H.
      - now injection H as <-.
      - destruct (exec c s0) as [s1|] eqn:E; [|discriminate]. cbn [bind] in H.
        apply (IH s1); [|assumption]. econstructor; eauto. }
    apply G. constructor.
Qed.

(** * Hashing *)

Lemma wrap_int_small (z : Z) :
  - 2147483648 <= z < 2147483648 -> wrap_int z = z.
Proof.
  intros H. unfold wrap_int.
  destruct (Z.leb_spec (- 2147483648) z); [|lia].
  destruct (Z.ltb_spec z 2147483648); [reflexivity|lia].
Qed.

Lemma wrap_long_small (z : Z) :
  - 9223372036854775808 <= z < 9223372036854775808 -> wrap_long z = z.
Proof.
  intros H. unfold wrap_long.
  destruct (Z.leb_spec (- 9223372036854775808) z); [|lia].
  destruct (Z.ltb_spec z 9223372036854775808); [reflexivity|lia].
Qed.

Lemma shift_char_value_range (c : Z) :
  0 <= c < 128 -> 0 <= shift_char_value c < 128.
Proof.
  intros H. unfold shift_char_value.
  destruct (c =? 45); [lia|]. destruct (c =? 95); [lia|].
  destruct (Z.leb_spec 65 c), (Z.leb_spec c 90); simpl; try lia;
    destruct (Z.leb_spec 97 c), (Z.leb_spec c 122); simpl; lia.
Qed.

Lemma char_value_plain (c : ascii) :
  (N_of_ascii c <? 128)%N = true -> 0 <= char_value c < 128.
Proof.
  intros H. apply N.ltb_lt in H. unfold char_value.
  destruct (Z.ltb_spec (Z.of_N (N_of_ascii c)) 128); lia.
Qed.

(** Without a byte above 127 and within 4000 bytes, no product and no sum of
    [hash_string] wraps around, and the sum stays positive. *)
Lemma hash_loop_plain (length : Z) : forall rest i hash,
  plain rest = true -> 0 <= i ->
  i + Z.of_nat (String.length rest) <= 4000 ->
  0 <= hash <= i * 2032000000 ->
  0 <= hash_loop length rest i hash.
Proof.
  induction rest as [|c rest IH]; intros i hash Hp Hi Hl Hh; simpl; [lia|].
  simpl in Hp. apply andb_prop in Hp. destruct Hp as [Hc Hp].
  destruct (i <? length); [|lia].
  pose proof (shift_char_value_range _ (char_value_plain c Hc)) as Hv.
  simpl String.length in Hl. rewrite Nat2Z.inj_succ in Hl.
  assert (Hii : 0 <= i * i <= 15992001) by nia.
  rewrite (wrap_int_small (i * i)) by lia.
  assert (Hp' : 0 <= i * i * shift_char_value (char_value c) <= 2032000000) by nia.
  rewrite wrap_int_small by lia.
  rewrite wrap_long_small by nia.
  apply IH; auto; try lia.
Qed.

Lemma hash_string_plain (x : string) :
  plain x = true -> (String.length x <= 4000)%nat ->
  0 <= hash_string x < HASH_DIMENSION.
Proof.
  intros Hp Hl. unfold hash_string.
  pose proof (hash_loop_plain (wrap_int (Z.of_nat (String.length x))) x 0 0 Hp)
    as H.
  assert (0 <= hash_loop (wrap_int (Z.of_nat (String.length x))) x 0 0)
    by (apply H; lia).
  apply Z.rem_bound_pos; [assumption|reflexivity].
Qed.

(** * Reading the input *)

Lemma append_snoc (a : string) (c : ascii) (b : string) :
  ((a ++ String c EmptyString) ++ b = a ++ String c b)%string.
Proof. now rewrite append_assoc. Qed.

Lemma length_snoc (a : string) (c : ascii) :
  String.length (a ++ String c EmptyString) = S (String.length a).
Proof. induction a; simpl; auto. Qed.

(** The bytes of a token go into the current buffer. *)
Lemma read_token (arguments : list (option string)) (arg_count : nat)
  (s : State) (out rest : string) : forall raw token,
  separator_free raw = true ->
  (String.length token + String.length (unquote raw) <= 99)%nat ->
  (arg_count < 4)%nat ->
  process_input (raw ++ rest) arguments arg_count token s out =
  process_input rest arguments arg_count (token ++ unquote raw) s out.
Proof.
  induction raw as [|c raw IH]; intros token Hs Hl Hn; simpl.
  - now rewrite append_nil_r.
  - simpl in Hs. apply andb_prop in Hs. destruct Hs as [Hs Hr].
    apply andb_prop in Hs. destruct Hs as [Hs He].
    apply andb_prop in Hs. destruct Hs as [Hsp Hnl].
    apply negb_true_iff in Hsp, Hnl, He. rewrite He, Hsp, Hnl. simpl.
    simpl in Hl. destruct (Ascii.eqb c quote); simpl.
    + apply IH; auto.
    + unfold in_buffers.
      destruct (Nat.ltb_spec arg_count 4); [|lia].
      destruct (Nat.ltb_spec (String.length token) 100); [|simpl in Hl; lia].
      simpl. rewrite IH; auto.
      * now rewrite append_snoc.
      * rewrite length_snoc. simpl in Hl. lia.
Qed.

Lemma token_fits_spec (x : string) :
  token_fits x = true ->
  separator_free x = true /\ (String.length (unquote x) <= 99)%nat.
Proof.
  unfold token_fits. intros H. apply andb_prop in H. destruct H as [H1 H2].
  apply Nat.leb_le in H2. auto.
Qed.

(** A line of at most four tokens that fit is read into the buffers and
    handed to [process_arguments]. *)
Lemma read_line (s : State) (out rest : string) : forall tokens arguments arg_count,
  tokens <> [] -> (arg_count + List.length tokens <= 4)%nat ->
  forallb token_fits tokens = true ->
  process_input (line tokens ++ rest) arguments arg_count EmptyString s out =
  dispatch (store arguments arg_count tokens) rest s out.
Proof.
  unfold line.
  induction tokens as [|t ts IH]; intros arguments arg_count Hne Hl Hf;
    [contradiction|].
  simpl in Hf. apply andb_prop in Hf. destruct Hf as [Ht Hts].
  destruct (token_fits_spec _ Ht) as [H1 H2]. simpl in Hl.
  destruct ts as [|t' ts].
  - cbn [String.concat store]. rewrite append_assoc.
    rewrite read_token by (simpl; auto; lia). 
    cbn [append process_input].
    change (char_value newline =? -1) with false.
    change (Ascii.eqb newline space || Ascii.eqb newline newline) with true.
    change (Ascii.eqb newline newline) with true. cbn iota.
    unfold in_buffers.
    destruct (Nat.ltb_spec arg_count 4); [|lia].
    destruct (Nat.ltb_spec (String.length (unquote t)) 100); [|lia].
    reflexivity.
  - change (String.concat " " (t :: t' :: ts))
      with (t ++ " " ++ String.concat " " (t' :: ts))%string.
    rewrite !append_assoc.
    rewrite read_token by (simpl; auto; lia).
    cbn [append process_input].
    change (char_value " " =? -1) with false.
    change (Ascii.eqb " " space || Ascii.eqb " " newline) with true.
    change (Ascii.eqb " " newline) with false. cbn iota.
    unfold in_buffers.
    destruct (Nat.ltb_spec arg_count 4); [|lia].
    destruct (Nat.ltb_spec (String.length (unquote t)) 100); [|lia].
    change (store arguments arg_count (t :: t' :: ts))
      with (store (set_argument arguments arg_count (c_string (unquote t)))
              (S arg_count) (t' :: ts)).
    cbn [andb]. rewrite <- (IH _ (S arg_count)); auto.
    + now rewrite append_assoc.
    + discriminate.
    + simpl in *. lia.
Qed.

Lemma set_argument_length (arguments : list (option string)) : forall n x,
  List.length (set_argument arguments n x) = List.length arguments.
Proof.
  induction arguments as [|a l IH]; intros [|n] x; simpl; auto.
Qed.





Lemma strcmp_eqb (a b : string) : (strcmp a b =? 0) = String.eqb a b.
Proof.
  destruct (String.eqb_spec a b) as [->|H].
  - apply strcmp_refl.
  - destruct (strcmp a b =? 0) eqn:E; [|reflexivity].
    apply strcmp_eq in E. contradiction.
Qed.



(** * A run beyond capacity *)

Lemma letter_code (d : Z) :
  0 <= d < 16 -> N_of_ascii (letter d) = Z.to_N (97 + d).
Proof.
  intros H. unfold letter. apply N_ascii_embedding. lia.
Qed.

Lemma letter_inj (a b : Z) :
  0 <= a < 16 -> 0 <= b < 16 -> letter a = letter b -> a = b.
Proof.
  intros Ha Hb H. apply (f_equal N_of_ascii) in H.
  rewrite !letter_code in H by assumption. lia.
Qed.

Lemma name_of_inj (i j : nat) :
  Z.of_nat i < USHRT -> Z.of_nat j < USHRT -> name_of i = name_of j -> i = j.
Proof.
  unfold USHRT. intros Hi Hj H. unfold name_of in H.
  injection H as H0 H1 H2 H3.
  apply letter_inj in H0, H1, H2, H3;
    try (apply Z.mod_pos_bound; reflexivity).
  apply Nat2Z.inj.
  revert H0 H1 H2 H3 Hi Hj.
  generalize (Z.of_nat i) (Z.of_nat j) (Nat2Z.is_nonneg i) (Nat2Z.is_nonneg j).
  intros a b Ha0 Hb0. intros. Z.div_mod_to_equations. lia.
Qed.

Lemma letter_plain (d : Z) :
  0 <= d < 16 -> (N_of_ascii (letter d) <? 128)%N = true.
Proof. intros H. rewrite letter_code by assumption. apply N.ltb_lt. lia. Qed.

Lemma name_of_plain (n : nat) : plain (name_of n) = true.
Proof.
  unfold name_of. cbn [plain].
  rewrite !letter_plain by (apply Z.mod_pos_bound; reflexivity). reflexivity.
Qed.

Lemma name_of_hash (n : nat) : 0 <= hash_string (name_of n).
Proof.
  apply hash_string_plain; [apply name_of_plain|]. simpl. lia.
Qed.

Lemma run_commands_app (cs1 cs2 : list command) : forall s,
  run_commands (cs1 ++ cs2) s =
  (s' <- run_commands cs1 s ;; run_commands cs2 s').
Proof.
  induction cs1 as [|c cs1 IH]; intros s; simpl; [reflexivity|].
  destruct (exec c s); simpl; auto.
Qed.

Lemma addent_returns (P : string -> Prop) (x : string) (s : State) :
  well_formed P s -> 0 <= hash_string x -> exists s', addent x s = Ok s'.
Proof.
  intros (Ht & _) Hx. unfold addent. rewrite (hash_search_ok _ _ Ht Hx).
  cbn [bind]. destruct (chain_search (List.concat (ENTITIES s)) x) eqn:E; [eauto|].
  destruct (hash_insert_spec _ _ Ht Hx E) as (ht' & l1 & l2 & -> & _).
  cbn [bind]. eauto.
Qed.

Lemma seq_snoc (n : nat) : seq 0 (S n) = (seq 0 n ++ [n])%list.
Proof. now rewrite seq_S. Qed.

(** The entities of the crowd, without a relation. *)
Lemma crowd_state (n : nat) :
  exists s, run_commands (crowd n) init_state = Ok s /\
            well_formed (fun _ => True) s /\
            (forall i, (i < n)%nat -> live s (name_of i)) /\
            (forall z t, in_neighbors s z t = []).
Proof.
  induction n as [|n (s & Hr & Hw & Hl & Hn)].
  - exists init_state. splits; auto using well_formed_init; try (intros; lia);
      try (intros z t; unfold in_neighbors; now rewrite entities_init).
  - destruct (addent_returns _ (name_of n) s Hw (name_of_hash n)) as [s' E].
    destruct (addent_wf _ _ _ _ Hw I E) as (W1 & _ & W2 & W3).
    exists s'. splits; auto.
    + unfold crowd. rewrite seq_snoc, map_app, run_commands_app.
      fold (crowd n). rewrite Hr. simpl. now rewrite E.
    + intros i Hi. apply W2. destruct (Nat.eq_dec i n) as [->|Hne]; [now left|].
      right. apply Hl. lia.
    + intros z t. now rewrite W3.
Qed.

Lemma lookup_updated (s : State) (l1 l2 : list entity_t) (e : entity_t) :
  table_ok (ENTITIES s) -> entities s = l1 ++ e :: l2 ->
  chain_search (entities s) (id e) = Some e.
Proof.
  intros (_ & _ & Hnd) E. apply chain_search_unique; [exact Hnd|].
  rewrite E. apply in_or_app. right. now left.
Qed.

Lemma addrel_keeps_live (P : string -> Prop) (s s' : State)
  (l1 l2 : list entity_t) (te te' : entity_t) :
  entities s = l1 ++ te :: l2 -> entities s' = l1 ++ te' :: l2 ->
  id te' = id te -> forall y, live s' y <-> live s y.
Proof.
  intros E E' Hid y. unfold live, ids. rewrite E, E', (ids_update _ _ _ _ Hid).
  tauto.
Qed.

(** The relations of the first [m] entities of the crowd into the first. *)
Lemma fans_state (n m : nat) :
  (m <= n)%nat -> Z.of_nat n <= USHRT ->
  exists s, run_commands (crowd n ++ fans m) init_state = Ok s /\
            well_formed (fun _ => True) s /\
            (forall i, (i < n)%nat -> live s (name_of i)) /\
            (forall f, related s f (name_of 0) "r" ->
                       exists i, (i < m)%nat /\ f = name_of i) /\
            in_degree s (name_of 0) "r" = Z.of_nat m /\
            (0 < m -> descriptor s "r" <> None)%nat.
Proof.
  unfold USHRT. induction m as [|m IH]; intros Hm Hn'.
  - destruct (crowd_state n) as (s & Hr & Hw & Hl & Hn).
    exists s. unfold fans. simpl. rewrite app_nil_r.
    splits; auto; try lia.
    + intros f. unfold related. rewrite Hn. intros [].
    + unfold in_degree. now rewrite Hn.
  - destruct IH as (s & Hr & Hw & Hl & Hrel & Hdeg & _); [lia|lia|].
    assert (Lf : live s (name_of m)) by (apply Hl; lia).
    assert (Lt : live s (name_of 0)) by (apply Hl; lia).
    apply live_lookup in Lf, Lt. destruct Lf as [fe Ef]. destruct Lt as [te Et].
    destruct (addrel_wf _ (name_of m) (name_of 0) "r" s fe te Hw I Ef Et)
      as (s' & te' & l1 & l2 & E & W & El & El' & Hid & Ho & Hmem & Hlen & Hd).
    assert (Hold : in_neighbors s (name_of 0) "r" = in_neighbors_of te "r").
    { unfold in_neighbors. now rewrite Et. }
    assert (Hnew : in_neighbors s' (name_of 0) "r" = in_neighbors_of te' "r").
    { unfold in_neighbors.
      destruct (chain_search_In _ _ _ Et) as [Hti _].
      rewrite <- Hti, <- Hid.
      now rewrite (lookup_updated s' l1 l2 te' (proj1 W) El'). }
    exists s'. splits; auto.
    + unfold fans. rewrite seq_snoc, map_app, app_assoc, run_commands_app.
      fold (fans m). rewrite Hr. simpl. now rewrite E.
    + intros i Hi. apply (addrel_keeps_live (fun _ => True) s s' l1 l2 te te' El El' Hid).
      auto.
    + intros f. unfold related. rewrite Hnew, Hmem, <- Hold.
      intros [->|Hf]; [exists m; split; [lia|reflexivity]|].
      destruct (Hrel f Hf) as (i & Hi & ->). exists i. split; [lia|reflexivity].
    + unfold in_degree in *. rewrite Hnew, Hlen, <- Hold.
      * lia.
      * rewrite <- Hold. intros F. destruct (Hrel _ F) as (i & Hi & Hname).
        apply name_of_inj in Hname; unfold USHRT; lia.
Qed.

(** After [overflow_commands] the first entity has 65536 relations of type
    [r] into it, more than a maximum of sixteen bits can tell. *)
Lemma overflow_state :
  exists s d, run_commands overflow_commands init_state = Ok s /\
              reachable s /\ live s (name_of 0) /\
              descriptor s "r" = Some d /\
              current_maximum d < in_degree s (name_of 0) "r".
Proof.
  destruct (fans_state (Z.to_nat USHRT) (Z.to_nat USHRT))
    as (s & Hr & Hw & Hl & _ & Hdeg & Hd); [lia|unfold USHRT; lia|].
  destruct (descriptor s "r") as [d|] eqn:E;
    [|exfalso; apply Hd; [unfold USHRT; lia|reflexivity]].
  exists s, d. splits; auto.
  - apply reachable_run_commands. eauto.
  - apply Hl. unfold USHRT. lia.
  - rewrite Hdeg. destruct Hw as (_ & _ & _ & Hds).
    rewrite Forall_forall in Hds.
    destruct (list_search_In _ _ _ E) as [_ Hin].
    destruct (Hds d Hin) as (_ & _ & Hmax). unfold USHRT in *. lia.
Qed.

(** ** Recomputation over size fields that are 0 *)



(** The size field of a tree of a live entity is the number of the relations
    modulo 65536. *)
Lemma field_of_neighbors (P : string -> Prop) (s : State) (e : entity_t)
  (t : string) :
  well_formed P s -> In e (entities s) ->
  in_neighbors s (id e) t = in_neighbors_of e t /\
  degree_of e t = Z.of_nat (List.length (in_neighbors_of e t)) mod USHRT.
Proof.
  intros (Ht & He & _) Hin. split.
  - unfold in_neighbors, entities in *.
    rewrite (chain_search_unique _ e (proj2 (proj2 Ht)) Hin). reflexivity.
  - rewrite Forall_forall in He. destruct (He e Hin) as [_ Hn].
    unfold degree_of, in_neighbors_of.
    destruct (list_search (rel_list e) t) as [r|] eqn:E; [|reflexivity].
    apply (Hn _ _ E).
Qed.

Lemma restore_entity_zero (type : string) (d : list_t) (e : entity_t) :
  degree_of e type = 0 -> 0 <= current_maximum d ->
  restore_entity type d e = Ok d.
Proof.
  unfold degree_of, restore_entity.
  destruct (list_search (rel_list e) type) as [r|]; [|reflexivity].
  intros -> Hm. cbn [Z.gtb Z.compare andb].
  destruct (Z.gtb_spec 0 (current_maximum d)); [lia|reflexivity].
Qed.

Lemma restore_chain_zero (type : string) (d : list_t) (l : list entity_t) :
  Forall (fun e => degree_of e type = 0) l -> 0 <= current_maximum d ->
  restore_chain type d l = Ok d.
Proof.
  induction 1 as [|e l He _ IH]; intros Hm; [reflexivity|].
  cbn [restore_chain]. rewrite restore_entity_zero by assumption.
  cbn [bind]. auto.
Qed.

Lemma restore_table_zero (type : string) (d : list_t) (ht : HashTable) :
  Forall (fun e => degree_of e type = 0) (List.concat ht) ->
  0 <= current_maximum d -> restore_table type d ht = Ok d.
Proof.
  induction ht as [|head rest IH]; intros H Hm; [reflexivity|].
  simpl in H. apply Forall_app in H. destruct H as [H1 H2].
  cbn [restore_table]. rewrite restore_chain_zero by assumption.
  cbn [bind]. auto.
Qed.

(** When every size field of the type is 0, the recomputation deletes the
    node of the type. *)
Lemma restore_data_maximum_zero (d : list_t) (type : string) (s : State) :
  Forall (fun e => degree_of e type = 0) (entities s) ->
  restore_data_maximum d type s =
  (types <- list_delete (RELATION_TYPES s) type ;;
   Ok {| ENTITIES := ENTITIES s; RELATION_TYPES := types |}).
Proof.
  intros H. unfold restore_data_maximum.
  rewrite restore_table_zero; [reflexivity|exact H|simpl; lia].
Qed.

Lemma idle_degree (search : string) (e : entity_t) (t : string) :
  idle search e -> degree_of e t = 0.
Proof.
  intros H. unfold degree_of.
  destruct (list_search (rel_list e) t) as [r|] eqn:E; [|reflexivity].
  apply (H _ _ E).
Qed.

Lemma delent_entity_idle (search : string) (rc : list_t) (e : entity_t) :
  idle search e -> delent_entity search rc e = Ok (e, rc).
Proof.
  intros H. unfold delent_entity.
  destruct (list_search (rel_list e) (key rc)) as [r|] eqn:E; [|reflexivity].
  destruct (H _ _ E) as (Hid & Hw & Hn & _).
  destruct (String.eqb_spec (id e) search) as [F|_]; [contradiction|].
  apply (tree_search_wf _ _ Hw) in Hn. now rewrite Hn.
Qed.

Lemma delent_chain_idle (search : string) (rc : list_t) (l : list entity_t) :
  Forall (idle search) l -> delent_chain search rc l = Ok (l, rc).
Proof.
  induction 1 as [|e l He _ IH]; [reflexivity|].
  cbn [delent_chain]. rewrite delent_entity_idle by assumption.
  cbn [bind]. rewrite IH. reflexivity.
Qed.

Lemma delent_table_idle (search : string) (rc : list_t) (ht : HashTable) :
  Forall (idle search) (List.concat ht) ->
  delent_table search rc ht = Ok (ht, rc).
Proof.
  induction ht as [|head rest IH]; intros H; [reflexivity|].
  simpl in H. apply Forall_app in H. destruct H as [H1 H2].
  cbn [delent_table]. rewrite delent_chain_idle by assumption.
  cbn [bind]. rewrite IH by assumption. reflexivity.
Qed.

(** The loop of [delent] over the relation types, when every entity is idle:
    every node is recomputed to 0 and deleted. *)
Lemma delent_types_idle (search : string) : forall types s,
  Forall (idle search) (entities s) -> RELATION_TYPES s = types ->
  delent_types search types s
  = Ok {| ENTITIES := ENTITIES s; RELATION_TYPES := [] |}.
Proof.
  induction types as [|c next IH]; intros s H E.
  - destruct s as [ht ts]. cbn in E. subst ts. reflexivity.
  - cbn [delent_types]. rewrite delent_table_idle by exact H. cbn [bind].
    rewrite restore_data_maximum_zero.
    + cbn [RELATION_TYPES ENTITIES]. rewrite E. cbn [list_delete].
      rewrite strcmp_refl. cbn [bind].
      rewrite IH; [reflexivity|exact H|reflexivity].
    + unfold entities. cbn [ENTITIES]. fold (entities s).
      eapply Forall_impl; [|exact H].
      intros e He. exact (idle_degree search e (key c) He).
Qed.

Lemma delent_idle (u : string) (s : State) (ue : entity_t) :
  table_ok (ENTITIES s) -> chain_search (entities s) u = Some ue ->
  Forall (idle u) (entities s) ->
  exists s' l1 l2,
    delent u s = Ok s' /\ entities s = l1 ++ ue :: l2 /\
    entities s' = l1 ++ l2 /\ RELATION_TYPES s' = [] /\
    table_ok (ENTITIES s').
Proof.
  intros Ht Hu Hi. destruct (chain_search_In _ _ _ Hu) as [Hid Hin].
  destruct (hash_delete_spec _ _ _ Ht Hu) as (ht' & l1 & l2 & Ed & E1 & E2 & Ht').
  exists {| ENTITIES := ht'; RELATION_TYPES := [] |}, l1, l2.
  splits; auto. unfold delent.
  rewrite (hash_search_ok _ u Ht) by (rewrite <- Hid; exact (live_hash _ _ Ht Hin)).
  unfold entities in Hu. rewrite Hu. cbn [bind]. rewrite Hid.
  rewrite (delent_types_idle u (RELATION_TYPES s) s Hi eq_refl).
  cbn [bind ENTITIES RELATION_TYPES]. rewrite Ed. reflexivity.
Qed.

Lemma update_other (l1 l2 : list entity_t) (e a : entity_t) :
  NoDup (map id (l1 ++ e :: l2)) -> In a (l1 ++ l2) -> id a <> id e.
Proof.
  rewrite map_app. cbn [map]. intros Hd Ha F. apply NoDup_remove_2 in Hd.
  apply Hd. rewrite <- map_app, <- F. now apply in_map.
Qed.

(** [delrel] of a relation into an entity whose size field goes from 1 to 0,
    when the maximum is 1, the entity is the only leader and the other
    size fields are 0: the node of the type is deleted. *)
Lemma delrel_recompute_zero (P : string -> Prop) (from to type : string)
  (s : State) (fe te : entity_t) (d : list_t) (k : nat) :
  well_formed P s ->
  chain_search (entities s) from = Some fe ->
  chain_search (entities s) to = Some te ->
  descriptor s type = Some d ->
  In from (in_neighbors_of te type) ->
  List.length (in_neighbors_of te type) = S k -> Z.of_nat k mod USHRT = 0 ->
  current_maximum d = 1 -> (List.length (leaders d) <= 1)%nat ->
  (forall e, In e (entities s) -> id e <> to -> degree_of e type = 0) ->
  exists s', delrel from to type s = Ok s' /\ descriptor s' type = None.
Proof.
  intros Hwf Hf Hto Hd Hin Hlen Hk Hmax Hlead Hzero.
  pose proof Hwf as (Ht & He & Hs & Hds).
  destruct (chain_search_In _ _ _ Hf) as [Hfi Hfin].
  destruct (chain_search_In _ _ _ Hto) as [Hti Htin].
  unfold delrel. unfold entities in Hf, Hto.
  rewrite (hash_search_ok _ from Ht), Hf
    by (rewrite <- Hfi; exact (live_hash _ _ Ht Hfin)).
  rewrite (hash_search_ok _ to Ht), Hto
    by (rewrite <- Hti; exact (live_hash _ _ Ht Htin)).
  cbn [bind]. unfold descriptor in Hd. rewrite Hd.
  unfold in_neighbors_of in Hin, Hlen.
  destruct (list_search (rel_list te) type) as [rel|] eqn:Er; [|contradiction].
  rewrite Forall_forall in He, Hds.
  destruct (He te Htin) as [_ Hte]. destruct (Hte _ _ Er) as [Tr _].
  destruct (list_search_In _ _ _ Hd) as [Kd Hdin].
  destruct (Hds d Hdin) as (_ & [Td _] & _).
  rewrite Hfi.
  destruct (is_NIL (fst (tree_search (root (tree rel)) from))) eqn:En;
    [apply (tree_search_wf _ _ Tr) in En; contradiction|].
  destruct (rb_delete_wf (tree rel) from Tr Hin) as (rt & -> & Trt & _ & Lrt).
  cbn [bind].
  assert (Hsize : size rt = 0).
  { destruct Trt as (_ & _ & _ & ->). rewrite Hlen in Lrt.
    injection Lrt as <-. exact Hk. }
  rewrite Hsize, Hmax. cbn [Z.add Z.eqb Pos.eqb].
  assert (Hfew : size (tree d) <= 1).
  { destruct Td as (_ & _ & _ & ->). unfold leaders in Hlead.
    unfold USHRT. apply Z.lt_succ_r.
    eapply Z.le_lt_trans; [apply Z.mod_le; lia|lia]. }
  destruct (Z.gtb_spec (size (tree d)) 1) as [F|_]; [lia|].
  set (te' := with_rel_list te (list_store (rel_list te) type (with_tree rel rt))).
  assert (Hstore : chain_search (List.concat (ENTITIES s)) (id te') = Some te).
  { unfold te'. cbn [id with_rel_list]. now rewrite Hti. }
  destruct (entity_store_spec _ te te' Ht Hstore) as (l1 & l2 & E & E' & Ht').
  rewrite restore_data_maximum_zero.
  - cbn [RELATION_TYPES ENTITIES].
    destruct (list_delete_spec _ _ _ Hd) as (t1 & t2 & Et & -> & Hn).
    cbn [bind]. eexists. split; [reflexivity|].
    unfold descriptor. cbn [RELATION_TYPES].
    rewrite list_search_app.
    apply list_search_None in Hn. rewrite Hn.
    apply list_search_None.
    rewrite Et, map_app in Hs. cbn [map] in Hs.
    apply sorted_NoDup, NoDup_remove_2 in Hs.
    rewrite Kd in Hs. intros F. apply Hs, in_or_app. now right.
  - unfold entities. cbn [ENTITIES]. rewrite E'.
    apply Forall_forall. intros e Hin'. apply In_update in Hin'.
    destruct Hin' as [->|Hin'].
    + unfold degree_of, te'. cbn [rel_list with_rel_list].
      rewrite (list_store_same _ _ _ rel) by (cbn [key with_tree]; auto;
        apply (list_search_In _ _ _ Er)).
      exact Hsize.
    + apply Hzero.
      * unfold entities. rewrite E. apply In_update. now right.
      * rewrite <- Hti. apply (update_other l1 l2); [|exact Hin'].
        rewrite <- E. apply Ht.
Qed.

(** ** The run beyond capacity, continued *)

Lemma name_of_not_u (i : nat) : name_of i <> "u"%string.
Proof. unfold name_of. intros F. injection F as _ F. discriminate F. Qed.

Lemma hub_state (n m : nat) :
  (m <= n)%nat -> Z.of_nat n <= USHRT ->
  exists s, run_commands (crowd n ++ fans m) init_state = Ok s /\
            (forall z t, z <> name_of 0 \/ t <> "r"%string ->
                         in_neighbors s z t = []) /\
            List.length (in_neighbors s (name_of 0) "r") = m /\
            (forall i, (i < m)%nat -> related s (name_of i) (name_of 0) "r").
Proof.
  induction m as [|m IH]; intros Hm Hn.
  - destruct (crowd_state n) as (s & Hr & Hw & Hl & Hnb).
    exists s. unfold fans. simpl. rewrite app_nil_r.
    splits; auto; [now rewrite Hnb|intros; lia].
  - destruct IH as (s & Hr & Hq & Hlen & Hfan); [lia|lia|].
    destruct (fans_state n m) as (s0 & Hr0 & Hw & Hl & Hrel & _);
      [lia|exact Hn|].
    assert (s0 = s) by congruence. subst s0.
    assert (Lf : live s (name_of m)) by (apply Hl; lia).
    assert (Lt : live s (name_of 0)) by (apply Hl; lia).
    apply live_lookup in Lf, Lt. destruct Lf as [fe Ef]. destruct Lt as [te Et].
    destruct (addrel_wf _ (name_of m) (name_of 0) "r" s fe te Hw I Ef Et)
      as (s' & te' & l1 & l2 & E & W & El & El' & Hid & Ho & Hmem & Hlen' & _).
    destruct (chain_search_In _ _ _ Et) as [Hti _].
    assert (Hold : in_neighbors s (name_of 0) "r" = in_neighbors_of te "r").
    { unfold in_neighbors. now rewrite Et. }
    assert (Hnew : in_neighbors s' (name_of 0) "r" = in_neighbors_of te' "r").
    { unfold in_neighbors. rewrite <- Hti, <- Hid.
      now rewrite (lookup_updated s' l1 l2 te' (proj1 W) El'). }
    assert (Hnd : NoDup (map id (l1 ++ te :: l2))).
    { rewrite <- El. apply Hw. }
    exists s'. splits.
    + unfold fans. rewrite seq_snoc, map_app, app_assoc, run_commands_app.
      fold (fans m). rewrite Hr. simpl. now rewrite E.
    + intros z t Hzt. unfold in_neighbors.
      rewrite El', (lookup_update l1 l2 te te' z Hnd Hid).
      destruct (String.eqb_spec z (id te)) as [Hz|Hz].
      * destruct Hzt as [F|Ht']; [exfalso; apply F; now rewrite Hz|].
        unfold in_neighbors_of. rewrite Ho by exact Ht'.
        pose proof (Hq (name_of 0) t (or_intror Ht')) as Q.
        unfold in_neighbors in Q. rewrite Et in Q. exact Q.
      * rewrite <- El. apply (Hq z t Hzt).
    + rewrite Hnew, Hlen', <- Hold; [now rewrite Hlen|].
      intros F. rewrite <- Hold in F. destruct (Hrel _ F) as (i & Hi & Hname).
      apply name_of_inj in Hname; unfold USHRT in *; lia.
    + intros i Hi. unfold related. rewrite Hnew. apply Hmem.
      destruct (Nat.eq_dec i m) as [->|Hne]; [now left|right].
      rewrite <- Hold. apply Hfan. lia.
Qed.

Lemma overflow_arguments (n m : nat) (c : command) (a : string) :
  In c (crowd n ++ fans m) -> In a (command_arguments c) -> a <> "u"%string.
Proof.
  unfold crowd, fans. intros Hc Ha.
  apply in_app_or in Hc. destruct Hc as [Hc|Hc];
    apply in_map_iff in Hc; destruct Hc as (i & <- & _); simpl in Ha.
  - destruct Ha as [<-|[]]. apply name_of_not_u.
  - destruct Ha as [<-|[<-|[<-|[]]]]; try apply name_of_not_u. discriminate.
Qed.

(** After [stale_commands] the 65536 relations into the first entity are
    there, and no relation type has a node; the last command is [delent] of
    a live entity. *)
Lemma stale_state :
  exists s, run_commands stale_commands init_state = Ok s /\
            well_formed (fun x => x <> "u"%string) s /\
            RELATION_TYPES s = [] /\
            (forall i, Z.of_nat i < USHRT -> live s (name_of i)) /\
            (forall z t, z <> name_of 0 \/ t <> "r"%string ->
                         in_neighbors s z t = []) /\
            List.length (in_neighbors s (name_of 0) "r") = Z.to_nat USHRT /\
            (forall i, Z.of_nat i < USHRT ->
                       related s (name_of i) (name_of 0) "r") /\
            exists s1,
              run_commands (overflow_commands ++ [Addent "u"]) init_state
              = Ok s1 /\
              live s1 "u" /\ descriptor s1 "r" <> None /\
              delent "u" s1 = Ok s.
Proof.
  destruct (hub_state (Z.to_nat USHRT) (Z.to_nat USHRT))
    as (s0 & Hr & Hq & Hlen & Hfan); [lia|unfold USHRT; lia|].
  destruct (fans_state (Z.to_nat USHRT) (Z.to_nat USHRT))
    as (s0' & Hr' & _ & Hl & _ & _ & Hdesc); [lia|unfold USHRT; lia|].
  assert (s0' = s0) by congruence. subst s0'.
  pose proof (run_commands_wf (fun x => x <> "u"%string) _
                init_state s0 (well_formed_init _) (overflow_arguments _ _) Hr)
    as Hw.
  pose proof Hw as (Ht & He & _). rewrite Forall_forall in He.
  (* the new entity *)
  assert (Hu : chain_search (List.concat (ENTITIES s0)) "u" = None).
  { apply chain_search_None. intros F. apply in_map_iff in F.
    destruct F as (e & Hid & Hin). now apply (He e Hin). }
  assert (Hh : 0 <= hash_string "u") by (vm_compute; discriminate).
  destruct (hash_insert_spec _ _ Ht Hh Hu) as (ht1 & a1 & a2 & Ei & E1 & E2 & Ht1).
  set (new := {| id := "u"; rel_list := init_list |}) in *.
  set (s1 := {| ENTITIES := ht1; RELATION_TYPES := RELATION_TYPES s0 |}).
  assert (Ea : addent "u" s0 = Ok s1).
  { unfold addent. rewrite (hash_search_ok _ _ Ht Hh), Hu. cbn [bind].
    now rewrite Ei. }
  assert (Hnew : chain_search (entities s1) "u" = Some new).
  { unfold entities, s1. cbn [ENTITIES].
    apply (chain_search_unique _ new (proj2 (proj2 Ht1))).
    rewrite E2. apply in_or_app. right. now left. }
  assert (Hfield : forall z t,
            Z.of_nat (List.length (in_neighbors s0 z t)) mod USHRT = 0).
  { intros z t. destruct (string_dec z (name_of 0)) as [->|Hz];
      [destruct (string_dec t "r") as [->|Hty]|].
    - rewrite Hlen, Z2Nat.id by (unfold USHRT; lia). apply Z.mod_same.
      unfold USHRT. lia.
    - now rewrite Hq by auto.
    - now rewrite Hq by auto. }
  assert (Hidle : Forall (idle "u") (entities s1)).
  { apply Forall_forall. intros e Hin. unfold entities, s1 in Hin.
    cbn [ENTITIES] in Hin. rewrite E2 in Hin. apply In_update in Hin.
    destruct Hin as [->|Hin]; [intros t r; discriminate|].
    rewrite <- E1 in Hin. destruct (He e Hin) as [Pid Hn].
    intros t r Hs. destruct (Hn _ _ Hs) as [Tw Qm].
    splits; auto.
    - intros F. now apply (Qm _ F).
    - destruct (field_of_neighbors _ s0 e t Hw Hin) as [N1 N2].
      unfold degree_of in N2. rewrite Hs in N2. rewrite N2, <- N1.
      apply Hfield. }
  destruct (delent_idle "u" s1 new Ht1 Hnew Hidle)
    as (s2 & b1 & b2 & Ed & F1 & F2 & Hrt & Ht2).
  (* the entities are those of before *)
  assert (Hsame : forall z,
            chain_search (entities s2) z = chain_search (entities s0) z).
  { intros z. unfold entities at 2. rewrite F2, E1.
    rewrite (lookup_remove b1 b2 new z), (lookup_remove a1 a2 new z).
    - rewrite <- F1, <- E2. reflexivity.
    - rewrite <- E2. apply Ht1.
    - rewrite <- F1. apply Ht1. }
  assert (Hnb : forall z t, in_neighbors s2 z t = in_neighbors s0 z t).
  { intros z t. unfold in_neighbors. now rewrite Hsame. }
  exists s2. splits.
  - unfold stale_commands, overflow_commands. rewrite run_commands_app, Hr.
    cbn [bind run_commands exec]. rewrite Ea. cbn [bind]. now rewrite Ed.
  - unfold well_formed. rewrite Hrt. splits; auto using sorted_nil.
    apply Forall_forall. intros e Hin. apply He.
    pose proof (chain_search_unique _ e (proj2 (proj2 Ht2)) Hin) as Hs.
    fold (entities s2) in Hs. rewrite Hsame in Hs.
    apply (chain_search_In _ _ _ Hs).
  - exact Hrt.
  - intros i Hi. apply live_lookup. setoid_rewrite Hsame.
    apply live_lookup. apply Hl. lia.
  - intros z t Hzt. rewrite Hnb. auto.
  - now rewrite Hnb.
  - intros i Hi. unfold related. rewrite Hnb. apply Hfan. lia.
  - exists s1. splits.
    + unfold overflow_commands. rewrite run_commands_app, Hr.
      cbn [bind run_commands exec]. now rewrite Ea.
    + apply live_lookup. exists new. exact Hnew.
    + unfold descriptor, s1. cbn [RELATION_TYPES]. apply Hdesc.
      unfold USHRT. simpl. lia.
    + exact Ed.
Qed.

(** After [wrapped_commands] the first entity has 65537 relations of the
    type, a size field of 1, and is the leader with the maximum 1. *)
Lemma wrapped_state :
  exists s d, run_commands wrapped_commands init_state = Ok s /\
              well_formed (fun _ => True) s /\
              live s "u" /\ live s (name_of 0) /\
              related s "u" (name_of 0) "r" /\
              List.length (in_neighbors s (name_of 0) "r")
              = S (Z.to_nat USHRT) /\
              (forall z, z <> name_of 0 -> in_neighbors s z "r" = []) /\
              descriptor s "r" = Some d /\
              current_maximum d = 1 /\ leaders d = [name_of 0].
Proof.
  destruct stale_state as (s2 & Hr & Hwu & Hrt & Hl & Hq & Hlen & _).
  assert (Hw : well_formed (fun _ => True) s2).
  { apply reachable_wf, reachable_run_commands. eauto. }
  assert (Hh : 0 <= hash_string "u") by (vm_compute; discriminate).
  destruct (addent_returns _ "u" s2 Hw Hh) as [s3 Ea].
  destruct (addent_wf _ _ _ _ Hw I Ea) as (W3 & Hrt3 & Hl3 & Hn3).
  assert (Lf : live s3 "u") by (apply Hl3; now left).
  assert (Lt : live s3 (name_of 0)).
  { apply Hl3. right. apply Hl. unfold USHRT. simpl. lia. }
  pose proof Lf as Lf'. pose proof Lt as Lt'.
  apply live_lookup in Lf', Lt'.
  destruct Lf' as [fe Ef]. destruct Lt' as [te Et].
  destruct (addrel_full_wf _ "u" (name_of 0) "r" s3 fe te W3 I Ef Et)
    as (s4 & te' & l1 & l2 & E & W & El & El' & Hid & Ho & Hmem & Hlen'
        & d & Hd & Hlead).
  destruct (chain_search_In _ _ _ Et) as [Hti _].
  assert (Hold : in_neighbors s2 (name_of 0) "r" = in_neighbors_of te "r").
  { rewrite <- Hn3. unfold in_neighbors. now rewrite Et. }
  assert (Hlook : chain_search (entities s4) (id te') = Some te').
  { apply (lookup_updated s4 l1 l2 te' (proj1 W) El'). }
  assert (Hnew : in_neighbors s4 (name_of 0) "r" = in_neighbors_of te' "r").
  { unfold in_neighbors. rewrite <- Hti, <- Hid. now rewrite Hlook. }
  assert (Hnd : NoDup (map id (l1 ++ te :: l2))).
  { rewrite <- El. apply W3. }
  assert (Hfresh : ~ In "u"%string (in_neighbors_of te "r")).
  { rewrite <- Hold. intros F. pose proof Hwu as (Ht2 & He2 & _).
    unfold in_neighbors in F.
    destruct (chain_search (entities s2) (name_of 0)) as [e|] eqn:Ee; [|easy].
    destruct (chain_search_In _ _ _ Ee) as [_ Hin].
    rewrite Forall_forall in He2. destruct (He2 e Hin) as [_ Hn].
    unfold in_neighbors_of in F.
    destruct (list_search (rel_list e) "r") as [r|] eqn:Er; [|easy].
    now apply (proj2 (Hn _ _ Er) _ F). }
  assert (Hcount : List.length (in_neighbors_of te' "r") = S (Z.to_nat USHRT)).
  { rewrite (Hlen' Hfresh), <- Hold, Hlen. reflexivity. }
  assert (Hfield : degree_of te' "r" = 1).
  { destruct (chain_search_In _ _ _ Hlook) as [_ Hin].
    rewrite (proj2 (field_of_neighbors _ s4 te' "r" W Hin)), Hcount.
    rewrite Nat2Z.inj_succ, Z2Nat.id by (unfold USHRT; lia).
    reflexivity. }
  destruct Hlead as [Hmax Hone].
  { rewrite Hfield. unfold descriptor. rewrite Hrt3, Hrt. simpl. lia. }
  exists s4, d. splits;
    [|exact W| | | | | |exact Hd|now rewrite Hmax|exact Hone].
  - unfold wrapped_commands. rewrite run_commands_app, Hr.
    cbn [bind run_commands exec]. rewrite Ea. cbn [bind]. now rewrite E.
  - apply (addrel_keeps_live (fun _ => True) s3 s4 l1 l2 te te' El El' Hid).
    exact Lf.
  - apply (addrel_keeps_live (fun _ => True) s3 s4 l1 l2 te te' El El' Hid).
    exact Lt.
  - unfold related. rewrite Hnew. apply Hmem. now left.
  - now rewrite Hnew.
  - intros z Hz. unfold in_neighbors.
    rewrite El', (lookup_update l1 l2 te te' z Hnd Hid).
    destruct (String.eqb_spec z (id te)) as [F|_]; [congruence|].
    rewrite <- El. fold (in_neighbors s3 z "r"). rewrite Hn3. auto.
Qed.

(** * The claims of the specification *)

(** The state of a small run is reached within capacity. *)
Lemma state_after_reachable (cs : list command) :
  run_within cs init_state = Some (state_after cs) ->
  reachable_in_capacity (state_after cs).
Proof. apply run_within_reachable. Qed.

Lemma in_capacity_reachable (s : State) : reachable_in_capacity s -> reachable s.
Proof. induction 1; econstructor; eauto. Qed.

Ltac small_run := vm_compute; reflexivity.

(** ** Claim C1 *)

(** Claim C1, for the runs that start every command with fewer than 65536
    entities: after every completed command, for every relation type [t] that
    has a descriptor [d], [current_maximum d] is the greatest number of
    relations of type [t] into a live entity, it is at least 1, and an entity
    is in the leaders of [d] if and only if it is live and the number of
    relations of type [t] into it is [current_maximum d]. *)
Theorem leaders_within_capacity (s : State) :
  reachable_in_capacity s -> leader_consistent s.
Proof. intros H. apply leader_consistent_inv, reachable_inv, H. Qed.

Lemma leaders_within_capacity_witness :
  reachable_in_capacity (state_after friends) /\
  leader_consistent (state_after friends).
Proof.
  assert (H : reachable_in_capacity (state_after friends)).
  { apply state_after_reachable. small_run. }
  split; [exact H|]. exact (leaders_within_capacity (state_after friends) H).
Defined.

(** Claim C1 as it stands fails once an entity has 65536 relations of one
    type into it: [current_maximum] has sixteen bits. *)
Lemma leaders_beyond_capacity :
  exists s, run_commands overflow_commands init_state = Ok s /\
            reachable s /\ ~ leader_consistent s.
Proof.
  destruct overflow_state as (s & d & Hr & Hs & Hl & Hd & Hlt).
  exists s. splits; auto. intros H.
  destruct (H "r"%string d Hd) as (_ & Hle & _).
  specialize (Hle _ Hl). lia.
Qed.

(** ** Claim C2 *)

(** Claim C2: [report] writes one line. Without a relation type it is [none]
    and a newline. Otherwise it holds, for each relation type in ascending
    order of the names, the name between double quotes, the ids of the
    leaders in ascending order, each between double quotes, and the maximum
    in decimal followed by a semicolon, with a space after each of them; a
    newline ends the line, and it is the only one when no argument of a
    command held a newline. *)
Theorem report_format (cs : list command) (s : State) :
  run_commands cs init_state = Ok s ->
  report s = report_line (descriptors_view s) /\
  sorted (map key (RELATION_TYPES s)) /\
  (forall d, In d (RELATION_TYPES s) -> sorted (leaders d)) /\
  ((forall c a, In c cs -> In a (command_arguments c) -> ~ has_newline a) ->
   ~ has_newline (report_body (descriptors_view s))).
Proof.
  intros H. split; [apply report_is_line|].
  assert (Hr : reachable s) by (apply reachable_run_commands; eauto).
  destruct (reachable_wf s Hr) as (_ & _ & Hs & Hd).
  rewrite Forall_forall in Hd. splits; auto.
  - intros d Hin. apply (Hd d Hin).
  - intros Hargs.
    destruct (run_commands_wf (fun a => ~ has_newline a) cs init_state s)
      as (_ & _ & _ & Hn); auto using well_formed_init.
    rewrite Forall_forall in Hn.
    apply report_body_no_newline. intros name leading maximum Hin.
    unfold descriptors_view in Hin. apply in_map_iff in Hin.
    destruct Hin as (d & [= <- <- <-] & Hin).
    destruct (Hn d Hin) as (H1 & [_ H2] & _). auto.
Qed.

Lemma report_format_witness :
  run_commands friends init_state = Ok (state_after friends) /\
  report (state_after friends)
  = report_line (descriptors_view (state_after friends)).
Proof.
  assert (H : run_commands friends init_state = Ok (state_after friends))
    by small_run.
  split; [exact H|]. exact (proj1 (report_format friends _ H)).
Defined.

(** ** Claim C3 *)




(** ** Claim C4 *)

Lemma no_descriptor_iff (s : State) (t : string) :
  inv s -> descriptor s t = None <-> forall x, in_degree s x t = 0.
Proof.
  intros Hinv. split.
  - intros H x. unfold in_degree.
    now rewrite (no_descriptor_view s t x Hinv H).
  - intros H. destruct (descriptor s t) as [d|] eqn:E; [|reflexivity].
    destruct (descriptor_view s t d Hinv E) as (_ & _ & D1 & _ & (x & _ & D2) & _).
    rewrite H in D2. lia.
Qed.

(** Claim C4, in a state reached with fewer than 65536 entities at every
    command: for [delrel (from, to, type)] of a relation that is present
    (so that both entities and the descriptor of the type exist), the
    relation is removed; with [k_old] the number of relations of the type
    into [to] before, if [k_old] is not the maximum the descriptor is
    unchanged; if it is the maximum and there is more than one leader, [to]
    leaves the leaders and the maximum is unchanged; if [to] was the only
    leader, [restore_data_maximum] computes the maximum and the leaders again
    from all the entities and the descriptor is gone when no relation of the
    type is left. *)
Theorem delrel_leaders (s : State) (from to type : string) :
  reachable_in_capacity s -> capacity s -> related s from to type ->
  exists s' d,
    delrel from to type s = Ok s' /\
    descriptor s type = Some d /\
    (forall f z t, related s' f z t <->
                   related s f z t /\ ~ (f = from /\ z = to /\ t = type)) /\
    in_degree s' to type = in_degree s to type - 1 /\
    (in_degree s to type <> current_maximum d -> descriptor s' type = Some d) /\
    (in_degree s to type = current_maximum d ->
     (1 < List.length (leaders d))%nat ->
       exists d', descriptor s' type = Some d' /\
                  current_maximum d' = current_maximum d /\
                  forall x, In x (leaders d') <-> In x (leaders d) /\ x <> to) /\
    (in_degree s to type = current_maximum d -> leaders d = [to] ->
       restore_data_maximum d type
         {| ENTITIES := ENTITIES s'; RELATION_TYPES := RELATION_TYPES s |}
       = Ok s' /\
       leader_consistent s' /\
       (descriptor s' type = None <-> forall x, in_degree s' x type = 0)).
Proof.
  intros Hreach Hcap Hrel. pose proof (reachable_inv s Hreach) as Hinv.
  destruct (related_live s from to type Hinv Hrel) as [Hf Ht].
  apply live_lookup in Hf, Ht.
  destruct Hf as [fe Ef]. destruct Ht as [te Et].
  destruct (chain_search_In _ _ _ Et) as [Hti Htin].
  assert (Hin : In from (in_neighbors_of te type)).
  { unfold related, in_neighbors in Hrel. now rewrite Et in Hrel. }
  destruct (delrel_present from to type s fe te Hinv Hcap Ef Et Hin)
    as (s' & te' & l1 & l2 & d & E & Hinv' & El & El' & Hid & Ho & Hm & Hk
        & Hod & Hd & C1 & C2 & C3).
  pose proof (delrel_effect from to type s s' Hinv Hcap E) as [_ Heff].
  assert (Hin' : In te' (entities s')).
  { rewrite El'. apply in_or_app. right. now left. }
  assert (D' : degree_of te' type = in_degree s' to type).
  { rewrite (state_degree s' te' type Hinv' Hin'). now rewrite Hid, Hti. }
  assert (D : degree_of te type = in_degree s to type).
  { rewrite (state_degree s te type Hinv Htin). now rewrite Hti. }
  rewrite D' in *. rewrite D in *.
  destruct (descriptor_view s type d Hinv Hd) as (_ & Td & _).
  pose proof (tree_ok_length _ Td) as Hlen. fold (leaders d) in Hlen.
  exists s', d. splits; auto.
  - intros Hmax Hmany. apply C2; [assumption|lia].
  - intros Hmax Hone. splits.
    + apply C3; [assumption|]. rewrite Hlen, Hone. simpl. lia.
    + now apply leader_consistent_inv.
    + now apply no_descriptor_iff.
Qed.

Lemma delrel_leaders_witness :
  reachable_in_capacity (state_after pair) /\ capacity (state_after pair) /\
  related (state_after pair) "alice" "bob" "friend" /\
  exists s', delrel "alice" "bob" "friend" (state_after pair) = Ok s' /\
             in_degree s' "bob" "friend" = 0.
Proof.
  assert (H1 : reachable_in_capacity (state_after pair)).
  { apply state_after_reachable. small_run. }
  assert (H2 : capacity (state_after pair)) by small_run.
  assert (H3 : related (state_after pair) "alice" "bob" "friend")
    by (vm_compute; tauto).
  refine (conj H1 (conj H2 (conj H3 _))).
  destruct (delrel_leaders _ _ _ _ H1 H2 H3) as (s' & d & E & _ & _ & D & _).
  exists s'. split; [exact E|]. rewrite D. vm_compute. reflexivity.
Defined.

(** Claim C4 as it stands fails when an entity has 65537 relations of a type
    and the maximum was computed from its size field, which is 1: both
    entities, the descriptor and the relation exist, the number [k_old] of
    relations into the entity is not the maximum, and yet [delrel] changes the
    descriptor: it compares the size field with the maximum, recomputes and
    deletes the descriptor. *)
Lemma delrel_beyond_capacity :
  exists s d s',
    run_commands wrapped_commands init_state = Ok s /\
    live s "u" /\ live s (name_of 0) /\
    descriptor s "r" = Some d /\ related s "u" (name_of 0) "r" /\
    in_degree s (name_of 0) "r" <> current_maximum d /\
    delrel "u" (name_of 0) "r" s = Ok s' /\
    descriptor s' "r" = None.
Proof.
  destruct wrapped_state
    as (s & d & Hr & Hw & Lf & Lt & Hrel & Hlen & Hq & Hd & Hmax & Hlead).
  pose proof Lf as Lf'. pose proof Lt as Lt'. apply live_lookup in Lf', Lt'.
  destruct Lf' as [fe Ef]. destruct Lt' as [te Et].
  destruct (chain_search_In _ _ _ Et) as [Hti _].
  assert (Hnb : in_neighbors s (name_of 0) "r" = in_neighbors_of te "r").
  { unfold in_neighbors. now rewrite Et. }
  destruct (delrel_recompute_zero _ "u" (name_of 0) "r" s fe te d
              (Z.to_nat USHRT) Hw Ef Et Hd) as (s' & E & Hnone).
  - rewrite <- Hnb. exact Hrel.
  - now rewrite <- Hnb.
  - reflexivity.
  - exact Hmax.
  - rewrite Hlead. simpl. lia.
  - intros e Hin Hne.
    destruct (field_of_neighbors _ s e "r" Hw Hin) as [N1 N2].
    now rewrite N2, <- N1, (Hq _ Hne).
  - exists s, d, s'.
    splits; [exact Hr|exact Lf|exact Lt|exact Hd|exact Hrel| |exact E
            |exact Hnone].
    unfold in_degree. rewrite Hlen, Hmax, Nat2Z.inj_succ.
    rewrite Z2Nat.id by (unfold USHRT; lia). unfold USHRT. lia.
Qed.

(** ** Claim C5 *)




(** ** Claim C6 *)

Lemma same_live_capacity (s1 s2 : State) :
  inv s2 -> (forall x, live s2 x -> live s1 x) -> capacity s1 -> capacity s2.
Proof.
  intros I2 HL Hcap. unfold capacity in *.
  assert (List.length (ids s2) <= List.length (ids s1))%nat.
  { apply NoDup_incl_length; [apply I2|]. intros x Hx. now apply HL. }
  unfold ids in H. rewrite !length_map in H. lia.
Qed.

(** A relation that was added and is deleted leaves the entities and the
    relations as they were. *)
Lemma add_then_delete (s s1 s2 : State) (X Y T : string) :
  inv s -> capacity s -> ~ related s X Y T ->
  addrel X Y T s = Ok s1 -> delrel X Y T s1 = Ok s2 ->
  inv s2 /\ same_relations s s2.
Proof.
  intros Hinv Hcap Hnew E1 E2.
  pose proof (exec_inv (Addrel X Y T) s s1 Hinv Hcap E1) as Hinv1.
  destruct (addrel_effect X Y T s s1 Hinv Hcap E1) as [L1 R1].
  assert (Hcap1 : capacity s1).
  { apply (same_live_capacity s s1 Hinv1); [|assumption].
    intros x. apply L1. }
  pose proof (exec_inv (Delrel X Y T) s1 s2 Hinv1 Hcap1 E2) as Hinv2.
  destruct (delrel_effect X Y T s1 s2 Hinv1 Hcap1 E2) as [L2 R2].
  split; [assumption|]. split.
  - intros x. now rewrite L2, L1.
  - intros f z t. rewrite R2, R1. split.
    + intros H. split; [now left|]. intros (-> & -> & ->). contradiction.
    + intros [[H|H] Hn]; [assumption|]. exfalso. apply Hn. tauto.
Qed.




(** ** Claim C7 *)





(** ** Claim C10 *)

(** Claim C10: in a reachable state where the leaders agree with the
    relations, when [delrel] removes a relation into an entity that has as
    many relations of the type into it as the maximum, and the tree of the
    leaders has more than one node, the entity is in that tree: the search
    does not end on [NIL] and [rb_delete] is given a node and returns. *)
Theorem delrel_finds_leader (s : State) (from to type : string) (d : list_t) :
  reachable s -> leader_consistent s ->
  related s from to type -> descriptor s type = Some d ->
  in_degree s to type = current_maximum d -> 1 < size (tree d) ->
  In to (leaders d) /\
  is_NIL (fst (tree_search (root (tree d)) to)) = false /\
  exists t, rb_delete (tree d) (tree_search (root (tree d)) to) = Ok t.
Proof.
  intros Hreach Hcons Hrel Hd Hmax _.
  assert (Hl : live s to).
  { apply live_lookup. unfold related, in_neighbors in Hrel.
    destruct (chain_search (entities s) to); [eauto|contradiction]. }
  destruct (Hcons type d Hd) as (_ & _ & _ & Hlead).
  assert (Hin : In to (leaders d)) by (apply Hlead; auto).
  destruct (reachable_wf s Hreach) as (_ & _ & _ & Hds).
  rewrite Forall_forall in Hds.
  destruct (list_search_In _ _ _ Hd) as [_ Hdin].
  destruct (Hds d Hdin) as (_ & [Td _] & _).
  splits; auto.
  - destruct (is_NIL (fst (tree_search (root (tree d)) to))) eqn:En;
      [|reflexivity].
    apply (tree_search_wf _ _ Td) in En. contradiction.
  - destruct (rb_delete_wf (tree d) to Td Hin) as (t & E & _). eauto.
Qed.

Lemma delrel_finds_leader_witness :
  reachable (state_after pair) /\ leader_consistent (state_after pair) /\
  related (state_after pair) "alice" "bob" "friend" /\
  exists d, descriptor (state_after pair) "friend" = Some d /\
            in_degree (state_after pair) "bob" "friend" = current_maximum d /\
            1 < size (tree d) /\ In "bob"%string (leaders d).
Proof.
  assert (H0 : reachable_in_capacity (state_after pair)).
  { apply state_after_reachable. small_run. }
  assert (H1 : reachable (state_after pair)) by now apply in_capacity_reachable.
  assert (H2 : leader_consistent (state_after pair)).
  { apply leader_consistent_inv, reachable_inv, H0. }
  assert (H3 : related (state_after pair) "alice" "bob" "friend")
    by (vm_compute; tauto).
  destruct (descriptor (state_after pair) "friend") as [d|] eqn:Hd;
    [|vm_compute in Hd; discriminate Hd].
  assert (H4 : in_degree (state_after pair) "bob" "friend" = current_maximum d).
  { vm_compute in Hd. injection Hd as <-. small_run. }
  assert (H5 : 1 < size (tree d)).
  { vm_compute in Hd. injection Hd as <-. small_run. }
  refine (conj H1 (conj H2 (conj H3 _))). exists d.
  refine (conj eq_refl (conj H4 (conj H5 _))).
  exact (proj1 (delrel_finds_leader _ _ _ _ d H1 H2 H3 Hd H4 H5)).
Defined.

(** ** Claim C8 *)





(** ** Claim C9 *)

Lemma plain_unquote (x : string) : plain x = true -> plain (unquote x) = true.
Proof.
  induction x as [|c x IH]; simpl; [reflexivity|].
  intros H. apply andb_prop in H. destruct H as [Hc Hx].
  destruct (Ascii.eqb c quote); simpl; auto. now rewrite Hc, IH.
Qed.

Lemma plain_c_string (x : string) : plain x = true -> plain (c_string x) = true.
Proof.
  induction x as [|c x IH]; simpl; [reflexivity|].
  intros H. apply andb_prop in H. destruct H as [Hc Hx].
  destruct (Ascii.eqb c zero); simpl; auto. now rewrite Hc, IH.
Qed.

Lemma c_string_length (x : string) :
  (String.length (c_string x) <= String.length x)%nat.
Proof.
  induction x as [|c x IH]; simpl; [lia|].
  destruct (Ascii.eqb c zero); simpl; lia.
Qed.

(** Claim C9, for lines of at most four tokens, each of at most 99 bytes
    without its double quotes: reading the line writes inside the argument
    buffers only, the tokens are stored and given to [process_arguments];
    and an identifier whose bytes are below 128 hashes to an index from 0
    to 9999. *)
Theorem tokens_within_buffers (tokens : list string) (rest : string)
  (arguments : list (option string)) (s : State) (out : string) :
  tokens <> [] -> (List.length tokens <= 4)%nat ->
  forallb token_fits tokens = true ->
  process_input (line tokens ++ rest) arguments 0 EmptyString s out
  = dispatch (store arguments 0 tokens) rest s out /\
  process_input (line tokens) arguments 0 EmptyString s out <> Overrun /\
  (forall t, In t tokens -> plain t = true ->
             0 <= hash_string (c_string (unquote t)) < HASH_DIMENSION).
Proof.
  intros Hne Hlen Hfit. splits.
  - apply read_line; auto.
  - rewrite <- (append_nil_r (line tokens)).
    rewrite read_line by auto. unfold dispatch.
    destruct (process_arguments _ _ _ _ s) as [[[code s'] written]|];
      [|discriminate].
    destruct (code =? -1); simpl; discriminate.
  - intros t Hin Hp. apply hash_string_plain.
    + now apply plain_c_string, plain_unquote.
    + rewrite forallb_forall in Hfit.
      destruct (token_fits_spec _ (Hfit t Hin)) as [_ Hl].
      pose proof (c_string_length (unquote t)). lia.
Qed.

Lemma tokens_within_buffers_witness :
  ["addent"%string; quoted "alice"%string] <> [] /\
  (List.length ["addent"%string; quoted "alice"%string] <= 4)%nat /\
  forallb token_fits ["addent"%string; quoted "alice"%string] = true /\
  process_input (line ["addent"%string; quoted "alice"%string])
    [None; None; None; None] 0 EmptyString init_state EmptyString
  <> Overrun.
Proof.
  assert (H1 : ["addent"%string; quoted "alice"%string] <> []) by discriminate.
  assert (H2 : (List.length ["addent"%string; quoted "alice"%string] <= 4)%nat)
    by (simpl; lia).
  assert (H3 : forallb token_fits ["addent"%string; quoted "alice"%string] = true)
    by reflexivity.
  exact (conj H1 (conj H2 (conj H3
           (proj1 (proj2 (tokens_within_buffers _ EmptyString
                            [None; None; None; None] init_state EmptyString
                            H1 H2 H3)))))).
Defined.

(** Claim C9 as it stands fails: the final zero of an identifier of a
    hundred bytes, the fourth token of its line, is written after the end of
    the argument buffers. *)
Lemma long_identifier_overruns :
  process_input (line ["addrel"%string; quoted "a"%string; quoted "b"%string; quoted long_name])
    [None; None; None; None] 0 EmptyString init_state EmptyString
  = Overrun.
Proof. vm_compute. reflexivity. Qed.

(** With a signed [char], a byte above 127 after the first one can make the
    hash negative. *)
Lemma high_byte_hash :
  hash_string (String "a"%char (String (ascii_of_N 233) EmptyString)) = -23.
Proof. vm_compute. reflexivity. Qed.

(** * Further properties of the code *)

(** ** The red-black trees *)

Lemma sample_tree_wf : tree_wf sample_tree.
Proof.
  unfold tree_wf, sample_tree, members. simpl. splits; auto; try discriminate.
  repeat constructor.
Qed.

(** Property X1: [rb_insert] of an id that a red-black search tree does not
    hold returns a red-black search tree with that id added and nothing
    else changed; its [size] counts the nodes modulo 65536. *)
Theorem insertion_keeps_red_black (t : Tree) (to : string) :
  tree_wf t -> ~ In to (members t) ->
  exists t',
    rb_insert t to = Ok t' /\ tree_wf t' /\
    (forall x, In x (members t') <-> x = to \/ In x (members t)) /\
    List.length (members t') = S (List.length (members t)).
Proof. apply rb_insert_wf. Qed.

Lemma insertion_keeps_red_black_witness :
  tree_wf sample_tree /\ ~ In "carol"%string (members sample_tree) /\
  exists t', rb_insert sample_tree "carol" = Ok t' /\ tree_wf t'.
Proof.
  assert (H1 : tree_wf sample_tree) by exact sample_tree_wf.
  assert (H2 : ~ In "carol"%string (members sample_tree)).
  { simpl. intros [F|[F|[F|[]]]]; discriminate F. }
  refine (conj H1 (conj H2 _)).
  destruct (insertion_keeps_red_black sample_tree "carol" H1 H2)
    as (t' & E & W & _).
  exists t'. split; assumption.
Defined.

(** Property X2: [rb_delete] of the node that [tree_search] finds for an id
    of a red-black search tree returns a red-black search tree without that
    id and with all the others. *)
Theorem deletion_keeps_red_black (t : Tree) (to : string) :
  tree_wf t -> In to (members t) ->
  exists t',
    rb_delete t (tree_search (root t) to) = Ok t' /\ tree_wf t' /\
    (forall x, In x (members t') <-> In x (members t) /\ x <> to) /\
    List.length (members t) = S (List.length (members t')).
Proof. apply rb_delete_wf. Qed.

Lemma deletion_keeps_red_black_witness :
  tree_wf sample_tree /\ In "bob"%string (members sample_tree) /\
  exists t', rb_delete sample_tree (tree_search (root sample_tree) "bob")
             = Ok t' /\ tree_wf t'.
Proof.
  assert (H1 : tree_wf sample_tree) by exact sample_tree_wf.
  assert (H2 : In "bob"%string (members sample_tree)) by (simpl; auto).
  refine (conj H1 (conj H2 _)).
  destruct (deletion_keeps_red_black sample_tree "bob" H1 H2)
    as (t' & E & W & _).
  exists t'. split; assumption.
Defined.

(** Property X3: in a search tree, [tree_search] ends on [NIL] exactly for
    the ids that the tree does not hold; otherwise it ends on a node with
    the id, and the node with its ancestors is the tree itself. *)
Theorem search_finds_the_members (t : Tree) (to : string) :
  sorted (members t) ->
  (is_NIL (fst (tree_search (root t) to)) = true <-> ~ In to (members t)) /\
  (is_NIL (fst (tree_search (root t) to)) = false ->
   key_of (fst (tree_search (root t) to)) = Some to) /\
  zip (fst (tree_search (root t) to)) (snd (tree_search (root t) to)) = root t.
Proof.
  intros Hs. unfold tree_search, members in *.
  pose proof (tree_search_from_found to (root t) [] Hs) as H.
  pose proof (tree_search_from_zip to (root t) []) as Hz.
  destruct (is_NIL (fst (tree_search_from (root t) [] to))) eqn:E.
  - splits; auto; [tauto|discriminate].
  - destruct H as (Hin & c & l & r & Hn). splits; auto.
    + split; [discriminate|contradiction].
    + intros _. now rewrite Hn.
Qed.

Lemma search_finds_the_members_witness :
  sorted (members sample_tree) /\
  key_of (fst (tree_search (root sample_tree) "dave")) = Some "dave"%string.
Proof.
  assert (H1 : sorted (members sample_tree)) by apply sample_tree_wf.
  refine (conj H1 _).
  exact (proj1 (proj2 (search_finds_the_members sample_tree "dave" H1)) eq_refl).
Defined.

(** Property X4: after [rb_insert] of a new id, [tree_search] finds it, and
    finds the other ids exactly when it found them before; after [rb_delete]
    of an id, [tree_search] does not find it any more. *)
Theorem search_after_update (t : Tree) (to : string) :
  tree_wf t ->
  (~ In to (members t) ->
   exists t', rb_insert t to = Ok t' /\
     is_NIL (fst (tree_search (root t') to)) = false /\
     forall x, x <> to ->
       is_NIL (fst (tree_search (root t') x))
       = is_NIL (fst (tree_search (root t) x))) /\
  (In to (members t) ->
   exists t', rb_delete t (tree_search (root t) to) = Ok t' /\
     is_NIL (fst (tree_search (root t') to)) = true /\
     forall x, x <> to ->
       is_NIL (fst (tree_search (root t') x))
       = is_NIL (fst (tree_search (root t) x))).
Proof.
  intros Hw.
  assert (Hsame : forall t1 t2 x, tree_wf t1 -> tree_wf t2 ->
            (In x (members t1) <-> In x (members t2)) ->
            is_NIL (fst (tree_search (root t1) x))
            = is_NIL (fst (tree_search (root t2) x))).
  { intros t1 t2 x W1 W2 Hiff.
    pose proof (tree_search_wf t1 x W1) as S1.
    pose proof (tree_search_wf t2 x W2) as S2.
    destruct (is_NIL (fst (tree_search (root t1) x))),
             (is_NIL (fst (tree_search (root t2) x))); auto.
    - exfalso. assert (~ In x (members t1)) by now apply S1.
      assert (~ ~ In x (members t2)) by (intros F; apply S2 in F; discriminate).
      tauto.
    - exfalso. assert (~ In x (members t2)) by now apply S2.
      assert (~ ~ In x (members t1)) by (intros F; apply S1 in F; discriminate).
      tauto. }
  split.
  - intros Hn. destruct (rb_insert_wf t to Hw Hn) as (t' & E & W & M & _).
    exists t'. splits; auto.
    + destruct (is_NIL (fst (tree_search (root t') to))) eqn:En; [|reflexivity].
      apply (tree_search_wf _ _ W) in En. exfalso. apply En, M. now left.
    + intros x Hx. apply Hsame; auto. rewrite M. intuition.
  - intros Hin. destruct (rb_delete_wf t to Hw Hin) as (t' & E & W & M & _).
    exists t'. splits; auto.
    + apply (tree_search_wf _ _ W). intros F. apply M in F. now destruct F.
    + intros x Hx. apply Hsame; auto. rewrite M. intuition.
Qed.

Lemma search_after_update_witness :
  tree_wf sample_tree /\ ~ In "carol"%string (members sample_tree) /\
  exists t', rb_insert sample_tree "carol" = Ok t' /\
             is_NIL (fst (tree_search (root t') "carol")) = false.
Proof.
  assert (H1 : tree_wf sample_tree) by exact sample_tree_wf.
  assert (H2 : ~ In "carol"%string (members sample_tree)).
  { simpl. intros [F|[F|[F|[]]]]; discriminate F. }
  refine (conj H1 (conj H2 _)).
  destruct (proj1 (search_after_update sample_tree "carol" H1) H2)
    as (t' & E & S & _).
  exists t'. split; assumption.
Defined.

Lemma tree_max_spec : forall x p,
  is_NIL x = false ->
  exists yk yc yl q,
    tree_max x p = Ok (Node yk yc yl NIL, q ++ p) /\
    zip (Node yk yc yl NIL) q = x /\ after q = [].
Proof.
  induction x as [|k c l IHl r IHr]; intros p Hx; [discriminate|].
  cbn [tree_max]. destruct r as [|rk rc rl rr].
  - exists k, c, l, []. auto.
  - destruct (IHr (Right_of k c l :: p) eq_refl) as (yk & yc & yl & q & E1 & E2 & E3).
    exists yk, yc, yl, (q ++ [Right_of k c l]). rewrite <- app_assoc. simpl.
    split; [exact E1|]. split.
    + rewrite zip_app, E2. reflexivity.
    + rewrite after_app. simpl. now rewrite E3.
Qed.

(** Property X5: [tree_min] of a sub-tree that is not [NIL] returns its node
    with the first id of the in-order traversal, a node without left child,
    together with its ancestors; [tree_max] returns the node with the last
    id, a node without right child. On [NIL] both follow a null pointer. *)
Theorem extremes_of_a_tree (x : node) (p : path) :
  match x with
  | NIL => tree_min x p = Crash Null_pointer /\ tree_max x p = Crash Null_pointer
  | Node _ _ _ _ =>
      (exists y q, tree_min x p = Ok (y, q ++ p) /\ zip y q = x /\
                   key_of y = hd_error (elements x) /\
                   match y with Node _ _ NIL _ => True | _ => False end) /\
      (exists y q, tree_max x p = Ok (y, q ++ p) /\ zip y q = x /\
                   key_of y = hd_error (rev (elements x)) /\
                   match y with Node _ _ _ NIL => True | _ => False end)
  end.
Proof.
  destruct x as [|k c l r]; [split; reflexivity|]. split.
  - destruct (tree_min_spec (Node k c l r) p eq_refl)
      as (yk & yc & yr & q & E1 & E2 & E3).
    exists (Node yk yc NIL yr), q. splits; auto.
    rewrite <- E2, elements_zip, E3. reflexivity.
  - destruct (tree_max_spec (Node k c l r) p eq_refl)
      as (yk & yc & yl & q & E1 & E2 & E3).
    exists (Node yk yc yl NIL), q. splits; auto.
    rewrite <- E2, elements_zip, E3. simpl.
    rewrite app_nil_r, !rev_app_distr. reflexivity.
Qed.

Lemma successor_climb_spec : forall p x,
  key_of (fst (successor_climb x p)) = hd_error (after p) /\
  (is_NIL (fst (successor_climb x p)) = false ->
   zip (fst (successor_climb x p)) (snd (successor_climb x p)) = zip x p).
Proof.
  induction p as [|[k c r|k c l] p IH]; intros x; simpl.
  - split; [reflexivity|discriminate].
  - split; reflexivity.
  - apply IH.
Qed.

(** Property X6: [tree_successor] of a node returns the node whose id comes
    next in the in-order traversal of the whole tree, found in the right
    sub-tree or among the ancestors, and [NIL] when the node holds the last
    id. *)
Theorem successor_is_next (k : string) (c : Color) (l r : node) (p : path) :
  exists y,
    tree_successor (Node k c l r, p) = Ok y /\
    elements (zip (Node k c l r) p)
    = (before p ++ elements l ++ k :: elements r ++ after p)%list /\
    key_of (fst y) = hd_error (elements r ++ after p) /\
    (is_NIL (fst y) = false ->
     zip (fst y) (snd y) = zip (Node k c l r) p).
Proof.
  unfold tree_successor. cbn [fst snd].
  assert (El : elements (zip (Node k c l r) p)
               = (before p ++ elements l ++ k :: elements r ++ after p)%list).
  { rewrite elements_zip. simpl. now rewrite <- app_assoc. }
  destruct r as [|rk rc rl rr].
  - eexists. split; [reflexivity|]. split; [exact El|].
    apply (successor_climb_spec p (Node k c l NIL)).
  - destruct (tree_min_spec (Node rk rc rl rr) (Right_of k c l :: p) eq_refl)
      as (yk & yc & yr & q & E1 & E2 & E3).
    rewrite E1. eexists. split; [reflexivity|]. split; [exact El|].
    cbn [fst snd key_of]. split.
    + rewrite <- E2, elements_zip, E3. reflexivity.
    + intros _. rewrite zip_app, E2. reflexivity.
Qed.

Lemma rb_black_height (x : node) :
  rb x -> (2 ^ bh x <= S (List.length (elements x)))%nat.
Proof.
  induction x as [|k c l IHl r IHr]; simpl; [lia|].
  intros (Hl & Hr & Hb & _). specialize (IHl Hl). specialize (IHr Hr).
  rewrite length_app. simpl. rewrite <- Hb in IHr.
  destruct c; simpl; lia.
Qed.

Lemma rb_height (x : node) :
  rb x ->
  (height x <= 2 * bh x + match color_of x with RED => 1 | BLACK => 0 end)%nat.
Proof.
  induction x as [|k c l IHl r IHr]; simpl; [lia|].
  intros (Hl & Hr & Hb & Hc). specialize (IHl Hl). specialize (IHr Hr).
  rewrite <- Hb in IHr. destruct c; simpl.
  - destruct (Hc eq_refl) as [Cl Cr]. rewrite Cl in IHl. rewrite Cr in IHr. lia.
  - destruct (color_of l), (color_of r); lia.
Qed.

(** Property X7: a red-black tree with a black root and [n] nodes is at
    most [2 * log2 (n + 1)] nodes high, so that [tree_search], [rb_insert]
    and [rb_delete] go through logarithmically many nodes. *)
Theorem height_is_logarithmic (t : Tree) :
  tree_wf t ->
  (height (root t) <= 2 * Nat.log2 (S (List.length (members t))))%nat.
Proof.
  intros (Hrb & Hc & _). unfold members.
  pose proof (rb_height _ Hrb) as H1. rewrite Hc in H1.
  pose proof (rb_black_height _ Hrb) as H2.
  apply Nat.log2_le_mono in H2. rewrite Nat.log2_pow2 in H2 by lia. lia.
Qed.

Lemma height_is_logarithmic_witness :
  tree_wf sample_tree /\ (height (root sample_tree) <= 4)%nat.
Proof.
  assert (H1 : tree_wf sample_tree) by exact sample_tree_wf.
  refine (conj H1 _). exact (height_is_logarithmic sample_tree H1).
Defined.

(** Property X8: [print_relation_tree] writes the ids of the tree in the
    order of the in-order traversal, each between double quotes and followed
    by a space, and nothing for [NIL]. *)
Theorem tree_is_printed_in_order (x : node) :
  print_relation_tree x
  = String.concat "" (map (fun k => quoted k ++ " ")%string (elements x)).
Proof.
  rewrite print_relation_tree_elements. f_equal. apply map_ext.
  intros k. apply print_string_quoted.
Qed.

(** ** The lists of relation types *)

(** Property X9: [list_insert] of a key that a list in ascending order does
    not hold keeps the list in ascending order; [list_search] then finds the
    new node, with an empty tree and the maximum 0, and finds for the other
    keys what it found before. *)
Theorem list_insert_then_search (l : List) (k : string) :
  sorted (map key l) -> list_search l k = None ->
  sorted (map key (list_insert l k)) /\
  list_search (list_insert l k) k = Some (new_list_t k) /\
  (forall k', k' <> k ->
              list_search (list_insert l k) k' = list_search l k') /\
  List.length (list_insert l k) = S (List.length l).
Proof.
  intros Hs Hn. splits.
  - now apply list_insert_sorted.
  - apply list_insert_same.
  - intros k' Hk. now apply list_insert_other.
  - clear. induction l as [|c l IH]; simpl; [reflexivity|].
    destruct (strcmp (key c) k <? 0); simpl; auto.
Qed.

Lemma list_insert_then_search_witness :
  sorted (map key [new_list_t "friend"]) /\
  list_search [new_list_t "friend"] "enemy" = None /\
  sorted (map key (list_insert [new_list_t "friend"] "enemy")).
Proof.
  assert (H1 : sorted (map key [new_list_t "friend"])) by (repeat constructor).
  assert (H2 : list_search [new_list_t "friend"] "enemy" = None) by reflexivity.
  refine (conj H1 (conj H2 _)).
  exact (proj1 (list_insert_then_search [new_list_t "friend"] "enemy" H1 H2)).
Defined.

Lemma list_delete_missing (l : List) (k : string) :
  list_search l k = None -> list_delete l k = Crash Null_pointer.
Proof.
  induction l as [|c l IH]; simpl; [reflexivity|].
  destruct (strcmp (key c) k =? 0); [discriminate|].
  intros H. now rewrite (IH H).
Qed.

(** Property X10: [list_delete] of a key of a list with distinct keys in
    ascending order removes the node with that key and no other, so that
    [list_search] does not find the key any more and finds the other keys
    as before. For a key that the list does not hold, or an empty list,
    [list_delete] runs into the end of the list and follows a null
    pointer. *)
Theorem list_delete_then_search (l : List) (k : string) :
  sorted (map key l) ->
  match list_search l k with
  | Some n =>
      exists l1 l2,
        l = (l1 ++ n :: l2)%list /\ list_delete l k = Ok (l1 ++ l2)%list /\
        sorted (map key (l1 ++ l2)) /\
        list_search (l1 ++ l2) k = None /\
        (forall k', k' <> k -> list_search (l1 ++ l2) k' = list_search l k')
  | None => list_delete l k = Crash Null_pointer
  end.
Proof.
  intros Hs. destruct (list_search l k) as [n|] eqn:E;
    [|now apply list_delete_missing].
  destruct (list_delete_spec l k n E) as (l1 & l2 & El & Ed & _).
  destruct (types_delete l k n Hs E) as (l' & Ed' & _ & S' & N' & O').
  rewrite Ed in Ed'. injection Ed' as <-.
  exists l1, l2. splits; auto.
Qed.

Lemma list_delete_then_search_witness :
  sorted (map key [new_list_t "enemy"; new_list_t "friend"]) /\
  list_delete [new_list_t "enemy"; new_list_t "friend"] "neighbor"
  = Crash Null_pointer.
Proof.
  assert (H1 : sorted (map key [new_list_t "enemy"; new_list_t "friend"]))
    by (repeat constructor).
  refine (conj H1 _).
  exact (list_delete_then_search _ "neighbor" H1).
Defined.

(** ** The hash table *)

(** Property X11: whatever the string, [hash_string] returns more than
    -10000 and less than 10000; the sign is that of the sum, which a byte
    above 127 or a wrap around can make negative. *)
Theorem hash_string_bounds (x : string) :
  - HASH_DIMENSION < hash_string x < HASH_DIMENSION.
Proof. apply hash_string_range. Qed.

Lemma hash_search_other (ht ht' : HashTable) (l1 l2 : list entity_t)
  (e : entity_t) (y : string) :
  table_ok ht -> table_ok ht' ->
  NoDup (map id (l1 ++ e :: l2)) ->
  (List.concat ht = l1 ++ l2 /\ List.concat ht' = l1 ++ e :: l2 \/
   List.concat ht' = l1 ++ l2 /\ List.concat ht = l1 ++ e :: l2) ->
  y <> id e -> hash_search ht' y = hash_search ht y.
Proof.
  intros Hok Hok' Hnd Hc Hy.
  destruct (Z_lt_le_dec (hash_string y) 0) as [Hneg|Hpos].
  - now rewrite !hash_search_crash.
  - rewrite !hash_search_ok by assumption. f_equal.
    pose proof (lookup_remove l1 l2 e y Hnd) as Hr.
    destruct (String.eqb_spec y (id e)); [contradiction|].
    destruct Hc as [[-> ->]|[-> ->]]; congruence.
Qed.

(** Property X12: [hash_insert] of an id that [hash_search] does not find
    puts an entity with that id and no relation in the table; [hash_search]
    then finds it, the other ids are found or not as before, the ids stay
    distinct and every entity stays in the chain of its hash. *)
Theorem hash_insert_then_search (ht : HashTable) (x : string) :
  table_ok ht -> hash_search ht x = Ok None ->
  exists ht',
    hash_insert ht x = Ok ht' /\ table_ok ht' /\
    hash_search ht' x = Ok (Some {| id := x; rel_list := init_list |}) /\
    (forall y, y <> x -> hash_search ht' y = hash_search ht y).
Proof.
  intros Hok Hs. destruct (hash_search_inv _ _ _ Hok Hs) as [Hx Hn].
  symmetry in Hn.
  destruct (hash_insert_spec ht x Hok Hx Hn) as (ht' & l1 & l2 & E & E1 & E2 & Hok').
  assert (Hnd : NoDup (map id (l1 ++ {| id := x; rel_list := init_list |} :: l2))).
  { rewrite <- E2. apply Hok'. }
  exists ht'. splits; auto.
  - rewrite hash_search_ok by assumption. f_equal. rewrite E2.
    apply (chain_search_unique _ {| id := x; rel_list := init_list |} Hnd).
    apply in_or_app. right. now left.
  - intros y Hy.
    apply (hash_search_other ht ht' l1 l2 {| id := x; rel_list := init_list |});
      auto.
Qed.

Lemma hash_insert_then_search_witness :
  table_ok init_table /\ hash_search init_table "alice" = Ok None /\
  exists ht', hash_insert init_table "alice" = Ok ht' /\
              hash_search ht' "alice"
              = Ok (Some {| id := "alice"; rel_list := init_list |}).
Proof.
  assert (H1 : table_ok init_table) by exact table_ok_init.
  assert (H2 : hash_search init_table "alice" = Ok None)
    by (vm_compute; reflexivity).
  refine (conj H1 (conj H2 _)).
  destruct (hash_insert_then_search init_table "alice" H1 H2)
    as (ht' & E & _ & S & _).
  exists ht'. split; assumption.
Defined.

Lemma chain_delete_missing (l : list entity_t) (x : string) :
  chain_search l x = None -> chain_delete l x = l.
Proof.
  induction l as [|e l IH]; simpl; [reflexivity|].
  destruct (strcmp (id e) x =? 0); [discriminate|].
  intros H. now rewrite (IH H).
Qed.

(** Property X13: [hash_delete] of an id that [hash_search] finds removes
    that entity and no other: [hash_search] does not find the id any more
    and finds or misses the other ids as before. For an id that
    [hash_search] does not find, [hash_delete] leaves the table as it
    is. *)
Theorem hash_delete_then_search (ht : HashTable) (x : string) :
  table_ok ht ->
  (forall e, hash_search ht x = Ok (Some e) ->
     exists ht',
       hash_delete ht x = Ok ht' /\ table_ok ht' /\
       hash_search ht' x = Ok None /\
       (forall y, y <> x -> hash_search ht' y = hash_search ht y)) /\
  (hash_search ht x = Ok None -> hash_delete ht x = Ok ht).
Proof.
  intros Hok. split.
  - intros e Hs. destruct (hash_search_inv _ _ _ Hok Hs) as [Hx Hn].
    symmetry in Hn.
    destruct (hash_delete_spec ht x e Hok Hn) as (ht' & l1 & l2 & E & E1 & E2 & Hok').
    destruct (chain_search_In _ _ _ Hn) as [Hid _].
    assert (Hnd : NoDup (map id (l1 ++ e :: l2))).
    { rewrite <- E1. apply Hok. }
    exists ht'. splits; auto.
    + rewrite hash_search_ok by assumption. f_equal. rewrite E2.
      rewrite (lookup_remove l1 l2 e x Hnd), Hid.
      now rewrite String.eqb_refl.
    + intros y Hy. symmetry.
      apply (hash_search_other ht' ht l1 l2 e); auto. congruence.
  - intros Hs. destruct (hash_search_inv _ _ _ Hok Hs) as [Hx Hn].
    unfold hash_delete.
    destruct (table_get_ok ht x Hok Hx) as (head & -> & Hnth). cbn [bind].
    assert (Hh : chain_search head x = None).
    { apply chain_search_None. intros F.
      symmetry in Hn. apply chain_search_None in Hn. apply Hn.
      rewrite in_map_iff in *. destruct F as (e & He & Hin).
      exists e. split; [assumption|]. apply in_concat. exists head.
      split; [|assumption]. eapply nth_error_In; eauto. }
    rewrite (chain_delete_missing _ _ Hh). f_equal.
    now apply table_set_same.
Qed.

Lemma hash_delete_then_search_witness :
  table_ok init_table /\ hash_search init_table "alice" = Ok None /\
  hash_delete init_table "alice" = Ok init_table.
Proof.
  assert (H1 : table_ok init_table) by exact table_ok_init.
  assert (H2 : hash_search init_table "alice" = Ok None)
    by (vm_compute; reflexivity).
  refine (conj H1 (conj H2 _)).
  exact (proj2 (hash_delete_then_search init_table "alice" H1) H2).
Defined.

(** ** The commands *)

(** Property X14: in every state that the commands reach, whatever the
    number of entities, the ids of the table are distinct and every entity
    is in the chain of its hash, the list of relation types is in ascending
    order of its keys, and every tree, of an entity or of a relation type,
    is a red-black search tree whose [size] is its number of nodes modulo
    65536. *)
Theorem reachable_states_are_well_formed (s : State) :
  reachable s ->
  table_ok (ENTITIES s) /\
  sorted (map key (RELATION_TYPES s)) /\
  (forall d, In d (RELATION_TYPES s) ->
             tree_wf (tree d) /\ 0 <= current_maximum d < USHRT) /\
  (forall e t r, In e (entities s) -> list_search (rel_list e) t = Some r ->
                 tree_wf (tree r)).
Proof.
  intros H. destruct (reachable_wf s H) as (Ht & He & Hs & Hd).
  rewrite Forall_forall in He, Hd. splits; auto.
  - intros d Hin. destruct (Hd d Hin) as (_ & [Hw _] & Hm). auto.
  - intros e t r Hin Hr. destruct (He e Hin) as [_ Hn].
    apply (Hn t r Hr).
Qed.

Lemma reachable_states_are_well_formed_witness :
  reachable (state_after friends) /\
  sorted (map key (RELATION_TYPES (state_after friends))).
Proof.
  assert (H1 : reachable (state_after friends)).
  { apply in_capacity_reachable, state_after_reachable. small_run. }
  refine (conj H1 _).
  exact (proj1 (proj2 (reachable_states_are_well_formed _ H1))).
Defined.

(** Property X15: with fewer than 65536 entities, no command follows a null
    pointer or leaves the table: a command whose ids have a hash that is not
    negative returns a state. *)
Theorem commands_return (s : State) (c : command) :
  reachable_in_capacity s -> capacity s -> hashes_ok c ->
  exists s', exec c s = Ok s' /\ reachable_in_capacity s'.
Proof.
  intros Hr Hcap Hh.
  destruct (exec_total c s (reachable_inv s Hr) Hcap Hh) as [s' E].
  exists s'. split; [exact E|]. econstructor; eauto.
Qed.

Lemma commands_return_witness :
  reachable_in_capacity (state_after friends) /\
  capacity (state_after friends) /\ hashes_ok (Delent "bob") /\
  exists s', exec (Delent "bob") (state_after friends) = Ok s'.
Proof.
  assert (H1 : reachable_in_capacity (state_after friends)).
  { apply state_after_reachable. small_run. }
  assert (H2 : capacity (state_after friends)) by small_run.
  assert (H3 : hashes_ok (Delent "bob")) by (vm_compute; discriminate).
  refine (conj H1 (conj H2 (conj H3 _))).
  destruct (commands_return _ (Delent "bob") H1 H2 H3) as (s' & E & _).
  exists s'. exact E.
Defined.

(** Property X16: within capacity a relation never names an entity that
    is not live: its source and its target are in the table, and so are the
    leaders of every relation type. *)
Theorem relations_among_live_entities (s : State) :
  reachable_in_capacity s ->
  (forall from to type, related s from to type -> live s from /\ live s to) /\
  (forall type d x, descriptor s type = Some d -> In x (leaders d) -> live s x).
Proof.
  intros Hr. pose proof (reachable_inv s Hr) as Hinv. split.
  - intros from to type. now apply related_live.
  - intros type d x Hd Hx.
    destruct (descriptor_view s type d Hinv Hd) as (_ & _ & _ & _ & _ & Hl).
    now apply Hl.
Qed.

Lemma relations_among_live_entities_witness :
  reachable_in_capacity (state_after friends) /\
  related (state_after friends) "alice" "bob" "friend" /\
  live (state_after friends) "alice" /\ live (state_after friends) "bob".
Proof.
  assert (H1 : reachable_in_capacity (state_after friends)).
  { apply state_after_reachable. small_run. }
  assert (H2 : related (state_after friends) "alice" "bob" "friend")
    by (vm_compute; tauto).
  refine (conj H1 (conj H2 _)).
  exact (proj1 (relations_among_live_entities _ H1) _ _ _ H2).
Defined.



(** Property X18: within capacity the report is a function of the live
    entities and of the relations: two states with the same entities and the
    same relations, however they were reached, give the same report. *)
Theorem report_of_the_relations (s1 s2 : State) :
  reachable_in_capacity s1 -> reachable_in_capacity s2 ->
  same_relations s1 s2 -> report s1 = report s2.
Proof.
  intros H1 H2. apply same_report; now apply reachable_inv.
Qed.

Lemma report_of_the_relations_witness :
  reachable_in_capacity (state_after single) /\
  reachable_in_capacity
    (state_after (single ++ [Addrel "bob" "alice" "friend";
                             Delrel "bob" "alice" "friend"])) /\
  same_relations (state_after single)
    (state_after (single ++ [Addrel "bob" "alice" "friend";
                             Delrel "bob" "alice" "friend"])) /\
  report (state_after single)
  = report (state_after (single ++ [Addrel "bob" "alice" "friend";
                                    Delrel "bob" "alice" "friend"])).
Proof.
  assert (H1 : reachable_in_capacity (state_after single)).
  { apply state_after_reachable. small_run. }
  assert (H2 : reachable_in_capacity
                 (state_after (single ++ [Addrel "bob" "alice" "friend";
                                          Delrel "bob" "alice" "friend"]))).
  { apply state_after_reachable. small_run. }
  assert (H3 : same_relations (state_after single)
                 (state_after (single ++ [Addrel "bob" "alice" "friend";
                                          Delrel "bob" "alice" "friend"]))).
  { apply (add_then_delete (state_after single)
             (state_after (single ++ [Addrel "bob" "alice" "friend"]))
             _ "bob" "alice" "friend").
    - now apply reachable_inv.
    - small_run.
    - vm_compute. tauto.
    - small_run.
    - small_run. }
  exact (conj H1 (conj H2 (conj H3 (report_of_the_relations _ _ H1 H2 H3)))).
Defined.

(** Property X19: within capacity [report] writes [none] exactly when there
    is no relation at all. *)
Theorem report_none (s : State) :
  reachable_in_capacity s ->
  report s = line ["none"%string] <-> forall f z t, ~ related s f z t.
Proof.
  intros Hr. pose proof (reachable_inv s Hr) as Hinv. unfold report.
  destruct (RELATION_TYPES s) as [|d l] eqn:E.
  - split; [|reflexivity]. intros _ f z t Hrel.
    assert (Hd : descriptor s t <> None).
    { apply (descriptor_iff_related s t Hinv). eauto. }
    apply Hd. unfold descriptor. now rewrite E.
  - split.
    + intros H. cbn [report_types] in H. unfold print_string in H.
      discriminate H.
    + intros Hno. exfalso.
      assert (Hd : descriptor s (key d) <> None).
      { unfold descriptor. rewrite E. simpl. now rewrite strcmp_refl. }
      apply (descriptor_iff_related s (key d) Hinv) in Hd.
      destruct Hd as (f & z & Hrel). exact (Hno _ _ _ Hrel).
Qed.

Lemma report_none_witness :
  reachable_in_capacity (state_after [Addent "alice"]) /\
  (report (state_after [Addent "alice"]) = line ["none"%string] <->
   forall f z t, ~ related (state_after [Addent "alice"]) f z t).
Proof.
  assert (H1 : reachable_in_capacity (state_after [Addent "alice"])).
  { apply state_after_reachable. small_run. }
  exact (conj H1 (report_none _ H1)).
Defined.





(** Property X22: within capacity, [restore_data_maximum] on the node of a
    relation type computes from all the entities the maximum and the leaders
    that the commands had kept up to date: the entities are untouched, and
    the names, the leaders and the maxima of all the types, hence the
    report, are the same. *)
Theorem recomputation_agrees (s : State) (type : string) (d : list_t) :
  reachable_in_capacity s -> capacity s -> descriptor s type = Some d ->
  exists s',
    restore_data_maximum d type s = Ok s' /\
    ENTITIES s' = ENTITIES s /\
    descriptors_view s' = descriptors_view s /\
    report s' = report s.
Proof.
  intros Hr Hcap Hd. pose proof (reachable_inv s Hr) as Hinv.
  destruct (list_search_In _ _ _ Hd) as [Hk _].
  destruct (descriptor_view s type d Hinv Hd) as (_ & Td & _).
  destruct (restore_data_maximum_spec d d type s (inv_inv_but type s Hinv)
              Hcap Hd Hk Td) as (s' & E & Hinv' & He & _).
  assert (Hsame : same_relations s' s).
  { unfold same_relations, live, related, in_neighbors, ids, entities.
    rewrite He. split; intros; tauto. }
  exists s'. splits; auto.
  - now apply view_determined.
  - now apply same_report.
Qed.

Lemma recomputation_agrees_witness :
  reachable_in_capacity (state_after friends) /\
  capacity (state_after friends) /\
  exists d, descriptor (state_after friends) "friend" = Some d /\
  exists s', restore_data_maximum d "friend" (state_after friends) = Ok s' /\
             report s' = report (state_after friends).
Proof.
  assert (H1 : reachable_in_capacity (state_after friends)).
  { apply state_after_reachable. small_run. }
  assert (H2 : capacity (state_after friends)) by small_run.
  refine (conj H1 (conj H2 _)).
  destruct (descriptor (state_after friends) "friend") as [d|] eqn:Hd;
    [|vm_compute in Hd; discriminate Hd].
  exists d. split; [reflexivity|].
  destruct (recomputation_agrees _ "friend" d H1 H2 Hd) as (s' & E & _ & _ & R).
  exists s'. split; assumption.
Defined.

(** ** Reading the input *)

Lemma unquote_idempotent (x : string) : unquote (unquote x) = unquote x.
Proof.
  induction x as [|c x IH]; simpl; [reflexivity|].
  destruct (Ascii.eqb c quote) eqn:E; simpl; [assumption|].
  now rewrite E, IH.
Qed.

Lemma separator_free_unquote (x : string) :
  separator_free x = true -> separator_free (unquote x) = true.
Proof.
  induction x as [|c x IH]; simpl; [reflexivity|].
  intros H. apply andb_prop in H. destruct H as [Hc Hx].
  destruct (Ascii.eqb c quote); simpl; auto. now rewrite Hc, IH.
Qed.

Lemma token_fits_unquote (x : string) :
  token_fits x = true -> token_fits (unquote x) = true.
Proof.
  unfold token_fits. intros H. apply andb_prop in H. destruct H as [H1 H2].
  now rewrite separator_free_unquote, unquote_idempotent, H2.
Qed.

Lemma store_unquote (tokens : list string) : forall arguments n,
  store arguments n (map unquote tokens) = store arguments n tokens.
Proof.
  induction tokens as [|t ts IH]; intros arguments n; simpl; [reflexivity|].
  now rewrite unquote_idempotent, IH.
Qed.

(** Property X23: [process_input] drops the double quotes wherever they
    are: a line and the line of the same tokens without their double quotes
    are read alike. *)
Theorem quotes_are_dropped (tokens : list string) (rest : string)
  (arguments : list (option string)) (s : State) (out : string) :
  tokens <> [] -> (List.length tokens <= 4)%nat ->
  forallb token_fits tokens = true ->
  process_input (line tokens ++ rest) arguments 0 EmptyString s out
  = process_input (line (map unquote tokens) ++ rest) arguments 0
      EmptyString s out.
Proof.
  intros Hne Hlen Hfit.
  rewrite (read_line s out rest tokens arguments 0 Hne) by auto.
  rewrite (read_line s out rest (map unquote tokens) arguments 0).
  - now rewrite store_unquote.
  - destruct tokens; [contradiction|discriminate].
  - now rewrite length_map.
  - rewrite forallb_forall in *. intros x Hx. apply in_map_iff in Hx.
    destruct Hx as (t & <- & Ht). apply token_fits_unquote. auto.
Qed.

Lemma quotes_are_dropped_witness :
  ["addent"%string; quoted "alice"] <> [] /\
  (List.length ["addent"%string; quoted "alice"] <= 4)%nat /\
  forallb token_fits ["addent"%string; quoted "alice"] = true /\
  process_input (line ["addent"%string; quoted "alice"])
    [None; None; None; None] 0 EmptyString init_state EmptyString
  = process_input (line ["addent"%string; "alice"%string])
      [None; None; None; None] 0 EmptyString init_state EmptyString.
Proof.
  assert (H1 : ["addent"%string; quoted "alice"] <> []) by discriminate.
  assert (H2 : (List.length ["addent"%string; quoted "alice"] <= 4)%nat)
    by (simpl; lia).
  assert (H3 : forallb token_fits ["addent"%string; quoted "alice"] = true)
    by reflexivity.
  refine (conj H1 (conj H2 (conj H3 _))).
  pose proof (quotes_are_dropped ["addent"%string; quoted "alice"] EmptyString
                [None; None; None; None] init_state EmptyString H1 H2 H3) as H.
  rewrite !append_nil_r in H. exact H.
Defined.

(** Property X24: [process_input] takes the byte 255 for the end of the
    input: whatever comes after it is not read, and the run ends as if the
    input stopped there. *)
Theorem eof_byte_ends_the_input (a b : string) :
  forall arguments arg_count token s out,
    process_input (a ++ String eof_byte b) arguments arg_count token s out
    = process_input a arguments arg_count token s out.
Proof.
  induction a as [|c a IH]; intros arguments arg_count token s out.
  - reflexivity.
  - cbn [append process_input].
    destruct (char_value c =? -1); [reflexivity|].
    destruct (Ascii.eqb c space || Ascii.eqb c newline).
    + destruct (in_buffers arg_count (String.length token)); [|reflexivity].
      destruct (Ascii.eqb c newline); [|apply IH].
      destruct (process_arguments _ _ _ _ s) as [[[code s'] written]|];
        [|reflexivity].
      destruct (code =? -1); [reflexivity|apply IH].
    + destruct (negb (Ascii.eqb c quote)); [|apply IH].
      destruct (in_buffers arg_count (String.length token)); [|reflexivity].
      apply IH.
Qed.

Lemma read_words (s : State) (out rest : string) : forall tokens arguments n,
  (n + List.length tokens <= 4)%nat -> forallb token_fits tokens = true ->
  process_input
    (String.concat "" (map (fun t => t ++ " ")%string tokens) ++ rest)
    arguments n EmptyString s out
  = process_input rest (store arguments n tokens) (n + List.length tokens)
      EmptyString s out.
Proof.
  induction tokens as [|t ts IH]; intros arguments n Hl Hf.
  - simpl. now rewrite Nat.add_0_r.
  - simpl in Hf. apply andb_prop in Hf. destruct Hf as [Ht Hts].
    destruct (token_fits_spec _ Ht) as [H1 H2]. simpl in Hl.
    cbn [map]. rewrite concat_empty_cons, !append_assoc.
    rewrite read_token by (simpl; auto; lia).
    cbn [append process_input].
    change (char_value " " =? -1) with false.
    change (Ascii.eqb " " space || Ascii.eqb " " newline) with true.
    change (Ascii.eqb " " newline) with false. cbn iota.
    unfold in_buffers.
    destruct (Nat.ltb_spec n 4); [|lia].
    destruct (Nat.ltb_spec (String.length (unquote t)) 100); [|lia].
    cbn [andb store]. rewrite IH by (auto; lia).
    f_equal. simpl. lia.
Qed.

Lemma no_fifth_buffer (arguments : list (option string)) (s : State)
  (out rest : string) (c : ascii) :
  c = space \/ c = newline ->
  forall raw token,
    separator_free raw = true ->
    process_input (raw ++ String c rest) arguments 4 token s out = Overrun.
Proof.
  intros Hc. induction raw as [|a raw IH]; intros token Hs.
  - cbn [append process_input].
    destruct Hc as [-> | ->]; reflexivity.
  - simpl in Hs. apply andb_prop in Hs. destruct Hs as [Hs Hr].
    apply andb_prop in Hs. destruct Hs as [Hs He].
    apply andb_prop in Hs. destruct Hs as [Hsp Hnl].
    apply negb_true_iff in Hsp, Hnl, He.
    cbn [append process_input]. rewrite He, Hsp, Hnl. cbn [orb].
    destruct (Ascii.eqb a quote); cbn [negb]; [apply IH; assumption|].
    reflexivity.
Qed.

Lemma concat_words (l1 l2 : list string) :
  l2 <> [] ->
  String.concat " " (l1 ++ l2)
  = (String.concat "" (map (fun t => t ++ " ")%string l1)
     ++ String.concat " " l2)%string.
Proof.
  intros Hne. induction l1 as [|t l1 IH]; [reflexivity|].
  cbn [app map]. rewrite concat_empty_cons, append_assoc, <- IH, append_assoc.
  destruct (l1 ++ l2)%list eqn:E; [|reflexivity].
  apply app_eq_nil in E. destruct E. contradiction.
Qed.

(** Property X25: there are four argument buffers: on a line of more than
    four tokens, [process_input] writes the fifth into [arguments[4]],
    outside the array, also when the fifth token is empty. *)
Theorem fifth_token_overruns (tokens : list string) (rest : string)
  (arguments : list (option string)) (s : State) (out : string) :
  (4 < List.length tokens)%nat -> forallb token_fits tokens = true ->
  process_input (line tokens ++ rest) arguments 0 EmptyString s out = Overrun.
Proof.
  intros Hlen Hfit.
  rewrite <- (firstn_skipn 4 tokens) in Hfit |- *.
  rewrite forallb_app in Hfit. apply andb_prop in Hfit.
  destruct Hfit as [Hfirst Hlast].
  assert (Hl4 : List.length (firstn 4 tokens) = 4%nat)
    by (rewrite length_firstn; lia).
  destruct (skipn 4 tokens) as [|t5 more] eqn:E.
  { apply (f_equal (@List.length string)) in E. rewrite length_skipn in E.
    simpl in E. lia. }
  unfold line. rewrite concat_words by discriminate.
  rewrite !append_assoc, read_words by (auto; lia).
  simpl in Hlast. apply andb_prop in Hlast. destruct Hlast as [H5 _].
  destruct (token_fits_spec _ H5) as [Hs5 _].
  rewrite Hl4. cbn [Nat.add].
  destruct more as [|t6 more].
  - cbn [String.concat]. apply no_fifth_buffer; auto.
  - change (String.concat " " (t5 :: t6 :: more))
      with (t5 ++ " " ++ String.concat " " (t6 :: more))%string.
    rewrite !append_assoc. cbn [append].
    apply no_fifth_buffer; auto.
Qed.

Lemma fifth_token_overruns_witness :
  (4 < List.length ["addrel"%string; "a"%string; "b"%string; "c"%string;
                    "d"%string])%nat /\
  forallb token_fits ["addrel"%string; "a"%string; "b"%string; "c"%string;
                      "d"%string] = true /\
  process_input (line ["addrel"%string; "a"%string; "b"%string; "c"%string;
                       "d"%string])
    [None; None; None; None] 0 EmptyString init_state EmptyString = Overrun.
Proof.
  assert (H1 : (4 < List.length ["addrel"%string; "a"%string; "b"%string;
                                 "c"%string; "d"%string])%nat) by (simpl; lia).
  assert (H2 : forallb token_fits ["addrel"%string; "a"%string; "b"%string;
                                   "c"%string; "d"%string] = true)
    by reflexivity.
  refine (conj H1 (conj H2 _)).
  pose proof (fifth_token_overruns _ EmptyString [None; None; None; None]
                init_state EmptyString H1 H2) as H.
  rewrite append_nil_r in H. exact H.
Defined.

(** ** From the input to the commands *)

Lemma clean_spec (x : string) :
  clean x = true ->
  unquote x = x /\ c_string x = x /\ separator_free x = true.
Proof.
  induction x as [|c x IH]; simpl; [auto|].
  intros H.
  apply andb_prop in H. destruct H as [H Hx].
  apply andb_prop in H. destruct H as [H He].
  apply andb_prop in H. destruct H as [H Hz].
  apply andb_prop in H. destruct H as [H Hq].
  apply andb_prop in H. destruct H as [Hsp Hnl].
  destruct (IH Hx) as (I1 & I2 & I3).
  rewrite Hsp, Hnl, He, I1, I2, I3.
  apply negb_true_iff in Hq, Hz. rewrite Hq, Hz. auto.
Qed.

Lemma unquote_quoted (x : string) : clean x = true -> unquote (quoted x) = x.
Proof.
  intros H. unfold quoted. cbn [append unquote].
  change (Ascii.eqb quote quote) with true. cbn iota.
  destruct (clean_spec x H) as (Hu & _). clear H. revert Hu.
  induction x as [|c x IH]; simpl; [reflexivity|].
  destruct (Ascii.eqb c quote) eqn:E.
  - intros Hu. exfalso. apply (f_equal String.length) in Hu. simpl in Hu.
    assert (forall y, (String.length (unquote y) <= String.length y)%nat) as Hle.
    { clear. induction y as [|a y IHy]; simpl; [lia|].
      destruct (Ascii.eqb a quote); simpl; lia. }
    specialize (Hle x). lia.
  - intros [= Hu]. now rewrite (IH Hu).
Qed.

Lemma separator_free_quoted (x : string) :
  clean x = true -> separator_free (quoted x) = true.
Proof.
  intros H. destruct (clean_spec x H) as (_ & _ & Hs). clear H.
  unfold quoted. cbn [append separator_free].
  change (negb (Ascii.eqb quote space) && negb (Ascii.eqb quote newline)
          && negb (char_value quote =? -1)) with true. cbn [andb].
  induction x as [|c x IH]; simpl in *; [reflexivity|].
  apply andb_prop in Hs. destruct Hs as [Hc Hx]. now rewrite Hc, IH.
Qed.

Lemma token_fits_quoted (x : string) :
  name_fits x = true -> token_fits (quoted x) = true.
Proof.
  unfold name_fits, token_fits. intros H. apply andb_prop in H.
  destruct H as [Hc Hl].
  now rewrite separator_free_quoted, unquote_quoted, Hl.
Qed.

Lemma stored_name (x : string) :
  name_fits x = true -> c_string (unquote (quoted x)) = x.
Proof.
  unfold name_fits. intros H. apply andb_prop in H. destruct H as [Hc _].
  rewrite unquote_quoted by assumption. now apply clean_spec.
Qed.

Lemma render_fits (c : command) :
  forallb name_fits (command_arguments c) = true ->
  render c <> [] /\ (List.length (render c) <= 4)%nat /\
  forallb token_fits (render c) = true.
Proof.
  destruct c; simpl; intros H;
    repeat (apply andb_prop in H; destruct H as [? H]);
    (split; [discriminate|]); (split; [lia|]);
    rewrite ?token_fits_quoted by assumption; reflexivity.
Qed.

(** The line of a command is read as that command. *)
Lemma dispatch_render (c : command) (a0 a1 a2 a3 : option string)
  (rest : string) (s : State) (out : string) :
  forallb name_fits (command_arguments c) = true ->
  dispatch (store [a0; a1; a2; a3] 0 (render c)) rest s out
  = match exec c s with
    | Ok s' =>
        process_input rest (store [a0; a1; a2; a3] 0 (render c)) 0 EmptyString
          s' (out ++ match c with Report => report s | _ => EmptyString end)
    | Crash f => Crashed f
    end.
Proof.
  intros H. unfold dispatch, process_arguments.
  destruct c; simpl in H;
    repeat (apply andb_prop in H; destruct H as [? H]);
    cbn [render store set_argument nth read_argument bind exec];
    rewrite ?stored_name by assumption; rewrite !strcmp_eqb;
    cbn [c_string unquote String.eqb Ascii.eqb Bool.eqb andb];
    cbn [read_argument bind].
  - destruct (addent ident s); reflexivity.
  - destruct (delent ident s); reflexivity.
  - destruct (addrel from to type s); reflexivity.
  - destruct (delrel from to type s); reflexivity.
  - reflexivity.
Qed.

Lemma store_length (tokens : list string) : forall arguments n,
  List.length (store arguments n tokens) = List.length arguments.
Proof.
  induction tokens as [|t ts IH]; intros arguments n; simpl; [reflexivity|].
  now rewrite IH, set_argument_length.
Qed.

Lemma script_lines (cs : list command) : forall arguments s out,
  forallb (fun c => forallb name_fits (command_arguments c)) cs = true ->
  List.length arguments = 4%nat ->
  process_input (script cs) arguments 0 EmptyString s out
  = script_run cs s out.
Proof.
  unfold script, script_run.
  induction cs as [|c cs IH]; intros arguments s out Hfit Hlen.
  - simpl. now rewrite append_nil_r.
  - simpl in Hfit. apply andb_prop in Hfit. destruct Hfit as [Hc Hcs].
    destruct (render_fits c Hc) as (R1 & R2 & R3).
    cbn [map]. rewrite concat_empty_cons.
    rewrite read_line by auto.
    destruct arguments as [|a0 [|a1 [|a2 [|a3 [|]]]]]; try discriminate Hlen.
    rewrite dispatch_render by assumption.
    cbn [run_commands reports]. destruct (exec c s) as [s1|f]; [|reflexivity].
    cbn [bind]. rewrite IH by (auto; now rewrite store_length).
    destruct (run_commands cs s1); [|reflexivity].
    now rewrite append_assoc.
Qed.

(** Property X26: the input that holds, one on each line, commands whose
    ids have at most 99 bytes and no space, newline, double quote, zero or
    byte 255, is read as these commands: [process_input] leaves the state
    of the run of the commands and has written the reports of the run; when
    a command crashes so does the program. [main] then returns 0 with these
    reports as its output. *)
Theorem commands_from_lines (cs : list command) :
  forallb (fun c => forallb name_fits (command_arguments c)) cs = true ->
  (forall arguments s out,
     List.length arguments = 4%nat ->
     process_input (script cs) arguments 0 EmptyString s out
     = match run_commands cs s with
       | Ok s' => Returned s' (out ++ reports cs s)
       | Crash f => Crashed f
       end) /\
  main (script cs)
  = match run_commands cs init_state with
    | Ok _ => Some (0, reports cs init_state)
    | Crash _ => None
    end.
Proof.
  intros Hfit. split.
  - intros arguments s out Hlen. now apply script_lines.
  - unfold main. rewrite script_lines by auto. unfold script_run.
    destruct (run_commands cs init_state); reflexivity.
Qed.

Lemma commands_from_lines_witness :
  forallb (fun c => forallb name_fits (command_arguments c))
    (single ++ [Report]) = true /\
  main (script (single ++ [Report]))
  = Some (0, report (state_after single)).
Proof.
  assert (H1 : forallb (fun c => forallb name_fits (command_arguments c))
                 (single ++ [Report]) = true) by reflexivity.
  refine (conj H1 _).
  rewrite (proj2 (commands_from_lines (single ++ [Report]) H1)).
  vm_compute. reflexivity.
Defined.

(** ** Rotations *)

(** Property X27: [left_rotate] of a node with a right child returns the
    sub-tree rooted at that child, with the same in-order traversal, and
    [right_rotate] of the result gives the node back; [left_rotate] of a node
    without right child, or of [NIL], follows a null pointer. The same holds
    of [right_rotate] and the left child, undone by [left_rotate]. *)
Theorem rotations_undo_each_other (x : node) :
  match x with
  | Node _ _ _ (Node yk _ _ _) =>
      exists y, left_rotate x = Ok y /\ key_of y = Some yk /\
                elements y = elements x /\ right_rotate y = Ok x
  | _ => left_rotate x = Crash Null_pointer
  end /\
  match x with
  | Node _ _ (Node yk _ _ _) _ =>
      exists y, right_rotate x = Ok y /\ key_of y = Some yk /\
                elements y = elements x /\ left_rotate y = Ok x
  | _ => right_rotate x = Crash Null_pointer
  end.
Proof.
  destruct x as [|k c [|lk lc ll lr] [|rk rc rl rr]]; split;
    try reflexivity; eexists; (split; [reflexivity|]); splits;
    try reflexivity; now norm_app.
Qed.
